(** * FH-Simulator: the signal-synthesis engine

    A shallow embedding of the three synthesis modules of the repository
    (the fetal phonocardiogram simulator, the adult phonocardiogram
    simulator and the lung-sound synthesiser) together with the generator
    entry points of the front page, followed by the properties of the
    engine.

    Conventions of the embedding.
    - A JavaScript number is a real number ([R]): arithmetic is exact, so
      rounding, [NaN] and the infinities are not represented, and a
      statement about a value speaks of exact arithmetic on finite
      numbers.  Numbers that the source uses as lengths or indices are
      integers ([Z]).
    - A [number[]] is a [list R].  Reading an index outside the array
      ([undefined] in JavaScript) yields [0] here, and a write outside
      the array (which lengthens it in JavaScript) is dropped; the
      statements below are restricted to inputs for which every read and
      write is inside.
    - [Math.random] is an explicit sequence of draws with a position,
      part of the state that every routine threads; a seeded generator is
      its 32-bit state.  [while] loops take a fuel bound, and running out
      of it is an outcome of its own.
    - [new Array(n)] with a negative [n] raises [RangeError]; this is the
      only exception the engine can raise and it is an outcome as well. *)

From Stdlib Require Import Reals Lra Lia ZArith List Bool Psatz Sorted.
Import ListNotations.
Open Scope R_scope.

(* ================================================================== *)
(** * JavaScript primitives *)
(* ================================================================== *)

Module JS.

(** [Math.floor] and [Math.round] (half-way cases round up). *)
Definition floor (x : R) : Z := Zfloor x.
Definition round (x : R) : Z := Zfloor (x + 1 / 2).

(** [x || d] on numbers: [d] replaces a zero. *)
Definition or_else (x d : R) : R := if Req_dec_T x 0 then d else x.

(** [Math.max(...l, c)] and the sum of an array. *)
Definition max_of (l : list R) (c : R) : R := fold_right Rmax c l.
Definition sum (l : list R) : R := fold_right Rplus 0 l.

(** [Math.pow(b, e)] for a positive base. *)
Definition pow (b e : R) : R := Rpower b e.

(** [a[i]] for an integer index. *)
Definition get (a : list R) (i : Z) : R :=
  if (i <? 0)%Z then 0 else nth (Z.to_nat i) a 0.

(** [new Array(n).fill(0)] for a valid length. *)
Definition zeros (n : Z) : list R := repeat 0 (Z.to_nat n).

(** [Array.from({length: n}, (_, i) => f i)]: the shape of every
    [for (let i = 0; i < n; i++) out[i] = f(i)] loop. *)
Definition tabulate (n : nat) (f : nat -> R) : list R := map f (seq 0 n).

(** Pointwise combination of two arrays of the same length. *)
Fixpoint zipWith (f : R -> R -> R) (a b : list R) : list R :=
  match a, b with
  | x :: a', y :: b' => f x y :: zipWith f a' b'
  | _, _ => []
  end.

(** [a.map((v, i) => f v i)]. *)
Fixpoint mapi_from (k : nat) (f : R -> nat -> R) (a : list R) : list R :=
  match a with
  | [] => []
  | x :: a' => f x k :: mapi_from (S k) f a'
  end.
Definition mapi (f : R -> nat -> R) (a : list R) : list R := mapi_from 0 f a.

(** [a[i] = f(a[i])] for an index inside the array; the model leaves the
    array alone for an index outside it.  Most loops of the source guard
    their writes by the array's length; the envelope and the cross-fade
    of [oneCycleRandom] do not, and write inside the array when the
    sample counts of the cycle are not negative. *)
Fixpoint upd_nat (a : list R) (i : nat) (f : R -> R) : list R :=
  match a, i with
  | [], _ => []
  | x :: a', O => f x :: a'
  | x :: a', S j => x :: upd_nat a' j f
  end.
Definition upd (a : list R) (i : Z) (f : R -> R) : list R :=
  if (i <? 0)%Z then a else upd_nat a (Z.to_nat i) f.

(** [for (j = 0; j < ker.length && start + j < sig.length; j++)
      sig[start + j] += ker[j]]. *)
Fixpoint add_at (sig : list R) (start : Z) (ker : list R) : list R :=
  match ker with
  | [] => sig
  | v :: ker' => add_at (upd sig start (fun x => x + v)) (start + 1) ker'
  end.

(** The same loop with an assignment: [sig[start + j] = ker[j]]. *)
Fixpoint set_at (sig : list R) (start : Z) (ker : list R) : list R :=
  match ker with
  | [] => sig
  | v :: ker' => set_at (upd sig start (fun _ => v)) (start + 1) ker'
  end.

(** The number of iterations of [for (k = 0; k < bound; k++)]. *)
Definition iterations (bound : R) : nat := Z.to_nat (Zceil bound).

(** ** 32-bit integer operators *)

Definition to_int32 (x : Z) : Z := ((x + 2 ^ 31) mod 2 ^ 32 - 2 ^ 31)%Z.  (* x | 0 *)
Definition to_uint32 (x : Z) : Z := (x mod 2 ^ 32)%Z.                      (* x >>> 0 *)
Definition ushr (x k : Z) : Z := Z.shiftr (to_uint32 x) k.                 (* x >>> k *)
Definition bxor (a b : Z) : Z := Z.lxor (to_int32 a) (to_int32 b).         (* a ^ b *)
Definition bor (a b : Z) : Z := Z.lor (to_int32 a) (to_int32 b).           (* a | b *)
Definition imul (a b : Z) : Z := to_int32 (to_int32 a * to_int32 b).       (* Math.imul *)

(** ** Outcomes, the random sources and the state they live in *)

Inductive outcome (A : Type) : Type :=
| Returns (a : A)
| RangeError
| OutOfFuel.
Arguments Returns {A} a.
Arguments RangeError {A}.
Arguments OutOfFuel {A}.

(** A random source as the three modules build it: [Math.random] itself,
    or a Mulberry32 closure over its state [s]. *)
Inductive rng : Type :=
| MathRandom
| Seeded (s : Z).

(** The platform's random source: the draws [Math.random] is going to
    return, and how many of them have been taken. *)
Record world : Type := { draws : nat -> R; used : nat }.

(** The state a routine runs in: the source currently bound to its
    [rand] (or [rng]) variable and the platform's stream. *)
Definition rstate : Type := (rng * world)%type.

Definition M (A : Type) : Type := rstate -> outcome (A * rstate).

Definition ret {A} (a : A) : M A := fun s => Returns (a, s).

Definition bind {A B} (m : M A) (k : A -> M B) : M B :=
  fun s =>
    match m s with
    | Returns (a, s') => k a s'
    | RangeError => RangeError
    | OutOfFuel => OutOfFuel
    end.

Definition out_of_fuel {A} : M A := fun _ => OutOfFuel.

(** A pure step that may raise [RangeError]. *)
Definition lift {A} (o : outcome A) : M A :=
  fun s =>
    match o with
    | Returns a => Returns (a, s)
    | RangeError => RangeError
    | OutOfFuel => OutOfFuel
    end.

(** The body of the closure every module returns for a seed:
    [s |= 0; s = (s + 0x6D2B79F5) | 0; t = imul(s ^ (s >>> 15), 1 | s);
     t = (t + imul(t ^ (t >>> 7), 61 | t)) ^ t;
     return ((t ^ (t >>> 14)) >>> 0) / 4294967296].
    (The copy in the adult module omits the leading [s |= 0], which the
    wrapping addition makes redundant.) *)
Definition mulberry32_bits (s1 : Z) : Z :=
  let t := imul (bxor s1 (ushr s1 15)) (bor 1 s1) in
  let t := bxor (t + imul (bxor t (ushr t 7)) (bor 61 t)) t in
  to_uint32 (bxor t (ushr t 14)).

Definition mulberry32 (s : Z) : R * Z :=
  let s0 := to_int32 s in
  let s1 := to_int32 (s0 + 0x6D2B79F5) in
  (IZR (mulberry32_bits s1) / 4294967296, s1).

(** One call of the random source. *)
Definition rand : M R :=
  fun st =>
    match st with
    | (MathRandom, w) =>
        Returns (draws w (used w),
                 (MathRandom, {| draws := draws w; used := S (used w) |}))
    | (Seeded s, w) => let (u, s') := mulberry32 s in Returns (u, (Seeded s', w))
    end.

(** Runs [body] with its own random source [g]; the caller's source is
    untouched, the platform's stream is shared. *)
Definition with_rng {A} (g : rng) (body : M A) : M A :=
  fun st =>
    match body (g, snd st) with
    | Returns (a, st') => Returns (a, (fst st, snd st'))
    | RangeError => RangeError
    | OutOfFuel => OutOfFuel
    end.

Fixpoint replicateM {A} (n : nat) (m : M A) : M (list A) :=
  match n with
  | O => ret []
  | S k => bind m (fun x => bind (replicateM k m) (fun xs => ret (x :: xs)))
  end.

(** [for (let i = 0; i < n; i++) out[i] = f(i)] with an effectful body. *)
Fixpoint tabulateM_from (i count : nat) (f : nat -> M R) : M (list R) :=
  match count with
  | O => ret []
  | S c => bind (f i) (fun x => bind (tabulateM_from (S i) c f) (fun xs => ret (x :: xs)))
  end.
Definition tabulateM (n : nat) (f : nat -> M R) : M (list R) := tabulateM_from 0 n f.

(** [new Array(n)]: a negative length raises. *)
Definition new_array (n : Z) : M unit :=
  fun s => if (n <? 0)%Z then RangeError else Returns (tt, s).

Fixpoint foldM {A S} (step : S -> A -> M S) (l : list A) (s : S) : M S :=
  match l with
  | [] => ret s
  | a :: l' => bind (step s a) (foldM step l')
  end.

(** [while (u === 0) u = rand()], entered with [u = 0]. *)
Fixpoint draw_nonzero (fuel : nat) : M R :=
  match fuel with
  | O => out_of_fuel
  | S f => bind rand (fun u => if Req_dec_T u 0 then draw_nonzero f else ret u)
  end.

(** The Box-Muller sampler, defined three times in the source with the
    same text. *)
Definition gaussian (fuel : nat) : M R :=
  bind (draw_nonzero fuel) (fun u =>
  bind (draw_nonzero fuel) (fun v =>
  ret (sqrt (-2 * ln u) * cos (2 * PI * v)))).

(** The one-pole recursion [y[i] = a * y[i-1] + (1 - a) * x[i]] from a
    previous output [prev]. *)
Fixpoint onepole_run (a prev : R) (xs : list R) : list R :=
  match xs with
  | [] => []
  | x :: xs' => let y := a * prev + (1 - a) * x in y :: onepole_run a y xs'
  end.

(** [y = zeros(x.length); for (i = 1; ...) y[i] = a*y[i-1] + (1-a)*x[i]]:
    the first output sample stays [0]. *)
Definition onepole_from_zero (a : R) (x : list R) : list R :=
  match x with
  | [] => []
  | _ :: xs => 0 :: onepole_run a 0 xs
  end.

End JS.

Import JS.

Notation "x <- c1 ;; c2" := (bind c1 (fun x => c2))
  (at level 61, c1 at next level, right associativity).
Notation "' pat <- c1 ;; c2" := (bind c1 (fun x => match x with pat => c2 end))
  (at level 61, pat pattern, c1 at next level, right associativity).

(* ================================================================== *)
(** * The fetal phonocardiogram simulator *)
(* ================================================================== *)

Module Fpcg.

Record UcEvent : Type := { uc_start : Z; uc_end : Z; uc_peak : Z }.

Record FpcgMeta : Type :=
  { movement_events : list (Z * Z); uc_events : list UcEvent }.

Record SimOutput : Type := { out_t : list R; out_y : list R; meta : FpcgMeta }.

(** [SimOptions] with every default resolved. *)
Record SimOptions : Type :=
  { cycles_per_sample : Z;
    fs : R; fhr : R; mhr : R; snr_db : R;
    r1 : R; c1 : R; beta1 : R; A1 : R;
    r2 : R; c2 : R; beta2 : R; A2 : R;
    movement_enabled : bool;
    movement_intensity : R;
    movement_rate_per_min : R;
    movement_duration_range : R * R;
    movement_band : R * R;
    movement_thump_prob : R;
    movement_seed : option Z;
    uc_enabled : bool;
    uc_rate_per_10min : R;
    uc_duration_range : R * R;
    uc_rise_fall_frac : R * R;
    uc_attenuation : R;
    uc_noise_band : R * R;
    uc_noise_intensity : R;
    uc_seed : option Z;
    rr_std_frac : R }.

Definition default_options : SimOptions :=
  {| cycles_per_sample := 10;
     fs := 1000; fhr := 140; mhr := 80; snr_db := 10;
     r1 := 0.01; c1 := 1500; beta1 := 100; A1 := 1;
     r2 := 0.03; c2 := 1540; beta2 := 300; A2 := 0.8;
     movement_enabled := true;
     movement_intensity := 1.2;
     movement_rate_per_min := 8;
     movement_duration_range := (0.12, 0.45);
     movement_band := (15, 200);
     movement_thump_prob := 0.35;
     movement_seed := Some 2025%Z;
     uc_enabled := true;
     uc_rate_per_10min := 3;
     uc_duration_range := (12, 30);
     uc_rise_fall_frac := (0.35, 0.35);
     uc_attenuation := 0.4;
     uc_noise_band := (0.5, 20);
     uc_noise_intensity := 0.7;
     uc_seed := Some 1234%Z;
     rr_std_frac := 0.05 |}.

(** [rngFactory(seed)]: [Math.random] for a missing seed, otherwise
    Mulberry32 started at [(seed >>> 0) || 123456789]. *)
Definition rngFactory (seed : option Z) : rng :=
  match seed with
  | None => MathRandom
  | Some sd =>
      let s := to_uint32 sd in
      Seeded (if (s =? 0)%Z then 123456789%Z else s)
  end.

(** [linspace(start, end, n)]; every caller passes [n >= 1]. *)
Definition linspace (start stop : R) (n : Z) : list R :=
  let step := (stop - start) / Rmax 1 (IZR n - 1) in
  tabulate (Z.to_nat n) (fun i => start + INR i * step).

Definition sinc (x : R) : R :=
  if Req_dec_T x 0 then 1 else sin (PI * x) / (PI * x).

Definition generate_heart_sound (center_freq duration fs amplitude : R)
  : list R * list R :=
  let n := Z.max 1 (floor (fs * duration)) in
  let t := linspace (- duration / 2) (duration / 2) n in
  (t, map (fun ti => amplitude * sinc (2 * center_freq * ti)) t).

(** ** First-order filters *)

Definition onepole_lowpass (x : list R) (fc fs : R) : list R :=
  if Rle_dec fc 0 then x
  else onepole_from_zero (exp (-2 * PI * fc / fs)) x.

Definition onepole_highpass (x : list R) (fc fs : R) : list R :=
  if Rle_dec fc 0 then x
  else zipWith Rminus x (onepole_lowpass x fc fs).

Definition simple_bandpass (x : list R) (f_lo f_hi fs : R) : list R :=
  let y := if Rle_dec (fs / 2) f_hi then x else onepole_lowpass x f_hi fs in
  if Rle_dec f_lo 0 then y else onepole_highpass y f_lo fs.

(** ** Propagation kernel *)

Definition expo_conv_kernel (r c fs beta A : R) : outcome (list R) :=
  let t0 := r / c in
  let N0 := round (t0 * fs) in
  let tau := 1 / beta in
  let Nmax := round (IZR N0 + 5 * tau * fs) in
  if (Nmax + 1 <? 0)%Z then RangeError
  else Returns (tabulate (Z.to_nat (Nmax + 1)) (fun i =>
         if (Z.of_nat i <? N0)%Z then 0
         else A * exp (- (INR i - IZR N0) * (beta / fs)))).

(** [out = zeros(n + m - 1); out[i + j] += a[i] * b[j]]. *)
Fixpoint convolve_from (out : list R) (i : Z) (a b : list R) : list R :=
  match a with
  | [] => out
  | ai :: a' => convolve_from (add_at out i (map (Rmult ai) b)) (i + 1) a' b
  end.

Definition convolve (a b : list R) : outcome (list R) :=
  let len := (Z.of_nat (length a) + Z.of_nat (length b) - 1)%Z in
  if (len <? 0)%Z then RangeError
  else Returns (convolve_from (zeros len) 0 a b).

(** The module's [rms]: the root of the mean square. *)
Definition rms (arr : list R) : R :=
  sqrt (sum (map (fun v => v * v) arr) / Rmax 1 (INR (length arr))).

Section Loops.

(** The bound on the iterations of every [while] loop. *)
Variable fuel : nat.

(** ** Poisson arrivals

    [while (true) { gap = lam > 0 ? -log(1 - rand()) / lam : Infinity;
                    t += gap; if (t >= total_sec) break; starts.push(t) }].
    A rate that is not positive gives an infinite gap, which ends the
    loop at once without a draw. *)
Fixpoint arrivals (n : nat) (lam total_sec t : R) : M (list R) :=
  match n with
  | O => out_of_fuel
  | S n' =>
      if Rlt_dec 0 lam then
        u <- rand ;;
        let t' := t + - ln (1 - u) / lam in
        if Rle_dec total_sec t' then ret []
        else rest <- arrivals n' lam total_sec t' ;; ret (t' :: rest)
      else ret []
  end.

(** ** Movement artifacts *)

Record movement_opts : Type :=
  { rate_per_min : R;
    mv_duration_range : R * R;
    band : R * R;
    intensity : R;
    thump_prob : R;
    mv_seed : option Z }.

(** The raised-cosine fade of both ends of a burst:
    [for (i = 0; i < Lr; i++) { w = ...; y[i] *= w; y[seg_len-1-i] *= w }]. *)
Fixpoint fade_from (i : nat) (count : nat) (Lr seg_len : Z) (y : list R) : list R :=
  match count with
  | O => y
  | S c =>
      let w := 0.5 - 0.5 * cos (PI * INR i / (IZR Lr - 1)) in
      let y1 := upd y (Z.of_nat i) (fun v => v * w) in
      let y2 := upd y1 (seg_len - 1 - Z.of_nat i) (fun v => v * w) in
      fade_from (S i) c Lr seg_len y2
  end.

(** The decaying thump:
    [for (k = 0; k < th_dur && th_center + k < seg_len; k++)
       y[th_center + k] += exp(-4k / max(1, th_dur))]. *)
Definition thump (th_center th_dur : Z) (y : list R) : list R :=
  add_at y th_center
    (tabulate (Z.to_nat th_dur) (fun k => exp (-4 * INR k / Rmax 1 (IZR th_dur)))).

(** One turn of [for (const st of starts)]; the state is the movement
    track and the events pushed so far. *)
Definition movement_step (total_len : Z) (fs : R) (o : movement_opts)
    (acc : list R * list (Z * Z)) (st : R) : M (list R * list (Z * Z)) :=
  let (movement, events) := acc in
  u <- rand ;;
  let dur := fst (mv_duration_range o)
             + u * (snd (mv_duration_range o) - fst (mv_duration_range o)) in
  let s_idx := floor (st * fs) in
  let e_idx := Z.min total_len (s_idx + Z.max 1 (floor (dur * fs))) in
  if (e_idx - s_idx <? 4)%Z then ret acc
  else
    let seg_len := (e_idx - s_idx)%Z in
    seg <- replicateM (Z.to_nat seg_len) (gaussian fuel) ;;
    let y := simple_bandpass seg (fst (band o)) (snd (band o)) fs in
    let Lr := Z.max 2 (floor (0.08 * IZR seg_len)) in
    let y := fade_from 0 (Z.to_nat Lr) Lr seg_len y in
    u_th <- rand ;;
    y <- (if Rlt_dec u_th (thump_prob o) then
            u_c <- rand ;;
            let th_center := floor ((0.1 + 0.8 * u_c) * IZR seg_len) in
            let th_dur := Z.max 8 (floor (0.015 * fs)) in
            ret (thump th_center th_dur y)
          else ret y) ;;
    let y := map (fun v => v * (0.25 * intensity o)) y in
    ret (add_at movement s_idx y, events ++ [(s_idx, e_idx)]).

Definition generate_movement_artifacts (total_len : Z) (fs : R) (o : movement_opts)
  : M (list R * list (Z * Z)) :=
  with_rng (rngFactory (mv_seed o)) (
    let movement := zeros total_len in
    let total_sec := IZR total_len / fs in
    let lam := rate_per_min o / 60 in
    starts <- arrivals fuel lam total_sec 0 ;;
    foldM (movement_step total_len fs o) starts (movement, [])).

(** ** Uterine contraction envelope *)

Record uc_opts : Type :=
  { rate_per_10min : R;
    duration_range : R * R;
    rise_fall_frac : R * R;
    attenuation : R;
    noise_band : R * R;
    noise_intensity : R;
    seed : option Z }.

Record uc_result : Type :=
  { uc_env : list R; uc_noise : list R; uc_evs : list UcEvent }.

(** [env_seg[j] ?? 0] for [0 <= j < L], after the three loops (rise,
    plateau, fall) have written their disjoint index ranges. *)
Definition env_seg_at (Lr Lp Lf : Z) (j : Z) : R :=
  if (j <? Lr)%Z then 0.5 - 0.5 * cos (PI * IZR j / IZR Lr)
  else if (j <? Lr + Lp)%Z then 1
  else if (j <? Lr + Lp + Lf)%Z then 0.5 + 0.5 * cos (PI * IZR (j - Lr - Lp) / IZR Lf)
  else 0.

(** [for (i = s_idx, j = 0; i < e_idx; i++, j++)
       uc_env[i] = max(uc_env[i], env_seg[j] ?? 0)]. *)
Fixpoint stamp_env (count : nat) (j : Z) (s_idx : Z) (Lr Lp Lf : Z) (env : list R)
  : list R :=
  match count with
  | O => env
  | S c =>
      stamp_env c (j + 1) s_idx Lr Lp Lf
        (upd env (s_idx + j) (fun v => Rmax v (env_seg_at Lr Lp Lf j)))
  end.

Definition uc_step (total_len : Z) (fs : R) (o : uc_opts)
    (acc : list R * list UcEvent) (st : R) : M (list R * list UcEvent) :=
  let (env, events) := acc in
  u <- rand ;;
  let dur := fst (duration_range o)
             + u * (snd (duration_range o) - fst (duration_range o)) in
  let s_idx := floor (st * fs) in
  let e_idx := Z.min total_len (s_idx + Z.max 1 (floor (dur * fs))) in
  let L := (e_idx - s_idx)%Z in
  if (L <? 8)%Z then ret acc
  else
    let r_frac := fst (rise_fall_frac o) in
    let f_frac := snd (rise_fall_frac o) in
    let Lr := Z.max 2 (floor (r_frac * IZR L)) in
    let Lf := Z.max 2 (floor (f_frac * IZR L)) in
    let Lp := Z.max 0 (L - Lr - Lf) in
    let env' := stamp_env (Z.to_nat L) 0 s_idx Lr Lp Lf env in
    let peak := (s_idx + Lr + floor (IZR (Z.max 0 (Lp - 1)) / 2))%Z in
    ret (env', events ++ [{| uc_start := s_idx; uc_end := e_idx; uc_peak := peak |}]).

Definition generate_uc_envelope (total_len : Z) (fs : R) (o : uc_opts) : M uc_result :=
  with_rng (rngFactory (seed o)) (
    let env0 := zeros total_len in
    let total_sec := IZR total_len / fs in
    let lam := rate_per_10min o / 600 in
    starts <- arrivals fuel lam total_sec 0 ;;
    '(env, events) <- foldM (uc_step total_len fs o) starts (env0, []) ;;
    base <- replicateM (Z.to_nat total_len) (gaussian fuel) ;;
    let base := simple_bandpass base (fst (noise_band o)) (snd (noise_band o)) fs in
    let base := onepole_lowpass base 2 fs in
    let base_rms := rms base in
    let base := if Rlt_dec 0 base_rms then map (fun v => v / base_rms) base else base in
    let noise := mapi (fun v i => v * (noise_intensity o * nth i env 0)) base in
    ret {| uc_env := env; uc_noise := noise; uc_evs := events |}).

(** ** The main simulator *)

(** One fetal beat: seven Gaussian draws, two sinc bursts placed at the
    running index [idx]. *)
Definition fetal_beat (o : SimOptions) (SSID_sec : R)
    (acc : list R * Z) (rr : R) : M (list R * Z) :=
  let (signal_f, idx) := acc in
  let beat_len := floor (rr * fs o) in
  g1 <- gaussian fuel ;; let amp_s1 := 0.8 + 0.08 * g1 in
  g2 <- gaussian fuel ;; let amp_s2 := 0.5 + 0.08 * g2 in
  g3 <- gaussian fuel ;; let freq_s1 := 50 + 2 * g3 in
  g4 <- gaussian fuel ;; let freq_s2 := 60 + 2 * g4 in
  g5 <- gaussian fuel ;; let dur_s1 := Rmax 0.02 (0.08 + 0.01 * g5) in
  g6 <- gaussian fuel ;; let dur_s2 := Rmax 0.02 (0.05 + 0.01 * g6) in
  g7 <- gaussian fuel ;; let SSID := Rmax 0.02 (SSID_sec + 0.01 * g7) in
  let s1 := snd (generate_heart_sound freq_s1 dur_s1 (fs o) amp_s1) in
  let s2 := snd (generate_heart_sound freq_s2 dur_s2 (fs o) amp_s2) in
  let s1_start := idx in
  let s2_start := (idx + floor (SSID * fs o))%Z in
  ret (add_at (add_at signal_f s1_start s1) s2_start s2, (idx + beat_len)%Z).

(** One maternal beat. *)
Definition maternal_beat (o : SimOptions) (mSSID_sec : R)
    (acc : list R * Z) (rr : R) : M (list R * Z) :=
  let (signal_m, idx) := acc in
  let beat_len := floor (rr * fs o) in
  g1 <- gaussian fuel ;; let amp_ms1 := 0.03 + 0.02 * g1 in
  g2 <- gaussian fuel ;; let amp_ms2 := 0.02 + 0.02 * g2 in
  g3 <- gaussian fuel ;; let freq_ms1 := 15 + 2 * g3 in
  g4 <- gaussian fuel ;; let freq_ms2 := 20 + 2 * g4 in
  g5 <- gaussian fuel ;; let dur_ms1 := Rmax 0.02 (0.08 + 0.01 * g5) in
  g6 <- gaussian fuel ;; let dur_ms2 := Rmax 0.02 (0.05 + 0.01 * g6) in
  g7 <- gaussian fuel ;; let mSSID := Rmax 0.01 (mSSID_sec + 0.005 * g7) in
  let ms1 := snd (generate_heart_sound freq_ms1 dur_ms1 (fs o) amp_ms1) in
  let ms2 := snd (generate_heart_sound freq_ms2 dur_ms2 (fs o) amp_ms2) in
  let ms1_start := (idx + floor (0.3 * fs o))%Z in
  let ms2_start := (ms1_start + floor (mSSID * fs o))%Z in
  ret (add_at (add_at signal_m ms1_start ms1) ms2_start ms2, (idx + beat_len)%Z).

(** The last stage: additive white noise at the requested SNR.  The
    result is returned as it is: no peak normalisation follows. *)
Definition add_awgn (snr_db : R) (signal_base noise : list R) : list R :=
  let signal_r := rms signal_base in
  let noise_r := signal_r / pow 10 (snr_db / 20) in
  let noise_norm := or_else (rms noise) 1 in
  let noise := map (fun v => v / noise_norm * noise_r) noise in
  zipWith Rplus signal_base noise.

Definition simulateFpcgDataset (o : SimOptions) : M SimOutput :=
  with_rng (rngFactory None) (
    let mean_rr := 60 / fhr o in
    T <- replicateM (Z.to_nat (cycles_per_sample o))
           (u <- rand ;; ret (mean_rr + rr_std_frac o * mean_rr * u)) ;;
    let total_duration := sum T + 0.5 in
    let nSamples := Z.max 1 (floor (fs o * total_duration)) in
    let t := linspace 0 total_duration nSamples in
    (* fetal heart S1/S2 *)
    let SSID_sec := (210 - 0.5 * fhr o) / 1000 in
    '(signal_f, _) <- foldM (fetal_beat o SSID_sec) T (zeros nSamples, 0%Z) ;;
    (* maternal heart *)
    let mSSID_sec := (0.2 * (60000 / mhr o) - 160) / 1000 in
    Tm <- replicateM (length T)
            (u <- rand ;; ret (60 / mhr o + rr_std_frac o * mean_rr * u)) ;;
    '(signal_m, _) <- foldM (maternal_beat o mSSID_sec) Tm (zeros nSamples, 0%Z) ;;
    (* propagation model *)
    h1 <- lift (expo_conv_kernel (r1 o) (c1 o) (fs o) (beta1 o) (A1 o)) ;;
    h2 <- lift (expo_conv_kernel (r2 o) (c2 o) (fs o) (beta2 o) (A2 o)) ;;
    h_total <- lift (convolve h1 h2) ;;
    let h_norm := sum h_total in
    let h_total := map (fun v => v / or_else h_norm 1) h_total in
    conv <- lift (convolve signal_f h_total) ;;
    let signal_f_prop := firstn (length signal_f) conv in
    (* uterine contractions *)
    uc <- (if uc_enabled o then
             generate_uc_envelope nSamples (fs o)
               {| rate_per_10min := uc_rate_per_10min o;
                  duration_range := uc_duration_range o;
                  rise_fall_frac := uc_rise_fall_frac o;
                  attenuation := uc_attenuation o;
                  noise_band := uc_noise_band o;
                  noise_intensity := uc_noise_intensity o;
                  seed := uc_seed o |}
           else ret {| uc_env := zeros nSamples; uc_noise := zeros nSamples;
                       uc_evs := [] |}) ;;
    let signal_f_env :=
      mapi (fun v i => v * (1 - (if uc_enabled o
                                 then uc_attenuation o * nth i (uc_env uc) 0
                                 else 0))) signal_f_prop in
    (* movement *)
    '(movement, mv_events) <-
       (if movement_enabled o then
          generate_movement_artifacts nSamples (fs o)
            {| rate_per_min := movement_rate_per_min o;
               mv_duration_range := movement_duration_range o;
               band := movement_band o;
               intensity := movement_intensity o;
               thump_prob := movement_thump_prob o;
               mv_seed := movement_seed o |}
        else ret (zeros nSamples, [])) ;;
    (* combine, then noise for the SNR *)
    let signal_base :=
      tabulate (Z.to_nat nSamples) (fun i =>
        nth i signal_f_env 0 + nth i signal_m 0 + nth i (uc_noise uc) 0
        + nth i movement 0) in
    noise <- replicateM (Z.to_nat nSamples) (gaussian fuel) ;;
    let signal_skin_total := add_awgn (snr_db o) signal_base noise in
    ret {| out_t := t; out_y := signal_skin_total;
           meta := {| movement_events := mv_events; uc_events := uc_evs uc |} |}).

End Loops.

(** [resampleToLength(xs, ys, targetLen)]: a copy when the lengths agree,
    linear interpolation along [xs] otherwise. *)
Definition resampleToLength (xs ys : list R) (targetLen : Z) : outcome (list R) :=
  if (Z.of_nat (length ys) =? targetLen)%Z then Returns ys
  else if (targetLen <? 0)%Z then RangeError
  else
    let tMin := get xs 0 in
    let tMax := get xs (Z.of_nat (length xs) - 1) in
    Returns (tabulate (Z.to_nat targetLen) (fun i =>
      let t := tMin + (tMax - tMin) * INR i / Rmax 1 (IZR targetLen - 1) in
      let u := (t - tMin) / (tMax - tMin) in
      let idx := u * (INR (length ys) - 1) in
      let i0 := floor idx in
      let i1 := Z.min (Z.of_nat (length ys) - 1) (i0 + 1) in
      let w := idx - IZR i0 in
      get ys i0 * (1 - w) + get ys i1 * w)).

End Fpcg.

(* ================================================================== *)
(** * The adult phonocardiogram simulator *)
(* ================================================================== *)

Module Pcg.

(** [seededRandom(seed)]: Mulberry32 started at [seed >>> 0]. *)
Definition seededRandom (seed : Z) : rng := Seeded (to_uint32 seed).

(** ** Filters *)

(** One pass of [out = zeros; out[i] = a*out[i-1] + (1-a)*y[i]; y = out]. *)
Definition lowpass_stage (a : R) (y : list R) : list R := onepole_from_zero a y.

(** One pass of [y = y - lowpass(y)]. *)
Definition highpass_stage (a : R) (y : list R) : list R :=
  zipWith Rminus y (onepole_from_zero a y).

Definition bandpassFilter (x : list R) (fs low high order : R) : list R :=
  let lowClamped := Rmin low (fs / 2 - 1) in
  let highClamped := Rmin high (fs / 2 - 1) in
  let y := Nat.iter (iterations (order / 2))
             (lowpass_stage (exp (-2 * PI * highClamped / fs))) x in
  Nat.iter (iterations (order / 2))
    (highpass_stage (exp (-2 * PI * lowClamped / fs))) y.

Definition lowpassFilter (x : list R) (fs cutoff order : R) : list R :=
  let cutoffClamped := Rmin cutoff (fs / 2 - 1) in
  Nat.iter (iterations order) (lowpass_stage (exp (-2 * PI * cutoffClamped / fs))) x.

(** [y[i] = b0*x[i] (+ a1*y[i-1] if i >= 1) (+ a2*y[i-2] if i >= 2)]:
    the two guards amount to two zero outputs before the first one. *)
Fixpoint resonator_run (b0 a1 a2 y1 y2 : R) (xs : list R) : list R :=
  match xs with
  | [] => []
  | x :: xs' =>
      let y := b0 * x + a1 * y1 + a2 * y2 in
      y :: resonator_run b0 a1 a2 y y1 xs'
  end.

Definition resonator (x : list R) (fs f0 zeta : R) : list R :=
  let w0 := 2 * PI * f0 / fs in
  let a1 := -2 * exp (- zeta * w0) * cos w0 in
  let a2 := exp (-2 * zeta * w0) in
  let b0 := 1 - exp (- zeta * w0) in
  resonator_run b0 a1 a2 0 0 x.

(** The mean of the squares, [x.reduce((s, v) => s + v*v, 0) / max(1, x.length)]. *)
Definition mean_square (x : list R) : R :=
  sum (map (fun v => v * v) x) / Rmax 1 (INR (length x)).

(** ** Noise at a target SNR *)

(** The track that [addNoiseSNR] adds to [x]: the filtered noise divided
    by its regularised RMS and multiplied by [sqrt(pNoise)]. *)
Definition noise_track (x filtered : list R) (snrDb : R) : list R :=
  let pSig := mean_square x in
  let snrLin := pow 10 (snrDb / 10) in
  let pNoise := pSig / snrLin in
  let noisePower := sqrt (mean_square filtered + 1e-8) in
  map (fun v => v / (noisePower + 1e-8) * sqrt pNoise) filtered.

Section Loops.

Variable fuel : nat.

Definition addNoiseSNR (x : list R) (snrDb fs : R) : M (list R) :=
  noise <- replicateM (length x) (gaussian fuel) ;;
  let filtered := lowpassFilter noise fs 100 4 in
  ret (zipWith Rplus x (noise_track x filtered snrDb)).

(** ** Envelope times carrier *)

Definition envelopedBurst (n : Z) (fs center width amp : R) : M (list R) :=
  _ <- new_array n ;;
  let t := fun i : nat => INR i / fs in
  let env := fun i : nat =>
    let diff := (t i - center) / width in exp (-0.5 * diff * diff) in
  g0 <- gaussian fuel ;;
  let f0 := 60 + 40 * g0 in
  tabulateM (Z.to_nat n) (fun i =>
    g1 <- gaussian fuel ;;
    let phase := 2 * PI * f0 * t i + g1 * 0.2 in
    let sine := sin phase in
    g2 <- gaussian fuel ;;
    let noise := g2 * 0.3 in
    ret (amp * env i * (sine + noise))).

Definition valveEvent (n : Z) (fs center width ampMain ampSub delayMs : R)
  : M (list R) :=
  let delay := delayMs / 1000 in
  main <- envelopedBurst n fs center width ampMain ;;
  sub <- envelopedBurst n fs (center + delay) width ampSub ;;
  ret (zipWith Rplus main sub).

(** ** Abnormal heart sounds *)

Inductive abnormality : Type :=
| normal | systolic_murmur | diastolic_murmur | s2_split | s3.

(** The loop shared by the two murmurs:
    [for (i = 0; i < len && startIdx + i < n; i++)
       murmur[startIdx + i] = gain * env(i) * gaussian(rng)]. *)
Definition murmur_fill (n startIdx len : Z) (gain : R) (env : nat -> R)
  : M (list R) :=
  vals <- tabulateM (Z.to_nat (Z.min len (n - startIdx)))
            (fun i => g <- gaussian fuel ;; ret (gain * env i * g)) ;;
  ret (set_at (zeros n) startIdx vals).

Definition addSystolicMurmur (n : Z) (fs tS1 tS2 : R) : M (list R) :=
  let startIdx := floor (tS1 * fs) in
  let endIdx := floor (tS2 * fs) in
  murmur <- (if (startIdx <? endIdx)%Z then
               murmur_fill n startIdx (endIdx - startIdx) 0.25
                 (fun i => exp (-3 * (INR i / fs / (IZR (endIdx - startIdx) / fs))))
             else ret (zeros n)) ;;
  ret (bandpassFilter murmur fs 100 400 4).

Definition addDiastolicMurmur (n : Z) (fs tS2 nextTS1 : R) : M (list R) :=
  let startIdx := floor (tS2 * fs) in
  let endIdx := Z.min n (floor (nextTS1 * fs)) in
  murmur <- (if (startIdx <? endIdx)%Z then
               murmur_fill n startIdx (endIdx - startIdx) 0.2
                 (fun i => sin (PI * (INR i / fs) / (IZR (endIdx - startIdx) / fs)))
             else ret (zeros n)) ;;
  ret (bandpassFilter murmur fs 80 300 4).

Definition addS2Split (n : Z) (fs tS2 : R) (s2Original : list R) (splitMs : R)
  : M (list R) :=
  let result := firstn (Z.to_nat n) s2Original in
  s2Split <- valveEvent n fs (tS2 + splitMs / 1000) 0.03 0.4 0.2 18 ;;
  ret (zipWith (fun r v => r + 0.6 * v) result s2Split).

Definition addS3Sound (n : Z) (fs tS2 : R) : M (list R) :=
  let s3Time := tS2 + 0.15 in
  let idx := floor (s3Time * fs) in
  s3 <- (if (idx <? n)%Z then
           s3Burst <- envelopedBurst (Z.min 200 (n - idx)) fs 0.05 0.04 0.3 ;;
           ret (set_at (zeros n) idx s3Burst)
         else ret (zeros n)) ;;
  ret (bandpassFilter s3 fs 20 150 4).

(** ** One beat *)

Record PCGParams : Type :=
  { width_s1 : R; width_s2 : R; amp_main : R; amp_sub : R;
    t_s1_ratio : R; t_s2_ratio : R; f0 : R; zeta : R }.

Definition simulateSingleBeat (fs duration : R) (params : PCGParams)
    (abnormal : abnormality) : M (list R * R * R) :=
  let n := floor (duration * fs) in
  let tS1 := t_s1_ratio params * duration in
  let tS2 := t_s2_ratio params * duration in
  s1 <- valveEvent n fs tS1 (width_s1 params)
          (amp_main params * 2) (amp_sub params * 2) 12 ;;
  s2 <- valveEvent n fs tS2 (width_s2 params)
          (amp_main params * 1.6) (amp_sub params * 1.6) 18 ;;
  let beat := zipWith Rplus s1 s2 in
  beat <- match abnormal with
          | systolic_murmur =>
              murmur <- addSystolicMurmur n fs tS1 tS2 ;;
              ret (zipWith Rplus beat murmur)
          | diastolic_murmur =>
              let nextTS1 := duration + t_s1_ratio params * duration in
              murmur <- addDiastolicMurmur n fs tS2 nextTS1 ;;
              ret (zipWith Rplus beat murmur)
          | s2_split =>
              s2Split <- addS2Split n fs tS2 s2 60 ;;
              ret (zipWith Rplus s1 s2Split)
          | s3 =>
              s3snd <- addS3Sound n fs tS2 ;;
              ret (zipWith Rplus beat s3snd)
          | normal => ret beat
          end ;;
  let beat := resonator beat fs (f0 params * 0.8) (zeta params * 0.6) in
  let beat := lowpassFilter beat fs 150 4 in
  ret (beat, tS1, tS2).

(** ** Several beats *)

(** [Math.max(...processed.map(Math.abs), c)]. *)
Definition peak_of (l : list R) (c : R) : R := max_of (map Rabs l) c.

(** The guard against a nearly silent beat:
    [if (peak < 1e-6) processed[i] *= 100]. *)
Definition amplify_weak (processed : list R) : list R :=
  let peak := peak_of processed 1e-8 in
  if Rlt_dec peak 1e-6 then map (fun v => v * 100) processed else processed.

(** [processed[i] = 0.95 * processed[i] / finalPeak]. *)
Definition normalize_beat (processed : list R) : list R :=
  let finalPeak := peak_of processed 1e-8 in
  map (fun v => 0.95 * v / finalPeak) processed.

Record multibeat : Type :=
  { pcg : list R; s1Times : list R; s2Times : list R;
    (* whether [console.warn] was called *)
    warned : bool }.

(** The test behind the warning:
    [pcg.length === 0 || Math.max(...pcg.map(Math.abs), 0) < 0.01]. *)
Definition weak (pcg : list R) : bool :=
  match pcg with
  | [] => true
  | _ => if Rlt_dec (peak_of pcg 0) 0.01 then true else false
  end.

Definition one_beat (fs beatLengthSec : R) (params : PCGParams)
    (abnormal : abnormality) (snrDb : R)
    (acc : list (list R) * list R * list R) (b : nat)
  : M (list (list R) * list R * list R) :=
  let '(beats, s1t, s2t) := acc in
  '(beat, s1Time, s2Time) <- simulateSingleBeat fs beatLengthSec params abnormal ;;
  processed <- addNoiseSNR beat snrDb fs ;;
  let processed := normalize_beat (amplify_weak processed) in
  ret (beats ++ [processed],
       s1t ++ [s1Time + INR b * beatLengthSec],
       s2t ++ [s2Time + INR b * beatLengthSec]).

Definition simulateMultibeat (numBeats : Z) (fs beatLengthSec : R)
    (params : PCGParams) (abnormal : abnormality) (snrDb : R) : M multibeat :=
  '(beats, s1t, s2t) <-
     foldM (one_beat fs beatLengthSec params abnormal snrDb)
       (seq 0 (Z.to_nat numBeats)) ([], [], []) ;;
  let flat := concat beats in
  if weak flat then
    ret {| pcg := map (fun v => v * 10) flat; s1Times := s1t; s2Times := s2t;
           warned := true |}
  else
    ret {| pcg := flat; s1Times := s1t; s2Times := s2t; warned := false |}.

Definition defaultParams : PCGParams :=
  {| width_s1 := 0.045; width_s2 := 0.035; amp_main := 0.8; amp_sub := 0.4;
     t_s1_ratio := 0.12; t_s2_ratio := 0.45; f0 := 120; zeta := 0.4 |}.

(** The options of [simulateHeartDataset], defaults resolved
    ([cycles ?? 10], [fs ?? 1000]). *)
Record heart_opts : Type :=
  { cycles : Z; fs : R; abnormal : abnormality }.

Definition simulateHeartDataset (o : heart_opts) : M (list R * list R) :=
  let beatLengthSec := 1.2 in
  with_rng (seededRandom 2025) (
    r <- simulateMultibeat (cycles o) (fs o) beatLengthSec defaultParams
           (abnormal o) 6 ;;
    let t := tabulate (length (pcg r)) (fun i => INR i / fs o) in
    ret (t, pcg r)).

(** [bandpassNoise(n, fs, low, high, rng)]: [n] Gaussian draws through the
    band-pass filter. *)
Definition bandpassNoise (n : Z) (fs low high : R) : M (list R) :=
  _ <- new_array n ;;
  w <- replicateM (Z.to_nat n) (gaussian fuel) ;;
  ret (bandpassFilter w fs low high 4).

End Loops.

Definition resampleToLength (t y : list R) (targetLength : Z) : outcome (list R) :=
  if (Z.of_nat (length y) =? targetLength)%Z then Returns y
  else if (targetLength <=? 0)%Z then Returns []
  else
    let n := (Z.of_nat (length y) - 1)%Z in
    Returns (tabulate (Z.to_nat targetLength) (fun i =>
      let idx := INR i * IZR n / Rmax 1 (IZR targetLength - 1) in
      let i0 := floor idx in
      let i1 := Z.min n (i0 + 1) in
      let w := idx - IZR i0 in
      get y i0 * (1 - w) + get y i1 * w)).

End Pcg.

(* ================================================================== *)
(** * The lung-sound synthesiser *)
(* ================================================================== *)

Module Lung.

(** [rng(seed)]: [Math.random] for a missing seed, otherwise Mulberry32
    started at [(seed >>> 0) || 1]. *)
Definition rng_of (seed : option Z) : rng :=
  match seed with
  | None => MathRandom
  | Some sd =>
      let s := to_uint32 sd in
      Seeded (if (s =? 0)%Z then 1%Z else s)
  end.

(** [raisedCosine(n)]; every caller passes [n >= 1]. *)
Definition raisedCosine (n : Z) : list R :=
  tabulate (Z.to_nat n) (fun i => 0.5 * (1 - cos (PI * INR i / IZR n))).

Definition onepoleLP (x : list R) (fc fs : R) : list R :=
  if Rle_dec fc 0 then x
  else onepole_from_zero (exp (-2 * PI * fc / fs)) x.

Definition onepoleHP (x : list R) (fc fs : R) : list R :=
  if Rle_dec fc 0 then x
  else zipWith Rminus x (onepoleLP x fc fs).

Definition bandpassSafe (x : list R) (fs lo hi order : R) : list R :=
  let hiClamped := Rmin hi (0.49 * fs) in
  let y := Nat.iter (iterations (order / 2)) (fun y => onepoleLP y hiClamped fs) x in
  Nat.iter (iterations (order / 2)) (fun y => onepoleHP y lo fs) y.

(** The module's [rms]: despite its name, the mean of the squares. *)
Definition rms (arr : list R) : R :=
  sum (map (fun v => v * v) arr) / Rmax 1 (INR (length arr)).

Definition lerp (a b t : R) : R := a + (b - a) * t.

Definition lerpRand (range : R * R) : M R :=
  u <- rand ;; ret (fst range + u * (snd range - fst range)).

(** [BreathParams] with every default resolved. *)
Record BreathParams : Type :=
  { fs : R; nCycles : Z; seed : option Z;
    insp_amp_range : R * R; exp_amp_range : R * R;
    insp_dur_range : R * R; exp_dur_range : R * R;
    mid_gap_range : R * R; post_pause_range : R * R;
    insp_band : R * R; exp_band : R * R;
    band_jitter_hz : R * R; jitter_amp : R; crossfade_s : R }.

Definition default_params : BreathParams :=
  {| fs := 1000; nCycles := 3; seed := None;
     insp_amp_range := (0.9, 1.2); exp_amp_range := (0.8, 1.0);
     insp_dur_range := (1.6, 1.8); exp_dur_range := (1.8, 2.2);
     mid_gap_range := (0.2, 0.5); post_pause_range := (1.8, 2.2);
     insp_band := (120, 650); exp_band := (100, 500);
     band_jitter_hz := (-20, 40); jitter_amp := 0.1; crossfade_s := 0.08 |}.

(** The envelope of one half of the cycle before its amplitude is
    applied: a raised cosine up and down, padded with zeros to [n]. *)
Definition half_env (n : Z) : list R :=
  let half := raisedCosine (Z.max 1 (floor (IZR n / 2))) in
  let e := half ++ rev half in
  if (Z.of_nat (length e) <? n)%Z
  then e ++ zeros (n - Z.of_nat (length e))
  else e.

(** [for (i = 0; i < n; i++) amp * (e[i] / max)] with
    [max = Math.max(...e, 1e-9)]. *)
Definition scaled_env (amp : R) (n : Z) : list R :=
  let e := half_env n in
  let m := max_of e 1e-9 in
  map (fun v => amp * (v / m)) (firstn (Z.to_nat n) e).

(** The envelope of one breath cycle of [N] samples.  With sample counts
    that are not negative every write falls inside the array; a write
    past the end, which would lengthen the array in JavaScript, is
    dropped here. *)
Definition cycle_env (N n_insp n_mid n_exp : Z) (insp_amp exp_amp : R) : list R :=
  let env := set_at (zeros N) 0 (scaled_env insp_amp n_insp) in
  set_at env (n_insp + n_mid) (scaled_env exp_amp n_exp).

(** The cross-fade weight between the two bands. *)
Definition crossfade (N n_insp cross : Z) : list R :=
  let w := set_at (zeros N) 0 (repeat 1 (Z.to_nat n_insp)) in
  let i1 := Z.max 0 (n_insp - cross) in
  let i2 := Z.min N (n_insp + cross) in
  if (i1 <? i2)%Z
  then set_at w i1 (tabulate (Z.to_nat (i2 - i1)) (fun k => 1 - INR k / IZR (i2 - i1)))
  else w.

(** [(0.95 * y[i]) / peak] with [peak = Math.max(...y.map(Math.abs), 1e-9)]. *)
Definition normalize95 (y : list R) : list R :=
  let peak := max_of (map Rabs y) 1e-9 in
  map (fun v => 0.95 * v / peak) y.

Record cycle : Type := { cy_y : list R; cy_t : list R; cy_env : list R }.

Section Loops.

Variable fuel : nat.

Definition oneCycleRandom (p : BreathParams) : M cycle :=
  insp_amp <- lerpRand (insp_amp_range p) ;;
  exp_amp <- lerpRand (exp_amp_range p) ;;
  insp_dur <- lerpRand (insp_dur_range p) ;;
  exp_dur <- lerpRand (exp_dur_range p) ;;
  mid_gap <- lerpRand (mid_gap_range p) ;;
  post_pause <- lerpRand (post_pause_range p) ;;
  j1 <- lerpRand (band_jitter_hz p) ;;
  j2 <- lerpRand (band_jitter_hz p) ;;
  let band_insp := (Rmax 10 (fst (insp_band p) + j1),
                    Rmin (fs p / 2 - 50) (snd (insp_band p) + j2)) in
  j3 <- lerpRand (band_jitter_hz p) ;;
  j4 <- lerpRand (band_jitter_hz p) ;;
  let band_exp := (Rmax 10 (fst (exp_band p) + j3),
                   Rmin (fs p / 2 - 50) (snd (exp_band p) + j4)) in
  let n_insp := round (fs p * insp_dur) in
  let n_mid := round (fs p * mid_gap) in
  let n_exp := round (fs p * exp_dur) in
  let n_pause := round (fs p * post_pause) in
  let N := (n_insp + n_mid + n_exp + n_pause)%Z in
  _ <- new_array N ;;
  let t := tabulate (Z.to_nat N) (fun i => INR i / fs p) in
  (* base noise and slow amplitude drift *)
  x <- replicateM (Z.to_nat N) (gaussian fuel) ;;
  let x := mapi (fun v i => v * (1 + jitter_amp p * sin (2 * PI * 0.4 * INR i / fs p))) x in
  (* envelopes *)
  let env := cycle_env N n_insp n_mid n_exp insp_amp exp_amp in
  (* band selection and cross-fade *)
  let x_insp := bandpassSafe x (fs p) (fst band_insp) (snd band_insp) 4 in
  let x_exp := bandpassSafe x (fs p) (fst band_exp) (snd band_exp) 4 in
  let w := crossfade N n_insp (round (crossfade_s p * fs p)) in
  let y := tabulate (Z.to_nat N) (fun i =>
             (nth i w 0 * nth i x_insp 0 + (1 - nth i w 0) * nth i x_exp 0)
             * nth i env 0) in
  ret {| cy_y := normalize95 y; cy_t := t; cy_env := env |}.

Definition breath_step (p : BreathParams) (acc : cycle * R) (_ : nat)
  : M (cycle * R) :=
  let (all, offset) := acc in
  c <- oneCycleRandom p ;;
  ret ({| cy_y := cy_y all ++ cy_y c;
          cy_t := cy_t all ++ map (fun v => v + offset) (cy_t c);
          cy_env := cy_env all ++ cy_env c |},
       offset + INR (length (cy_y c)) / fs p).

Definition synthBreathRandomCycles (p : BreathParams) : M cycle :=
  with_rng (rng_of (seed p)) (
    '(all, _) <- foldM (breath_step p) (seq 0 (Z.to_nat (nCycles p)))
                   ({| cy_y := []; cy_t := []; cy_env := [] |}, 0) ;;
    ret all).

(** ** Noise and SNR *)

(** One row of [pinkNoise]: the running sums [v += rand() - 0.5]. *)
Fixpoint random_walk (n : nat) (v : R) : M (list R) :=
  match n with
  | O => ret []
  | S k =>
      u <- rand ;;
      let v' := v + (u - 0.5) in
      rest <- random_walk k v' ;;
      ret (v' :: rest)
  end.

Definition pinkNoise (N : Z) : M (list R) :=
  let nRows := 16%nat in
  acc <- foldM (fun acc r =>
                  walk <- random_walk (Z.to_nat N) 0 ;;
                  ret (zipWith (fun a v => a + 1 / 2 ^ r * v) acc walk))
           (seq 0 nRows) (zeros N) ;;
  let maxAbs := max_of (map Rabs acc) 1e-9 in
  ret (map (fun x => x / maxAbs) acc).

Definition makeEnvNoise (fs duration : R) (seed : option Z) (mix band : R * R)
  : M (list R) :=
  with_rng (rng_of seed) (
    let N := Z.max 1 (round (duration * fs)) in
    pn <- pinkNoise N ;;
    white <- replicateM (Z.to_nat N) (gaussian fuel) ;;
    let nb := bandpassSafe white fs (fst band) (snd band) 4 in
    let maxNb := max_of (map Rabs nb) 1e-9 in
    let nb := map (fun x => x / maxNb) nb in
    let out := tabulate (Z.to_nat N) (fun i =>
                 fst mix * nth i pn 0 + snd mix * nth i nb 0) in
    let maxAbs := max_of (map Rabs out) 1e-9 in
    ret (map (fun x => x / maxAbs) out)).

(** The track that [addNoiseSNR] adds to [sig]: [scale * noise[i]]. *)
Definition noise_track (sig noise : list R) (snrDb : R) : list R :=
  let sigPower := rms sig in
  let noisePower := rms noise in
  let scale := sqrt (sigPower / pow 10 (snrDb / 10) / or_else noisePower 1) in
  mapi (fun _ i => scale * nth i noise 0) sig.

Definition addNoiseSNR (sig : list R) (fs snrDb : R) (seed : option Z)
    (mix band : R * R) : M (list R) :=
  noise <- makeEnvNoise fs (INR (length sig) / fs) seed mix band ;;
  let y := zipWith Rplus sig (noise_track sig noise snrDb) in
  ret (normalize95 y).

End Loops.

Definition resampleTo (y : list R) (count : Z) : outcome (list R) :=
  if (Z.of_nat (length y) =? count)%Z then Returns y
  else if (count <? 0)%Z then RangeError
  else
    let n := (Z.of_nat (length y) - 1)%Z in
    Returns (tabulate (Z.to_nat count) (fun i =>
      let idx := INR i * IZR n / Rmax 1 (IZR count - 1) in
      let i0 := floor idx in
      let i1 := Z.min n (i0 + 1) in
      let w := idx - IZR i0 in
      get y i0 * (1 - w) + get y i1 * w)).

(** [genNormalLungSignal(count, cycles)].  The three other lung entry
    points differ in what they add to the breath signal before the same
    two last steps, [addNoiseSNR] and [resampleTo]. *)
Definition genNormalLungSignal (fuel : nat) (count : Z) (cycles : R) : M (list R) :=
  let fs := 1000 in
  base <- synthBreathRandomCycles fuel
            {| fs := fs; nCycles := Z.max 1 (floor cycles); seed := Some 2025%Z;
               insp_amp_range := insp_amp_range default_params;
               exp_amp_range := exp_amp_range default_params;
               insp_dur_range := insp_dur_range default_params;
               exp_dur_range := exp_dur_range default_params;
               mid_gap_range := mid_gap_range default_params;
               post_pause_range := post_pause_range default_params;
               insp_band := insp_band default_params;
               exp_band := exp_band default_params;
               band_jitter_hz := band_jitter_hz default_params;
               jitter_amp := jitter_amp default_params;
               crossfade_s := crossfade_s default_params |} ;;
  y <- addNoiseSNR fuel (cy_y base) fs 12 (Some 2025%Z) (0.2, 0.8) (80, 3000) ;;
  lift (resampleTo y count).

(** ** Crackles *)

Inductive crackle_kind : Type := fine | coarse.

(** [clamp(x, a, b)]. *)
Definition clamp (x a b : R) : R := Rmax a (Rmin b x).

(** [crackleKernel(fs, kind, rand)]: a damped sine of random length,
    frequency, decay and phase, band-limited and divided by its peak.
    Four draws, in the order of the source. *)
Definition crackleKernel (fs : R) (kind : crackle_kind) : M (list R) :=
  u1 <- rand ;;
  let durMs := match kind with fine => lerp 6 12 u1 | coarse => lerp 14 30 u1 end in
  u2 <- rand ;;
  let f0 := match kind with fine => lerp 450 900 u2 | coarse => lerp 180 350 u2 end in
  u3 <- rand ;;
  let tauMs :=
    durMs / match kind with fine => lerp 2.0 3.0 u3 | coarse => lerp 2.2 3.5 u3 end in
  let N := Z.max 6 (round (fs * durMs / 1000)) in
  u4 <- rand ;;
  let phi := lerp (- PI / 4) (PI / 4) u4 in
  let k := tabulate (Z.to_nat N) (fun i =>
             let t := INR i / fs in
             exp (- t / (tauMs / 1000)) * sin (2 * PI * f0 * t + phi)) in
  let k := if (3 <=? N)%Z
           then upd (upd k 0 (fun v => v * 0.2)) 1 (fun v => v * 0.6)
           else k in
  let y := bandpassSafe k fs 150 (Rmin 1800 (0.49 * fs)) 4 in
  let maxAbs := max_of (map Rabs y) 1e-9 in
  ret (map (fun v => v / maxAbs) y).

Inductive crackle_event_kind : Type := ev_fine | ev_coarse | ev_burst.

Record CrackleEvent : Type :=
  { ce_sample : Z; ce_time : R; ce_amp : R; ce_kind : crackle_event_kind }.

(** The two profiles of [overlayCrackles]; [insp_late] stands for
    [bias: "insp_late"], its negation for [bias: "exp_early"]. *)
Record crackle_cfg : Type :=
  { rateHz : R; amp_range : R * R; burstProb : R; burstK : R * R;
    fineRatio : R; refractoryMs : R; insp_late : bool }.

Definition cfg_of (profile : crackle_kind) : crackle_cfg :=
  match profile with
  | fine => {| rateHz := 7.0; amp_range := (0.35, 0.65); burstProb := 0.28;
               burstK := (1, 2); fineRatio := 0.9; refractoryMs := 18;
               insp_late := true |}
  | coarse => {| rateHz := 4.2; amp_range := (0.55, 0.75); burstProb := 0.55;
                 burstK := (2, 5); fineRatio := 0.25; refractoryMs := 30;
                 insp_late := false |}
  end.

(** The placement weights [w]: all ones for a silent envelope, otherwise
    the normalised envelope mixed with a window over the late part of the
    first half, or over the early part of the second half, divided by
    its maximum. *)
Definition phase_weights (N : Z) (env : list R) (late : bool) : list R :=
  let eMax := max_of env 0 in
  if Rlt_dec 0 eMax then
    let e := map (fun v => v / eMax) env in
    let len := Z.of_nat (length e) in
    let mid := floor (IZR len / 2) in
    let window :=
      if late
      then set_at (zeros len) (floor (IZR mid / 2))
             (repeat 1 (Z.to_nat (mid - floor (IZR mid / 2))))
      else set_at (zeros len) mid
             (repeat 1 (Z.to_nat (floor (IZR (len - mid) / 2)))) in
    let w := mapi (fun v i => 0.25 + 0.75 * (0.5 * v + 0.5 * nth i window 0)) e in
    let wm := max_of w 1e-9 in
    map (fun v => v / wm) w
  else repeat 1 (Z.to_nat N).

Record overlay_state : Type :=
  { ov_i : Z; ov_last : Z; ov_out : list R; ov_events : list CrackleEvent }.

(** [synthWheezeRhythmic]'s options, defaults resolved. *)
Record WheezeOpts : Type :=
  { f0_range : R * R; per_cycle_glide : R * R; n_harm_choices : R * R;
    harmonic_decay : R; fm_dev_hz : R * R; fm_tau : R * R;
    am_depth : R * R; am_tau : R * R; gate_thr : R;
    gate_attack_ms : R; gate_release_ms : R; exp_bias : R;
    amp_scale : R; wz_seed : Z }.

Definition default_wheeze : WheezeOpts :=
  {| f0_range := (400, 800); per_cycle_glide := (-180, 60);
     n_harm_choices := (2, 3); harmonic_decay := 0.55;
     fm_dev_hz := (6, 18); fm_tau := (0.15, 0.35);
     am_depth := (0.2, 0.45); am_tau := (0.2, 0.5); gate_thr := 0.1;
     gate_attack_ms := 40; gate_release_ms := 160; exp_bias := 0.75;
     amp_scale := 0.28; wz_seed := 0 |}.

(** [normalize(arr)]: division by [Math.max(...arr, 1e-9)]. *)
Definition normalize (arr : list R) : list R :=
  let m := max_of arr 1e-9 in
  map (fun v => v / m) arr.

(** The loop of [gateFromEnv]: the gate moves towards [1] (by
    [1 / att] of the distance) while the envelope is at or above the
    threshold, and towards [0] (by [1 / rel]) while it is below. *)
Fixpoint gate_run (att rel : Z) (thr state : R) (e : list R) : list R :=
  match e with
  | [] => []
  | v :: e' =>
      let target := if Rle_dec thr v then 1 else 0 in
      let k := if Rlt_dec state target then 1 / IZR att else 1 / IZR rel in
      let state' := state + k * (target - state) in
      state' :: gate_run att rel thr state' e'
  end.

Definition gateFromEnv (env : list R) (fs thr releaseMs attackMs : R) : list R :=
  let eMax := max_of env 1e-9 in
  let e := map (fun v => v / eMax) env in
  let att := Z.max 1 (round (attackMs * fs / 1000)) in
  let rel := Z.max 1 (round (releaseMs * fs / 1000)) in
  gate_run att rel thr 0 e.

(** The loop of [smoothRand]: [val = (1 - a) * val + a * (2 * rand() - 1)]. *)
Fixpoint smooth_walk (n : nat) (a val : R) : M (list R) :=
  match n with
  | O => ret []
  | S k =>
      u <- rand ;;
      let val' := (1 - a) * val + a * (2 * u - 1) in
      rest <- smooth_walk k a val' ;;
      ret (val' :: rest)
  end.

Definition smoothRand (N : Z) (fs tauS : R) : M (list R) :=
  let a := 1 / Rmax 2 (IZR (round (tauS * fs))) in
  _ <- new_array N ;;
  y <- smooth_walk (Z.to_nat N) a 0 ;;
  let maxAbs := max_of (map Rabs y) 1e-9 in
  ret (map (fun v => v / maxAbs) y).

(** [l.map((v) => f(v, rand()))]. *)
Fixpoint map_rand (f : R -> R -> R) (l : list R) : M (list R) :=
  match l with
  | [] => ret []
  | v :: l' =>
      u <- rand ;;
      rest <- map_rand f l' ;;
      ret (f v u :: rest)
  end.

(** The indices [i >= 1] with [low[i - 1] === 1 && low[i] === 0]. *)
Fixpoint rising_edges (i : nat) (prev : R) (low : list R) : list Z :=
  match low with
  | [] => []
  | v :: low' =>
      let rest := rising_edges (S i) v low' in
      if Req_dec_T prev 1
      then (if Req_dec_T v 0 then Z.of_nat i :: rest else rest)
      else rest
  end.

(** [phi += 2 * PI * fInst[i] / fs; phiSeg[i] = phi]. *)
Fixpoint phase_run (fs phi : R) (fInst : list R) : list R :=
  match fInst with
  | [] => []
  | f :: fInst' =>
      let phi' := phi + 2 * PI * f / fs in
      phi' :: phase_run fs phi' fInst'
  end.

(** One cycle of the wheeze, between the gaps [i0] and [i1]; the state
    is the running phase and the output array. *)
Definition wheeze_segment (N : Z) (fs : R) (cfg : WheezeOpts) (e fm am : list R)
    (acc : R * list R) (gap : Z * Z) : M (R * list R) :=
  let (phi, wz) := acc in
  let (i0, i1) := gap in
  if (i1 <=? i0 + 5)%Z then ret (phi, wz)
  else
    u1 <- rand ;;
    let f0 := lerp (fst (f0_range cfg)) (snd (f0_range cfg)) u1 in
    u2 <- rand ;;
    let glide := lerp (fst (per_cycle_glide cfg)) (snd (per_cycle_glide cfg)) u2 in
    u3 <- rand ;;
    let nh := floor (lerp (fst (n_harm_choices cfg)) (snd (n_harm_choices cfg) + 1) u3) in
    let mid := floor (IZR (i0 + i1) / 2) in
    let gate := gateFromEnv (firstn (Z.to_nat (i1 - i0)) (skipn (Z.to_nat i0) e)) fs
                  (gate_thr cfg) (gate_release_ms cfg) (gate_attack_ms cfg) in
    let Nseg := (i1 - i0)%Z in
    let phaseBias := tabulate (Z.to_nat Nseg) (fun i =>
                       if (Z.of_nat i <? mid - i0)%Z then 1 * (1 - exp_bias cfg) else 1) in
    let ampEnv := normalize (mapi (fun v i => v * nth i phaseBias 0) gate) in
    let f0lin := fun i : nat => f0 + glide * INR i / Rmax 1 (IZR Nseg - 1) in
    let fInst := tabulate (Z.to_nat Nseg) (fun i =>
                   Rmax 30 (f0lin i + get fm (i0 + Z.of_nat i))) in
    let phiSeg := phase_run fs phi fInst in
    let y := fun i : nat =>
      fold_left (fun s h =>
                   s + pow (harmonic_decay cfg) (INR h - 1) * sin (INR h * nth i phiSeg 0))
        (seq 1 (Z.to_nat nh)) 0 in
    let wz := add_at wz i0 (tabulate (Z.to_nat Nseg) (fun i =>
                amp_scale cfg * get am (i0 + Z.of_nat i) * nth i ampEnv 0 * y i)) in
    ret (last phiSeg phi, wz).

(** [synthWheezeRhythmic(t, env, fs, opts)].  The callers pass a time
    axis and an envelope of the same length. *)
Definition synthWheezeRhythmic (t env : list R) (fs : R) (cfg : WheezeOpts)
  : M (list R) :=
  with_rng (rng_of (Some (wz_seed cfg))) (
    let N := Z.of_nat (length t) in
    let wz := zeros N in
    let eMax := max_of env 1e-9 in
    let e := map (fun v => v / eMax) env in
    let low := map (fun v => if Rlt_dec v 0.04 then 1 else 0) e in
    let gaps := match low with
                | [] => []
                | l0 :: low' => rising_edges 1 l0 low'
                end in
    let gaps := if (length gaps <? 2)%nat
                then [0%Z; floor (IZR N / 2); (N - 1)%Z]
                else gaps in
    u1 <- rand ;;
    let fmTau := lerp (fst (fm_tau cfg)) (snd (fm_tau cfg)) u1 in
    u2 <- rand ;;
    let amTau := lerp (fst (am_tau cfg)) (snd (am_tau cfg)) u2 in
    sm <- smoothRand N fs fmTau ;;
    fm <- map_rand (fun v u => v * lerp (fst (fm_dev_hz cfg)) (snd (fm_dev_hz cfg)) u) sm ;;
    sa <- smoothRand N fs amTau ;;
    am <- map_rand (fun v u => 1 + v * lerp (fst (am_depth cfg)) (snd (am_depth cfg)) u) sa ;;
    '(_, wz) <- foldM (wheeze_segment N fs cfg e fm am)
                  (combine gaps (tl gaps)) (0, wz) ;;
    ret (normalize95 wz)).

Section Overlays.

Variable fuel : nat.

(** One crackle of a burst: the position moves on by a random gap and
    stops at the last sample. *)
Definition burst_step (N : Z) (fs : R) (cfg : crackle_cfg)
    (Kfine Kcoarse : list (list R)) (amp : R)
    (acc : Z * list R * list CrackleEvent) (_ : nat)
  : M (Z * list R * list CrackleEvent) :=
  let '(pos, out, events) := acc in
  u <- rand ;;
  let gap := lerp 0.015 0.08 u in
  let pos := Z.min (N - 1) (floor (IZR pos + gap * fs)) in
  uf <- rand ;;
  ui <- rand ;;
  let ker2 := nth (Z.to_nat (floor (ui * 16)))
                (if Rlt_dec uf (fineRatio cfg) then Kfine else Kcoarse) [] in
  g <- gaussian fuel ;;
  let amp2 := clamp (amp * 0.85 + 0.08 * g) 0.2 0.98 in
  let k1 := Z.min N (pos + Z.of_nat (length ker2)) in
  let out := add_at out pos
               (map (fun v => amp2 * v) (firstn (Z.to_nat (k1 - pos)) ker2)) in
  ret (pos, out,
       events ++ [{| ce_sample := pos; ce_time := IZR pos / fs; ce_amp := amp2;
                     ce_kind := ev_burst |}]).

(** The body of [while (i < N)] for a position at which a crackle is
    placed. *)
Definition place_crackle (N : Z) (fs : R) (cfg : crackle_cfg)
    (Kfine Kcoarse : list (list R)) (st : overlay_state) : M overlay_state :=
  let i := ov_i st in
  uf <- rand ;;
  let pickFine := if Rlt_dec uf (fineRatio cfg) then true else false in
  ui <- rand ;;
  let ker := nth (Z.to_nat (floor (ui * INR (length (if pickFine then Kfine else Kcoarse)))))
               (if pickFine then Kfine else Kcoarse) [] in
  ua <- rand ;;
  let amp := lerp (fst (amp_range cfg)) (snd (amp_range cfg)) ua in
  let j0 := i in
  let j1 := Z.min N (j0 + Z.of_nat (length ker)) in
  let out := add_at (ov_out st) j0
               (map (fun v => amp * v) (firstn (Z.to_nat (j1 - j0)) ker)) in
  let events := ov_events st ++
                  [{| ce_sample := j0; ce_time := IZR j0 / fs; ce_amp := amp;
                      ce_kind := if pickFine then ev_fine else ev_coarse |}] in
  ub <- rand ;;
  '(last, out, events) <-
     (if Rlt_dec ub (burstProb cfg) then
        un <- rand ;;
        let addn := floor (lerp (fst (burstK cfg)) (snd (burstK cfg) + 1) un) in
        '(pos, out, events) <-
           foldM (burst_step N fs cfg Kfine Kcoarse amp)
             (seq 0 (Z.to_nat addn)) (j1, out, events) ;;
        ret (pos, out, events)
      else ret (i, out, events)) ;;
  ret {| ov_i := (i + round (0.008 * fs))%Z; ov_last := last;
         ov_out := out; ov_events := events |}.

(** [while (i < N) { ... }]. *)
Fixpoint crackle_loop (n : nat) (N : Z) (fs : R) (cfg : crackle_cfg) (p : list R)
    (refractory : Z) (Kfine Kcoarse : list (list R)) (st : overlay_state)
  : M overlay_state :=
  if (ov_i st <? N)%Z then
    match n with
    | O => out_of_fuel
    | S n' =>
        let skip := {| ov_i := (ov_i st + 1)%Z; ov_last := ov_last st;
                       ov_out := ov_out st; ov_events := ov_events st |} in
        if (ov_i st - ov_last st <? refractory)%Z
        then crackle_loop n' N fs cfg p refractory Kfine Kcoarse skip
        else
          u <- rand ;;
          if Rlt_dec u (get p (ov_i st))
          then st' <- place_crackle N fs cfg Kfine Kcoarse st ;;
               crackle_loop n' N fs cfg p refractory Kfine Kcoarse st'
          else crackle_loop n' N fs cfg p refractory Kfine Kcoarse skip
    end
  else ret st.

(** [overlayCrackles(y, env, fs, profile)]; the callers pass a signal and
    an envelope of the same length. *)
Definition overlayCrackles (y env : list R) (fs : R) (profile : crackle_kind)
  : M (list R * list CrackleEvent) :=
  with_rng (rng_of (Some 77%Z)) (
    let N := Z.of_nat (length y) in
    let cfg := cfg_of profile in
    let w := phase_weights N env (insp_late cfg) in
    let p := tabulate (Z.to_nat N) (fun i => rateHz cfg / fs * nth i w 0) in
    let refractory := round (refractoryMs cfg * fs / 1000) in
    Kfine <- replicateM 16 (crackleKernel fs fine) ;;
    Kcoarse <- replicateM 16 (crackleKernel fs coarse) ;;
    st <- crackle_loop fuel N fs cfg p refractory Kfine Kcoarse
            {| ov_i := 0; ov_last := (- refractory)%Z; ov_out := y; ov_events := [] |} ;;
    let out := ov_out st in
    let peak := max_of (map Rabs out) 1e-9 in
    ret (map (fun v => 0.98 * v / peak) out, ov_events st)).

End Overlays.

(** The breath parameters of the entry points: the defaults, at 1000 Hz,
    with the cycle count clamped to at least one. *)
Definition entry_params (cycles : R) (sd : Z) : BreathParams :=
  {| fs := 1000; nCycles := Z.max 1 (floor cycles); seed := Some sd;
     insp_amp_range := insp_amp_range default_params;
     exp_amp_range := exp_amp_range default_params;
     insp_dur_range := insp_dur_range default_params;
     exp_dur_range := exp_dur_range default_params;
     mid_gap_range := mid_gap_range default_params;
     post_pause_range := post_pause_range default_params;
     insp_band := insp_band default_params;
     exp_band := exp_band default_params;
     band_jitter_hz := band_jitter_hz default_params;
     jitter_amp := jitter_amp default_params;
     crossfade_s := crossfade_s default_params |}.

Definition genFineCracklesSignal (fuel : nat) (count : Z) (cycles : R) : M (list R) :=
  let fs := 1000 in
  base <- synthBreathRandomCycles fuel (entry_params cycles 2026) ;;
  over <- overlayCrackles fuel (cy_y base) (cy_env base) fs fine ;;
  y <- addNoiseSNR fuel (fst over) fs 10 (Some 2026%Z) (0.2, 0.8) (100, 700) ;;
  lift (resampleTo y count).

Definition genCoarseCracklesSignal (fuel : nat) (count : Z) (cycles : R) : M (list R) :=
  let fs := 1000 in
  base <- synthBreathRandomCycles fuel (entry_params cycles 2027) ;;
  over <- overlayCrackles fuel (cy_y base) (cy_env base) fs coarse ;;
  y <- addNoiseSNR fuel (fst over) fs 10 (Some 2027%Z) (0.2, 0.8) (100, 700) ;;
  lift (resampleTo y count).

(** The options that [genWheezeSignal] passes. *)
Definition entry_wheeze : WheezeOpts :=
  {| f0_range := (420, 820); per_cycle_glide := (-200, 80);
     n_harm_choices := (2, 3); harmonic_decay := 0.6;
     fm_dev_hz := (8, 16); fm_tau := (0.18, 0.35);
     am_depth := (0.25, 0.45); am_tau := (0.25, 0.45); gate_thr := 0.1;
     gate_attack_ms := gate_attack_ms default_wheeze;
     gate_release_ms := gate_release_ms default_wheeze;
     exp_bias := 0.8; amp_scale := 0.32; wz_seed := 9 |}.

Definition genWheezeSignal (fuel : nat) (count : Z) (cycles : R) : M (list R) :=
  let fs := 1000 in
  base <- synthBreathRandomCycles fuel (entry_params cycles 2028) ;;
  wz <- synthWheezeRhythmic (cy_t base) (cy_env base) fs entry_wheeze ;;
  let mix := mapi (fun v i => v + nth i wz 0) (cy_y base) in
  y <- addNoiseSNR fuel mix fs 10 (Some 2028%Z) (0.2, 0.8) (100, 700) ;;
  lift (resampleTo y count).

End Lung.

(* ================================================================== *)
(** * The generator entry points of the front page *)
(* ================================================================== *)

Module Index.

Import Fpcg.

(** The options every entry point starts from: the defaults, the cycle
    count clamped to at least one, movement and contractions off unless
    the entry point turns them on. *)
Definition entry_options (cycles : R) (movement uc : bool) : SimOptions :=
  {| cycles_per_sample := Z.max 1 (floor cycles);
     fs := fs default_options; fhr := fhr default_options;
     mhr := mhr default_options; snr_db := snr_db default_options;
     r1 := r1 default_options; c1 := c1 default_options;
     beta1 := beta1 default_options; A1 := A1 default_options;
     r2 := r2 default_options; c2 := c2 default_options;
     beta2 := beta2 default_options; A2 := A2 default_options;
     movement_enabled := movement;
     movement_intensity := movement_intensity default_options;
     movement_rate_per_min := movement_rate_per_min default_options;
     movement_duration_range := movement_duration_range default_options;
     movement_band := movement_band default_options;
     movement_thump_prob := movement_thump_prob default_options;
     movement_seed := movement_seed default_options;
     uc_enabled := uc;
     uc_rate_per_10min := uc_rate_per_10min default_options;
     uc_duration_range := uc_duration_range default_options;
     uc_rise_fall_frac := uc_rise_fall_frac default_options;
     uc_attenuation := uc_attenuation default_options;
     uc_noise_band := uc_noise_band default_options;
     uc_noise_intensity := uc_noise_intensity default_options;
     uc_seed := uc_seed default_options;
     rr_std_frac := rr_std_frac default_options |}.

Definition with_rr_std_frac (v : R) (o : SimOptions) : SimOptions :=
  {| cycles_per_sample := cycles_per_sample o;
     fs := fs o; fhr := fhr o; mhr := mhr o; snr_db := snr_db o;
     r1 := r1 o; c1 := c1 o; beta1 := beta1 o; A1 := A1 o;
     r2 := r2 o; c2 := c2 o; beta2 := beta2 o; A2 := A2 o;
     movement_enabled := movement_enabled o;
     movement_intensity := movement_intensity o;
     movement_rate_per_min := movement_rate_per_min o;
     movement_duration_range := movement_duration_range o;
     movement_band := movement_band o;
     movement_thump_prob := movement_thump_prob o;
     movement_seed := movement_seed o;
     uc_enabled := uc_enabled o;
     uc_rate_per_10min := uc_rate_per_10min o;
     uc_duration_range := uc_duration_range o;
     uc_rise_fall_frac := uc_rise_fall_frac o;
     uc_attenuation := uc_attenuation o;
     uc_noise_band := uc_noise_band o;
     uc_noise_intensity := uc_noise_intensity o;
     uc_seed := uc_seed o;
     rr_std_frac := v |}.

Definition with_movement (intensity rate : R) (o : SimOptions) : SimOptions :=
  {| cycles_per_sample := cycles_per_sample o;
     fs := fs o; fhr := fhr o; mhr := mhr o; snr_db := snr_db o;
     r1 := r1 o; c1 := c1 o; beta1 := beta1 o; A1 := A1 o;
     r2 := r2 o; c2 := c2 o; beta2 := beta2 o; A2 := A2 o;
     movement_enabled := movement_enabled o;
     movement_intensity := intensity;
     movement_rate_per_min := rate;
     movement_duration_range := movement_duration_range o;
     movement_band := movement_band o;
     movement_thump_prob := movement_thump_prob o;
     movement_seed := movement_seed o;
     uc_enabled := uc_enabled o;
     uc_rate_per_10min := uc_rate_per_10min o;
     uc_duration_range := uc_duration_range o;
     uc_rise_fall_frac := uc_rise_fall_frac o;
     uc_attenuation := uc_attenuation o;
     uc_noise_band := uc_noise_band o;
     uc_noise_intensity := uc_noise_intensity o;
     uc_seed := uc_seed o;
     rr_std_frac := rr_std_frac o |}.

Definition with_uc (rate : R) (range : R * R) (o : SimOptions) : SimOptions :=
  {| cycles_per_sample := cycles_per_sample o;
     fs := fs o; fhr := fhr o; mhr := mhr o; snr_db := snr_db o;
     r1 := r1 o; c1 := c1 o; beta1 := beta1 o; A1 := A1 o;
     r2 := r2 o; c2 := c2 o; beta2 := beta2 o; A2 := A2 o;
     movement_enabled := movement_enabled o;
     movement_intensity := movement_intensity o;
     movement_rate_per_min := movement_rate_per_min o;
     movement_duration_range := movement_duration_range o;
     movement_band := movement_band o;
     movement_thump_prob := movement_thump_prob o;
     movement_seed := movement_seed o;
     uc_enabled := uc_enabled o;
     uc_rate_per_10min := rate;
     uc_duration_range := range;
     uc_rise_fall_frac := uc_rise_fall_frac o;
     uc_attenuation := uc_attenuation o;
     uc_noise_band := uc_noise_band o;
     uc_noise_intensity := uc_noise_intensity o;
     uc_seed := uc_seed o;
     rr_std_frac := rr_std_frac o |}.

(** [noise(n)]: [(Math.random() * 2 - 1) * n]. *)
Definition noise (n : R) : M R :=
  with_rng MathRandom (u <- rand ;; ret ((u * 2 - 1) * n)).

(** The options of [synthBase], defaults resolved ([jitter = 0],
    [overtones = []]); [envelope] is optional. *)
Record synth_opts : Type :=
  { baseFreq : R; jitter : R; overtones : list R; envelope : option (nat -> R) }.

Definition synthBase (len : Z) (o : synth_opts) : M (list R) :=
  _ <- new_array len ;;
  tabulateM (Z.to_nat len) (fun i =>
    let t := INR i / IZR len in
    n1 <- noise (jitter o) ;;
    let v := sin (2 * PI * (baseFreq o * t + n1)) in
    let v := fold_left (fun v ov => v + 0.5 * sin (2 * PI * (ov * baseFreq o * t)))
               (overtones o) v in
    let v := match envelope o with Some env => v * env i | None => v end in
    n2 <- noise 0.05 ;;
    ret (v + n2)).

Section Entries.

Variable fuel : nat.

(** The two steps every entry point performs. *)
Definition generate (o : SimOptions) (count : Z) : M (list R) :=
  r <- simulateFpcgDataset fuel o ;;
  lift (resampleToLength (out_t r) (out_y r) count).

Definition genFhsNormal (count : Z) (cycles : R) : M (list R) :=
  generate (entry_options cycles false false) count.

Definition genFhsArrhythmia (count : Z) (cycles : R) : M (list R) :=
  generate (with_rr_std_frac 0.15 (entry_options cycles false false)) count.

Definition genFhsMoveStrong (count : Z) (cycles : R) : M (list R) :=
  generate (with_movement 2 12 (entry_options cycles true false)) count.

Definition genFhsMoveWeak (count : Z) (cycles : R) : M (list R) :=
  generate (with_movement 0.4 4 (entry_options cycles true false)) count.

Definition genFhsUcFast (count : Z) (cycles : R) : M (list R) :=
  generate (with_uc 6 (10, 20) (entry_options cycles false true)) count.

Definition genFhsUcSlow (count : Z) (cycles : R) : M (list R) :=
  generate (with_uc 1 (20, 40) (entry_options cycles false true)) count.

End Entries.

End Index.

(* ================================================================== *)
(** * Properties *)
(* ================================================================== *)

(** ** Lengths of the array combinators *)

Section Lengths.

Lemma tabulate_length (n : nat) (f : nat -> R) : length (tabulate n f) = n.
Proof. unfold tabulate. now rewrite length_map, length_seq. Qed.

Lemma zeros_length (n : Z) : length (zeros n) = Z.to_nat n.
Proof. unfold zeros. apply repeat_length. Qed.

Lemma zipWith_length (f : R -> R -> R) (a b : list R) :
  length (zipWith f a b) = Nat.min (length a) (length b).
Proof.
  revert b. induction a as [|x a IH]; intros [|y b]; simpl; auto.
Qed.

Lemma mapi_from_length (f : R -> nat -> R) (a : list R) (k : nat) :
  length (mapi_from k f a) = length a.
Proof. revert k. induction a as [|x a IH]; intros k; simpl; auto. Qed.

Lemma mapi_length (f : R -> nat -> R) (a : list R) : length (mapi f a) = length a.
Proof. apply mapi_from_length. Qed.

Lemma upd_nat_length (a : list R) (i : nat) (f : R -> R) :
  length (upd_nat a i f) = length a.
Proof. revert i. induction a as [|x a IH]; intros [|i]; simpl; auto. Qed.

Lemma upd_length (a : list R) (i : Z) (f : R -> R) : length (upd a i f) = length a.
Proof. unfold upd. destruct (i <? 0)%Z; auto using upd_nat_length. Qed.

Lemma add_at_length (ker sig : list R) (start : Z) :
  length (add_at sig start ker) = length sig.
Proof.
  revert sig start. induction ker as [|v ker IH]; intros sig start; simpl; auto.
  now rewrite IH, upd_length.
Qed.

Lemma set_at_length (ker sig : list R) (start : Z) :
  length (set_at sig start ker) = length sig.
Proof.
  revert sig start. induction ker as [|v ker IH]; intros sig start; simpl; auto.
  now rewrite IH, upd_length.
Qed.

Lemma onepole_run_length (a prev : R) (xs : list R) :
  length (onepole_run a prev xs) = length xs.
Proof. revert prev. induction xs as [|x xs IH]; intros prev; simpl; auto. Qed.

Lemma onepole_from_zero_length (a : R) (x : list R) :
  length (onepole_from_zero a x) = length x.
Proof. destruct x; simpl; auto using onepole_run_length. Qed.

End Lengths.

(** ** The resampler *)

(** C9. Resampling a waveform of length [L] to the target length [L]
    returns the original values unchanged: each of the three resamplers
    (the fetal module's, the adult module's and the lung module's)
    answers with a copy of its input, and no interpolation takes place. *)
Theorem resample_same_length_is_copy :
  forall xs ys : list R,
    Fpcg.resampleToLength xs ys (Z.of_nat (length ys)) = Returns ys /\
    Pcg.resampleToLength xs ys (Z.of_nat (length ys)) = Returns ys /\
    Lung.resampleTo ys (Z.of_nat (length ys)) = Returns ys.
Proof.
  intros xs ys.
  unfold Fpcg.resampleToLength, Pcg.resampleToLength, Lung.resampleTo.
  rewrite Z.eqb_refl. auto.
Qed.

(** C3. For a requested point count of at least one and a non-empty
    source waveform, the resampling step returns an array of exactly
    that many points (in all three resamplers). *)
Theorem resample_length_is_pointCount :
  forall (xs ys : list R) (pointCount : Z),
    (1 <= pointCount)%Z ->
    ys <> [] ->
    (exists out, Fpcg.resampleToLength xs ys pointCount = Returns out
                 /\ Z.of_nat (length out) = pointCount) /\
    (exists out, Pcg.resampleToLength xs ys pointCount = Returns out
                 /\ Z.of_nat (length out) = pointCount) /\
    (exists out, Lung.resampleTo ys pointCount = Returns out
                 /\ Z.of_nat (length out) = pointCount).
Proof.
  intros xs ys n Hn _.
  unfold Fpcg.resampleToLength, Pcg.resampleToLength, Lung.resampleTo.
  destruct (Z.eqb_spec (Z.of_nat (length ys)) n) as [E|E].
  - repeat split; exists ys; auto.
  - assert (Hlt : (n <? 0)%Z = false) by (apply Z.ltb_ge; lia).
    assert (Hle : (n <=? 0)%Z = false) by (apply Z.leb_gt; lia).
    rewrite Hlt, Hle.
    repeat split; eexists; (split; [reflexivity|]);
      rewrite tabulate_length; lia.
Qed.

Lemma resample_length_is_pointCount_witness :
  (exists out, Fpcg.resampleToLength [0; 1] [1; 2] 3 = Returns out
               /\ Z.of_nat (length out) = 3%Z) /\
  (exists out, Pcg.resampleToLength [0; 1] [1; 2] 3 = Returns out
               /\ Z.of_nat (length out) = 3%Z) /\
  (exists out, Lung.resampleTo [1; 2] 3 = Returns out
               /\ Z.of_nat (length out) = 3%Z).
Proof.
  apply (resample_length_is_pointCount [0; 1] [1; 2] 3).
  - lia.
  - discriminate.
Defined.

(** ** The filters *)

Section Filters.

Lemma iter_length (n : nat) (f : list R -> list R) (x : list R) :
  (forall y, length (f y) = length y) ->
  length (Nat.iter n f x) = length x.
Proof.
  intros Hf. induction n as [|n IH]; simpl; auto. now rewrite Hf.
Qed.

Lemma fpcg_lowpass_length (x : list R) (fc fs : R) :
  length (Fpcg.onepole_lowpass x fc fs) = length x.
Proof.
  unfold Fpcg.onepole_lowpass. destruct (Rle_dec fc 0); auto.
  apply onepole_from_zero_length.
Qed.

Lemma fpcg_highpass_length (x : list R) (fc fs : R) :
  length (Fpcg.onepole_highpass x fc fs) = length x.
Proof.
  unfold Fpcg.onepole_highpass. destruct (Rle_dec fc 0); auto.
  rewrite zipWith_length, fpcg_lowpass_length. apply Nat.min_id.
Qed.

Lemma simple_bandpass_length (x : list R) (f_lo f_hi fs : R) :
  length (Fpcg.simple_bandpass x f_lo f_hi fs) = length x.
Proof.
  unfold Fpcg.simple_bandpass.
  destruct (Rle_dec (fs / 2) f_hi), (Rle_dec f_lo 0);
    rewrite ?fpcg_highpass_length, ?fpcg_lowpass_length; auto.
Qed.

Lemma lung_lowpass_length (x : list R) (fc fs : R) :
  length (Lung.onepoleLP x fc fs) = length x.
Proof.
  unfold Lung.onepoleLP. destruct (Rle_dec fc 0); auto.
  apply onepole_from_zero_length.
Qed.

Lemma lung_highpass_length (x : list R) (fc fs : R) :
  length (Lung.onepoleHP x fc fs) = length x.
Proof.
  unfold Lung.onepoleHP. destruct (Rle_dec fc 0); auto.
  rewrite zipWith_length, lung_lowpass_length. apply Nat.min_id.
Qed.

Lemma bandpassSafe_length (x : list R) (fs lo hi order : R) :
  length (Lung.bandpassSafe x fs lo hi order) = length x.
Proof.
  unfold Lung.bandpassSafe.
  rewrite !iter_length; auto using lung_highpass_length, lung_lowpass_length.
Qed.

Lemma lowpass_stage_length (a : R) (y : list R) :
  length (Pcg.lowpass_stage a y) = length y.
Proof. apply onepole_from_zero_length. Qed.

Lemma highpass_stage_length (a : R) (y : list R) :
  length (Pcg.highpass_stage a y) = length y.
Proof.
  unfold Pcg.highpass_stage.
  rewrite zipWith_length, onepole_from_zero_length. apply Nat.min_id.
Qed.

Lemma lowpassFilter_length (x : list R) (fs cutoff order : R) :
  length (Pcg.lowpassFilter x fs cutoff order) = length x.
Proof.
  unfold Pcg.lowpassFilter. apply iter_length, lowpass_stage_length.
Qed.

Lemma bandpassFilter_length (x : list R) (fs low high order : R) :
  length (Pcg.bandpassFilter x fs low high order) = length x.
Proof.
  unfold Pcg.bandpassFilter.
  rewrite !iter_length; auto using lowpass_stage_length, highpass_stage_length.
Qed.

Lemma resonator_run_length (b0 a1 a2 y1 y2 : R) (xs : list R) :
  length (Pcg.resonator_run b0 a1 a2 y1 y2 xs) = length xs.
Proof.
  revert y1 y2. induction xs as [|x xs IH]; intros y1 y2; simpl; auto.
Qed.

Lemma resonator_length (x : list R) (fs f0 zeta : R) :
  length (Pcg.resonator x fs f0 zeta) = length x.
Proof. apply resonator_run_length. Qed.

Lemma exp_neg_lt_1 (x : R) : x < 0 -> exp x < 1.
Proof. intros H. rewrite <- exp_0. now apply exp_increasing. Qed.

Lemma iterations_1 : iterations 1 = 1%nat.
Proof.
  unfold iterations. rewrite (Zceil_eq 1 1); [reflexivity|lra].
Qed.

End Filters.

(** C7, as far as the code goes: a degenerate cutoff is filtered like any
    other.  With [fs = 4] and a cutoff of [2 = fs / 2], the one-pole
    low-pass of the fetal module and the cascaded low-pass of the adult
    module (one stage, the cutoff clamped to [fs / 2 - 1]) both turn
    [[1; 1]] into a signal that is neither [[1; 1]] nor [[0; 0]].  The
    adult low-pass has no test of the sign of its cutoff: with a cutoff
    of [0] its one stage turns [[1; 1]] into [[0; 0]], and with a cutoff
    of [-1] into [[0; 1 - exp (PI / 2)]], which is neither the input nor
    zeros. *)
Lemma degenerate_cutoffs_are_filtered :
  Fpcg.onepole_lowpass [1; 1] 2 4 = [0; 1 - exp (- PI)] /\
  Pcg.lowpassFilter [1; 1] 4 2 1 = [0; 1 - exp (- (PI / 2))] /\
  [0; 1 - exp (- PI)] <> [1; 1] /\ [0; 1 - exp (- PI)] <> [0; 0] /\
  [0; 1 - exp (- (PI / 2))] <> [1; 1] /\ [0; 1 - exp (- (PI / 2))] <> [0; 0] /\
  Pcg.lowpassFilter [1; 1] 4 0 1 = [0; 0] /\
  Pcg.lowpassFilter [1; 1] 4 (-1) 1 = [0; 1 - exp (PI / 2)] /\
  [0; 0] <> [1; 1] /\
  [0; 1 - exp (PI / 2)] <> [1; 1] /\ [0; 1 - exp (PI / 2)] <> [0; 0].
Proof.
  assert (Hpi := PI_RGT_0).
  assert (H1 : exp (- PI) < 1) by (apply exp_neg_lt_1; lra).
  assert (H2 : exp (- (PI / 2)) < 1) by (apply exp_neg_lt_1; lra).
  assert (H3 : 1 < exp (PI / 2)).
  { rewrite <- exp_0. apply exp_increasing. lra. }
  repeat split.
  - unfold Fpcg.onepole_lowpass. destruct (Rle_dec 2 0) as [H|_]; [lra|].
    simpl. replace (-2 * PI * 2 / 4) with (- PI) by field.
    f_equal. f_equal. ring.
  - unfold Pcg.lowpassFilter. rewrite iterations_1. simpl.
    unfold Pcg.lowpass_stage. simpl.
    replace (Rmin 2 (4 / 2 - 1)) with 1
      by (unfold Rmin; destruct (Rle_dec 2 (4 / 2 - 1)); lra).
    replace (-2 * PI * 1 / 4) with (- (PI / 2)) by field.
    f_equal. f_equal. ring.
  - intros E. injection E as E0 _. lra.
  - intros E. injection E as E1. lra.
  - intros E. injection E as E0 _. lra.
  - intros E. injection E as E1. lra.
  - unfold Pcg.lowpassFilter. rewrite iterations_1. simpl.
    unfold Pcg.lowpass_stage. simpl.
    replace (Rmin 0 (4 / 2 - 1)) with 0
      by (unfold Rmin; destruct (Rle_dec 0 (4 / 2 - 1)); lra).
    replace (-2 * PI * 0 / 4) with 0 by field.
    rewrite exp_0. f_equal. f_equal. ring.
  - unfold Pcg.lowpassFilter. rewrite iterations_1. simpl.
    unfold Pcg.lowpass_stage. simpl.
    replace (Rmin (-1) (4 / 2 - 1)) with (-1)
      by (unfold Rmin; destruct (Rle_dec (-1) (4 / 2 - 1)); lra).
    replace (-2 * PI * -1 / 4) with (PI / 2) by field.
    f_equal. f_equal. ring.
  - intros E. injection E as E0 _. lra.
  - intros E. injection E as E0 _. lra.
  - intros E. injection E as E1. lra.
Qed.

(** C7, amended.  The one-pole filters of the fetal and lung modules
    ([onepole_lowpass], [onepole_highpass], [onepoleLP], [onepoleHP])
    return their input unchanged for a cutoff that is not positive.  No
    filter raises: each returns an array of the length of its input, so a
    zero-length input gives a zero-length output.  A cutoff at or above
    Nyquist is skipped by [simple_bandpass] (its low-pass stage is left
    out), and a cutoff of at least [fs / 2 - 1] in the adult module
    ([lowpassFilter], and either edge of [bandpassFilter]), or an upper
    edge of at least [0.49 * fs] in [bandpassSafe] of the lung module, is
    replaced by that value: the filter is the filter at the clamped
    cutoff. *)
Theorem filters_degrade_gracefully :
  forall (x : list R) (fc fs f_lo f_hi cutoff order lo hi : R),
    fc <= 0 ->
    fs / 2 <= f_hi ->
    fs / 2 - 1 <= cutoff ->
    0.49 * fs <= hi ->
    (* passthrough below a positive cutoff *)
    Fpcg.onepole_lowpass x fc fs = x /\
    Fpcg.onepole_highpass x fc fs = x /\
    Lung.onepoleLP x fc fs = x /\
    Lung.onepoleHP x fc fs = x /\
    (* every filter keeps the length of its input *)
    (forall c, length (Fpcg.onepole_lowpass x c fs) = length x) /\
    (forall c, length (Fpcg.onepole_highpass x c fs) = length x) /\
    (forall l h, length (Fpcg.simple_bandpass x l h fs) = length x) /\
    (forall c o, length (Pcg.lowpassFilter x fs c o) = length x) /\
    (forall l h o, length (Pcg.bandpassFilter x fs l h o) = length x) /\
    (forall f z, length (Pcg.resonator x fs f z) = length x) /\
    (forall c, length (Lung.onepoleLP x c fs) = length x) /\
    (forall c, length (Lung.onepoleHP x c fs) = length x) /\
    (forall l h o, length (Lung.bandpassSafe x fs l h o) = length x) /\
    (* at or above Nyquist: skipped, or clamped *)
    Fpcg.simple_bandpass x f_lo f_hi fs
      = (if Rle_dec f_lo 0 then x else Fpcg.onepole_highpass x f_lo fs) /\
    Pcg.lowpassFilter x fs cutoff order = Pcg.lowpassFilter x fs (fs / 2 - 1) order /\
    (forall low,
        Pcg.bandpassFilter x fs low cutoff order
        = Pcg.bandpassFilter x fs low (fs / 2 - 1) order) /\
    (forall high,
        Pcg.bandpassFilter x fs cutoff high order
        = Pcg.bandpassFilter x fs (fs / 2 - 1) high order) /\
    Lung.bandpassSafe x fs lo hi order = Lung.bandpassSafe x fs lo (0.49 * fs) order.
Proof.
  intros x fc fs f_lo f_hi cutoff order lo hi Hfc Hhi Hcut Hsafe.
  repeat split; intros;
    auto using fpcg_lowpass_length, fpcg_highpass_length, simple_bandpass_length,
      lowpassFilter_length, bandpassFilter_length, resonator_length,
      lung_lowpass_length, lung_highpass_length, bandpassSafe_length.
  - unfold Fpcg.onepole_lowpass. destruct (Rle_dec fc 0); [reflexivity|contradiction].
  - unfold Fpcg.onepole_highpass. destruct (Rle_dec fc 0); [reflexivity|contradiction].
  - unfold Lung.onepoleLP. destruct (Rle_dec fc 0); [reflexivity|contradiction].
  - unfold Lung.onepoleHP. destruct (Rle_dec fc 0); [reflexivity|contradiction].
  - unfold Fpcg.simple_bandpass.
    destruct (Rle_dec (fs / 2) f_hi); [reflexivity|contradiction].
  - unfold Pcg.lowpassFilter.
    rewrite (Rmin_right cutoff) by assumption.
    rewrite (Rmin_left (fs / 2 - 1)) by lra. reflexivity.
  - unfold Pcg.bandpassFilter.
    rewrite (Rmin_right cutoff) by assumption.
    rewrite (Rmin_left (fs / 2 - 1) (fs / 2 - 1)) by lra. reflexivity.
  - unfold Pcg.bandpassFilter.
    rewrite (Rmin_right cutoff) by assumption.
    rewrite (Rmin_left (fs / 2 - 1) (fs / 2 - 1)) by lra. reflexivity.
  - unfold Lung.bandpassSafe.
    rewrite (Rmin_right hi) by assumption.
    rewrite (Rmin_left (0.49 * fs)) by lra. reflexivity.
Qed.

Lemma filters_degrade_gracefully_witness :
  Fpcg.onepole_lowpass [1; 2; 3] 0 1000 = [1; 2; 3] /\
  Lung.onepoleLP [1; 2; 3] 0 1000 = [1; 2; 3] /\
  Pcg.lowpassFilter [1; 2; 3] 1000 600 4 = Pcg.lowpassFilter [1; 2; 3] 1000 (1000 / 2 - 1) 4 /\
  Pcg.bandpassFilter [1; 2; 3] 1000 20 600 4
  = Pcg.bandpassFilter [1; 2; 3] 1000 20 (1000 / 2 - 1) 4.
Proof.
  destruct (filters_degrade_gracefully [1; 2; 3] 0 1000 0 500 600 4 100 490)
    as (H1 & _ & H2 & H); try lra.
  destruct H as (_ & _ & _ & _ & _ & _ & _ & _ & _ & _ & _ & H3 & H4 & _).
  repeat split; [exact H1 | exact H2 | exact H3 | exact (H4 20)].
Defined.

(** ** A program logic for the generators *)

Section Logic.

(** The contract of a random source: every draw lies in [[0, 1)]. *)
Definition unit_draws (w : world) : Prop := forall n, 0 <= draws w n < 1.

(** [ensures m Q]: whenever [m] returns under a platform source that
    respects its contract, the result satisfies [Q] (and the source still
    respects its contract). *)
Definition ensures {A} (m : M A) (Q : A -> Prop) : Prop :=
  forall s a s',
    unit_draws (snd s) -> m s = Returns (a, s') -> unit_draws (snd s') /\ Q a.

Lemma ensures_ret {A} (a : A) (Q : A -> Prop) : Q a -> ensures (ret a) Q.
Proof. intros H s b s' Hw E. inversion E; subst. auto. Qed.

Lemma ensures_bind {A B} (m : M A) (k : A -> M B) (P : A -> Prop) (Q : B -> Prop) :
  ensures m P -> (forall a, P a -> ensures (k a) Q) -> ensures (bind m k) Q.
Proof.
  intros Hm Hk s b s' Hw E. unfold bind in E.
  destruct (m s) as [[a s1]| |] eqn:Em; try discriminate.
  destruct (Hm _ _ _ Hw Em) as [Hw1 HP].
  exact (Hk a HP _ _ _ Hw1 E).
Qed.

Lemma ensures_weaken {A} (m : M A) (P Q : A -> Prop) :
  ensures m P -> (forall a, P a -> Q a) -> ensures m Q.
Proof.
  intros Hm HPQ s a s' Hw E. destruct (Hm _ _ _ Hw E). auto.
Qed.

Lemma ensures_any_bind {A B} (m : M A) (k : A -> M B) (Q : B -> Prop) :
  ensures m (fun _ => True) -> (forall a, ensures (k a) Q) -> ensures (bind m k) Q.
Proof. intros Hm Hk. apply (ensures_bind m k (fun _ => True)); auto. Qed.

Lemma ensures_lift {A} (o : outcome A) (Q : A -> Prop) :
  (forall a, o = Returns a -> Q a) -> ensures (lift o) Q.
Proof.
  intros H s a s' Hw E. unfold lift in E. destruct o; inversion E; subst. auto.
Qed.

Lemma ensures_new_array (n : Z) : ensures (new_array n) (fun _ => (0 <= n)%Z).
Proof.
  intros s a s' Hw E. unfold new_array in E.
  destruct (Z.ltb_spec n 0); inversion E; subst. split; auto.
Qed.

Lemma ensures_with_rng {A} (g : rng) (body : M A) (Q : A -> Prop) :
  ensures body Q -> ensures (with_rng g body) Q.
Proof.
  intros Hb s a s' Hw E. unfold with_rng in E.
  destruct (body (g, snd s)) as [[b s1]| |] eqn:Eb; inversion E; subst.
  destruct (Hb (g, snd s) _ _ Hw Eb). auto.
Qed.

Lemma mulberry32_unit (s : Z) : 0 <= fst (mulberry32 s) < 1.
Proof.
  unfold mulberry32. cbv zeta. simpl fst.
  set (b := mulberry32_bits _).
  assert (Hb : (0 <= b < 2 ^ 32)%Z) by (apply Z.mod_pos_bound; lia).
  destruct Hb as [H0 H1]. apply IZR_le in H0. apply IZR_lt in H1.
  change (2 ^ 32)%Z with 4294967296%Z in H1.
  split.
  - apply Rmult_le_pos; [exact H0 | lra].
  - apply (Rmult_lt_reg_r 4294967296); [lra|]. unfold Rdiv.
    rewrite Rmult_assoc, Rinv_l by lra. lra.
Qed.

Lemma ensures_rand : ensures rand (fun u => 0 <= u < 1).
Proof.
  intros [[|sd] w] u s' Hw E; unfold rand in E.
  - inversion E; subst. split; [exact Hw | apply Hw].
  - pose proof (mulberry32_unit sd) as Hu.
    destruct (mulberry32 sd) as [u0 sd']. inversion E; subst.
    split; [exact Hw | exact Hu].
Qed.

Lemma ensures_draw_nonzero (fuel : nat) :
  ensures (draw_nonzero fuel) (fun u => 0 < u < 1).
Proof.
  induction fuel as [|f IH]; simpl.
  - intros s a s' _ E. discriminate.
  - eapply ensures_bind; [apply ensures_rand|].
    intros u Hu. destruct (Req_dec_T u 0) as [E0|N0]; [exact IH|].
    apply ensures_ret. lra.
Qed.

Lemma ensures_gaussian (fuel : nat) : ensures (gaussian fuel) (fun _ => True).
Proof.
  unfold gaussian.
  eapply ensures_any_bind; [eapply ensures_weaken; [apply ensures_draw_nonzero|auto]|].
  intros u.
  eapply ensures_any_bind; [eapply ensures_weaken; [apply ensures_draw_nonzero|auto]|].
  intros v. now apply ensures_ret.
Qed.

Lemma ensures_replicateM {A} (n : nat) (m : M A) (Q : A -> Prop) :
  ensures m Q -> ensures (replicateM n m) (fun l => length l = n /\ Forall Q l).
Proof.
  intros Hm. induction n as [|n IH]; simpl.
  - apply ensures_ret. auto.
  - eapply ensures_bind; [exact Hm|]. intros x Hx.
    eapply ensures_bind; [exact IH|]. intros xs [Hl Hxs].
    apply ensures_ret. simpl. auto.
Qed.

Lemma ensures_tabulateM_from (count i : nat) (f : nat -> M R) (Q : R -> Prop) :
  (forall k, ensures (f k) Q) ->
  ensures (tabulateM_from i count f) (fun l => length l = count /\ Forall Q l).
Proof.
  intros Hf. revert i. induction count as [|c IH]; intros i; simpl.
  - apply ensures_ret. auto.
  - eapply ensures_bind; [apply Hf|]. intros x Hx.
    eapply ensures_bind; [apply IH|]. intros xs [Hl Hxs].
    apply ensures_ret. simpl. auto.
Qed.

Lemma ensures_foldM {A S} (step : S -> A -> M S) (I : S -> Prop) (l : list A) (s0 : S) :
  I s0 -> (forall s a, I s -> ensures (step s a) I) -> ensures (foldM step l s0) I.
Proof.
  intros H0 Hstep. revert s0 H0. induction l as [|a l IH]; intros s0 H0; simpl.
  - now apply ensures_ret.
  - eapply ensures_bind; [apply Hstep, H0|]. intros s1 H1. now apply IH.
Qed.

End Logic.

(** ** The Poisson event generators *)

Section Events.

Lemma gap_nonneg (u lam : R) : 0 <= u < 1 -> 0 < lam -> 0 <= - ln (1 - u) / lam.
Proof.
  intros [Hu0 Hu1] Hlam.
  assert (Hln : ln (1 - u) <= 0).
  { destruct (Req_dec_T u 0) as [->|Hne].
    - rewrite Rminus_0_r, ln_1. lra.
    - rewrite <- ln_1. left. apply ln_increasing; lra. }
  apply Rmult_le_pos; [lra|]. left. now apply Rinv_0_lt_compat.
Qed.

Lemma arrivals_ordered (n : nat) (lam total_sec t0 : R) :
  ensures (Fpcg.arrivals n lam total_sec t0)
    (fun l => StronglySorted Rle l /\ Forall (fun st => t0 <= st < total_sec) l).
Proof.
  revert t0. induction n as [|n IH]; intros t0; simpl.
  - intros s a s' _ E. discriminate.
  - destruct (Rlt_dec 0 lam) as [Hlam|_].
    + eapply ensures_bind; [apply ensures_rand|]. intros u Hu.
      pose proof (gap_nonneg u lam Hu Hlam) as Hgap.
      destruct (Rle_dec total_sec (t0 + - ln (1 - u) / lam)) as [Hend|Hgo].
      * apply ensures_ret. split; constructor.
      * eapply ensures_bind; [apply IH|]. intros rest [Hs Hb].
        apply ensures_ret. split.
        -- constructor; [exact Hs|].
           eapply Forall_impl; [|exact Hb]. simpl. intros st Hst. lra.
        -- constructor; [lra|].
           eapply Forall_impl; [|exact Hb]. simpl. intros st Hst. lra.
    + apply ensures_ret. split; constructor.
Qed.

(** A window [(start, end)] inside a waveform of [total_len] samples. *)
Definition window_ok (total_len : Z) (ev : Z * Z) : Prop :=
  (0 <= fst ev /\ fst ev < snd ev /\ snd ev <= total_len)%Z.

Definition by_start (a b : Z * Z) : Prop := (fst a <= fst b)%Z.

Lemma floor_mono_scaled (fs st st' : R) :
  0 < fs -> st <= st' -> (floor (st * fs) <= floor (st' * fs))%Z.
Proof.
  intros Hfs Hle. apply Zfloor_le. apply Rmult_le_compat_r; lra.
Qed.

Lemma floor_nonneg (x : R) : 0 <= x -> (0 <= floor x)%Z.
Proof. intros H. apply Zfloor_lub. simpl. exact H. Qed.

Lemma sorted_snoc {A} (R : A -> A -> Prop) (l : list A) (x : A) :
  StronglySorted R l -> Forall (fun y => R y x) l -> StronglySorted R (l ++ [x]).
Proof.
  induction 1 as [|a l Hs IH Ha]; intros Hx; simpl.
  - repeat constructor.
  - inversion Hx; subst. constructor; [auto|].
    apply Forall_app. split; [exact Ha | repeat constructor; auto].
Qed.

(** What the loop over the arrivals keeps true of the events pushed so
    far, given the arrivals still to come. *)
Definition events_inv (total_len : Z) (fs : R) (todo : list R) (evs : list (Z * Z))
  : Prop :=
  Forall (window_ok total_len) evs /\
  StronglySorted by_start evs /\
  Forall (fun ev => Forall (fun st => (fst ev <= floor (st * fs))%Z) todo) evs.

Lemma events_inv_skip total_len fs st todo evs :
  events_inv total_len fs (st :: todo) evs -> events_inv total_len fs todo evs.
Proof.
  intros (Hw & Hs & Hb). repeat split; auto.
  eapply Forall_impl; [|exact Hb]. intros ev H. now inversion H.
Qed.

Lemma events_inv_push total_len fs st todo evs (e_idx : Z) :
  0 < fs -> 0 <= st -> Forall (fun st' => st <= st') todo ->
  (floor (st * fs) < e_idx)%Z -> (e_idx <= total_len)%Z ->
  events_inv total_len fs (st :: todo) evs ->
  events_inv total_len fs todo (evs ++ [(floor (st * fs), e_idx)]).
Proof.
  intros Hfs Hst Htodo Hlt Hle (Hw & Hs & Hb). repeat split.
  - apply Forall_app. split; [exact Hw|]. constructor; [|constructor].
    unfold window_ok. simpl. repeat split; auto.
    apply floor_nonneg. apply Rmult_le_pos; lra.
  - apply sorted_snoc; [exact Hs|].
    eapply Forall_impl; [|exact Hb]. intros ev H. inversion H; subst.
    unfold by_start. simpl. assumption.
  - apply Forall_app. split.
    + eapply Forall_impl; [|exact Hb]. intros ev H. now inversion H.
    + constructor; [|constructor]. simpl.
      eapply Forall_impl; [|exact Htodo]. intros st' H.
      now apply floor_mono_scaled.
Qed.

Lemma movement_step_inv fuel total_len fs o st todo acc :
  0 < fs -> 0 <= st -> Forall (fun st' => st <= st') todo ->
  events_inv total_len fs (st :: todo) (snd acc) ->
  ensures (Fpcg.movement_step fuel total_len fs o acc st)
    (fun acc' => events_inv total_len fs todo (snd acc')).
Proof.
  intros Hfs Hst Htodo Hinv. destruct acc as [movement events].
  unfold Fpcg.movement_step.
  eapply ensures_any_bind; [eapply ensures_weaken; [apply ensures_rand|auto]|].
  intros u. cbv zeta.
  match goal with |- context [Z.min total_len ?b] => set (e_idx := Z.min total_len b) end.
  destruct (Z.ltb_spec (e_idx - floor (st * fs)) 4) as [Hshort|Hlong].
  - apply ensures_ret. simpl. eapply events_inv_skip; eassumption.
  - eapply ensures_any_bind;
      [eapply ensures_weaken; [apply ensures_replicateM, ensures_gaussian|auto]|].
    intros seg.
    eapply ensures_any_bind; [eapply ensures_weaken; [apply ensures_rand|auto]|].
    intros u_th.
    eapply ensures_any_bind.
    { destruct (Rlt_dec u_th (Fpcg.thump_prob o)).
      - eapply ensures_any_bind; [eapply ensures_weaken; [apply ensures_rand|auto]|].
        intros u_c. now apply ensures_ret.
      - now apply ensures_ret. }
    intros y. apply ensures_ret. simpl.
    apply events_inv_push; auto; [lia | apply Z.le_min_l].
Qed.

Lemma movement_loop_inv fuel total_len fs o todo acc :
  0 < fs -> StronglySorted Rle todo -> Forall (fun st => 0 <= st) todo ->
  events_inv total_len fs todo (snd acc) ->
  ensures (foldM (Fpcg.movement_step fuel total_len fs o) todo acc)
    (fun acc' => events_inv total_len fs [] (snd acc')).
Proof.
  intros Hfs Hs. revert acc. induction Hs as [|st todo Hs IH Hst]; intros acc Hpos Hinv; simpl.
  - now apply ensures_ret.
  - inversion Hpos; subst.
    eapply ensures_bind; [apply movement_step_inv; eauto|].
    intros acc' Hacc'. apply IH; auto.
Qed.

Lemma generate_movement_events fuel total_len fs o :
  0 < fs ->
  ensures (Fpcg.generate_movement_artifacts fuel total_len fs o)
    (fun r => Forall (window_ok total_len) (snd r) /\ StronglySorted by_start (snd r)).
Proof.
  intros Hfs. unfold Fpcg.generate_movement_artifacts.
  apply ensures_with_rng. cbv zeta.
  eapply ensures_bind; [apply arrivals_ordered|]. intros starts [Hs Hb].
  eapply ensures_weaken.
  - apply movement_loop_inv; auto.
    + eapply Forall_impl; [|exact Hb]. simpl. intros; lra.
    + simpl. repeat split; constructor.
  - intros acc (Hw & Hso & _). auto.
Qed.

End Events.

Section Envelopes.

Lemma upd_nat_Forall (P : R -> Prop) (f : R -> R) (a : list R) (i : nat) :
  (forall v, P v -> P (f v)) -> Forall P a -> Forall P (upd_nat a i f).
Proof.
  intros Hf. revert i. induction a as [|x a IH]; intros i Ha; simpl.
  - destruct i; constructor.
  - inversion Ha; subst. destruct i; constructor; auto.
Qed.

Lemma upd_Forall (P : R -> Prop) (f : R -> R) (a : list R) (i : Z) :
  (forall v, P v -> P (f v)) -> Forall P a -> Forall P (upd a i f).
Proof.
  intros Hf Ha. unfold upd. destruct (i <? 0)%Z; auto using upd_nat_Forall.
Qed.

Lemma set_at_Forall (P : R -> Prop) (ker sig : list R) (start : Z) :
  Forall P ker -> Forall P sig -> Forall P (set_at sig start ker).
Proof.
  intros Hk. revert sig start. induction Hk as [|v ker Hv Hk IH]; intros sig start Hs; simpl.
  - exact Hs.
  - apply IH. apply upd_Forall; auto.
Qed.

Lemma zeros_Forall (P : R -> Prop) (n : Z) : P 0 -> Forall P (zeros n).
Proof.
  intros H. unfold zeros. induction (Z.to_nat n); simpl; constructor; auto.
Qed.

Lemma tabulate_Forall (P : R -> Prop) (n : nat) (f : nat -> R) :
  (forall i, P (f i)) -> Forall P (tabulate n f).
Proof.
  intros H. unfold tabulate. apply Forall_map, Forall_forall. intros; apply H.
Qed.

(** A sample of an envelope with ceiling [c]. *)
Definition within (c : R) (v : R) : Prop := 0 <= v <= c.

Lemma raised_up (x : R) : within 1 (0.5 - 0.5 * cos x).
Proof. pose proof (COS_bound x). unfold within. lra. Qed.

Lemma raised_down (x : R) : within 1 (0.5 + 0.5 * cos x).
Proof. pose proof (COS_bound x). unfold within. lra. Qed.

Lemma env_seg_at_unit (Lr Lp Lf j : Z) : within 1 (Fpcg.env_seg_at Lr Lp Lf j).
Proof.
  unfold Fpcg.env_seg_at.
  destruct (j <? Lr)%Z; [apply raised_up|].
  destruct (j <? Lr + Lp)%Z; [unfold within; lra|].
  destruct (j <? Lr + Lp + Lf)%Z; [apply raised_down | unfold within; lra].
Qed.

Lemma stamp_env_unit (count : nat) (j s_idx Lr Lp Lf : Z) (env : list R) :
  Forall (within 1) env ->
  Forall (within 1) (Fpcg.stamp_env count j s_idx Lr Lp Lf env).
Proof.
  revert j env. induction count as [|c IH]; intros j env He; simpl; auto.
  apply IH. apply upd_Forall; auto.
  intros v Hv. pose proof (env_seg_at_unit Lr Lp Lf j) as Hs.
  unfold within in *. unfold Rmax. destruct (Rle_dec v _); lra.
Qed.

Lemma stamp_env_length (count : nat) (j s_idx Lr Lp Lf : Z) (env : list R) :
  length (Fpcg.stamp_env count j s_idx Lr Lp Lf env) = length env.
Proof.
  revert j env. induction count as [|c IH]; intros j env; simpl; auto.
  now rewrite IH, upd_length.
Qed.

Definition uc_window (e : Fpcg.UcEvent) : Z * Z := (Fpcg.uc_start e, Fpcg.uc_end e).

(** The invariant of the loop of [generate_uc_envelope]. *)
Definition uc_inv (total_len : Z) (fs : R) (todo : list R)
    (acc : list R * list Fpcg.UcEvent) : Prop :=
  length (fst acc) = Z.to_nat total_len /\
  Forall (within 1) (fst acc) /\
  events_inv total_len fs todo (map uc_window (snd acc)).

Lemma uc_step_inv total_len fs o st todo acc :
  0 < fs -> 0 <= st -> Forall (fun st' => st <= st') todo ->
  uc_inv total_len fs (st :: todo) acc ->
  ensures (Fpcg.uc_step total_len fs o acc st) (uc_inv total_len fs todo).
Proof.
  intros Hfs Hst Htodo (Hlen & Hunit & Hinv). destruct acc as [env events].
  unfold Fpcg.uc_step.
  eapply ensures_any_bind; [eapply ensures_weaken; [apply ensures_rand|auto]|].
  intros u. cbv zeta.
  match goal with |- context [Z.min total_len ?b] => set (e_idx := Z.min total_len b) end.
  destruct (Z.ltb_spec (e_idx - floor (st * fs)) 8) as [Hshort|Hlong].
  - apply ensures_ret. unfold uc_inv. simpl fst. simpl snd.
    split; [|split]; auto. eapply events_inv_skip; eassumption.
  - apply ensures_ret. unfold uc_inv. simpl fst. simpl snd. split; [|split].
    + now rewrite stamp_env_length.
    + now apply stamp_env_unit.
    + rewrite map_app. simpl map. unfold uc_window at 2. simpl Fpcg.uc_start.
      simpl Fpcg.uc_end.
      apply events_inv_push; auto; [lia | apply Z.le_min_l].
Qed.

Lemma uc_loop_inv total_len fs o todo acc :
  0 < fs -> StronglySorted Rle todo -> Forall (fun st => 0 <= st) todo ->
  uc_inv total_len fs todo acc ->
  ensures (foldM (Fpcg.uc_step total_len fs o) todo acc) (uc_inv total_len fs []).
Proof.
  intros Hfs Hs. revert acc.
  induction Hs as [|st todo Hs IH Hst]; intros acc Hpos Hinv; simpl.
  - now apply ensures_ret.
  - inversion Hpos; subst.
    eapply ensures_bind; [apply uc_step_inv; eauto|].
    intros acc' Hacc'. apply IH; auto.
Qed.

Lemma generate_uc_envelope_spec fuel total_len fs o :
  0 < fs ->
  ensures (Fpcg.generate_uc_envelope fuel total_len fs o)
    (fun r =>
       length (Fpcg.uc_env r) = Z.to_nat total_len /\
       length (Fpcg.uc_noise r) = Z.to_nat total_len /\
       Forall (within 1) (Fpcg.uc_env r) /\
       Forall (window_ok total_len) (map uc_window (Fpcg.uc_evs r)) /\
       StronglySorted by_start (map uc_window (Fpcg.uc_evs r))).
Proof.
  intros Hfs. unfold Fpcg.generate_uc_envelope.
  apply ensures_with_rng. cbv zeta.
  eapply ensures_bind; [apply arrivals_ordered|]. intros starts [Hs Hb].
  eapply ensures_bind.
  { apply (uc_loop_inv total_len fs o starts); auto.
    - eapply Forall_impl; [|exact Hb]. simpl. intros; lra.
    - repeat split; simpl.
      + apply zeros_length.
      + apply zeros_Forall. unfold within. lra.
      + constructor.
      + constructor.
      + constructor. }
  intros [env events] (Hlen & Hunit & Hw & Hso & _). simpl in Hlen, Hunit, Hw, Hso.
  eapply ensures_bind; [apply ensures_replicateM, ensures_gaussian|].
  intros base [Hbase _].
  apply ensures_ret. simpl. repeat split; auto.
  rewrite mapi_length.
  match goal with |- length (if ?c then _ else _) = _ => destruct c end;
    rewrite ?length_map, fpcg_lowpass_length, simple_bandpass_length; exact Hbase.
Qed.

(** ** The breath envelope *)

Lemma raisedCosine_nonneg (n : Z) : Forall (fun v => 0 <= v) (Lung.raisedCosine n).
Proof.
  unfold Lung.raisedCosine. apply tabulate_Forall. intros i.
  match goal with |- context [cos ?x] => pose proof (COS_bound x) end. lra.
Qed.

Lemma half_env_nonneg (n : Z) : Forall (fun v => 0 <= v) (Lung.half_env n).
Proof.
  unfold Lung.half_env. cbv zeta.
  assert (H : Forall (fun v => 0 <= v)
                (Lung.raisedCosine (Z.max 1 (floor (IZR n / 2)))
                 ++ rev (Lung.raisedCosine (Z.max 1 (floor (IZR n / 2)))))).
  { apply Forall_app. split; [|apply Forall_rev]; apply raisedCosine_nonneg. }
  match goal with |- Forall _ (if ?c then _ else _) => destruct c end; auto.
  apply Forall_app. split; auto. apply zeros_Forall. lra.
Qed.

Lemma max_of_ge_floor (l : list R) (c : R) : c <= max_of l c.
Proof.
  induction l as [|x l IH]; simpl; [lra|].
  eapply Rle_trans; [exact IH | apply Rmax_r].
Qed.

Lemma max_of_ge_each (l : list R) (c : R) : Forall (fun v => v <= max_of l c) l.
Proof.
  induction l as [|x l IH]; simpl; constructor.
  - apply Rmax_l.
  - eapply Forall_impl; [|exact IH]. simpl. intros v Hv.
    eapply Rle_trans; [exact Hv | apply Rmax_r].
Qed.

Lemma Forall_firstn {A} (P : A -> Prop) (n : nat) (l : list A) :
  Forall P l -> Forall P (firstn n l).
Proof.
  intros H. revert n. induction H; intros [|n]; simpl; constructor; auto.
Qed.

Lemma scaled_env_within (amp : R) (n : Z) :
  0 <= amp -> Forall (within amp) (Lung.scaled_env amp n).
Proof.
  intros Hamp. unfold Lung.scaled_env. cbv zeta.
  set (e := Lung.half_env n). set (m := max_of e 1e-9).
  assert (Hm : 0 < m).
  { pose proof (max_of_ge_floor e 1e-9). fold m in H. lra. }
  apply Forall_map, Forall_firstn.
  pose proof (half_env_nonneg n) as H0. fold e in H0.
  pose proof (max_of_ge_each e 1e-9) as H1. fold m in H1.
  rewrite Forall_forall in *. intros v Hv.
  specialize (H0 v Hv). specialize (H1 v Hv). simpl in H0, H1.
  assert (0 <= v / m <= 1).
  { split.
    - apply Rmult_le_pos; [lra|]. left. now apply Rinv_0_lt_compat.
    - apply (Rmult_le_reg_r m); [lra|]. unfold Rdiv.
      rewrite Rmult_assoc, Rinv_l by lra. lra. }
  unfold within. split; [apply Rmult_le_pos; lra|].
  rewrite <- (Rmult_1_r amp) at 2. apply Rmult_le_compat_l; lra.
Qed.

Lemma within_weaken (a b v : R) : a <= b -> within a v -> within b v.
Proof. unfold within. intros; lra. Qed.

Lemma cycle_env_within (N n_insp n_mid n_exp : Z) (insp_amp exp_amp c : R) :
  0 <= insp_amp <= c -> 0 <= exp_amp <= c ->
  Forall (within c) (Lung.cycle_env N n_insp n_mid n_exp insp_amp exp_amp).
Proof.
  intros Hi He. unfold Lung.cycle_env. cbv zeta.
  apply set_at_Forall.
  - eapply Forall_impl; [|apply scaled_env_within; lra].
    intros v. apply within_weaken. lra.
  - apply set_at_Forall.
    + eapply Forall_impl; [|apply scaled_env_within; lra].
      intros v. apply within_weaken. lra.
    + apply zeros_Forall. unfold within. lra.
Qed.

Lemma cycle_env_length (N n_insp n_mid n_exp : Z) (insp_amp exp_amp : R) :
  length (Lung.cycle_env N n_insp n_mid n_exp insp_amp exp_amp) = Z.to_nat N.
Proof.
  unfold Lung.cycle_env. cbv zeta. now rewrite !set_at_length, zeros_length.
Qed.

Lemma ensures_lerpRand (range : R * R) :
  fst range <= snd range ->
  ensures (Lung.lerpRand range) (fun v => fst range <= v <= snd range).
Proof.
  intros Hr. unfold Lung.lerpRand.
  eapply ensures_bind; [apply ensures_rand|]. intros u Hu.
  apply ensures_ret. nra.
Qed.

Lemma ensures_lerpRand_any (range : R * R) :
  ensures (Lung.lerpRand range) (fun _ => True).
Proof.
  unfold Lung.lerpRand.
  eapply ensures_any_bind; [eapply ensures_weaken; [apply ensures_rand|auto]|].
  intros u. now apply ensures_ret.
Qed.

Lemma normalize95_length (y : list R) : length (Lung.normalize95 y) = length y.
Proof. unfold Lung.normalize95. cbv zeta. apply length_map. Qed.

(** The ceiling of the breath envelope: the larger of the two upper
    amplitude bounds. *)
Definition amp_ceiling (p : Lung.BreathParams) : R :=
  Rmax (snd (Lung.insp_amp_range p)) (snd (Lung.exp_amp_range p)).

Definition amp_ranges_ok (p : Lung.BreathParams) : Prop :=
  0 <= fst (Lung.insp_amp_range p) <= snd (Lung.insp_amp_range p) /\
  0 <= fst (Lung.exp_amp_range p) <= snd (Lung.exp_amp_range p).

Definition cycle_ok (p : Lung.BreathParams) (c : Lung.cycle) : Prop :=
  length (Lung.cy_env c) = length (Lung.cy_y c) /\
  length (Lung.cy_t c) = length (Lung.cy_y c) /\
  Forall (within (amp_ceiling p)) (Lung.cy_env c).

Lemma oneCycleRandom_spec fuel p :
  amp_ranges_ok p -> ensures (Lung.oneCycleRandom fuel p) (cycle_ok p).
Proof.
  intros [Hi He]. unfold Lung.oneCycleRandom.
  eapply ensures_bind; [apply ensures_lerpRand; lra|]. intros insp_amp Hia.
  eapply ensures_bind; [apply ensures_lerpRand; lra|]. intros exp_amp Hea.
  do 8 (eapply ensures_any_bind; [apply ensures_lerpRand_any|]; intros ?).
  cbv zeta.
  eapply ensures_any_bind; [eapply ensures_weaken; [apply ensures_new_array|auto]|].
  intros _.
  eapply ensures_any_bind;
    [eapply ensures_weaken; [apply ensures_replicateM, ensures_gaussian|auto]|].
  intros x. apply ensures_ret. unfold cycle_ok. simpl.
  rewrite normalize95_length, !tabulate_length, cycle_env_length.
  repeat split; auto.
  pose proof (Rmax_l (snd (Lung.insp_amp_range p)) (snd (Lung.exp_amp_range p))).
  pose proof (Rmax_r (snd (Lung.insp_amp_range p)) (snd (Lung.exp_amp_range p))).
  apply cycle_env_within; unfold amp_ceiling; lra.
Qed.

Lemma breath_step_spec fuel p acc k :
  amp_ranges_ok p -> cycle_ok p (fst acc) ->
  ensures (Lung.breath_step fuel p acc k) (fun acc' => cycle_ok p (fst acc')).
Proof.
  intros Hp (H1 & H2 & H3). destruct acc as [all offset]. simpl in H1, H2, H3.
  unfold Lung.breath_step.
  eapply ensures_bind; [apply oneCycleRandom_spec, Hp|].
  intros c (C1 & C2 & C3). apply ensures_ret. unfold cycle_ok. simpl.
  rewrite !length_app, length_map. repeat split; try lia.
  apply Forall_app. auto.
Qed.

Lemma synthBreathRandomCycles_spec fuel p :
  amp_ranges_ok p -> ensures (Lung.synthBreathRandomCycles fuel p) (cycle_ok p).
Proof.
  intros Hp. unfold Lung.synthBreathRandomCycles. apply ensures_with_rng.
  eapply ensures_bind.
  - apply (ensures_foldM _ (fun acc => cycle_ok p (fst acc))).
    + unfold cycle_ok. simpl. auto.
    + intros acc k Hacc. now apply breath_step_spec.
  - intros [all off] Hall. now apply ensures_ret.
Qed.

End Envelopes.

Section Runs.

(** [runs m s a s']: from the state [s], [m] returns [a] and leaves [s']. *)
Definition runs {A} (m : M A) (s : rstate) (a : A) (s' : rstate) : Prop :=
  m s = Returns (a, s').

Lemma runs_ret {A} (a : A) (s : rstate) : runs (ret a) s a s.
Proof. reflexivity. Qed.

Lemma runs_bind {A B} (m : M A) (k : A -> M B) s a s1 b s2 :
  runs m s a s1 -> runs (k a) s1 b s2 -> runs (bind m k) s b s2.
Proof. unfold runs, bind. intros -> H. exact H. Qed.

Lemma runs_with_rng {A} (g : rng) (body : M A) g0 w a g1 w1 :
  runs body (g, w) a (g1, w1) -> runs (with_rng g body) (g0, w) a (g0, w1).
Proof. unfold runs, with_rng. simpl. intros ->. reflexivity. Qed.

Definition at_pos (d : nat -> R) (k : nat) : world := {| draws := d; used := k |}.

Lemma runs_rand_platform (d : nat -> R) (k : nat) :
  runs rand (MathRandom, at_pos d k) (d k) (MathRandom, at_pos d (S k)).
Proof. reflexivity. Qed.

Lemma runs_rand_seeded (sd : Z) (w : world) :
  runs rand (Seeded sd, w) (fst (mulberry32 sd)) (Seeded (snd (mulberry32 sd)), w).
Proof. unfold runs, rand. destruct (mulberry32 sd). reflexivity. Qed.

Lemma runs_draw_nonzero_platform (f : nat) (d : nat -> R) (k : nat) :
  d k <> 0 ->
  runs (draw_nonzero (S f)) (MathRandom, at_pos d k) (d k) (MathRandom, at_pos d (S k)).
Proof.
  intros Hk. simpl. eapply runs_bind; [apply runs_rand_platform|].
  destruct (Req_dec_T (d k) 0); [contradiction|apply runs_ret].
Qed.

(** The Box-Muller value of two uniform draws. *)
Definition box_muller (u v : R) : R := sqrt (-2 * ln u) * cos (2 * PI * v).

Lemma runs_gaussian_platform (f : nat) (d : nat -> R) (k : nat) :
  d k <> 0 -> d (S k) <> 0 ->
  runs (gaussian (S f)) (MathRandom, at_pos d k)
    (box_muller (d k) (d (S k))) (MathRandom, at_pos d (S (S k))).
Proof.
  intros H0 H1. unfold gaussian.
  eapply runs_bind; [now apply runs_draw_nonzero_platform|].
  eapply runs_bind; [now apply runs_draw_nonzero_platform|].
  apply runs_ret.
Qed.

End Runs.

Section Coincide.

Lemma mulberry32_eq (sd s1 bits : Z) :
  to_int32 (to_int32 sd + 0x6D2B79F5) = s1 ->
  mulberry32_bits s1 = bits ->
  mulberry32 sd = (IZR bits / 4294967296, s1).
Proof. intros <- <-. reflexivity. Qed.

Lemma runs_rand_seeded_eq (sd s1 bits : Z) (w : world) :
  to_int32 (to_int32 sd + 0x6D2B79F5) = s1 ->
  mulberry32_bits s1 = bits ->
  runs rand (Seeded sd, w) (IZR bits / 4294967296) (Seeded s1, w).
Proof.
  intros H1 H2. unfold runs, rand. now rewrite (mulberry32_eq sd s1 bits H1 H2).
Qed.

(** [exp] of a negative multiple, bounded through eight equal factors. *)
Lemma exp_eighth (x : R) : exp (8 * x) = exp x ^ 8.
Proof.
  replace (8 * x) with (x + (x + (x + (x + (x + (x + (x + x))))))) by ring.
  rewrite !exp_plus. ring.
Qed.

Lemma exp_m11_upper : exp (- (11 / 10)) < 0.36.
Proof.
  replace (- (11 / 10)) with (8 * - (11 / 80)) by lra. rewrite exp_eighth.
  set (y := exp (- (11 / 80))).
  assert (H : 0 < y < 0.88).
  { split; [apply exp_pos|]. unfold y.
    rewrite exp_Ropp.
    pose proof (exp_ineq1_le (11 / 80)) as H.
    apply (Rmult_lt_reg_r (exp (11 / 80))); [apply exp_pos|].
    rewrite Rinv_l; [nra | apply Rgt_not_eq, exp_pos]. }
  destruct H as [H0 H1].
  assert (H2 : y ^ 2 < 0.88 ^ 2) by nra.
  assert (H4 : y ^ 4 < 0.88 ^ 4) by nra.
  assert (H8 : y ^ 8 < 0.88 ^ 8) by nra.
  lra.
Qed.

Lemma exp_m11_lower : 0.30 < exp (- (11 / 10)).
Proof.
  replace (- (11 / 10)) with (8 * - (11 / 80)) by lra. rewrite exp_eighth.
  pose proof (exp_ineq1_le (- (11 / 80))) as H.
  set (y := exp (- (11 / 80))) in *.
  assert (H1 : 0.8625 <= y) by lra.
  assert (H2 : 0.8625 ^ 2 <= y ^ 2) by nra.
  assert (H4 : 0.8625 ^ 4 <= y ^ 4) by nra.
  assert (H8 : 0.8625 ^ 8 <= y ^ 8) by nra.
  lra.
Qed.

Lemma ln_gt_of_exp_lt (x y : R) : exp y < x -> y < ln x.
Proof.
  intros H. rewrite <- (ln_exp y). apply ln_increasing; [apply exp_pos | exact H].
Qed.

Lemma ln_le_of_le_exp (x y : R) : 0 < x -> x <= exp y -> ln x <= y.
Proof.
  intros Hx [H|H].
  - left. rewrite <- (ln_exp y). now apply ln_increasing.
  - right. rewrite H. apply ln_exp.
Qed.

End Coincide.

(** C5, as far as the code goes: arrival times are not always strictly
    increasing.  With the seed [631835670] the second uniform draw of the
    generator is exactly [0], so the second gap [-log(1 - 0) / lam] is
    [0] and the first two arrivals coincide.  The run is the arrival loop
    of [generate_movement_artifacts] for [rate_per_min = 60], a waveform
    of [11] samples at [fs = 10] and that seed. *)
Lemma arrivals_can_coincide :
  exists (t1 : R) (s' : rstate),
    Fpcg.arrivals 3 (60 / 60) (IZR 11 / 10) 0
      (Fpcg.rngFactory (Some 631835670%Z), {| draws := fun _ => 0; used := 0 |})
    = Returns ([t1; t1], s').
Proof.
  set (w := {| draws := fun _ => 0; used := 0 |}).
  set (u1 := 2653427450 / 4294967296).
  set (u3 := 1144304738 / 4294967296).
  assert (L1 : - (11 / 10) < ln (1 - u1)).
  { apply ln_gt_of_exp_lt. pose proof exp_m11_upper. unfold u1. lra. }
  assert (L3 : ln (1 - u1) + ln (1 - u3) <= - (11 / 10)).
  { rewrite <- ln_mult by (unfold u1, u3; lra).
    apply ln_le_of_le_exp; [unfold u1, u3; lra|].
    pose proof exp_m11_lower. unfold u1, u3. lra. }
  exists (0 + - ln (1 - u1) / (60 / 60)), (Seeded 1831565813, w).
  change (Fpcg.rngFactory (Some 631835670%Z)) with (Seeded 631835670).
  assert (Hrun : runs (Fpcg.arrivals 3 (60 / 60) (IZR 11 / 10) 0) (Seeded 631835670, w)
            [0 + - ln (1 - u1) / (60 / 60);
             0 + - ln (1 - u1) / (60 / 60) + - ln (1 - 0 / 4294967296) / (60 / 60)]
            (Seeded 1831565813, w)).
  { simpl Fpcg.arrivals.
    destruct (Rlt_dec 0 (60 / 60)) as [_|N]; [|exfalso; lra].
    (* first draw *)
    eapply runs_bind.
    { apply (runs_rand_seeded_eq _ (-1831565813) 2653427450); vm_compute; reflexivity. }
    fold u1. cbv beta zeta.
    destruct (Rle_dec (11 / 10) (0 + - ln (1 - u1) / (60 / 60))) as [Bad|_].
    { exfalso. lra. }
    (* second draw: zero *)
    eapply runs_bind; [|apply runs_ret].
    eapply runs_bind.
    { apply (runs_rand_seeded_eq _ 0 0); vm_compute; reflexivity. }
    cbv beta zeta.
    match goal with |- context [Rle_dec ?a ?b] => destruct (Rle_dec a b) as [Bad|_] end.
    { exfalso. replace (1 - 0 / 4294967296) with 1 in Bad by lra. rewrite ln_1 in Bad. lra. }
    (* third draw: past the end *)
    eapply runs_bind; [|apply runs_ret].
    eapply runs_bind.
    { apply (runs_rand_seeded_eq _ 1831565813 1144304738); vm_compute; reflexivity. }
    fold u3. cbv beta zeta.
    match goal with |- context [Rle_dec ?a ?b] => destruct (Rle_dec a b) as [_|Bad] end.
    - apply runs_ret.
    - exfalso. apply Bad.
      replace (1 - 0 / 4294967296) with 1 by lra. rewrite ln_1. lra. }
  unfold runs in Hrun. rewrite Hrun. do 4 f_equal.
  replace (1 - 0 / 4294967296) with 1 by lra. rewrite ln_1. lra.
Qed.

Section MovementRun.

Lemma runs_replicate_gaussian (f : nat) (d : nat -> R) (n k : nat) :
  (forall i, (k <= i < k + 2 * n)%nat -> d i <> 0) ->
  exists l, length l = n /\
    runs (replicateM n (gaussian (S f))) (MathRandom, at_pos d k) l
      (MathRandom, at_pos d (k + 2 * n)).
Proof.
  revert k. induction n as [|n IH]; intros k Hd.
  - exists []. split; [reflexivity|]. rewrite Nat.add_0_r. apply runs_ret.
  - destruct (IH (S (S k))) as (l & Hl & Hr).
    { intros i Hi. apply Hd. lia. }
    exists (box_muller (d k) (d (S k)) :: l). split; [simpl; lia|].
    simpl replicateM.
    eapply runs_bind; [apply runs_gaussian_platform; apply Hd; lia|].
    eapply runs_bind; [exact Hr|].
    replace (k + 2 * S n)%nat with (S (S k) + 2 * n)%nat by lia.
    apply runs_ret.
Qed.

(** The draws of the example: a first draw of [0], then [1/2] for ever. *)
Definition zero_then_half (n : nat) : R := if (n =? 0)%nat then 0 else 1 / 2.

Definition example_movement_opts : Fpcg.movement_opts :=
  {| Fpcg.rate_per_min := 6;
     Fpcg.mv_duration_range := (0.2, 0.6);
     Fpcg.band := (15, 200);
     Fpcg.intensity := 1;
     Fpcg.thump_prob := 0.25;
     Fpcg.mv_seed := None |}.

Lemma ln_2_lower : 1 / 2 < ln 2.
Proof. pose proof ln_lt_2. lra. Qed.

Lemma example_movement_run :
  exists mv s',
    Fpcg.generate_movement_artifacts 3 8 10 example_movement_opts
      (MathRandom, at_pos zero_then_half 0)
    = Returns ((mv, [(0, 4)%Z]), s').
Proof.
  assert (Hhalf : forall i, (1 <= i)%nat -> zero_then_half i = 1 / 2).
  { intros [|i] Hi; [lia|reflexivity]. }
  assert (Hnz : forall i, (1 <= i)%nat -> zero_then_half i <> 0).
  { intros i Hi. rewrite Hhalf by exact Hi. lra. }
  destruct (runs_replicate_gaussian 2 zero_then_half 4 3) as (seg & Hseg & Hrun).
  { intros i Hi. apply Hnz. lia. }
  eexists. eexists.
  unfold Fpcg.generate_movement_artifacts.
  apply (runs_with_rng _ _ MathRandom _ _ MathRandom).
  unfold example_movement_opts at 1. simpl Fpcg.mv_seed. simpl Fpcg.rngFactory.
  cbv zeta. simpl Fpcg.rate_per_min.
  (* the arrivals: one at time 0, the next past the end *)
  eapply runs_bind.
  { simpl Fpcg.arrivals.
    destruct (Rlt_dec 0 (6 / 60)) as [_|N]; [|exfalso; lra].
    eapply runs_bind; [apply runs_rand_platform|].
    change (zero_then_half 0) with 0. cbv beta zeta.
    replace (0 + - ln (1 - 0) / (6 / 60)) with 0
      by (rewrite Rminus_0_r, ln_1; lra).
    destruct (Rle_dec (IZR 8 / 10) 0) as [Bad|_]; [exfalso; lra|].
    eapply runs_bind; [|apply runs_ret].
    eapply runs_bind; [apply runs_rand_platform|].
    rewrite (Hhalf 1%nat) by lia. cbv beta zeta.
    destruct (Rle_dec (IZR 8 / 10) (0 + - ln (1 - 1 / 2) / (6 / 60))) as [_|Bad].
    - apply runs_ret.
    - exfalso. apply Bad.
      replace (1 - 1 / 2) with (/ 2) by lra. rewrite ln_Rinv by lra.
      pose proof ln_2_lower. lra. }
  (* the loop over the one arrival *)
  simpl foldM.
  eapply runs_bind; [|apply runs_ret].
  unfold Fpcg.movement_step.
  eapply runs_bind; [apply runs_rand_platform|].
  rewrite (Hhalf 2%nat) by lia. cbv beta zeta.
  unfold example_movement_opts. simpl Fpcg.mv_duration_range. simpl fst. simpl snd.
  replace (floor (0 * 10)) with 0%Z
    by (symmetry; apply Zfloor_eq; simpl; lra).
  replace (floor ((0.2 + 1 / 2 * (0.6 - 0.2)) * 10)) with 4%Z
    by (symmetry; apply Zfloor_eq; simpl; lra).
  change (Z.min 8 (0 + Z.max 1 4)) with 4%Z.
  change (4 - 0 <? 4)%Z with false. cbv iota.
  change (Z.to_nat (4 - 0)) with 4%nat.
  eapply runs_bind; [exact Hrun|].
  eapply runs_bind; [apply runs_rand_platform|].
  rewrite (Hhalf (3 + 2 * 4)%nat) by lia. simpl Fpcg.thump_prob.
  destruct (Rlt_dec (1 / 2) 0.25) as [Bad|_]; [exfalso; lra|].
  eapply runs_bind; [apply runs_ret|].
  apply runs_ret.
Qed.

End MovementRun.

(** ** The seeded generator returns [0] for one state only *)

Section Mulberry.

Open Scope Z_scope.

Lemma to_uint32_range (x : Z) : 0 <= to_uint32 x < 2 ^ 32.
Proof. apply Z.mod_pos_bound. lia. Qed.

Lemma to_uint32_int32 (x : Z) : to_uint32 (to_int32 x) = to_uint32 x.
Proof.
  unfold to_uint32, to_int32.
  rewrite <- Zminus_mod_idemp_l, Z.mod_mod by lia.
  rewrite Zminus_mod_idemp_l. f_equal. lia.
Qed.

Lemma to_uint32_idem (x : Z) : to_uint32 (to_uint32 x) = to_uint32 x.
Proof. unfold to_uint32. apply Z.mod_mod. lia. Qed.

Lemma to_uint32_lxor (a b : Z) :
  to_uint32 (Z.lxor a b) = Z.lxor (to_uint32 a) (to_uint32 b).
Proof.
  unfold to_uint32. apply Z.bits_inj'. intros i Hi.
  rewrite Z.lxor_spec, !Z.testbit_mod_pow2, Z.lxor_spec by lia.
  destruct (i <? 32); simpl; reflexivity.
Qed.

Lemma to_uint32_bxor (a b : Z) :
  to_uint32 (bxor a b) = Z.lxor (to_uint32 a) (to_uint32 b).
Proof. unfold bxor. now rewrite to_uint32_lxor, !to_uint32_int32. Qed.

Lemma to_uint32_ushr (x k : Z) : 0 <= k -> to_uint32 (ushr x k) = Z.shiftr (to_uint32 x) k.
Proof.
  intros Hk. unfold ushr. unfold to_uint32 at 1.
  apply Z.mod_small. pose proof (to_uint32_range x) as [H0 H1].
  rewrite Z.shiftr_div_pow2 by lia. split.
  - apply Z.div_pos; lia.
  - apply Z.div_lt_upper_bound; [lia|].
    assert (1 <= 2 ^ k) by (apply (Z.pow_le_mono_r 2 0 k); lia). nia.
Qed.

Lemma to_uint32_imul (a b : Z) :
  to_uint32 (imul a b) = (to_uint32 a * to_uint32 b) mod 2 ^ 32.
Proof.
  unfold imul. rewrite to_uint32_int32. unfold to_uint32 at 1.
  rewrite <- Zmult_mod_idemp_l, <- Zmult_mod_idemp_r.
  change ((to_int32 a) mod 2 ^ 32) with (to_uint32 (to_int32 a)).
  change ((to_int32 b) mod 2 ^ 32) with (to_uint32 (to_int32 b)).
  now rewrite !to_uint32_int32.
Qed.

Lemma xorshift_zero (u k : Z) :
  0 <= u -> 0 < k -> Z.lxor u (Z.shiftr u k) = 0 -> u = 0.
Proof.
  intros Hu Hk E. apply Z.lxor_eq in E.
  rewrite Z.shiftr_div_pow2 in E by lia.
  destruct (Z.eq_dec u 0) as [|Hne]; [assumption|].
  assert (u / 2 ^ k < u).
  { apply Z.div_lt; [lia|]. apply (Z.pow_gt_1 2 k); lia. }
  lia.
Qed.

Lemma to_uint32_bor_odd (c t : Z) : Z.odd c = true -> Z.odd (to_uint32 (bor c t)) = true.
Proof.
  intros Hc. unfold bor, to_uint32.
  rewrite <- Z.bit0_odd, Z.mod_pow2_bits_low, Z.lor_spec by lia.
  assert (H : Z.testbit (to_int32 c) 0 = true).
  { rewrite <- (Z.mod_pow2_bits_low _ 32) by lia.
    change (to_int32 c mod 2 ^ 32) with (to_uint32 (to_int32 c)).
    rewrite to_uint32_int32. unfold to_uint32.
    rewrite Z.mod_pow2_bits_low by lia. now rewrite Z.bit0_odd. }
  now rewrite H.
Qed.

Lemma pow2_divides_odd_multiple (n : nat) (a b : Z) :
  Z.odd b = true -> (2 ^ Z.of_nat n | a * b) -> (2 ^ Z.of_nat n | a).
Proof.
  intros Hb. revert a. induction n as [|n IH]; intros a Hd.
  - apply Z.divide_1_l.
  - rewrite Nat2Z.inj_succ, Z.pow_succ_r in * by lia.
    assert (Ha : Z.even a = true).
    { destruct Hd as [q Hq].
      assert (He : Z.even (a * b) = true).
      { rewrite Hq, Z.even_mul, (Z.even_mul 2). simpl. apply orb_true_r. }
      rewrite Z.even_mul in He.
      assert (Hev : Z.even b = false) by (rewrite <- Z.negb_odd, Hb; reflexivity).
      rewrite Hev in He. now rewrite orb_false_r in He. }
    apply Z.even_spec in Ha. destruct Ha as [a' ->].
    apply Z.mul_divide_mono_l. apply IH.
    destruct Hd as [q Hq]. exists q. nia.
Qed.

Lemma odd_factor_cancels (a b : Z) :
  0 <= a < 2 ^ 32 -> Z.odd b = true -> (a * b) mod 2 ^ 32 = 0 -> a = 0.
Proof.
  intros Ha Hb E.
  assert (Hdiv : (2 ^ Z.of_nat 32 | a * b)).
  { apply Z.mod_divide; [simpl; lia | exact E]. }
  apply pow2_divides_odd_multiple in Hdiv; [|exact Hb].
  destruct Hdiv as [q Hq]. change (2 ^ Z.of_nat 32) with (2 ^ 32) in Hq. nia.
Qed.

(** The output bits are [0] only for the state [0]. *)
Lemma mulberry32_bits_zero (s1 : Z) : mulberry32_bits s1 = 0 -> to_uint32 s1 = 0.
Proof.
  unfold mulberry32_bits. cbv zeta.
  set (t1 := imul (bxor s1 (ushr s1 15)) (bor 1 s1)).
  set (m := imul (bxor t1 (ushr t1 7)) (bor 61 t1)).
  set (t2 := bxor (t1 + m) t1).
  intros E.
  (* the last xorshift *)
  rewrite to_uint32_bxor, to_uint32_ushr in E by lia.
  apply xorshift_zero in E; [|apply to_uint32_range|lia].
  (* the addition *)
  unfold t2 in E. rewrite to_uint32_bxor in E. apply Z.lxor_eq in E.
  assert (Hm : to_uint32 m = 0).
  { unfold to_uint32 in *.
    assert (H : ((t1 + m) - t1) mod 2 ^ 32 = 0).
    { rewrite Zminus_mod, E, Z.sub_diag. reflexivity. }
    replace (t1 + m - t1) with m in H by lia. exact H. }
  unfold m in Hm. rewrite to_uint32_imul in Hm.
  apply odd_factor_cancels in Hm;
    [|apply to_uint32_range|now apply to_uint32_bor_odd].
  rewrite to_uint32_bxor, to_uint32_ushr in Hm by lia.
  apply xorshift_zero in Hm; [|apply to_uint32_range|lia].
  (* the first multiplication *)
  unfold t1 in Hm. rewrite to_uint32_imul in Hm.
  apply odd_factor_cancels in Hm;
    [|apply to_uint32_range|now apply to_uint32_bor_odd].
  rewrite to_uint32_bxor, to_uint32_ushr in Hm by lia.
  apply xorshift_zero in Hm; [|apply to_uint32_range|lia].
  exact Hm.
Qed.

Lemma to_int32_range (x : Z) : - 2 ^ 31 <= to_int32 x < 2 ^ 31.
Proof.
  unfold to_int32. pose proof (Z.mod_pos_bound (x + 2 ^ 31) (2 ^ 32)). lia.
Qed.

Lemma to_int32_zero (x : Z) : to_uint32 (to_int32 x) = 0 -> to_int32 x = 0.
Proof.
  intros H. pose proof (to_int32_range x) as Hr. unfold to_uint32 in H.
  apply Z.mod_divide in H; [|lia]. destruct H as [q Hq]. lia.
Qed.

(** A draw of [0] is followed by a draw that is not [0]. *)
Lemma mulberry32_zero_then_nonzero (s : Z) :
  fst (mulberry32 s) = 0%R -> fst (mulberry32 (snd (mulberry32 s))) <> 0%R.
Proof.
  unfold mulberry32. cbv zeta. simpl fst. simpl snd.
  set (s1 := to_int32 (to_int32 s + 0x6D2B79F5)).
  intros E.
  assert (Hb : mulberry32_bits s1 = 0).
  { apply eq_IZR.
    apply (Rmult_eq_reg_r (/ 4294967296)); [|lra].
    fold (Rdiv (IZR (mulberry32_bits s1)) 4294967296). rewrite E. lra. }
  apply mulberry32_bits_zero in Hb.
  assert (Hs1 : s1 = 0) by (apply to_int32_zero; exact Hb).
  rewrite Hs1. intros E2.
  assert (Hb2 : mulberry32_bits (to_int32 (to_int32 0 + 0x6D2B79F5)) = 0).
  { apply eq_IZR.
    apply (Rmult_eq_reg_r (/ 4294967296)); [|lra].
    match goal with |- (?a * / ?b = _)%R => fold (Rdiv a b) end.
    rewrite E2. lra. }
  vm_compute in Hb2. discriminate.
Qed.

End Mulberry.

(** ** Termination: every routine returns *)

Section Totality.

(** The platform source never returns exactly [0] (a draw of [0] is
    possible in principle, and a source that returned nothing else would
    keep the rejection loops of [gaussian] spinning for ever). *)
Definition nonzero_draws (w : world) : Prop := forall n, draws w n <> 0.

(** [returns m Q]: from every state whose platform source is as above,
    [m] returns, with a result that satisfies [Q]. *)
Definition returns {A} (m : M A) (Q : A -> Prop) : Prop :=
  forall s, nonzero_draws (snd s) ->
    exists a s', m s = Returns (a, s') /\ nonzero_draws (snd s') /\ Q a.

Lemma returns_ret {A} (a : A) (Q : A -> Prop) : Q a -> returns (ret a) Q.
Proof. intros H s Hw. exists a, s. auto. Qed.

Lemma returns_bind {A B} (m : M A) (k : A -> M B) (P : A -> Prop) (Q : B -> Prop) :
  returns m P -> (forall a, P a -> returns (k a) Q) -> returns (bind m k) Q.
Proof.
  intros Hm Hk s Hw. destruct (Hm s Hw) as (a & s1 & Em & Hw1 & HP).
  destruct (Hk a HP s1 Hw1) as (b & s2 & Ek & Hw2 & HQ).
  exists b, s2. unfold bind. rewrite Em. auto.
Qed.

Lemma returns_weaken {A} (m : M A) (P Q : A -> Prop) :
  returns m P -> (forall a, P a -> Q a) -> returns m Q.
Proof.
  intros Hm HPQ s Hw. destruct (Hm s Hw) as (a & s1 & Em & Hw1 & HP).
  exists a, s1. auto.
Qed.

Lemma returns_any_bind {A B} (m : M A) (k : A -> M B) (P : A -> Prop) (Q : B -> Prop) :
  returns m P -> (forall a, returns (k a) Q) -> returns (bind m k) Q.
Proof. intros Hm Hk. apply (returns_bind m k P); auto. Qed.

Lemma returns_skip {A B} (m : M A) (k : A -> M B) (Q : B -> Prop) :
  returns m (fun _ => True) -> (forall a, returns (k a) Q) -> returns (bind m k) Q.
Proof. apply returns_any_bind. Qed.

Lemma returns_forget {A} (m : M A) (P : A -> Prop) :
  returns m P -> returns m (fun _ => True).
Proof. intros H. eapply returns_weaken; [exact H|auto]. Qed.

Lemma returns_new_array (n : Z) : (0 <= n)%Z -> returns (new_array n) (fun _ => True).
Proof.
  intros Hn s Hw. exists tt, s. unfold new_array.
  destruct (Z.ltb_spec n 0); [lia|auto].
Qed.

Lemma returns_lift {A} (a : A) (Q : A -> Prop) : Q a -> returns (lift (Returns a)) Q.
Proof. intros H s Hw. exists a, s. auto. Qed.

Lemma returns_with_rng {A} (g : rng) (body : M A) (Q : A -> Prop) :
  returns body Q -> returns (with_rng g body) Q.
Proof.
  intros Hb s Hw. destruct (Hb (g, snd s) Hw) as (a & s1 & Eb & Hw1 & HQ).
  exists a, (fst s, snd s1). unfold with_rng. rewrite Eb. auto.
Qed.

Lemma returns_rand : returns rand (fun _ => True).
Proof.
  intros [[|sd] w] Hw; unfold rand.
  - eexists. eexists. split; [reflexivity|]. split; [exact Hw | exact I].
  - destruct (mulberry32 sd) as [u sd']. eexists. eexists.
    split; [reflexivity|]. split; [exact Hw | exact I].
Qed.

(** Two turns of the rejection loop are always enough: the platform
    source does not return [0], and the seeded one does not do so twice
    in a row. *)
Lemma returns_draw_nonzero (fuel : nat) :
  (2 <= fuel)%nat -> returns (draw_nonzero fuel) (fun _ => True).
Proof.
  intros Hf. destruct fuel as [|[|f]]; try lia.
  intros [[|sd] w] Hw.
  - exists (draws w (used w)). eexists. split; [|split; [|exact I]].
    + change (draw_nonzero (S (S f)))
        with (bind rand (fun u => if Req_dec_T u 0 then draw_nonzero (S f) else ret u)).
      unfold bind, rand.
      destruct (Req_dec_T (draws w (used w)) 0) as [E|_]; [|reflexivity].
      exfalso. exact (Hw _ E).
    + exact Hw.
  - change (draw_nonzero (S (S f)))
      with (bind rand (fun u => if Req_dec_T u 0 then draw_nonzero (S f) else ret u)).
    unfold bind at 1. unfold rand at 1.
    pose proof (mulberry32_zero_then_nonzero sd) as Hz.
    destruct (mulberry32 sd) as [u sd'] eqn:E1. cbn [fst snd] in Hz.
    destruct (Req_dec_T u 0) as [E0|N0].
    + specialize (Hz E0).
      change (draw_nonzero (S f))
        with (bind rand (fun u => if Req_dec_T u 0 then draw_nonzero f else ret u)).
      unfold bind, rand.
      destruct (mulberry32 sd') as [u2 sd2]. cbn [fst] in Hz.
      destruct (Req_dec_T u2 0) as [E2|_]; [contradiction|].
      eexists. eexists. split; [reflexivity|]. split; [exact Hw | exact I].
    + eexists. eexists. split; [reflexivity|]. split; [exact Hw | exact I].
Qed.

Lemma returns_gaussian (fuel : nat) :
  (2 <= fuel)%nat -> returns (gaussian fuel) (fun _ => True).
Proof.
  intros Hf. unfold gaussian.
  eapply returns_any_bind; [now apply returns_draw_nonzero|]. intros u.
  eapply returns_any_bind; [now apply returns_draw_nonzero|]. intros v.
  now apply returns_ret.
Qed.

Lemma returns_replicateM {A} (n : nat) (m : M A) (Q : A -> Prop) :
  returns m Q -> returns (replicateM n m) (fun l => length l = n).
Proof.
  intros Hm. induction n as [|n IH]; simpl.
  - now apply returns_ret.
  - eapply returns_any_bind; [exact Hm|]. intros x.
    eapply returns_bind; [exact IH|]. intros xs Hl.
    apply returns_ret. simpl. now rewrite Hl.
Qed.

Lemma returns_tabulateM (n : nat) (f : nat -> M R) :
  (forall k, returns (f k) (fun _ => True)) ->
  returns (tabulateM n f) (fun l => length l = n).
Proof.
  intros Hf. unfold tabulateM. generalize 0%nat as i.
  induction n as [|n IH]; intros i; simpl.
  - now apply returns_ret.
  - eapply returns_any_bind; [apply Hf|]. intros x.
    eapply returns_bind; [apply IH|]. intros xs Hl.
    apply returns_ret. simpl. now rewrite Hl.
Qed.

Lemma returns_foldM {A S} (step : S -> A -> M S) (Inv : S -> Prop) (l : list A) (s0 : S) :
  Inv s0 -> (forall s a, Inv s -> returns (step s a) Inv) ->
  returns (foldM step l s0) Inv.
Proof.
  intros H0 Hstep. revert s0 H0. induction l as [|a l IH]; intros s0 H0; simpl.
  - now apply returns_ret.
  - eapply returns_bind; [apply Hstep, H0|]. intros s1 H1. now apply IH.
Qed.

(** *** The adult simulator *)

Lemma envelopedBurst_returns fuel n fs center width amp :
  (2 <= fuel)%nat -> (0 <= n)%Z ->
  returns (Pcg.envelopedBurst fuel n fs center width amp)
    (fun l => length l = Z.to_nat n).
Proof.
  intros Hf Hn. unfold Pcg.envelopedBurst.
  eapply returns_any_bind; [now apply returns_new_array|]. intros _. cbv zeta.
  eapply returns_any_bind; [now apply returns_gaussian|]. intros g0.
  apply returns_tabulateM. intros k.
  eapply returns_any_bind; [now apply returns_gaussian|]. intros g1.
  eapply returns_any_bind; [now apply returns_gaussian|]. intros g2.
  now apply returns_ret.
Qed.

Lemma valveEvent_returns fuel n fs center width ampMain ampSub delayMs :
  (2 <= fuel)%nat -> (0 <= n)%Z ->
  returns (Pcg.valveEvent fuel n fs center width ampMain ampSub delayMs)
    (fun l => length l = Z.to_nat n).
Proof.
  intros Hf Hn. unfold Pcg.valveEvent. cbv zeta.
  eapply returns_bind; [now apply envelopedBurst_returns|]. intros main Hmain.
  eapply returns_bind; [now apply envelopedBurst_returns|]. intros sub Hsub.
  apply returns_ret. rewrite zipWith_length, Hmain, Hsub. apply Nat.min_id.
Qed.

Lemma murmur_fill_returns fuel n startIdx len gain env :
  (2 <= fuel)%nat ->
  returns (Pcg.murmur_fill fuel n startIdx len gain env) (fun _ => True).
Proof.
  intros Hf. unfold Pcg.murmur_fill.
  eapply returns_any_bind.
  - apply returns_tabulateM. intros k.
    eapply returns_any_bind; [now apply returns_gaussian|]. intros g.
    now apply returns_ret.
  - intros vals. now apply returns_ret.
Qed.

Lemma simulateSingleBeat_returns fuel fs duration params abnormal :
  (2 <= fuel)%nat -> (0 <= floor (duration * fs))%Z ->
  returns (Pcg.simulateSingleBeat fuel fs duration params abnormal) (fun _ => True).
Proof.
  intros Hf Hn. unfold Pcg.simulateSingleBeat. cbv zeta.
  eapply returns_any_bind; [now apply valveEvent_returns|]. intros s1.
  eapply returns_any_bind; [now apply valveEvent_returns|]. intros s2.
  apply returns_skip; [|intros beat; now apply returns_ret].
  destruct abnormal.
  - now apply returns_ret.
  - apply returns_skip; [|intros; now apply returns_ret].
    unfold Pcg.addSystolicMurmur. cbv zeta.
    apply returns_skip; [|intros; now apply returns_ret].
    match goal with |- returns (if ?c then _ else _) _ => destruct c end;
      [now apply murmur_fill_returns | now apply returns_ret].
  - cbv zeta.
    apply returns_skip; [|intros; now apply returns_ret].
    unfold Pcg.addDiastolicMurmur. cbv zeta.
    apply returns_skip; [|intros; now apply returns_ret].
    match goal with |- returns (if ?c then _ else _) _ => destruct c end;
      [now apply murmur_fill_returns | now apply returns_ret].
  - apply returns_skip; [|intros; now apply returns_ret].
    unfold Pcg.addS2Split. cbv zeta.
    apply returns_skip;
      [eapply returns_forget; now apply valveEvent_returns|].
    intros; now apply returns_ret.
  - apply returns_skip; [|intros; now apply returns_ret].
    unfold Pcg.addS3Sound. cbv zeta.
    apply returns_skip; [|intros; now apply returns_ret].
    match goal with |- returns (if ?c then _ else _) _ =>
      destruct c eqn:Hidx end; [|now apply returns_ret].
    apply Z.ltb_lt in Hidx.
    apply returns_skip;
      [eapply returns_forget; apply envelopedBurst_returns; [exact Hf|lia]|].
    intros; now apply returns_ret.
Qed.

Lemma addNoiseSNR_returns fuel x snrDb fs :
  (2 <= fuel)%nat -> returns (Pcg.addNoiseSNR fuel x snrDb fs) (fun _ => True).
Proof.
  intros Hf. unfold Pcg.addNoiseSNR.
  eapply returns_any_bind; [eapply returns_replicateM; now apply returns_gaussian|].
  intros noise. now apply returns_ret.
Qed.

(** The beats of a run: each is a processed beat, put through the weak
    guard and the normalisation. *)
Definition beats_shape (acc : list (list R) * list R * list R) : Prop :=
  Forall (fun b => exists processed,
            b = Pcg.normalize_beat (Pcg.amplify_weak processed))
    (fst (fst acc)).

Lemma one_beat_returns fuel fs beatLengthSec params abnormal snrDb acc b :
  (2 <= fuel)%nat -> (0 <= floor (beatLengthSec * fs))%Z -> beats_shape acc ->
  returns (Pcg.one_beat fuel fs beatLengthSec params abnormal snrDb acc b) beats_shape.
Proof.
  intros Hf Hn Hacc. destruct acc as [[beats s1t] s2t]. unfold Pcg.one_beat.
  eapply returns_any_bind; [now apply simulateSingleBeat_returns|].
  intros [[beat s1Time] s2Time].
  eapply returns_any_bind; [now apply addNoiseSNR_returns|]. intros processed.
  apply returns_ret. unfold beats_shape in *. simpl in *.
  apply Forall_app. split; [exact Hacc|]. constructor; [|constructor].
  now exists processed.
Qed.

(** What [simulateMultibeat] returns, in terms of its beats. *)
Definition multibeat_shape (r : Pcg.multibeat) : Prop :=
  exists beats : list (list R),
    Forall (fun b => exists processed,
              b = Pcg.normalize_beat (Pcg.amplify_weak processed)) beats /\
    Pcg.warned r = Pcg.weak (concat beats) /\
    Pcg.pcg r = if Pcg.weak (concat beats)
                then map (fun v => v * 10) (concat beats)
                else concat beats.

Lemma simulateMultibeat_returns fuel numBeats fs beatLengthSec params abnormal snrDb :
  (2 <= fuel)%nat -> (0 <= floor (beatLengthSec * fs))%Z ->
  returns (Pcg.simulateMultibeat fuel numBeats fs beatLengthSec params abnormal snrDb)
    multibeat_shape.
Proof.
  intros Hf Hn. unfold Pcg.simulateMultibeat.
  eapply returns_bind.
  - apply (returns_foldM _ beats_shape).
    + unfold beats_shape. simpl. constructor.
    + intros acc b Hacc. now apply one_beat_returns.
  - intros [[beats s1t] s2t] Hshape. unfold beats_shape in Hshape. simpl in Hshape.
    destruct (Pcg.weak (concat beats)) eqn:Hweak; apply returns_ret;
      exists beats; simpl; rewrite Hweak; auto.
Qed.

End Totality.

(** C5, amended.  For every event list produced by the two Poisson
    event generators (movement artifacts and uterine contractions), under
    a positive sample rate and a random source whose draws lie in
    [[0, 1)]: each event satisfies [0 <= start < end <= total_len] (so
    [end > start], and the window is clipped to the waveform), and the
    events are ordered by start, [events[i+1].start >= events[i].start].
    The arrival times behind them are non-negative, below the duration
    and non-decreasing; they are not always strictly increasing, since a
    uniform draw of exactly [0] gives a gap of [0]. *)
Theorem poisson_events_are_ordered_windows :
  forall (fuel : nat) (total_len : Z) (fs : R)
         (mo : Fpcg.movement_opts) (uo : Fpcg.uc_opts) (s : rstate),
    0 < fs ->
    unit_draws (snd s) ->
    (forall mv evs s',
        Fpcg.generate_movement_artifacts fuel total_len fs mo s = Returns ((mv, evs), s') ->
        Forall (window_ok total_len) evs /\ StronglySorted by_start evs) /\
    (forall r s',
        Fpcg.generate_uc_envelope fuel total_len fs uo s = Returns (r, s') ->
        Forall (window_ok total_len) (map uc_window (Fpcg.uc_evs r)) /\
        StronglySorted by_start (map uc_window (Fpcg.uc_evs r))) /\
    (forall lam total_sec starts s',
        Fpcg.arrivals fuel lam total_sec 0 s = Returns (starts, s') ->
        StronglySorted Rle starts /\
        Forall (fun st => 0 <= st < total_sec) starts).
Proof.
  intros fuel total_len fs mo uo s Hfs Hw. repeat split.
  - destruct (generate_movement_events fuel total_len fs mo Hfs _ _ _ Hw H) as [_ [H1 _]].
    exact H1.
  - destruct (generate_movement_events fuel total_len fs mo Hfs _ _ _ Hw H) as [_ [_ H2]].
    exact H2.
  - destruct (generate_uc_envelope_spec fuel total_len fs uo Hfs _ _ _ Hw H)
      as [_ (_ & _ & _ & H1 & _)]. exact H1.
  - destruct (generate_uc_envelope_spec fuel total_len fs uo Hfs _ _ _ Hw H)
      as [_ (_ & _ & _ & _ & H2)]. exact H2.
  - destruct (arrivals_ordered fuel lam total_sec 0 _ _ _ Hw H) as [_ [H1 _]]. exact H1.
  - destruct (arrivals_ordered fuel lam total_sec 0 _ _ _ Hw H) as [_ [_ H2]]. exact H2.
Qed.

Lemma zero_then_half_unit : unit_draws (at_pos zero_then_half 0).
Proof.
  intros n. simpl. unfold zero_then_half. destruct (n =? 0)%nat; lra.
Qed.

Lemma poisson_events_are_ordered_windows_witness :
  Forall (window_ok 8) [(0, 4)%Z] /\ StronglySorted by_start [(0, 4)%Z].
Proof.
  destruct example_movement_run as (mv & s' & Hrun).
  destruct (poisson_events_are_ordered_windows 3 8 10 example_movement_opts
              {| Fpcg.rate_per_10min := 3; Fpcg.duration_range := (30, 90);
                 Fpcg.rise_fall_frac := (0.3, 0.3); Fpcg.attenuation := 0.45;
                 Fpcg.noise_band := (0.5, 20); Fpcg.noise_intensity := 0.8;
                 Fpcg.seed := None |}
              (MathRandom, at_pos zero_then_half 0)) as (Hmv & _ & _).
  - lra.
  - exact zero_then_half_unit.
  - exact (Hmv mv [(0, 4)%Z] s' Hrun).
Defined.

(** ** The breath envelope reaches the drawn amplitude *)

Section Attained.

Lemma max_of_floor_or_in (l : list R) (c : R) : max_of l c = c \/ In (max_of l c) l.
Proof.
  induction l as [|x l IH]; simpl; [now left|].
  unfold Rmax. destruct (Rle_dec x (max_of l c)) as [Hle|Hgt].
  - destruct IH as [E|Hin]; [now left | right; now right].
  - right. now left.
Qed.

Lemma max_of_in (l : list R) (c v : R) : In v l -> c < v -> In (max_of l c) l.
Proof.
  intros Hin Hv. destruct (max_of_floor_or_in l c) as [E|H]; [|exact H].
  pose proof (max_of_ge_each l c) as Hall. rewrite Forall_forall in Hall.
  specialize (Hall v Hin). simpl in Hall. lra.
Qed.

Lemma upd_nat_nth_other (a : list R) (i j : nat) (f : R -> R) (d : R) :
  i <> j -> nth j (upd_nat a i f) d = nth j a d.
Proof.
  revert i j. induction a as [|x a IH]; intros [|i] [|j] H; simpl; auto; try lia.
Qed.

Lemma upd_nat_nth_same (a : list R) (i : nat) (f : R -> R) (d : R) :
  (i < length a)%nat -> nth i (upd_nat a i f) d = f (nth i a d).
Proof.
  revert i. induction a as [|x a IH]; intros [|i] H; simpl in *; auto; try lia.
  apply IH. lia.
Qed.

Lemma set_at_nth_before (ker sig : list R) (start : Z) (i : nat) (d : R) :
  (Z.of_nat i < start)%Z -> nth i (set_at sig start ker) d = nth i sig d.
Proof.
  revert sig start. induction ker as [|v ker IH]; intros sig start Hi; simpl; auto.
  rewrite IH by lia. unfold upd. destruct (Z.ltb_spec start 0); auto.
  apply upd_nat_nth_other. lia.
Qed.

Lemma set_at_nth_in (ker sig : list R) (start j : nat) (d : R) :
  (j < length ker)%nat -> (start + j < length sig)%nat ->
  nth (start + j) (set_at sig (Z.of_nat start) ker) d = nth j ker d.
Proof.
  revert sig start j. induction ker as [|v ker IH]; intros sig start j Hj Hs; simpl in Hj.
  - lia.
  - simpl set_at. destruct j as [|j].
    + rewrite Nat.add_0_r. rewrite set_at_nth_before by lia.
      unfold upd. destruct (Z.ltb_spec (Z.of_nat start) 0); [lia|].
      rewrite Nat2Z.id. rewrite upd_nat_nth_same by lia. reflexivity.
    + replace (Z.of_nat start + 1)%Z with (Z.of_nat (S start)) by lia.
      replace (start + S j)%nat with (S start + j)%nat by lia.
      apply IH; [lia|]. rewrite upd_length. lia.
Qed.

Lemma raisedCosine_length (h : Z) : length (Lung.raisedCosine h) = Z.to_nat h.
Proof. apply tabulate_length. Qed.

(** The last sample of a raised cosine of at least two samples is at
    least one half. *)
Lemma raisedCosine_high (h : Z) :
  (2 <= h)%Z -> exists v, In v (Lung.raisedCosine h) /\ 0.5 <= v.
Proof.
  intros Hh.
  exists (0.5 * (1 - cos (PI * INR (Z.to_nat h - 1) / IZR h))). split.
  - unfold Lung.raisedCosine, tabulate. apply in_map_iff.
    exists (Z.to_nat h - 1)%nat. split; [reflexivity|]. apply in_seq. lia.
  - assert (Hi : INR (Z.to_nat h - 1) = IZR h - 1).
    { rewrite INR_IZR_INZ. rewrite Nat2Z.inj_sub by lia.
      rewrite Z2Nat.id by lia. rewrite minus_IZR. reflexivity. }
    rewrite Hi.
    assert (Hh' : 2 <= IZR h) by (apply IZR_le in Hh; exact Hh).
    assert (Hpi := PI_RGT_0).
    assert (Hx : PI / 2 <= PI * (IZR h - 1) / IZR h <= PI).
    { assert (Hq : 1 / 2 <= (IZR h - 1) / IZR h <= 1).
      { split.
        - apply (Rmult_le_reg_r (IZR h)); [lra|]. unfold Rdiv at 2.
          rewrite Rmult_assoc, Rinv_l by lra. lra.
        - apply (Rmult_le_reg_r (IZR h)); [lra|]. unfold Rdiv.
          rewrite Rmult_assoc, Rinv_l by lra. lra. }
      replace (PI * (IZR h - 1) / IZR h) with (PI * ((IZR h - 1) / IZR h))
        by (unfold Rdiv; ring).
      split; nra. }
    assert (Hc : cos (PI * (IZR h - 1) / IZR h) <= 0).
    { apply cos_le_0; lra. }
    lra.
Qed.

Lemma half_env_full (n : Z) : (2 <= n)%Z -> length (Lung.half_env n) = Z.to_nat n.
Proof.
  intros Hn. unfold Lung.half_env. cbv zeta.
  set (h := Z.max 1 (floor (IZR n / 2))).
  assert (Hh : (1 <= h /\ 2 * h <= n)%Z).
  { unfold h, floor. pose proof (Zfloor_bound (IZR n / 2)) as [Hlo Hhi].
    assert (H2 : (2 * Zfloor (IZR n / 2) <= n)%Z).
    { apply le_IZR. rewrite mult_IZR. lra. }
    lia. }
  rewrite length_app, length_rev, raisedCosine_length.
  destruct (Z.ltb_spec (Z.of_nat (Z.to_nat h + Z.to_nat h)) n) as [Hlt|Hge].
  - rewrite length_app, length_app, length_rev, raisedCosine_length, zeros_length.
    lia.
  - rewrite length_app, length_rev, raisedCosine_length. lia.
Qed.

Lemma half_env_high (n : Z) :
  (4 <= n)%Z -> exists v, In v (Lung.half_env n) /\ 0.5 <= v.
Proof.
  intros Hn.
  assert (Hh : (2 <= Z.max 1 (floor (IZR n / 2)))%Z).
  { assert (2 <= floor (IZR n / 2))%Z; [|lia].
    apply Zfloor_lub. apply IZR_le in Hn. simpl. lra. }
  destruct (raisedCosine_high _ Hh) as (v & Hin & Hv).
  exists v. split; [|exact Hv].
  unfold Lung.half_env. cbv zeta.
  match goal with |- In v (if ?c then _ else _) => destruct c end;
    repeat (apply in_or_app; left); exact Hin.
Qed.

Lemma scaled_env_attains (amp : R) (n : Z) :
  (4 <= n)%Z -> In amp (Lung.scaled_env amp n).
Proof.
  intros Hn. unfold Lung.scaled_env. cbv zeta.
  set (e := Lung.half_env n). set (m := max_of e 1e-9).
  destruct (half_env_high n Hn) as (v & Hin & Hv). fold e in Hin.
  assert (Hm : In m e) by (apply (max_of_in e 1e-9 v); [exact Hin | lra]).
  assert (Hpos : 0 < m).
  { pose proof (max_of_ge_floor e 1e-9). fold m in H. lra. }
  rewrite firstn_all2 by (unfold e; rewrite half_env_full; lia).
  apply in_map_iff. exists m. split; [|exact Hm].
  unfold Rdiv. rewrite Rinv_r by lra. ring.
Qed.

Lemma scaled_env_length (amp : R) (n : Z) :
  (2 <= n)%Z -> length (Lung.scaled_env amp n) = Z.to_nat n.
Proof.
  intros Hn. unfold Lung.scaled_env. cbv zeta.
  rewrite length_map, firstn_all2 by (rewrite half_env_full; lia).
  now apply half_env_full.
Qed.

(** The inspiration half of the envelope reaches the drawn amplitude. *)
Lemma cycle_env_attains (N n_insp n_mid n_exp : Z) (insp_amp exp_amp : R) :
  (4 <= n_insp)%Z -> (0 <= n_mid)%Z -> (n_insp <= N)%Z ->
  In insp_amp (Lung.cycle_env N n_insp n_mid n_exp insp_amp exp_amp).
Proof.
  intros Hi Hm HN.
  destruct (In_nth _ _ 0 (scaled_env_attains insp_amp n_insp Hi)) as (j & Hj & Hnth).
  rewrite scaled_env_length in Hj by lia.
  assert (E : nth j (Lung.cycle_env N n_insp n_mid n_exp insp_amp exp_amp) 0 = insp_amp).
  { unfold Lung.cycle_env. cbv zeta.
    rewrite set_at_nth_before by lia.
    change 0%Z with (Z.of_nat 0).
    rewrite <- (Nat.add_0_l j) at 1.
    rewrite set_at_nth_in; [exact Hnth | rewrite scaled_env_length; lia |].
    rewrite zeros_length. lia. }
  rewrite <- E at 1. apply nth_In. rewrite cycle_env_length. lia.
Qed.

End Attained.

Section NormalLungRun.

Lemma runs_new_array (n : Z) (s : rstate) : (0 <= n)%Z -> runs (new_array n) s tt s.
Proof.
  intros Hn. unfold runs, new_array. destruct (Z.ltb_spec n 0); [lia|reflexivity].
Qed.

Lemma runs_lerpRand_seeded (range : R * R) (sd s1 bits : Z) (w : world) :
  to_int32 (to_int32 sd + 0x6D2B79F5) = s1 ->
  mulberry32_bits s1 = bits ->
  runs (Lung.lerpRand range) (Seeded sd, w)
    (fst range + IZR bits / 4294967296 * (snd range - fst range)) (Seeded s1, w).
Proof.
  intros H1 H2. unfold Lung.lerpRand.
  eapply runs_bind; [exact (runs_rand_seeded_eq sd s1 bits w H1 H2)|]. apply runs_ret.
Qed.

Lemma round_eq (x : R) (k : Z) : IZR k <= x + 1 / 2 < IZR k + 1 -> round x = k.
Proof. intros H. unfold round. now apply Zfloor_eq. Qed.

Lemma returns_runs {A} (m : M A) (Q : A -> Prop) (s : rstate) :
  returns m Q -> nonzero_draws (snd s) ->
  exists a s', runs m s a s' /\ nonzero_draws (snd s') /\ Q a.
Proof. intros H Hs. exact (H s Hs). Qed.

(** The parameters that [genNormalLungSignal] passes for one cycle. *)
Definition normal_lung_params : Lung.BreathParams :=
  {| Lung.fs := 1000; Lung.nCycles := 1; Lung.seed := Some 2025%Z;
     Lung.insp_amp_range := (0.9, 1.2); Lung.exp_amp_range := (0.8, 1.0);
     Lung.insp_dur_range := (1.6, 1.8); Lung.exp_dur_range := (1.8, 2.2);
     Lung.mid_gap_range := (0.2, 0.5); Lung.post_pause_range := (1.8, 2.2);
     Lung.insp_band := (120, 650); Lung.exp_band := (100, 500);
     Lung.band_jitter_hz := (-20, 40); Lung.jitter_amp := 0.1;
     Lung.crossfade_s := 0.08 |}.

(** The inspiration amplitude that the seed 2025 draws first. *)
Definition first_insp_amp : R := 0.9 + 1827426074 / 4294967296 * (1.2 - 0.9).

Definition half_draws : world := {| draws := fun _ => 1 / 2; used := 0 |}.

Lemma half_draws_nonzero : nonzero_draws half_draws.
Proof. intros n. simpl. lra. Qed.

Lemma half_draws_unit : unit_draws half_draws.
Proof. intros n. simpl. lra. Qed.

Lemma normal_lung_cycle_run :
  exists c s',
    Lung.oneCycleRandom 2 normal_lung_params (Seeded 2025, half_draws) = Returns (c, s') /\
    In first_insp_amp (Lung.cy_env c).
Proof.
  set (N := (1641 + 404 + 1870 + 2173)%Z).
  destruct (returns_runs (replicateM (Z.to_nat N) (gaussian 2)) (fun l => length l = Z.to_nat N)
              (Seeded 1135790971, half_draws))
    as (x & s' & Hx & _ & _).
  { eapply returns_replicateM. apply returns_gaussian. lia. }
  { exact half_draws_nonzero. }
  eexists. exists s'. split.
  - unfold Lung.oneCycleRandom, normal_lung_params.
    cbn [Lung.fs Lung.insp_amp_range Lung.exp_amp_range Lung.insp_dur_range
         Lung.exp_dur_range Lung.mid_gap_range Lung.post_pause_range
         Lung.band_jitter_hz Lung.insp_band Lung.exp_band Lung.jitter_amp
         Lung.crossfade_s].
    eapply runs_bind;
      [apply (runs_lerpRand_seeded _ _ 1831567838 1827426074); vm_compute; reflexivity|].
    eapply runs_bind;
      [apply (runs_lerpRand_seeded _ _ (-631833645) 2636858733); vm_compute; reflexivity|].
    eapply runs_bind;
      [apply (runs_lerpRand_seeded _ _ 1199732168 885439033); vm_compute; reflexivity|].
    eapply runs_bind;
      [apply (runs_lerpRand_seeded _ _ (-1263669315) 748743982); vm_compute; reflexivity|].
    eapply runs_bind;
      [apply (runs_lerpRand_seeded _ _ 567896498 2924757911); vm_compute; reflexivity|].
    eapply runs_bind;
      [apply (runs_lerpRand_seeded _ _ (-1895504985) 4007213915); vm_compute; reflexivity|].
    eapply runs_bind;
      [apply (runs_lerpRand_seeded _ _ (-63939172) 374936970); vm_compute; reflexivity|].
    eapply runs_bind;
      [apply (runs_lerpRand_seeded _ _ 1767626641 2664840512); vm_compute; reflexivity|].
    eapply runs_bind;
      [apply (runs_lerpRand_seeded _ _ (-695774842) 2462449906); vm_compute; reflexivity|].
    eapply runs_bind;
      [apply (runs_lerpRand_seeded _ _ 1135790971 1436790393); vm_compute; reflexivity|].
    cbn [fst snd]. cbv zeta.
    rewrite (round_eq (1000 * (1.6 + 885439033 / 4294967296 * (1.8 - 1.6))) 1641)
      by (simpl; lra).
    rewrite (round_eq (1000 * (0.2 + 2924757911 / 4294967296 * (0.5 - 0.2))) 404)
      by (simpl; lra).
    rewrite (round_eq (1000 * (1.8 + 748743982 / 4294967296 * (2.2 - 1.8))) 1870)
      by (simpl; lra).
    rewrite (round_eq (1000 * (1.8 + 4007213915 / 4294967296 * (2.2 - 1.8))) 2173)
      by (simpl; lra).
    fold N.
    eapply runs_bind; [apply runs_new_array; unfold N; lia|].
    eapply runs_bind; [exact Hx|].
    apply runs_ret.
  - cbn [Lung.cy_env]. unfold first_insp_amp.
    apply cycle_env_attains; unfold N; lia.
Qed.

End NormalLungRun.

Section UcEnvelope.

Definition uc_env_inv (total_len : Z) (acc : list R * list Fpcg.UcEvent) : Prop :=
  length (fst acc) = Z.to_nat total_len /\ Forall (within 1) (fst acc).

Lemma uc_step_env total_len fs o acc st :
  uc_env_inv total_len acc ->
  ensures (Fpcg.uc_step total_len fs o acc st) (uc_env_inv total_len).
Proof.
  intros [Hlen Hunit]. destruct acc as [env events]. unfold Fpcg.uc_step.
  eapply ensures_any_bind; [eapply ensures_weaken; [apply ensures_rand|auto]|].
  intros u. cbv zeta.
  match goal with |- ensures (if ?c then _ else _) _ => destruct c end;
    apply ensures_ret; unfold uc_env_inv; cbn [fst]; [auto|].
  split; [now rewrite stamp_env_length | now apply stamp_env_unit].
Qed.

Lemma generate_uc_envelope_env fuel total_len fs o :
  ensures (Fpcg.generate_uc_envelope fuel total_len fs o)
    (fun r => length (Fpcg.uc_env r) = Z.to_nat total_len /\
              Forall (within 1) (Fpcg.uc_env r)).
Proof.
  unfold Fpcg.generate_uc_envelope. apply ensures_with_rng. cbv zeta.
  eapply ensures_any_bind;
    [eapply ensures_weaken; [apply arrivals_ordered|auto]|].
  intros starts.
  eapply ensures_bind.
  { apply (ensures_foldM _ (uc_env_inv total_len)).
    - split; [apply zeros_length | apply zeros_Forall; unfold within; lra].
    - intros acc st Hacc. now apply uc_step_env. }
  intros [env events] [Hlen Hunit]. cbn [fst] in Hlen, Hunit.
  eapply ensures_any_bind;
    [eapply ensures_weaken; [apply ensures_replicateM, ensures_gaussian|auto]|].
  intros base. apply ensures_ret. cbn [Fpcg.uc_env]. auto.
Qed.

End UcEnvelope.

Section EnvelopeWrites.

(** The sample rate and the four durations of a breath cycle are not
    negative: the sample counts [n_insp], [n_mid], [n_exp] and [n_pause]
    are then not negative either. *)
Definition dur_ranges_ok (p : Lung.BreathParams) : Prop :=
  0 <= Lung.fs p /\
  0 <= fst (Lung.insp_dur_range p) <= snd (Lung.insp_dur_range p) /\
  0 <= fst (Lung.exp_dur_range p) <= snd (Lung.exp_dur_range p) /\
  0 <= fst (Lung.mid_gap_range p) <= snd (Lung.mid_gap_range p) /\
  0 <= fst (Lung.post_pause_range p) <= snd (Lung.post_pause_range p).

Lemma scaled_env_short (amp : R) (n : Z) :
  (0 <= n)%Z -> (Z.of_nat (length (Lung.scaled_env amp n)) <= n)%Z.
Proof.
  intros Hn. unfold Lung.scaled_env. cbv zeta. rewrite length_map.
  pose proof (firstn_le_length (Z.to_nat n) (Lung.half_env n)) as H. lia.
Qed.

(** With sample counts that are not negative, the two loops that fill the
    envelope, [env[i]] for [i < n_insp] and [env[expStart + i]] for
    [i < n_exp], write inside the [N] entries of the array. *)
Lemma cycle_writes_fit (n_insp n_mid n_exp n_pause : Z) (insp_amp exp_amp : R) :
  (0 <= n_insp)%Z -> (0 <= n_mid)%Z -> (0 <= n_exp)%Z -> (0 <= n_pause)%Z ->
  let N := (n_insp + n_mid + n_exp + n_pause)%Z in
  (0 + Z.of_nat (length (Lung.scaled_env insp_amp n_insp)) <= N)%Z /\
  (0 <= n_insp + n_mid)%Z /\
  (n_insp + n_mid + Z.of_nat (length (Lung.scaled_env exp_amp n_exp)) <= N)%Z.
Proof.
  intros Hi Hm He Hp N. unfold N.
  pose proof (scaled_env_short insp_amp n_insp Hi).
  pose proof (scaled_env_short exp_amp n_exp He). lia.
Qed.

(** The sample count of a duration drawn from a range that is not
    negative, at a sample rate that is not negative. *)
Lemma duration_samples_nonneg (fs lo hi u : R) :
  0 <= fs -> 0 <= lo <= hi -> 0 <= u < 1 ->
  (0 <= round (fs * (lo + u * (hi - lo))))%Z.
Proof.
  intros Hfs Hr Hu. unfold round. apply Zfloor_lub. simpl.
  assert (0 <= fs * (lo + u * (hi - lo))) by (apply Rmult_le_pos; nra). lra.
Qed.

End EnvelopeWrites.

(** C8, as far as the code goes: the breath envelope is not confined to
    [[0, 1]].  With the parameters of [genNormalLungSignal] (sample rate
    1000, seed 2025, the default amplitude range [[0.9, 1.2]]) the first
    draw gives an inspiration amplitude of about 1.0276, and the envelope
    of the first cycle reaches exactly that value. *)
Lemma breath_envelope_exceeds_one :
  exists c s' v,
    Lung.synthBreathRandomCycles 2 normal_lung_params (MathRandom, half_draws)
      = Returns (c, s') /\
    In v (Lung.cy_env c) /\ 1 < v.
Proof.
  destruct normal_lung_cycle_run as (c & [g1 w1] & Hrun & Hin).
  eexists. exists (MathRandom, w1), first_insp_amp. split; [|split].
  - unfold Lung.synthBreathRandomCycles.
    apply (runs_with_rng _ _ MathRandom half_draws _ g1 w1).
    change (Lung.rng_of (Lung.seed normal_lung_params)) with (Seeded 2025).
    change (seq 0 (Z.to_nat (Lung.nCycles normal_lung_params))) with [0%nat].
    eapply runs_bind.
    { cbn [foldM]. eapply runs_bind; [|apply runs_ret].
      unfold Lung.breath_step.
      eapply runs_bind; [exact Hrun|]. apply runs_ret. }
    cbv beta iota. apply runs_ret.
  - cbn [Lung.cy_env app]. exact Hin.
  - unfold first_insp_amp. lra.
Qed.

(** C8, amended.  The uterine-contraction envelope built by
    [generate_uc_envelope] is a sequence of values in [[0, 1]] with one
    entry per sample of its waveform.  For breath parameters whose sample
    rate and four duration ranges are not negative (so that every write
    to the envelope falls inside the array) and whose two amplitude
    ranges [[lo, hi]] have [0 <= lo <= hi], the breath envelope returned
    by [oneCycleRandom] and [synthBreathRandomCycles] has one entry per
    sample of the breath signal (and of its time axis) and takes its
    values in [[0, A]], where [A] is the larger upper end of the two
    amplitude ranges (1.2 by default): the envelope carries the drawn
    amplitude, so it can exceed 1.  The draws of the random source are
    taken in [[0, 1)]. *)
Theorem envelopes_are_bounded_and_aligned :
  forall (fuel : nat) (total_len : Z) (fs : R) (uo : Fpcg.uc_opts)
         (p : Lung.BreathParams) (s : rstate),
    amp_ranges_ok p ->
    dur_ranges_ok p ->
    unit_draws (snd s) ->
    (forall r s',
        Fpcg.generate_uc_envelope fuel total_len fs uo s = Returns (r, s') ->
        length (Fpcg.uc_env r) = Z.to_nat total_len /\
        Forall (within 1) (Fpcg.uc_env r)) /\
    (forall c s',
        Lung.oneCycleRandom fuel p s = Returns (c, s') ->
        length (Lung.cy_env c) = length (Lung.cy_y c) /\
        length (Lung.cy_t c) = length (Lung.cy_y c) /\
        Forall (within (amp_ceiling p)) (Lung.cy_env c)) /\
    (forall c s',
        Lung.synthBreathRandomCycles fuel p s = Returns (c, s') ->
        length (Lung.cy_env c) = length (Lung.cy_y c) /\
        length (Lung.cy_t c) = length (Lung.cy_y c) /\
        Forall (within (amp_ceiling p)) (Lung.cy_env c)).
Proof.
  intros fuel total_len fs uo p s Hp _ Hw. split; [|split].
  - intros r s' H.
    exact (proj2 (generate_uc_envelope_env fuel total_len fs uo _ _ _ Hw H)).
  - intros c s' H.
    exact (proj2 (oneCycleRandom_spec fuel p Hp _ _ _ Hw H)).
  - intros c s' H.
    exact (proj2 (synthBreathRandomCycles_spec fuel p Hp _ _ _ Hw H)).
Qed.

Lemma normal_lung_ranges_ok : amp_ranges_ok normal_lung_params.
Proof. unfold amp_ranges_ok, normal_lung_params. simpl. lra. Qed.

Lemma normal_lung_durations_ok : dur_ranges_ok normal_lung_params.
Proof. unfold dur_ranges_ok, normal_lung_params. simpl. lra. Qed.

Lemma envelopes_are_bounded_and_aligned_witness :
  exists c s',
    Lung.oneCycleRandom 2 normal_lung_params (Seeded 2025, half_draws) = Returns (c, s') /\
    length (Lung.cy_env c) = length (Lung.cy_y c) /\
    length (Lung.cy_t c) = length (Lung.cy_y c) /\
    Forall (within (amp_ceiling normal_lung_params)) (Lung.cy_env c).
Proof.
  destruct normal_lung_cycle_run as (c & s' & Hrun & _).
  exists c, s'. split; [exact Hrun|].
  destruct (envelopes_are_bounded_and_aligned 2 0 1000
              {| Fpcg.rate_per_10min := 3; Fpcg.duration_range := (30, 90);
                 Fpcg.rise_fall_frac := (0.3, 0.3); Fpcg.attenuation := 0.45;
                 Fpcg.noise_band := (0.5, 20); Fpcg.noise_intensity := 0.8;
                 Fpcg.seed := None |}
              normal_lung_params (Seeded 2025, half_draws)
              normal_lung_ranges_ok normal_lung_durations_ok half_draws_unit)
    as (_ & Hcycle & _).
  exact (Hcycle c s' Hrun).
Defined.

Section Raises.


End Raises.


Section Beats.

Variables (fuel : nat) (fs beatLengthSec : R) (params : Pcg.PCGParams)
          (abnormal : Pcg.abnormality) (snrDb : R).

(** The beats of a run of [simulateMultibeat] as they leave [addNoiseSNR]:
    [noisy_beats n s l s'] when, from the state [s], [n] turns of the
    loop synthesise a beat with [simulateSingleBeat] and add its noise
    with [addNoiseSNR], giving the noisy beats [l] in order and leaving
    the state [s']. *)
Inductive noisy_beats : nat -> rstate -> list (list R) -> rstate -> Prop :=
| noisy_done (s : rstate) : noisy_beats 0 s [] s
| noisy_next (n : nat) (s s1 s2 s3 : rstate) (beat : list R) (s1Time s2Time : R)
             (noisy : list R) (rest : list (list R)) :
    Pcg.simulateSingleBeat fuel fs beatLengthSec params abnormal s
      = Returns ((beat, s1Time, s2Time), s1) ->
    Pcg.addNoiseSNR fuel beat snrDb fs s1 = Returns (noisy, s2) ->
    noisy_beats n s2 rest s3 ->
    noisy_beats (S n) s (noisy :: rest) s3.


(** A run has one list of noisy beats. *)
Lemma noisy_beats_unique (n : nat) (s s1 s2 : rstate) (l1 l2 : list (list R)) :
  noisy_beats n s l1 s1 -> noisy_beats n s l2 s2 -> l1 = l2 /\ s1 = s2.
Proof.
  intros H1. revert l2 s2. induction H1 as [s|n s sa sb sc beat t1 t2 noisy rest Hb Hn _ IH];
    intros l2 s2 H2; inversion H2; subst.
  - auto.
  - rewrite Hb in H0. inversion H0; subst.
    rewrite Hn in H1. inversion H1; subst.
    destruct (IH _ _ H3) as [-> ->]. auto.
Qed.



End Beats.



(** ** Peak normalisation and the amplitude ceiling *)

Section Ceiling.

(** [always m Q]: every result that [m] returns satisfies [Q]. *)
Definition always {A} (m : M A) (Q : A -> Prop) : Prop :=
  forall s a s', m s = Returns (a, s') -> Q a.

Lemma always_ret {A} (a : A) (Q : A -> Prop) : Q a -> always (ret a) Q.
Proof. intros H s b s' E. inversion E; subst. exact H. Qed.

Lemma always_bind {A B} (m : M A) (k : A -> M B) (P : A -> Prop) (Q : B -> Prop) :
  always m P -> (forall a, P a -> always (k a) Q) -> always (bind m k) Q.
Proof.
  intros Hm Hk s b s' E. unfold bind in E.
  destruct (m s) as [[a s1]| |] eqn:Em; try discriminate.
  exact (Hk a (Hm _ _ _ Em) _ _ _ E).
Qed.

Lemma always_skip {A B} (m : M A) (k : A -> M B) (Q : B -> Prop) :
  (forall a, always (k a) Q) -> always (bind m k) Q.
Proof.
  intros Hk. apply (always_bind m k (fun _ => True)); [intros s a s' _; exact I|auto].
Qed.

Lemma always_with_rng {A} (g : rng) (body : M A) (Q : A -> Prop) :
  always body Q -> always (with_rng g body) Q.
Proof.
  intros Hb s a s' E. unfold with_rng in E.
  destruct (body (g, snd s)) as [[b s1]| |] eqn:Eb; inversion E; subst.
  exact (Hb _ _ _ Eb).
Qed.


Lemma always_lift {A} (o : outcome A) (Q : A -> Prop) :
  (forall a, o = Returns a -> Q a) -> always (lift o) Q.
Proof.
  intros H s a s' E. unfold lift in E. destruct o; inversion E; subst. auto.
Qed.

(** A sample no larger than [c] in absolute value. *)
Definition capped (c : R) (v : R) : Prop := Rabs v <= c.

Lemma max_of_abs_ge (l : list R) (c : R) :
  Forall (fun v => Rabs v <= max_of (map Rabs l) c) l.
Proof.
  pose proof (max_of_ge_each (map Rabs l) c) as H.
  rewrite Forall_forall in *. intros v Hv. apply (H (Rabs v)). now apply in_map.
Qed.

(** Dividing by the peak and multiplying by [0.95] caps the signal at
    [0.95], whatever the positive floor of the peak. *)
Lemma scaled_by_peak_capped (l : list R) (c : R) :
  0 < c -> Forall (capped 0.95) (map (fun v => 0.95 * v / max_of (map Rabs l) c) l).
Proof.
  intros Hc. set (pk := max_of (map Rabs l) c).
  assert (Hpk : 0 < pk).
  { pose proof (max_of_ge_floor (map Rabs l) c). fold pk in H. lra. }
  apply Forall_map. pose proof (max_of_abs_ge l c) as H. fold pk in H.
  eapply Forall_impl; [|exact H]. intros v Hv. simpl in Hv. unfold capped.
  unfold Rdiv. rewrite Rabs_mult, Rabs_mult, (Rabs_right 0.95) by lra.
  rewrite (Rabs_right (/ pk)) by (left; now apply Rinv_0_lt_compat).
  apply (Rmult_le_reg_r pk); [exact Hpk|].
  rewrite Rmult_assoc, Rinv_l by lra. nra.
Qed.

Lemma normalize95_capped (l : list R) : Forall (capped 0.95) (Lung.normalize95 l).
Proof. unfold Lung.normalize95. apply scaled_by_peak_capped. lra. Qed.

Lemma lung_addNoiseSNR_capped fuel sig fs snrDb seed mix band :
  always (Lung.addNoiseSNR fuel sig fs snrDb seed mix band)
    (fun y => Forall (capped 0.95) y /\ length y = length sig).
Proof.
  unfold Lung.addNoiseSNR. apply always_skip. intros noise. cbv zeta.
  apply always_ret. split; [apply normalize95_capped|].
  rewrite normalize95_length, zipWith_length.
  unfold Lung.noise_track. cbv zeta. rewrite mapi_length. apply Nat.min_id.
Qed.

(** *** Interpolation stays under the ceiling *)

Lemma get_capped (c : R) (y : list R) (i : Z) :
  0 <= c -> Forall (capped c) y -> capped c (get y i).
Proof.
  intros Hc Hy. unfold get.
  assert (H0 : capped c 0) by (unfold capped; rewrite Rabs_R0; exact Hc).
  destruct (i <? 0)%Z; [exact H0|].
  destruct (Nat.lt_ge_cases (Z.to_nat i) (length y)) as [Hlt|Hge].
  - rewrite Forall_forall in Hy. apply Hy. now apply nth_In.
  - now rewrite nth_overflow.
Qed.

Lemma abs_le_inv (a b : R) : Rabs a <= b -> - b <= a <= b.
Proof.
  intros H. pose proof (Rle_abs a). pose proof (Rle_abs (- a)) as Hn.
  rewrite Rabs_Ropp in Hn. lra.
Qed.

Lemma interpolation_capped (c a b idx : R) :
  capped c a -> capped c b ->
  capped c (a * (1 - (idx - IZR (floor idx))) + b * (idx - IZR (floor idx))).
Proof.
  unfold capped. intros Ha Hb.
  pose proof (Zfloor_bound idx) as [Hlo Hhi]. unfold floor.
  set (w := idx - IZR (Zfloor idx)).
  assert (Hw : 0 <= w < 1) by (unfold w; lra).
  apply Rabs_le. apply abs_le_inv in Ha. apply abs_le_inv in Hb.
  split; nra.
Qed.

Lemma lung_resample_capped (c : R) (y : list R) (count : Z) (out : list R) :
  0 <= c -> Forall (capped c) y ->
  Lung.resampleTo y count = Returns out -> Forall (capped c) out.
Proof.
  intros Hc Hy. unfold Lung.resampleTo.
  destruct (Z.of_nat (length y) =? count)%Z; [intros E; inversion E; now subst|].
  destruct (count <? 0)%Z; intros E; inversion E; subst.
  apply tabulate_Forall. intros i. cbv zeta.
  apply interpolation_capped; now apply get_capped.
Qed.

(** *** The lung compositor returns *)

Lemma random_walk_returns (n : nat) (v : R) :
  returns (Lung.random_walk n v) (fun _ => True).
Proof.
  revert v. induction n as [|n IH]; intros v; simpl.
  - now apply returns_ret.
  - apply returns_skip; [apply returns_rand|]. intros u. cbv zeta.
    apply returns_skip; [apply IH|]. intros rest. now apply returns_ret.
Qed.

Lemma pinkNoise_returns (N : Z) : returns (Lung.pinkNoise N) (fun _ => True).
Proof.
  unfold Lung.pinkNoise. cbv zeta.
  apply returns_skip.
  - apply (returns_foldM _ (fun _ => True)); [exact I|].
    intros acc r _.
    apply returns_skip; [apply random_walk_returns|].
    intros walk. now apply returns_ret.
  - intros acc. now apply returns_ret.
Qed.

Lemma makeEnvNoise_returns fuel fs duration seed mix band :
  (2 <= fuel)%nat ->
  returns (Lung.makeEnvNoise fuel fs duration seed mix band) (fun _ => True).
Proof.
  intros Hf. unfold Lung.makeEnvNoise. apply returns_with_rng. cbv zeta.
  apply returns_skip; [apply pinkNoise_returns|]. intros pn.
  apply returns_skip.
  - eapply returns_forget. eapply returns_replicateM. now apply returns_gaussian.
  - intros white. now apply returns_ret.
Qed.

Lemma lung_addNoiseSNR_returns fuel sig fs snrDb seed mix band :
  (2 <= fuel)%nat ->
  returns (Lung.addNoiseSNR fuel sig fs snrDb seed mix band) (fun _ => True).
Proof.
  intros Hf. unfold Lung.addNoiseSNR.
  apply returns_skip; [now apply makeEnvNoise_returns|].
  intros noise. now apply returns_ret.
Qed.

Lemma noise_then_resample_capped {A} fuel (m : M A) (sig : A -> list R)
    fs snrDb seed mix band count :
  always (a <- m ;;
          y <- Lung.addNoiseSNR fuel (sig a) fs snrDb seed mix band ;;
          lift (Lung.resampleTo y count))
    (Forall (capped 0.95)).
Proof.
  apply always_skip. intros a.
  eapply always_bind; [apply lung_addNoiseSNR_capped|]. intros y [Hy _].
  apply always_lift. intros out E.
  apply (lung_resample_capped 0.95 y count out); [lra|exact Hy|exact E].
Qed.

Lemma lung_entries_capped fuel count cycles (gen : nat -> Z -> R -> M (list R)) :
  In gen [Lung.genNormalLungSignal; Lung.genFineCracklesSignal;
          Lung.genCoarseCracklesSignal; Lung.genWheezeSignal] ->
  always (gen fuel count cycles) (Forall (capped 0.95)).
Proof.
  intros [<-|[<-|[<-|[<-|[]]]]].
  - unfold Lung.genNormalLungSignal. cbv zeta.
    apply (noise_then_resample_capped fuel _ (fun base => Lung.cy_y base)).
  - unfold Lung.genFineCracklesSignal. cbv zeta.
    apply always_skip. intros base.
    apply (noise_then_resample_capped fuel _ (fun over => fst over)).
  - unfold Lung.genCoarseCracklesSignal. cbv zeta.
    apply always_skip. intros base.
    apply (noise_then_resample_capped fuel _ (fun over => fst over)).
  - unfold Lung.genWheezeSignal. cbv zeta.
    apply always_skip. intros base.
    apply (noise_then_resample_capped fuel _
             (fun wz => mapi (fun v i => v + nth i wz 0) (Lung.cy_y base))).
Qed.

Lemma capped_below_one (l : list R) :
  Forall (capped 0.95) l -> Forall (fun v => Rabs v <= 1) l.
Proof.
  intros H. eapply Forall_impl; [|exact H]. unfold capped. intros v Hv. lra.
Qed.

End Ceiling.

(** ** A run of the fetal simulator on one sample *)

Section TinyFetalRun.

Lemma runs_eq {A} (m : M A) (s : rstate) (a a' : A) (s' : rstate) :
  runs m s a' s' -> a' = a -> runs m s a s'.
Proof. now intros H <-. Qed.

Lemma box_muller_quarter : box_muller (1 / 4) (1 / 4) = 0.
Proof.
  unfold box_muller. replace (2 * PI * (1 / 4)) with (PI / 2) by field.
  rewrite cos_PI2. ring.
Qed.

Lemma box_muller_half : box_muller (1 / 2) (1 / 2) = - sqrt (-2 * ln (1 / 2)).
Proof.
  unfold box_muller. replace (2 * PI * (1 / 2)) with PI by field.
  rewrite cos_PI. ring.
Qed.

Lemma box_muller_half_neg : box_muller (1 / 2) (1 / 2) < 0.
Proof.
  rewrite box_muller_half.
  assert (0 < sqrt (-2 * ln (1 / 2))); [|lra].
  apply sqrt_lt_R0.
  replace (1 / 2) with (/ 2) by lra. rewrite ln_Rinv by lra.
  pose proof ln_2_lower. lra.
Qed.

Lemma sinc_integer (k : Z) : k <> 0%Z -> Fpcg.sinc (IZR k) = 0.
Proof.
  intros Hk. unfold Fpcg.sinc.
  destruct (Req_dec_T (IZR k) 0) as [E|_].
  - exfalso. apply Hk. now apply eq_IZR.
  - rewrite (sin_eq_0_1 (PI * IZR k)); [unfold Rdiv; ring|].
    exists k. ring.
Qed.

(** The one sample of the run that is not zero: the first maternal
    sound, [0.03 * sinc(-1.2)]. *)
Definition tiny_base : R := 0.03 * Fpcg.sinc (- (6 / 5)).

Lemma sinc_m65 : Fpcg.sinc (- (6 / 5)) = - sin (PI / 5) / (PI * (6 / 5)).
Proof.
  unfold Fpcg.sinc. destruct (Req_dec_T (- (6 / 5)) 0) as [E|_]; [exfalso; lra|].
  assert (Hpi := PI_RGT_0).
  replace (PI * - (6 / 5)) with (- (PI / 5 + PI)) by field.
  rewrite sin_neg, neg_sin. field. lra.
Qed.

Lemma sin_PI5_lower : 1 / 2 < sin (PI / 5).
Proof.
  rewrite <- sin_PI6. assert (Hpi := PI_RGT_0).
  apply sin_increasing_1; lra.
Qed.

Lemma tiny_base_neg : tiny_base < - (3 / 1000).
Proof.
  unfold tiny_base. rewrite sinc_m65.
  pose proof sin_PI5_lower as Hs. pose proof PI_4 as H4. assert (Hpi := PI_RGT_0).
  assert (Hq : 1 / 10 < sin (PI / 5) / (PI * (6 / 5))).
  { apply (Rmult_lt_reg_r (PI * (6 / 5))); [lra|].
    replace (sin (PI / 5) / (PI * (6 / 5)) * (PI * (6 / 5))) with (sin (PI / 5))
      by (field; lra).
    lra. }
  unfold Rdiv in *. lra.
Qed.

Definition tiny_options (snr : R) : Fpcg.SimOptions :=
  {| Fpcg.cycles_per_sample := 1;
     Fpcg.fs := 1; Fpcg.fhr := 140; Fpcg.mhr := 80; Fpcg.snr_db := snr;
     Fpcg.r1 := 0.01; Fpcg.c1 := 1500; Fpcg.beta1 := 100; Fpcg.A1 := 1;
     Fpcg.r2 := 0.03; Fpcg.c2 := 1540; Fpcg.beta2 := 300; Fpcg.A2 := 0.8;
     Fpcg.movement_enabled := false;
     Fpcg.movement_intensity := 1.2;
     Fpcg.movement_rate_per_min := 8;
     Fpcg.movement_duration_range := (0.12, 0.45);
     Fpcg.movement_band := (15, 200);
     Fpcg.movement_thump_prob := 0.35;
     Fpcg.movement_seed := Some 2025%Z;
     Fpcg.uc_enabled := false;
     Fpcg.uc_rate_per_10min := 3;
     Fpcg.uc_duration_range := (12, 30);
     Fpcg.uc_rise_fall_frac := (0.35, 0.35);
     Fpcg.uc_attenuation := 0.4;
     Fpcg.uc_noise_band := (0.5, 20);
     Fpcg.uc_noise_intensity := 0.7;
     Fpcg.uc_seed := Some 1234%Z;
     Fpcg.rr_std_frac := 0.05 |}.

(** A kernel of less than one sample, sampled at [fs = 1]. *)
Lemma heart_sound_one_sample (f dur amp : R) :
  0 <= dur < 1 ->
  snd (Fpcg.generate_heart_sound f dur 1 amp) = [amp * Fpcg.sinc (2 * f * (- dur / 2))].
Proof.
  intros Hd. unfold Fpcg.generate_heart_sound. cbv zeta. cbn [snd].
  replace (floor (1 * dur)) with 0%Z by (symmetry; apply Zfloor_eq; simpl; lra).
  change (Z.max 1 0) with 1%Z.
  unfold Fpcg.linspace. cbv zeta. change (Z.to_nat 1) with 1%nat.
  unfold tabulate. cbn [seq map]. change (INR 0) with 0.
  rewrite Rmult_0_l, Rplus_0_r. reflexivity.
Qed.

Variable d : nat -> R.
Hypothesis d_quarter : forall n, (n < 30)%nat -> d n = 1 / 4.

Lemma runs_gaussian_zero (k : nat) :
  (k + 1 < 30)%nat ->
  runs (gaussian 1) (MathRandom, at_pos d k) 0 (MathRandom, at_pos d (S (S k))).
Proof.
  intros Hk. eapply runs_eq.
  - apply runs_gaussian_platform; rewrite d_quarter by lia; lra.
  - rewrite !d_quarter by lia. apply box_muller_quarter.
Qed.

Lemma fetal_beat_tiny (snr T0 : R) (k : nat) :
  (k + 13 < 30)%nat -> 0 <= T0 < 1 ->
  runs (Fpcg.fetal_beat 1 (tiny_options snr) ((210 - 0.5 * 140) / 1000) ([0], 0%Z) T0)
    (MathRandom, at_pos d k) ([0], 0%Z) (MathRandom, at_pos d (k + 14)).
Proof.
  intros Hk HT. unfold Fpcg.fetal_beat. cbn [Fpcg.fs tiny_options]. cbv zeta.
  eapply runs_eq.
  - do 7 (eapply runs_bind; [apply runs_gaussian_zero; lia|]).
    replace (S (S (S (S (S (S (S (S (S (S (S (S (S (S k))))))))))))))
      with (k + 14)%nat by lia.
    apply runs_ret.
  - rewrite !Rmult_0_r, !Rplus_0_r.
    rewrite (Rmax_right 0.02 0.08), (Rmax_right 0.02 0.05),
      (Rmax_right 0.02 ((210 - 0.5 * 140) / 1000)) by lra.
    rewrite !heart_sound_one_sample by lra.
    replace (floor (T0 * 1)) with 0%Z by (symmetry; apply Zfloor_eq; simpl; lra).
    replace (floor ((210 - 0.5 * 140) / 1000 * 1)) with 0%Z
      by (symmetry; apply Zfloor_eq; simpl; lra).
    replace (2 * 50 * (- (0.08) / 2)) with (IZR (-4)) by lra.
    replace (2 * 60 * (- (0.05) / 2)) with (IZR (-3)) by lra.
    rewrite !sinc_integer by lia.
    cbn [add_at upd upd_nat Z.ltb Z.compare Z.to_nat Z.add].
    f_equal. f_equal. lra.
Qed.

Lemma maternal_beat_tiny (snr T0 : R) (k : nat) :
  (k + 13 < 30)%nat -> 0 <= T0 < 1 ->
  runs (Fpcg.maternal_beat 1 (tiny_options snr) ((0.2 * (60000 / 80) - 160) / 1000)
          ([0], 0%Z) T0)
    (MathRandom, at_pos d k) ([tiny_base], 0%Z) (MathRandom, at_pos d (k + 14)).
Proof.
  intros Hk HT. unfold Fpcg.maternal_beat. cbn [Fpcg.fs tiny_options]. cbv zeta.
  eapply runs_eq.
  - do 7 (eapply runs_bind; [apply runs_gaussian_zero; lia|]).
    replace (S (S (S (S (S (S (S (S (S (S (S (S (S (S k))))))))))))))
      with (k + 14)%nat by lia.
    apply runs_ret.
  - rewrite !Rmult_0_r, !Rplus_0_r.
    rewrite (Rmax_right 0.02 0.08), (Rmax_right 0.02 0.05),
      (Rmax_left 0.01 ((0.2 * (60000 / 80) - 160) / 1000)) by lra.
    rewrite !heart_sound_one_sample by lra.
    replace (floor (T0 * 1)) with 0%Z by (symmetry; apply Zfloor_eq; simpl; lra).
    replace (floor (0.3 * 1)) with 0%Z by (symmetry; apply Zfloor_eq; simpl; lra).
    replace (floor (0.01 * 1)) with 0%Z by (symmetry; apply Zfloor_eq; simpl; lra).
    replace (2 * 15 * (- (0.08) / 2)) with (- (6 / 5)) by lra.
    replace (2 * 20 * (- (0.05) / 2)) with (IZR (-1)) by lra.
    rewrite !sinc_integer by lia.
    cbn [add_at upd upd_nat Z.ltb Z.compare Z.to_nat Z.add].
    unfold tiny_base. f_equal. f_equal. lra.
Qed.

Lemma kernel_one_sample (r c beta A : R) :
  0 <= r / c * 1 + 1 / 2 < 1 -> 0 <= 0 + 5 * (1 / beta) * 1 + 1 / 2 < 1 ->
  Fpcg.expo_conv_kernel r c 1 beta A = Returns [A].
Proof.
  intros H0 H1. unfold Fpcg.expo_conv_kernel. cbv zeta.
  rewrite (round_eq (r / c * 1) 0) by (simpl; lra).
  rewrite (round_eq (0 + 5 * (1 / beta) * 1) 0) by (simpl; lra).
  change (0 + 1 <? 0)%Z with false. cbv iota.
  change (Z.to_nat (0 + 1)) with 1%nat. unfold tabulate. cbn [seq map].
  change (Z.of_nat 0 <? 0)%Z with false. cbv iota.
  change (INR 0) with 0. f_equal. f_equal.
  replace (- (0 - 0) * (beta / 1)) with 0 by (unfold Rdiv; ring).
  rewrite exp_0. ring.
Qed.

Lemma runs_lift {A} (o : outcome A) (a : A) (s : rstate) :
  o = Returns a -> runs (lift o) s a s.
Proof. now intros ->. Qed.

Lemma convolve_singletons (a b : R) : Fpcg.convolve [a] [b] = Returns [0 + a * b].
Proof. reflexivity. Qed.

Hypothesis d_30 : d 30%nat <> 0.
Hypothesis d_31 : d 31%nat <> 0.

Definition tiny_T0 : R := 60 / 140 + 0.05 * (60 / 140) * (1 / 4).

Lemma tiny_dataset_run (snr : R) (g0 : rng) :
  runs (Fpcg.simulateFpcgDataset 1 (tiny_options snr)) (g0, at_pos d 0)
    {| Fpcg.out_t := Fpcg.linspace 0 (sum [tiny_T0] + 0.5) 1;
       Fpcg.out_y := Fpcg.add_awgn snr [tiny_base] [box_muller (d 30%nat) (d 31%nat)];
       Fpcg.meta := {| Fpcg.movement_events := []; Fpcg.uc_events := [] |} |}
    (g0, at_pos d 32).
Proof.
  unfold Fpcg.simulateFpcgDataset.
  apply (runs_with_rng _ _ g0 _ _ MathRandom).
  cbn [tiny_options Fpcg.cycles_per_sample Fpcg.fs Fpcg.fhr Fpcg.mhr Fpcg.snr_db
       Fpcg.r1 Fpcg.c1 Fpcg.beta1 Fpcg.A1 Fpcg.r2 Fpcg.c2 Fpcg.beta2 Fpcg.A2
       Fpcg.rr_std_frac Fpcg.uc_enabled Fpcg.movement_enabled Fpcg.uc_attenuation].
  cbv zeta. change (Z.to_nat 1) with 1%nat. cbn [replicateM].
  eapply runs_bind.
  { eapply runs_bind; [eapply runs_bind; [apply runs_rand_platform|apply runs_ret]|].
    eapply runs_bind; apply runs_ret. }
  cbv beta. rewrite (d_quarter 0) by lia. fold tiny_T0.
  assert (HT0 : 0 <= tiny_T0 < 1 / 2) by (unfold tiny_T0; lra).
  replace (Z.max 1 (floor (1 * (sum [tiny_T0] + 0.5)))) with 1%Z.
  2:{ replace (floor (1 * (sum [tiny_T0] + 0.5))) with 0%Z; [reflexivity|].
      symmetry. apply Zfloor_eq. unfold sum. cbn [fold_right]. simpl IZR. lra. }
  change (zeros 1) with [0]. change (Z.to_nat 1) with 1%nat.
  cbn [foldM length replicateM].
  eapply runs_bind.
  { eapply runs_bind; [apply (fetal_beat_tiny snr tiny_T0 1); [lia|lra]|apply runs_ret]. }
  cbv beta iota. change (1 + 14)%nat with 15%nat.
  eapply runs_bind.
  { eapply runs_bind; [eapply runs_bind; [apply runs_rand_platform|apply runs_ret]|].
    eapply runs_bind; apply runs_ret. }
  cbv beta. rewrite (d_quarter 15) by lia. cbn [foldM].
  eapply runs_bind.
  { eapply runs_bind; [|apply runs_ret].
    apply (maternal_beat_tiny snr _ 16); [lia|lra]. }
  cbv beta iota. change (16 + 14)%nat with 30%nat.
  eapply runs_bind; [apply runs_lift, kernel_one_sample; lra|].
  eapply runs_bind; [apply runs_lift, kernel_one_sample; lra|].
  eapply runs_bind; [apply runs_lift, convolve_singletons|].
  cbn [map]. 
  eapply runs_bind; [apply runs_lift, convolve_singletons|].
  eapply runs_bind; [apply runs_ret|].
  eapply runs_bind; [apply runs_ret|].
  cbv beta iota.
  eapply runs_bind.
  { eapply runs_bind; [apply (runs_gaussian_platform 0 d 30); assumption|].
    eapply runs_bind; apply runs_ret. }
  eapply runs_eq; [apply runs_ret|].
  f_equal. f_equal.
  unfold tabulate, mapi. cbn [seq map mapi_from firstn length nth Fpcg.uc_noise].
  f_equal. lra.
Qed.

End TinyFetalRun.

(** ** Reproducibility: what depends on [Math.random] and what does not *)

Section Reproducible.

(** What a caller sees of a run: the value, or the failure. *)
Definition value_of {A} (o : outcome (A * rstate)) : outcome A :=
  match o with
  | Returns (a, _) => Returns a
  | RangeError => RangeError
  | OutOfFuel => OutOfFuel
  end.

(** Two runs from the same seeded state, over two platform streams, end
    alike: same value, same seeded state. *)
Definition alike {A} (o1 o2 : outcome (A * rstate)) : Prop :=
  match o1, o2 with
  | Returns (a1, (g1, _)), Returns (a2, (g2, _)) =>
      a1 = a2 /\ g1 = g2 /\ exists sd, g1 = Seeded sd
  | RangeError, RangeError => True
  | OutOfFuel, OutOfFuel => True
  | _, _ => False
  end.

(** [seeded_only m]: under a seeded source, [m] never consults the
    platform's. *)
Definition seeded_only {A} (m : M A) : Prop :=
  forall sd w1 w2, alike (m (Seeded sd, w1)) (m (Seeded sd, w2)).

(** [state_free m]: the value of [m] is the same from every state. *)
Definition state_free {A} (m : M A) : Prop :=
  forall s1 s2, value_of (m s1) = value_of (m s2).

Lemma seeded_ret {A} (a : A) : seeded_only (ret a).
Proof. intros sd w1 w2. simpl. eauto. Qed.

Lemma seeded_bind {A B} (m : M A) (k : A -> M B) :
  seeded_only m -> (forall a, seeded_only (k a)) -> seeded_only (bind m k).
Proof.
  intros Hm Hk sd w1 w2. specialize (Hm sd w1 w2). unfold bind, alike in *.
  destruct (m (Seeded sd, w1)) as [[a1 [g1 w1']]| |],
           (m (Seeded sd, w2)) as [[a2 [g2 w2']]| |]; try contradiction; auto.
  destruct Hm as (-> & -> & sd' & ->). apply Hk.
Qed.

Lemma seeded_rand : seeded_only rand.
Proof.
  intros sd w1 w2. unfold rand, alike. destruct (mulberry32 sd). eauto.
Qed.

Lemma seeded_lift {A} (o : outcome A) : seeded_only (lift o).
Proof. intros sd w1 w2. unfold lift, alike. destruct o; eauto. Qed.

Lemma seeded_new_array (n : Z) : seeded_only (new_array n).
Proof.
  intros sd w1 w2. unfold new_array, alike. destruct (n <? 0)%Z; eauto.
Qed.

Lemma seeded_if {A} (c : bool) (m1 m2 : M A) :
  seeded_only m1 -> seeded_only m2 -> seeded_only (if c then m1 else m2).
Proof. now destruct c. Qed.

Lemma seeded_draw_nonzero (fuel : nat) : seeded_only (draw_nonzero fuel).
Proof.
  induction fuel as [|f IH]; simpl.
  - intros sd w1 w2. exact I.
  - apply seeded_bind; [apply seeded_rand|]. intros u.
    destruct (Req_dec_T u 0); [exact IH|apply seeded_ret].
Qed.

Lemma seeded_gaussian (fuel : nat) : seeded_only (gaussian fuel).
Proof.
  unfold gaussian.
  apply seeded_bind; [apply seeded_draw_nonzero|]. intros u.
  apply seeded_bind; [apply seeded_draw_nonzero|]. intros v.
  apply seeded_ret.
Qed.

Lemma seeded_replicateM {A} (n : nat) (m : M A) :
  seeded_only m -> seeded_only (replicateM n m).
Proof.
  intros Hm. induction n as [|n IH]; simpl; [apply seeded_ret|].
  apply seeded_bind; [exact Hm|]. intros x.
  apply seeded_bind; [exact IH|]. intros xs. apply seeded_ret.
Qed.

Lemma seeded_tabulateM (n : nat) (f : nat -> M R) :
  (forall k, seeded_only (f k)) -> seeded_only (tabulateM n f).
Proof.
  intros Hf. unfold tabulateM. generalize 0%nat as i.
  induction n as [|n IH]; intros i; simpl; [apply seeded_ret|].
  apply seeded_bind; [apply Hf|]. intros x.
  apply seeded_bind; [apply IH|]. intros xs. apply seeded_ret.
Qed.

Lemma seeded_foldM {A S} (step : S -> A -> M S) (l : list A) (s0 : S) :
  (forall s a, seeded_only (step s a)) -> seeded_only (foldM step l s0).
Proof.
  intros Hstep. revert s0. induction l as [|a l IH]; intros s0; simpl.
  - apply seeded_ret.
  - apply seeded_bind; [apply Hstep|]. exact IH.
Qed.

Lemma state_free_ret {A} (a : A) : state_free (ret a).
Proof. intros s1 s2. reflexivity. Qed.

Lemma state_free_lift {A} (o : outcome A) : state_free (lift o).
Proof. intros s1 s2. unfold lift. now destruct o. Qed.

Lemma state_free_bind {A B} (m : M A) (k : A -> M B) :
  state_free m -> (forall a, state_free (k a)) -> state_free (bind m k).
Proof.
  intros Hm Hk s1 s2. specialize (Hm s1 s2). unfold bind, value_of in *.
  destruct (m s1) as [[a1 s1']| |], (m s2) as [[a2 s2']| |]; try congruence.
  injection Hm as ->. apply Hk.
Qed.

(** A routine that brings its own seeded source is a function of its
    arguments alone. *)
Lemma state_free_with_rng {A} (sd : Z) (body : M A) :
  seeded_only body -> state_free (with_rng (Seeded sd) body).
Proof.
  intros Hb [g1 w1] [g2 w2]. specialize (Hb sd w1 w2).
  unfold with_rng, alike, value_of in *. cbn [fst snd].
  destruct (body (Seeded sd, w1)) as [[a1 [h1 v1]]| |],
           (body (Seeded sd, w2)) as [[a2 [h2 v2]]| |]; try contradiction; auto.
  destruct Hb as (-> & _). reflexivity.
Qed.

Ltac seeded :=
  repeat first
    [ apply seeded_ret | apply seeded_rand | apply seeded_gaussian
    | apply seeded_new_array | apply seeded_lift
    | apply seeded_replicateM | apply seeded_tabulateM; intros
    | apply seeded_foldM; intros
    | apply seeded_bind; [|intros]
    | match goal with
      | |- seeded_only (if ?c then _ else _) => destruct c
      | |- seeded_only (match ?x with _ => _ end) => destruct x
      end
    | progress cbv zeta ].

(** *** The adult simulator *)

Lemma envelopedBurst_seeded fuel n fs center width amp :
  seeded_only (Pcg.envelopedBurst fuel n fs center width amp).
Proof. unfold Pcg.envelopedBurst. seeded. Qed.

Lemma valveEvent_seeded fuel n fs center width ampMain ampSub delayMs :
  seeded_only (Pcg.valveEvent fuel n fs center width ampMain ampSub delayMs).
Proof. unfold Pcg.valveEvent. seeded; apply envelopedBurst_seeded. Qed.

Lemma murmur_fill_seeded fuel n startIdx len gain env :
  seeded_only (Pcg.murmur_fill fuel n startIdx len gain env).
Proof. unfold Pcg.murmur_fill. seeded. Qed.

Lemma simulateSingleBeat_seeded fuel fs duration params abnormal :
  seeded_only (Pcg.simulateSingleBeat fuel fs duration params abnormal).
Proof.
  unfold Pcg.simulateSingleBeat, Pcg.addSystolicMurmur, Pcg.addDiastolicMurmur,
    Pcg.addS2Split, Pcg.addS3Sound.
  seeded;
    first [apply valveEvent_seeded | apply murmur_fill_seeded
          | apply envelopedBurst_seeded].
Qed.

Lemma pcg_addNoiseSNR_seeded fuel x snrDb fs :
  seeded_only (Pcg.addNoiseSNR fuel x snrDb fs).
Proof. unfold Pcg.addNoiseSNR. seeded. Qed.

Lemma one_beat_seeded fuel fs beatLengthSec params abnormal snrDb acc b :
  seeded_only (Pcg.one_beat fuel fs beatLengthSec params abnormal snrDb acc b).
Proof.
  destruct acc as [[beats s1t] s2t]. unfold Pcg.one_beat.
  apply seeded_bind; [apply simulateSingleBeat_seeded|]. intros [[beat s1Time] s2Time].
  apply seeded_bind; [apply pcg_addNoiseSNR_seeded|]. intros processed.
  apply seeded_ret.
Qed.

Lemma simulateMultibeat_seeded fuel numBeats fs beatLengthSec params abnormal snrDb :
  seeded_only (Pcg.simulateMultibeat fuel numBeats fs beatLengthSec params abnormal snrDb).
Proof.
  unfold Pcg.simulateMultibeat.
  apply seeded_bind; [apply seeded_foldM; intros; apply one_beat_seeded|].
  intros [[beats s1t] s2t]. apply seeded_if; apply seeded_ret.
Qed.

Lemma simulateHeartDataset_state_free fuel o :
  state_free (Pcg.simulateHeartDataset fuel o).
Proof.
  unfold Pcg.simulateHeartDataset. cbv zeta.
  apply state_free_with_rng.
  apply seeded_bind; [apply simulateMultibeat_seeded|]. intros r. apply seeded_ret.
Qed.

(** *** The lung synthesiser *)

Lemma oneCycleRandom_seeded fuel p : seeded_only (Lung.oneCycleRandom fuel p).
Proof. unfold Lung.oneCycleRandom, Lung.lerpRand. seeded. Qed.

Lemma breath_step_seeded fuel p acc i : seeded_only (Lung.breath_step fuel p acc i).
Proof.
  unfold Lung.breath_step. destruct acc as [all offset].
  apply seeded_bind; [apply oneCycleRandom_seeded|]. intros c. apply seeded_ret.
Qed.

Lemma rng_of_seeded (sd : Z) : exists sd', Lung.rng_of (Some sd) = Seeded sd'.
Proof. unfold Lung.rng_of. cbv zeta. eauto. Qed.

Lemma random_walk_seeded (n : nat) (v : R) : seeded_only (Lung.random_walk n v).
Proof.
  revert v. induction n as [|n IH]; intros v; simpl; [apply seeded_ret|].
  apply seeded_bind; [apply seeded_rand|]. intros u. cbv zeta.
  apply seeded_bind; [apply IH|]. intros rest. apply seeded_ret.
Qed.

Lemma pinkNoise_seeded (N : Z) : seeded_only (Lung.pinkNoise N).
Proof.
  unfold Lung.pinkNoise. cbv zeta.
  apply seeded_bind; [|intros; apply seeded_ret].
  apply seeded_foldM. intros acc r.
  apply seeded_bind; [apply random_walk_seeded|]. intros walk. apply seeded_ret.
Qed.

Lemma makeEnvNoise_state_free fuel fs duration sd mix band :
  state_free (Lung.makeEnvNoise fuel fs duration (Some sd) mix band).
Proof.
  unfold Lung.makeEnvNoise. destruct (rng_of_seeded sd) as [sd' ->].
  apply state_free_with_rng. cbv zeta.
  apply seeded_bind; [apply pinkNoise_seeded|]. intros pn.
  apply seeded_bind; [apply seeded_replicateM, seeded_gaussian|]. intros white.
  apply seeded_ret.
Qed.

Lemma lung_addNoiseSNR_state_free fuel sig fs snrDb sd mix band :
  state_free (Lung.addNoiseSNR fuel sig fs snrDb (Some sd) mix band).
Proof.
  unfold Lung.addNoiseSNR.
  apply state_free_bind; [apply makeEnvNoise_state_free|]. intros noise.
  apply state_free_ret.
Qed.

Lemma synthBreathRandomCycles_state_free fuel p sd :
  Lung.seed p = Some sd -> state_free (Lung.synthBreathRandomCycles fuel p).
Proof.
  intros Hp. unfold Lung.synthBreathRandomCycles. rewrite Hp.
  destruct (rng_of_seeded sd) as [sd' ->]. apply state_free_with_rng.
  apply seeded_bind; [apply seeded_foldM; intros; apply breath_step_seeded|].
  intros [all offset]. apply seeded_ret.
Qed.

Lemma genNormalLungSignal_state_free fuel count cycles :
  state_free (Lung.genNormalLungSignal fuel count cycles).
Proof.
  unfold Lung.genNormalLungSignal. cbv zeta.
  apply state_free_bind; [now apply (synthBreathRandomCycles_state_free _ _ 2025%Z)|].
  intros base.
  apply state_free_bind; [apply lung_addNoiseSNR_state_free|]. intros y.
  apply state_free_lift.
Qed.

(** *** The two fetal runs that differ *)

(** Two streams of [Math.random] that agree on the thirty draws of the
    beats and differ on the second draw of the noise sample. *)
Definition quarter_then_half : nat -> R :=
  fun n => if (n <? 30)%nat then 1 / 4 else 1 / 2.

Definition quarter_then_sixth : nat -> R :=
  fun n => if (n <? 30)%nat then 1 / 4 else if (n =? 30)%nat then 1 / 2 else 1 / 6.

Lemma box_muller_sixth_pos : 0 < box_muller (1 / 2) (1 / 6).
Proof.
  unfold box_muller. replace (2 * PI * (1 / 6)) with (PI / 3) by field.
  rewrite cos_PI3.
  assert (0 < sqrt (-2 * ln (1 / 2))); [|lra].
  apply sqrt_lt_R0.
  replace (1 / 2) with (/ 2) by lra. rewrite ln_Rinv by lra.
  pose proof ln_2_lower. lra.
Qed.

Lemma rms_singleton (v : R) : Fpcg.rms [v] = Rabs v.
Proof.
  unfold Fpcg.rms, sum. cbn [map fold_right length]. change (INR 1) with 1.
  rewrite Rmax_left by lra.
  replace ((v * v + 0) / 1) with (Rsqr v) by (unfold Rsqr; field).
  apply sqrt_Rsqr_abs.
Qed.

(** The noise of one sample: its sign is all that is left of the draw. *)
Lemma add_awgn_one_sample (snr b G : R) :
  b < 0 -> G < 0 ->
  Fpcg.add_awgn snr [b] [G] = [b + b / pow 10 (snr / 20)].
Proof.
  intros Hb HG. unfold Fpcg.add_awgn. cbv zeta. rewrite !rms_singleton.
  rewrite (Rabs_left b), (Rabs_left G) by assumption.
  unfold or_else. destruct (Req_dec_T (- G) 0) as [E|_]; [exfalso; lra|].
  cbn [map zipWith]. f_equal. f_equal.
  assert (Hp : 0 < pow 10 (snr / 20)) by (unfold pow, Rpower; apply exp_pos).
  field. split; lra.
Qed.

Lemma add_awgn_one_sample_up (snr b G : R) :
  b < 0 -> 0 < G ->
  Fpcg.add_awgn snr [b] [G] = [b + - b / pow 10 (snr / 20)].
Proof.
  intros Hb HG. unfold Fpcg.add_awgn. cbv zeta. rewrite !rms_singleton.
  rewrite (Rabs_left b), (Rabs_right G) by lra.
  unfold or_else. destruct (Req_dec_T G 0) as [E|_]; [exfalso; lra|].
  cbn [map zipWith]. f_equal. f_equal.
  assert (Hp : 0 < pow 10 (snr / 20)) by (unfold pow, Rpower; apply exp_pos).
  field. split; lra.
Qed.

Lemma pow_10_m3 : pow 10 (-60 / 20) = / 1000.
Proof.
  unfold pow. replace (-60 / 20) with (- INR 3) by (simpl; lra).
  rewrite Rpower_Ropp, Rpower_pow by lra. f_equal. lra.
Qed.

Lemma generate_tiny (d : nat -> R) (snr : R) :
  (forall n, (n < 30)%nat -> d n = 1 / 4) -> d 30%nat <> 0 -> d 31%nat <> 0 ->
  runs (Index.generate 1 (tiny_options snr) 1) (MathRandom, at_pos d 0)
    (Fpcg.add_awgn snr [tiny_base] [box_muller (d 30%nat) (d 31%nat)])
    (MathRandom, at_pos d 32).
Proof.
  intros Hq H30 H31. unfold Index.generate.
  eapply runs_bind; [now apply tiny_dataset_run|].
  cbn [Fpcg.out_t Fpcg.out_y]. apply runs_lift.
  unfold Fpcg.resampleToLength, Fpcg.add_awgn. reflexivity.
Qed.

End Reproducible.

Lemma quarter_then_half_start (n : nat) : (n < 30)%nat -> quarter_then_half n = 1 / 4.
Proof.
  intros Hn. unfold quarter_then_half. destruct (Nat.ltb_spec n 30); [reflexivity|lia].
Qed.

Lemma tiny_noisy_run (snr : R) :
  runs (Index.generate 1 (tiny_options snr) 1) (MathRandom, at_pos quarter_then_half 0)
    [tiny_base + tiny_base / pow 10 (snr / 20)]
    (MathRandom, at_pos quarter_then_half 32).
Proof.
  eapply runs_eq.
  - apply generate_tiny.
    + exact quarter_then_half_start.
    + change (quarter_then_half 30) with (1 / 2). lra.
    + change (quarter_then_half 31) with (1 / 2). lra.
  - change (quarter_then_half 30) with (1 / 2).
    change (quarter_then_half 31) with (1 / 2).
    apply add_awgn_one_sample; [|apply box_muller_half_neg].
    pose proof tiny_base_neg. lra.
Qed.

Lemma quarter_then_sixth_start (n : nat) : (n < 30)%nat -> quarter_then_sixth n = 1 / 4.
Proof.
  intros Hn. unfold quarter_then_sixth. destruct (Nat.ltb_spec n 30); [reflexivity|lia].
Qed.

Lemma tiny_noisy_run_up (snr : R) :
  runs (Index.generate 1 (tiny_options snr) 1) (MathRandom, at_pos quarter_then_sixth 0)
    [tiny_base + - tiny_base / pow 10 (snr / 20)]
    (MathRandom, at_pos quarter_then_sixth 32).
Proof.
  eapply runs_eq.
  - apply generate_tiny.
    + exact quarter_then_sixth_start.
    + change (quarter_then_sixth 30) with (1 / 2). lra.
    + change (quarter_then_sixth 31) with (1 / 6). lra.
  - change (quarter_then_sixth 30) with (1 / 2).
    change (quarter_then_sixth 31) with (1 / 6).
    apply add_awgn_one_sample_up; [|apply box_muller_sixth_pos].
    pose proof tiny_base_neg. lra.
Qed.

(** C2, as far as the code goes: the output of the fetal simulator is
    never normalised, and its samples are not bounded by [1].  With a
    sample rate of [1], one cycle, [snr_db = -60], movement and
    contractions off, and a [Math.random] that answers [1/4] thirty times
    (the draws of the beats) and [1/2] twice (the noise sample), the run
    returns the single sample [1001 * 0.03 * sinc(-1.2)], below [-3]. *)
Lemma fetal_sample_exceeds_one :
  exists v s',
    Index.generate 1 (tiny_options (-60)) 1 (MathRandom, at_pos quarter_then_half 0)
      = Returns ([v], s') /\
    1 < Rabs v.
Proof.
  exists (tiny_base + tiny_base / pow 10 (-60 / 20)). eexists.
  split; [apply tiny_noisy_run|].
  rewrite pow_10_m3. pose proof tiny_base_neg as Hb.
  rewrite Rabs_left; unfold Rdiv; rewrite ?Rinv_inv; lra.
Qed.

(** C1, as far as the code goes: the fetal simulator draws from
    [Math.random], and the same call can return two different arrays.
    With a sample rate of [1], one cycle, movement and contractions off,
    two streams of [Math.random] that differ in the last draw of the noise
    sample ([1/6] and [1/2]) give [b - b / sqrt 10] and [b + b / sqrt 10],
    [b = 0.03 * sinc(-1.2)]. *)
Lemma fetal_runs_differ :
  exists y1 y2 s1 s2,
    Index.generate 1 (tiny_options 10) 1 (MathRandom, at_pos quarter_then_sixth 0)
      = Returns (y1, s1) /\
    Index.generate 1 (tiny_options 10) 1 (MathRandom, at_pos quarter_then_half 0)
      = Returns (y2, s2) /\
    y1 <> y2.
Proof.
  do 4 eexists. split; [apply tiny_noisy_run_up|]. split; [apply tiny_noisy_run|].
  intros E. injection E as E.
  assert (Hp : 0 < pow 10 (10 / 20)) by (unfold pow, Rpower; apply exp_pos).
  pose proof tiny_base_neg as Hb.
  assert (Hq : tiny_base / pow 10 (10 / 20) < 0).
  { assert (0 < / pow 10 (10 / 20)) by now apply Rinv_0_lt_compat.
    unfold Rdiv. nra. }
  unfold Rdiv in *. lra.
Qed.

(** [simulateHeartDataset] followed by [resampleToLength]. *)
Definition heart_pipeline (fuel : nat) (o : Pcg.heart_opts) (count : Z) : M (list R) :=
  r <- Pcg.simulateHeartDataset fuel o ;;
  lift (Pcg.resampleToLength (fst r) (snd r) count).

Lemma heart_pipeline_state_free fuel o count : state_free (heart_pipeline fuel o count).
Proof.
  unfold heart_pipeline.
  apply state_free_bind; [apply simulateHeartDataset_state_free|]. intros r.
  apply state_free_lift.
Qed.

Lemma pcg_resample_returns (t y : list R) (count : Z) :
  exists out, Pcg.resampleToLength t y count = Returns out.
Proof.
  unfold Pcg.resampleToLength.
  destruct (Z.of_nat (length y) =? count)%Z; [eauto|].
  destruct (count <=? 0)%Z; eauto.
Qed.

Lemma heart_pipeline_returns fuel o count :
  (2 <= fuel)%nat -> (0 <= floor (1.2 * Pcg.fs o))%Z ->
  returns (heart_pipeline fuel o count) (fun _ => True).
Proof.
  intros Hf Hn. unfold heart_pipeline, Pcg.simulateHeartDataset. cbv zeta.
  apply returns_skip.
  - apply returns_with_rng.
    apply returns_skip; [|intros; now apply returns_ret].
    eapply returns_forget. now apply simulateMultibeat_returns.
  - intros r. destruct (pcg_resample_returns (fst r) (snd r) count) as [out ->].
    now apply returns_lift.
Qed.

(** C1, amended: the pipelines that bring their own seeded source (the
    adult simulator, seed 2025, and the lung synthesiser) return the same
    array on every invocation, whatever [Math.random] does; the adult
    pipeline does return one whenever its beat length is not negative. *)
Theorem seeded_pipelines_are_reproducible :
  (forall (fuel : nat) (o : Pcg.heart_opts) (count : Z) (s1 s2 : rstate),
      value_of (heart_pipeline fuel o count s1)
      = value_of (heart_pipeline fuel o count s2)) /\
  (forall (fuel : nat) (o : Pcg.heart_opts) (count : Z),
      (2 <= fuel)%nat -> (0 <= floor (1.2 * Pcg.fs o))%Z ->
      exists out, forall s : rstate,
        value_of (heart_pipeline fuel o count s) = Returns out) /\
  (forall (fuel : nat) (count : Z) (cycles : R) (s1 s2 : rstate),
      value_of (Lung.genNormalLungSignal fuel count cycles s1)
      = value_of (Lung.genNormalLungSignal fuel count cycles s2)).
Proof.
  split; [|split].
  - intros fuel o count. apply heart_pipeline_state_free.
  - intros fuel o count Hf Hn.
    destruct (heart_pipeline_returns fuel o count Hf Hn (MathRandom, half_draws)
                half_draws_nonzero) as (out & s' & E & _).
    exists out. intros s.
    rewrite (heart_pipeline_state_free fuel o count s (MathRandom, half_draws)), E.
    reflexivity.
  - intros fuel count cycles. apply genNormalLungSignal_state_free.
Qed.

Lemma seeded_pipelines_are_reproducible_witness :
  exists out, forall s : rstate,
    value_of (heart_pipeline 2
                {| Pcg.cycles := 10; Pcg.fs := 1000; Pcg.abnormal := Pcg.normal |} 500 s)
    = Returns out.
Proof.
  refine (proj1 (proj2 seeded_pipelines_are_reproducible) 2%nat
            {| Pcg.cycles := 10; Pcg.fs := 1000; Pcg.abnormal := Pcg.normal |} 500%Z _ _).
  - lia.
  - apply Zfloor_lub. simpl. lra.
Defined.

(** ** The noise added for a target SNR *)

Section SNR.

Definition log10 (x : R) : R := ln x / ln 10.

Lemma sum_squares_nonneg (l : list R) : 0 <= sum (map (fun v => v * v) l).
Proof.
  induction l as [|x l IH]; simpl; [lra|]. pose proof (Rle_0_sqr x) as H.
  unfold Rsqr in H. lra.
Qed.

Lemma sum_squares_scaled (k : R) (l : list R) :
  sum (map (fun v => v * v) (map (fun v => k * v) l))
  = k * k * sum (map (fun v => v * v) l).
Proof. induction l as [|x l IH]; simpl; [ring|]. rewrite IH. ring. Qed.

Lemma divisor_pos (n : nat) : 0 < Rmax 1 (INR n).
Proof. pose proof (Rmax_l 1 (INR n)). lra. Qed.

Lemma pow10_pos (e : R) : 0 < pow 10 e.
Proof. unfold pow, Rpower. apply exp_pos. Qed.

Lemma ln_10_pos : 0 < ln 10.
Proof. rewrite <- ln_1. apply ln_increasing; lra. Qed.

Lemma log10_pow10 (e : R) : log10 (pow 10 e) = e.
Proof.
  unfold log10, pow, Rpower. rewrite ln_exp. pose proof ln_10_pos. field. lra.
Qed.

(** What [10 * log10(signalPower / noisePower)] is when the noise power is
    the signal's divided by [10 ^ (snrDb / 10)]. *)
Lemma snr_of_scaled_power (a snrDb : R) :
  0 < a -> 10 * log10 (a / (a / pow 10 (snrDb / 10))) = snrDb.
Proof.
  intros Ha. pose proof (pow10_pos (snrDb / 10)) as Hp.
  replace (a / (a / pow 10 (snrDb / 10))) with (pow 10 (snrDb / 10)) by (field; lra).
  rewrite log10_pow10. field.
Qed.

(** *** The lung compositor *)

Lemma lung_rms_nonneg (l : list R) : 0 <= Lung.rms l.
Proof.
  unfold Lung.rms. pose proof (sum_squares_nonneg l). pose proof (divisor_pos (length l)).
  apply Rmult_le_pos; [assumption|]. left. now apply Rinv_0_lt_compat.
Qed.

Lemma lung_rms_scaled (k : R) (l : list R) :
  Lung.rms (map (fun v => k * v) l) = k * k * Lung.rms l.
Proof.
  unfold Lung.rms. rewrite sum_squares_scaled, length_map. unfold Rdiv. ring.
Qed.

Lemma scaled_by_index (c : R) (sig pre noise : list R) :
  length noise = length sig ->
  mapi_from (length pre) (fun _ i => c * nth i (pre ++ noise) 0) sig
  = map (fun v => c * v) noise.
Proof.
  revert pre noise. induction sig as [|x sig IH]; intros pre [|v noise] Hl;
    simpl in Hl; try discriminate; [reflexivity|].
  cbn [mapi_from map]. f_equal.
  - now rewrite nth_middle.
  - specialize (IH (pre ++ [v]) noise). rewrite length_app in IH. simpl in IH.
    rewrite Nat.add_1_r, <- app_assoc in IH. simpl in IH. apply IH. lia.
Qed.

Lemma lung_noise_track_scaled (sig noise : list R) (snrDb : R) :
  length noise = length sig ->
  Lung.noise_track sig noise snrDb
  = map (fun v => sqrt (Lung.rms sig / pow 10 (snrDb / 10) / or_else (Lung.rms noise) 1) * v)
      noise.
Proof.
  intros Hl. unfold Lung.noise_track. cbv zeta. unfold mapi.
  exact (scaled_by_index _ sig [] noise Hl).
Qed.

Lemma lung_noise_power (sig noise : list R) (snrDb : R) :
  length noise = length sig -> Lung.rms noise <> 0 ->
  Lung.rms (Lung.noise_track sig noise snrDb) = Lung.rms sig / pow 10 (snrDb / 10).
Proof.
  intros Hl Hn. rewrite lung_noise_track_scaled by exact Hl. rewrite lung_rms_scaled.
  unfold or_else. destruct (Req_dec_T (Lung.rms noise) 0) as [E|_]; [contradiction|].
  pose proof (lung_rms_nonneg sig) as Hs. pose proof (lung_rms_nonneg noise) as Hn0.
  pose proof (pow10_pos (snrDb / 10)) as Hp.
  rewrite sqrt_sqrt.
  - field. split; lra.
  - apply Rmult_le_pos; [apply Rmult_le_pos; [exact Hs|]|];
      left; apply Rinv_0_lt_compat; lra.
Qed.

Lemma round_of_length (n : nat) (fs : R) :
  fs <> 0 -> round (INR n / fs * fs) = Z.of_nat n.
Proof.
  intros Hfs. replace (INR n / fs * fs) with (INR n) by (field; exact Hfs).
  apply round_eq. rewrite INR_IZR_INZ. lra.
Qed.

Lemma always_replicateM {A} (n : nat) (m : M A) :
  always (replicateM n m) (fun l => length l = n).
Proof.
  induction n as [|n IH]; simpl.
  - now apply always_ret.
  - apply always_skip. intros x. eapply always_bind; [exact IH|].
    intros xs Hl. apply always_ret. simpl. now rewrite Hl.
Qed.

Lemma makeEnvNoise_length fuel fs duration seed mix band :
  always (Lung.makeEnvNoise fuel fs duration seed mix band)
    (fun noise => length noise = Z.to_nat (Z.max 1 (round (duration * fs)))).
Proof.
  unfold Lung.makeEnvNoise. apply always_with_rng. cbv zeta.
  apply always_skip. intros pn. apply always_skip. intros white.
  apply always_ret. now rewrite length_map, tabulate_length.
Qed.

Lemma lung_addNoiseSNR_shape fuel sig fs snrDb seed mix band :
  sig <> [] -> fs <> 0 ->
  always (Lung.addNoiseSNR fuel sig fs snrDb seed mix band)
    (fun y => exists noise,
       y = Lung.normalize95 (zipWith Rplus sig (Lung.noise_track sig noise snrDb)) /\
       length noise = length sig).
Proof.
  intros Hsig Hfs. unfold Lung.addNoiseSNR.
  eapply always_bind; [apply makeEnvNoise_length|]. intros noise Hl. cbv zeta.
  apply always_ret. exists noise. split; [reflexivity|].
  rewrite Hl, round_of_length by exact Hfs.
  destruct sig as [|x sig]; [contradiction|]. simpl length. lia.
Qed.

(** *** The adult compositor *)

Lemma mean_square_nonneg (l : list R) : 0 <= Pcg.mean_square l.
Proof.
  unfold Pcg.mean_square. pose proof (sum_squares_nonneg l).
  pose proof (divisor_pos (length l)).
  apply Rmult_le_pos; [assumption|]. left. now apply Rinv_0_lt_compat.
Qed.

Lemma mean_square_scaled (k : R) (l : list R) :
  Pcg.mean_square (map (fun v => k * v) l) = k * k * Pcg.mean_square l.
Proof.
  unfold Pcg.mean_square. rewrite sum_squares_scaled, length_map. unfold Rdiv. ring.
Qed.

(** The power of the adult noise track: the target, times what the two
    regularisers [1e-8] take away. *)
Lemma pcg_noise_power (x filtered : list R) (snrDb : R) :
  Pcg.mean_square (Pcg.noise_track x filtered snrDb)
  = Pcg.mean_square x / pow 10 (snrDb / 10)
    * (Pcg.mean_square filtered / (sqrt (Pcg.mean_square filtered + 1e-8) + 1e-8) ^ 2).
Proof.
  unfold Pcg.noise_track. cbv zeta.
  set (m := Pcg.mean_square filtered). set (pN := Pcg.mean_square x / pow 10 (snrDb / 10)).
  assert (Hm : 0 <= m) by apply mean_square_nonneg.
  assert (HpN : 0 <= pN).
  { unfold pN. apply Rmult_le_pos; [apply mean_square_nonneg|].
    left. apply Rinv_0_lt_compat, pow10_pos. }
  assert (Hs : 0 <= sqrt (m + 1e-8)) by apply sqrt_pos.
  rewrite (map_ext _ (fun v => sqrt pN / (sqrt (m + 1e-8) + 1e-8) * v))
    by (intros v; field; lra).
  rewrite mean_square_scaled. fold m.
  replace (sqrt pN / (sqrt (m + 1e-8) + 1e-8) * (sqrt pN / (sqrt (m + 1e-8) + 1e-8)) * m)
    with (sqrt pN * sqrt pN * (m / (sqrt (m + 1e-8) + 1e-8) ^ 2)) by (field; lra).
  now rewrite sqrt_sqrt.
Qed.

Lemma regulariser_loss (m : R) :
  0 < m ->
  1 - 1e-8 * (3 + m) / m <= m / (sqrt (m + 1e-8) + 1e-8) ^ 2 <= 1.
Proof.
  intros Hm. set (s := sqrt (m + 1e-8)).
  assert (Hs2 : s * s = m + 1e-8) by (apply sqrt_sqrt; lra).
  assert (Hs : 0 < s) by (apply sqrt_lt_R0; lra).
  assert (H2s : 2 * s <= 1 + m + 1e-8).
  { pose proof (Rle_0_sqr (s - 1)) as H. unfold Rsqr in H. lra. }
  assert (HDe : (s + 1e-8) ^ 2 = m + 1e-8 + 2 * 1e-8 * s + 1e-8 * 1e-8)
    by (transitivity (s * s + 2 * 1e-8 * s + 1e-8 * 1e-8); [ring|rewrite Hs2; ring]).
  rewrite HDe.
  set (D := m + 1e-8 + 2 * 1e-8 * s + 1e-8 * 1e-8).
  assert (HD : m < D) by (unfold D; lra).
  assert (HDu : D <= m + 1e-8 * (3 + m)) by (unfold D; lra).
  split.
  - apply (Rmult_le_reg_r (m * D)); [apply Rmult_lt_0_compat; lra|].
    replace (m / D * (m * D)) with (m * m) by (field; lra).
    replace ((1 - 1e-8 * (3 + m) / m) * (m * D))
      with ((m - 1e-8 * (3 + m)) * D) by (field; lra).
    destruct (Rle_dec 0 (m - 1e-8 * (3 + m))) as [Hpos|Hneg].
    + apply Rle_trans with ((m - 1e-8 * (3 + m)) * (m + 1e-8 * (3 + m))).
      * apply Rmult_le_compat_l; assumption.
      * pose proof (Rle_0_sqr (1e-8 * (3 + m))) as H. unfold Rsqr in H. lra.
    + apply Rle_trans with 0.
      * rewrite <- (Rmult_0_l D). apply Rmult_le_compat_r; lra.
      * pose proof (Rle_0_sqr m) as H. unfold Rsqr in H. lra.
  - apply (Rmult_le_reg_r D); [lra|].
    replace (m / D * D) with m by (field; lra). lra.
Qed.


(** *** What the two compositors add in a run *)

Lemma lung_addNoiseSNR_noise fuel sig fs snrDb seed mix band s y s' :
  sig <> [] -> fs <> 0 ->
  Lung.addNoiseSNR fuel sig fs snrDb seed mix band s = Returns (y, s') ->
  exists noise : list R,
    Lung.makeEnvNoise fuel fs (INR (length sig) / fs) seed mix band s
      = Returns (noise, s') /\
    length noise = length sig /\
    y = Lung.normalize95 (zipWith Rplus sig (Lung.noise_track sig noise snrDb)).
Proof.
  intros Hsig Hfs E. unfold Lung.addNoiseSNR, bind in E.
  destruct (Lung.makeEnvNoise fuel fs (INR (length sig) / fs) seed mix band s)
    as [[noise s1]| |] eqn:En; try discriminate.
  cbv zeta in E. unfold ret in E. inversion E; subst.
  exists noise. split; [reflexivity|]. split; [|reflexivity].
  rewrite (makeEnvNoise_length _ _ _ _ _ _ _ _ _ En), round_of_length by exact Hfs.
  destruct sig as [|x sig]; [contradiction|]. simpl length. lia.
Qed.

Lemma lung_track_power (sig noise : list R) (snrDb : R) :
  length noise = length sig ->
  Lung.rms (Lung.noise_track sig noise snrDb)
  = if Req_dec_T (Lung.rms noise) 0 then 0 else Lung.rms sig / pow 10 (snrDb / 10).
Proof.
  intros Hl. destruct (Req_dec_T (Lung.rms noise) 0) as [E|Hn].
  - rewrite lung_noise_track_scaled by exact Hl. rewrite lung_rms_scaled, E. ring.
  - now apply lung_noise_power.
Qed.

Lemma pcg_addNoiseSNR_noise fuel x snrDb fs s y s' :
  Pcg.addNoiseSNR fuel x snrDb fs s = Returns (y, s') ->
  exists noise : list R,
    replicateM (length x) (gaussian fuel) s = Returns (noise, s') /\
    length noise = length x /\
    y = zipWith Rplus x (Pcg.noise_track x (Pcg.lowpassFilter noise fs 100 4) snrDb).
Proof.
  intros E. unfold Pcg.addNoiseSNR, bind in E.
  destruct (replicateM (length x) (gaussian fuel) s) as [[noise s1]| |] eqn:En;
    try discriminate.
  cbv zeta in E. unfold ret in E. inversion E; subst.
  exists noise. repeat split.
  exact (always_replicateM _ _ _ _ _ En).
Qed.

Lemma regulariser_at_most_one (m : R) :
  0 <= m -> m / (sqrt (m + 1e-8) + 1e-8) ^ 2 <= 1.
Proof.
  intros Hm. destruct (Req_dec m 0) as [->|Hne].
  - unfold Rdiv. rewrite Rmult_0_l. lra.
  - apply regulariser_loss. lra.
Qed.

Lemma pcg_track_length (x noise : list R) (fs snrDb : R) :
  length noise = length x ->
  length (Pcg.noise_track x (Pcg.lowpassFilter noise fs 100 4) snrDb) = length x.
Proof.
  intros Hl. unfold Pcg.noise_track. cbv zeta.
  now rewrite length_map, lowpassFilter_length.
Qed.

Lemma target_nonneg (x : list R) (snrDb : R) :
  0 <= Pcg.mean_square x / pow 10 (snrDb / 10).
Proof.
  apply Rmult_le_pos; [apply mean_square_nonneg|].
  left. apply Rinv_0_lt_compat, pow10_pos.
Qed.

Lemma pow10_zero : pow 10 (0 / 10) = 1.
Proof. unfold pow. replace (0 / 10) with 0 by lra. apply Rpower_O. lra. Qed.

(** *** A signal of one sample *)

Lemma iterations_4 : iterations 4 = 4%nat.
Proof. unfold iterations. rewrite (Zceil_eq 4 4); [reflexivity|lra]. Qed.

(** The first output of every low-pass stage is [0]: a one-sample noise
    is silenced. *)
Lemma lowpassFilter_single (g fs cutoff : R) : Pcg.lowpassFilter [g] fs cutoff 4 = [0].
Proof. unfold Pcg.lowpassFilter. cbv zeta. now rewrite iterations_4. Qed.

Lemma mean_square_single_zero : Pcg.mean_square [0] = 0.
Proof. unfold Pcg.mean_square, sum. cbn [map fold_right]. unfold Rdiv. ring. Qed.

Lemma mean_square_single_one : Pcg.mean_square [1] = 1.
Proof.
  unfold Pcg.mean_square, sum. cbn [map fold_right length]. change (INR 1) with 1.
  rewrite Rmax_left by lra. field.
Qed.

End SNR.

(** C6, as far as the code goes: the adult compositor does not reach the
    target on every signal.  Its noise goes through [lowpassFilter],
    whose first output sample is [0], and is then divided by its
    regularised RMS.  For the one-sample signal [[1]] at 0 dB the target
    noise power is the signal's power, [1]; the filtered noise is [[0]],
    nothing is added and the signal is returned unchanged. *)
Lemma single_sample_gets_no_noise :
  exists (y : list R) (s' : rstate),
    Pcg.addNoiseSNR 2 [1] 0 1000 (MathRandom, half_draws) = Returns (y, s') /\
    y = [1] /\
    Pcg.mean_square (zipWith Rminus y [1]) = 0 /\
    Pcg.mean_square [1] / pow 10 (0 / 10) = 1.
Proof.
  destruct (addNoiseSNR_returns 2 [1] 0 1000 (le_n 2) (MathRandom, half_draws)
              half_draws_nonzero) as (y & s' & Hrun & _ & _).
  destruct (pcg_addNoiseSNR_noise _ _ _ _ _ _ _ Hrun) as (noise & _ & Hl & ->).
  destruct noise as [|g [|g' noise]]; try discriminate Hl.
  rewrite lowpassFilter_single in Hrun.
  assert (Ey : zipWith Rplus [1] (Pcg.noise_track [1] [0] 0) = [1]).
  { unfold Pcg.noise_track. cbv zeta. cbn [map zipWith]. f_equal.
    unfold Rdiv. ring. }
  rewrite Ey in Hrun.
  exists [1], s'. split; [exact Hrun|]. split; [reflexivity|]. split.
  - cbn [zipWith]. replace (1 - 1) with 0 by ring. apply mean_square_single_zero.
  - rewrite mean_square_single_one, pow10_zero. field.
Qed.

(** C6, amended.  Both SNR compositors return the signal plus a noise
    track scaled for the target, the lung one after its peak
    normalisation.  In the lung compositor, for a signal that is not
    empty at a positive sample rate, the track is the noise that
    [makeEnvNoise] returned in the run times
    [sqrt(sigPower / 10^(snrDb/10) / (noisePower || 1))]: its power is the
    signal's divided by [10^(snrDb/10)] when the noise is not silent (and
    [0] when it is), so that [10 * log10(signalPower / noisePower)] is
    [snrDb] for a signal of positive power, and at 0 dB the RMS of the
    added noise is the RMS of the signal.  In the adult compositor, at a
    positive sample rate, the track is the low-passed Gaussian noise of
    the run divided by [sqrt(m + 1e-8) + 1e-8], with [m] its power, and
    multiplied by the square root of the target [pSig / 10^(snrDb/10)]:
    its power is the target times [m / (sqrt(m + 1e-8) + 1e-8)^2], which
    is never more than the target and, for [m > 0], at least
    [target * (1 - 1e-8 * (3 + m) / m)]; at 0 dB the target is the
    signal's power. *)
Theorem noise_is_scaled_to_target_snr :
  (* the lung compositor *)
  (forall (fuel : nat) (sig : list R) (fs snrDb : R) (seed : option Z)
          (mix band : R * R) (s s' : rstate) (y : list R),
      sig <> [] -> 0 < fs ->
      Lung.addNoiseSNR fuel sig fs snrDb seed mix band s = Returns (y, s') ->
      exists noise : list R,
        Lung.makeEnvNoise fuel fs (INR (length sig) / fs) seed mix band s
          = Returns (noise, s') /\
        length noise = length sig /\
        let track := Lung.noise_track sig noise snrDb in
        y = Lung.normalize95 (zipWith Rplus sig track) /\
        track = map (fun v => sqrt (Lung.rms sig / pow 10 (snrDb / 10)
                                    / or_else (Lung.rms noise) 1) * v) noise /\
        Lung.rms track
        = (if Req_dec_T (Lung.rms noise) 0 then 0
           else Lung.rms sig / pow 10 (snrDb / 10)) /\
        (Lung.rms noise <> 0 -> 0 < Lung.rms sig ->
         10 * log10 (Lung.rms sig / Lung.rms track) = snrDb) /\
        (Lung.rms noise <> 0 -> snrDb = 0 ->
         sqrt (Lung.rms track) = sqrt (Lung.rms sig))) /\
  (* the adult compositor *)
  (forall (fuel : nat) (x : list R) (snrDb fs : R) (s s' : rstate) (y : list R),
      0 < fs ->
      Pcg.addNoiseSNR fuel x snrDb fs s = Returns (y, s') ->
      exists noise : list R,
        replicateM (length x) (gaussian fuel) s = Returns (noise, s') /\
        let filtered := Pcg.lowpassFilter noise fs 100 4 in
        let m := Pcg.mean_square filtered in
        let target := Pcg.mean_square x / pow 10 (snrDb / 10) in
        let track := Pcg.noise_track x filtered snrDb in
        y = zipWith Rplus x track /\
        length track = length x /\
        track = map (fun v => v / (sqrt (m + 1e-8) + 1e-8) * sqrt target) filtered /\
        Pcg.mean_square track = target * (m / (sqrt (m + 1e-8) + 1e-8) ^ 2) /\
        Pcg.mean_square track <= target /\
        (0 < m -> target * (1 - 1e-8 * (3 + m) / m) <= Pcg.mean_square track) /\
        (snrDb = 0 -> target = Pcg.mean_square x)).
Proof.
  split.
  - intros fuel sig fs snrDb seed mix band s s' y Hsig Hfs Hrun.
    destruct (lung_addNoiseSNR_noise fuel sig fs snrDb seed mix band s y s' Hsig
                ltac:(lra) Hrun) as (noise & Hn & Hl & Hy).
    exists noise. split; [exact Hn|]. split; [exact Hl|]. cbv zeta.
    split; [exact Hy|]. split; [now apply lung_noise_track_scaled|].
    split; [now apply lung_track_power|].
    rewrite (lung_track_power sig noise snrDb Hl). split.
    + intros Hne Hs. destruct (Req_dec_T (Lung.rms noise) 0); [contradiction|].
      now apply snr_of_scaled_power.
    + intros Hne ->. destruct (Req_dec_T (Lung.rms noise) 0); [contradiction|].
      rewrite pow10_zero. f_equal. field.
  - intros fuel x snrDb fs s s' y Hfs Hrun.
    destruct (pcg_addNoiseSNR_noise fuel x snrDb fs s y s' Hrun)
      as (noise & Hn & Hl & Hy).
    exists noise. split; [exact Hn|]. cbv zeta.
    set (filtered := Pcg.lowpassFilter noise fs 100 4).
    set (m := Pcg.mean_square filtered).
    set (target := Pcg.mean_square x / pow 10 (snrDb / 10)).
    assert (Hm : 0 <= m) by apply mean_square_nonneg.
    assert (Ht : 0 <= target) by apply target_nonneg.
    split; [exact Hy|]. split; [now apply pcg_track_length|].
    split; [reflexivity|].
    rewrite pcg_noise_power. fold m target. split; [reflexivity|]. split; [|split].
    + rewrite <- (Rmult_1_r target) at 2.
      apply Rmult_le_compat_l; [exact Ht|now apply regulariser_at_most_one].
    + intros Hpos. apply Rmult_le_compat_l; [exact Ht|].
      now apply regulariser_loss.
    + intros ->. unfold target. rewrite pow10_zero. field.
Qed.

Section Example.

(** The Gaussian sample that two draws of [1/2] give. *)
Definition half_gaussian : R := box_muller (1 / 2) (1 / 2).

Lemma half_gaussian_nonzero : half_gaussian <> 0.
Proof.
  unfold half_gaussian, box_muller.
  replace (2 * PI * (1 / 2)) with PI by field. rewrite cos_PI.
  assert (Hln : ln (1 / 2) < 0).
  { rewrite <- ln_1. apply ln_increasing; lra. }
  assert (Hs : 0 < sqrt (-2 * ln (1 / 2))) by (apply sqrt_lt_R0; lra).
  lra.
Qed.

Lemma half_gaussians_run_at (k : nat) :
  runs (replicateM 2 (gaussian 2)) (MathRandom, at_pos (fun _ => 1 / 2) k)
    [half_gaussian; half_gaussian]
    (MathRandom, at_pos (fun _ => 1 / 2) (S (S (S (S k))))).
Proof.
  cbn [replicateM].
  eapply runs_bind; [apply (runs_gaussian_platform 1 (fun _ => 1 / 2) k); lra|].
  eapply runs_bind.
  { eapply runs_bind;
      [apply (runs_gaussian_platform 1 (fun _ => 1 / 2) (S (S k))); lra|].
    eapply runs_bind; [apply runs_ret|]. apply runs_ret. }
  apply runs_ret.
Qed.

Lemma half_gaussians_run :
  replicateM 2 (gaussian 2) (MathRandom, half_draws)
  = Returns ([half_gaussian; half_gaussian], (MathRandom, at_pos (fun _ => 1 / 2) 4)).
Proof. exact (half_gaussians_run_at 0). Qed.

Lemma lowpassFilter_pair (g fs cutoff : R) :
  Pcg.lowpassFilter [g; g] fs cutoff 4
  = [0; (1 - exp (-2 * PI * Rmin cutoff (fs / 2 - 1) / fs)) ^ 4 * g].
Proof.
  unfold Pcg.lowpassFilter. cbv zeta. rewrite iterations_4.
  unfold Pcg.lowpass_stage.
  cbv beta iota zeta delta [Nat.iter nat_rect onepole_from_zero onepole_run].
  f_equal. f_equal. ring.
Qed.

Lemma mean_square_pair (v : R) : Pcg.mean_square [0; v] = v * v / 2.
Proof.
  unfold Pcg.mean_square, sum. cbn [map fold_right length].
  change (INR 2) with (1 + 1). rewrite Rmax_right by lra. field.
Qed.

Lemma mean_square_alternating : Pcg.mean_square [1; -1] = 1.
Proof.
  unfold Pcg.mean_square, sum. cbn [map fold_right length].
  change (INR 2) with (1 + 1). rewrite Rmax_right by lra. field.
Qed.

Lemma half_gaussians_power :
  0 < Pcg.mean_square (Pcg.lowpassFilter [half_gaussian; half_gaussian] 1000 100 4).
Proof.
  rewrite lowpassFilter_pair, mean_square_pair.
  rewrite Rmin_left by lra.
  assert (Ha : exp (-2 * PI * 100 / 1000) < 1).
  { apply exp_neg_lt_1. pose proof PI_RGT_0. lra. }
  pose proof half_gaussian_nonzero as Hg.
  set (v := (1 - exp (-2 * PI * 100 / 1000)) ^ 4 * half_gaussian).
  assert (Hv : v <> 0).
  { unfold v. apply Rmult_integral_contrapositive_currified; [|exact Hg].
    apply pow_nonzero. lra. }
  assert (0 < v * v) by (destruct (Rtotal_order v 0) as [H|[H|H]]; nra).
  lra.
Qed.

(** The lung compositor on [[1; -1]] with the mix [(0, 1)], the band
    [(100, 400)] and no seed, all draws being [1/2]. *)

Lemma runs_random_walk (d : nat -> R) (n : nat) :
  forall (v : R) (k : nat),
    exists l : list R,
      runs (Lung.random_walk n v) (MathRandom, at_pos d k) l
        (MathRandom, at_pos d (k + n)).
Proof.
  induction n as [|n IH]; intros v k.
  - exists []. rewrite Nat.add_0_r. apply runs_ret.
  - destruct (IH (v + (d k - 0.5)) (S k)) as (l & Hl).
    eexists. cbn [Lung.random_walk].
    eapply runs_bind; [apply runs_rand_platform|]. cbv zeta.
    eapply runs_bind; [exact Hl|].
    replace (k + S n)%nat with (S k + n)%nat by lia. apply runs_ret.
Qed.

Lemma runs_foldM_platform {A S} (d : nat -> R) (step : S -> A -> M S) (l : list A) :
  (forall acc a k, exists acc' k',
      runs (step acc a) (MathRandom, at_pos d k) acc' (MathRandom, at_pos d k')) ->
  forall acc k, exists acc' k',
      runs (foldM step l acc) (MathRandom, at_pos d k) acc' (MathRandom, at_pos d k').
Proof.
  intros Hstep. induction l as [|a l IH]; intros acc k.
  - exists acc, k. apply runs_ret.
  - destruct (Hstep acc a k) as (acc1 & k1 & H1).
    destruct (IH acc1 k1) as (acc2 & k2 & H2).
    exists acc2, k2. cbn [foldM]. eapply runs_bind; eassumption.
Qed.

Lemma runs_pinkNoise (d : nat -> R) (N : Z) (k : nat) :
  exists (pn : list R) (k' : nat),
    runs (Lung.pinkNoise N) (MathRandom, at_pos d k) pn (MathRandom, at_pos d k').
Proof.
  unfold Lung.pinkNoise. cbv zeta.
  match goal with
  | |- context [foldM ?step ?rows ?acc0] =>
      destruct (runs_foldM_platform d step rows) with (acc := acc0) (k := k)
        as (acc' & k' & Hrows)
  end.
  { intros acc r j. destruct (runs_random_walk d (Z.to_nat N) 0 j) as (walk & Hw).
    eexists _, _. eapply runs_bind; [exact Hw|]. apply runs_ret. }
  eexists _, k'. eapply runs_bind; [exact Hrows|]. apply runs_ret.
Qed.

Lemma iterations_half_of_4 : iterations (4 / 2) = 2%nat.
Proof. unfold iterations. rewrite (Zceil_eq 2 (4 / 2)); [reflexivity|lra]. Qed.

Lemma bandpassSafe_pair (g fs lo hi : R) :
  0 < lo -> 0 < Rmin hi (0.49 * fs) ->
  Lung.bandpassSafe [g; g] fs lo hi 4
  = [0; exp (-2 * PI * lo / fs) ^ 2
        * ((1 - exp (-2 * PI * Rmin hi (0.49 * fs) / fs)) ^ 2 * g)].
Proof.
  intros Hlo Hhi. unfold Lung.bandpassSafe. cbv zeta. rewrite iterations_half_of_4.
  unfold Lung.onepoleHP, Lung.onepoleLP.
  destruct (Rle_dec (Rmin hi (0.49 * fs)) 0) as [H|_]; [lra|].
  destruct (Rle_dec lo 0) as [H|_]; [lra|].
  cbv beta iota zeta delta [Nat.iter nat_rect onepole_from_zero onepole_run zipWith].
  f_equal; [ring|]. f_equal. ring.
Qed.

Lemma lung_rms_pair (a b : R) : Lung.rms [a; b] = (a * a + b * b) / 2.
Proof.
  unfold Lung.rms, sum. cbn [map fold_right length].
  change (INR 2) with (1 + 1). rewrite Rmax_right by lra. field.
Qed.

Lemma lung_noise_example :
  exists (noise : list R) (s' : rstate),
    Lung.makeEnvNoise 2 1000 (INR 2 / 1000) None (0, 1) (100, 400)
      (MathRandom, half_draws) = Returns (noise, s') /\
    Lung.rms noise <> 0.
Proof.
  destruct (runs_pinkNoise (fun _ => 1 / 2) 2 0) as (pn & k & Hpn).
  set (raw := Lung.bandpassSafe [half_gaussian; half_gaussian] 1000 100 400 4).
  set (nb := map (fun x => x / max_of (map Rabs raw) 1e-9) raw).
  set (out := tabulate 2 (fun i => 0 * nth i pn 0 + 1 * nth i nb 0)).
  set (noise := map (fun x => x / max_of (map Rabs out) 1e-9) out).
  exists noise, (MathRandom, at_pos (fun _ => 1 / 2) (S (S (S (S k))))). split.
  - unfold Lung.makeEnvNoise. cbv zeta.
    rewrite round_of_length by lra.
    change (Z.to_nat (Z.max 1 (Z.of_nat 2))) with 2%nat.
    change (Z.max 1 (Z.of_nat 2)) with 2%Z.
    change half_draws with (at_pos (fun _ : nat => 1 / 2) 0).
    apply (runs_with_rng _ _ MathRandom _ _ MathRandom).
    eapply runs_bind; [exact Hpn|].
    eapply runs_bind; [apply half_gaussians_run_at|].
    apply runs_ret.
  - assert (Hraw : exists v, raw = [0; v] /\ v <> 0).
    { eexists. split.
      - unfold raw. apply bandpassSafe_pair; [lra|].
        rewrite Rmin_left by lra. lra.
      - apply Rmult_integral_contrapositive_currified.
        + apply pow_nonzero. pose proof (exp_pos (-2 * PI * 100 / 1000)). lra.
        + apply Rmult_integral_contrapositive_currified;
            [|exact half_gaussian_nonzero].
          apply pow_nonzero. rewrite Rmin_left by lra.
          assert (exp (-2 * PI * 400 / 1000) < 1)
            by (apply exp_neg_lt_1; pose proof PI_RGT_0; lra).
          lra. }
    destruct Hraw as (v & Eraw & Hv).
    set (M1 := max_of (map Rabs raw) 1e-9) in *.
    set (M2 := max_of (map Rabs out) 1e-9) in *.
    assert (Hm1 : 0 < M1).
    { pose proof (max_of_ge_floor (map Rabs raw) 1e-9). fold M1 in H. lra. }
    assert (Hm2 : 0 < M2).
    { pose proof (max_of_ge_floor (map Rabs out) 1e-9). fold M2 in H. lra. }
    assert (Enb : nb = [0 / M1; v / M1]).
    { unfold nb. rewrite Eraw. reflexivity. }
    set (w := v / M1) in Enb.
    assert (Hw : w <> 0).
    { unfold w, Rdiv. apply Rmult_integral_contrapositive_currified; [exact Hv|].
      apply Rinv_neq_0_compat. lra. }
    assert (Eout : exists o0, out = [o0; w]).
    { eexists. unfold out, tabulate. cbn [seq map]. rewrite Enb. cbn [nth].
      f_equal. f_equal. ring. }
    destruct Eout as (o0 & Eout).
    assert (Enoise : noise = [o0 / M2; w / M2]).
    { unfold noise. rewrite Eout. reflexivity. }
    rewrite Enoise, lung_rms_pair.
    set (n0 := o0 / M2).
    set (n1 := w / M2).
    assert (Hn1 : n1 <> 0).
    { unfold n1, Rdiv. apply Rmult_integral_contrapositive_currified; [exact Hw|].
      apply Rinv_neq_0_compat. lra. }
    assert (0 < n1 * n1) by (destruct (Rtotal_order n1 0) as [H|[H|H]]; nra).
    pose proof (Rle_0_sqr n0) as H0. unfold Rsqr in H0. lra.
Qed.

End Example.

Lemma noise_is_scaled_to_target_snr_witness :
  (exists (y noise : list R) (s' : rstate),
      Lung.addNoiseSNR 2 [1; -1] 1000 0 None (0, 1) (100, 400)
        (MathRandom, half_draws) = Returns (y, s') /\
      Lung.makeEnvNoise 2 1000 (INR 2 / 1000) None (0, 1) (100, 400)
        (MathRandom, half_draws) = Returns (noise, s') /\
      Lung.rms noise <> 0 /\
      let track := Lung.noise_track [1; -1] noise 0 in
      y = Lung.normalize95 (zipWith Rplus [1; -1] track) /\
      10 * log10 (Lung.rms [1; -1] / Lung.rms track) = 0 /\
      sqrt (Lung.rms track) = sqrt (Lung.rms [1; -1])) /\
  (exists (y : list R) (s' : rstate),
      Pcg.addNoiseSNR 2 [1; -1] 0 1000 (MathRandom, half_draws) = Returns (y, s') /\
      let filtered := Pcg.lowpassFilter [half_gaussian; half_gaussian] 1000 100 4 in
      let m := Pcg.mean_square filtered in
      let track := Pcg.noise_track [1; -1] filtered 0 in
      y = zipWith Rplus [1; -1] track /\
      0 < m /\
      1 - 1e-8 * (3 + m) / m <= Pcg.mean_square track <= 1).
Proof.
  split.
  - destruct lung_noise_example as (noise & s' & Hnoise & Hnz).
    assert (Hrun : Lung.addNoiseSNR 2 [1; -1] 1000 0 None (0, 1) (100, 400)
                     (MathRandom, half_draws)
                   = Returns (Lung.normalize95
                                (zipWith Rplus [1; -1]
                                   (Lung.noise_track [1; -1] noise 0)), s')).
    { unfold Lung.addNoiseSNR. eapply runs_bind; [exact Hnoise|]. apply runs_ret. }
    destruct (proj1 noise_is_scaled_to_target_snr 2%nat [1; -1] 1000 0 None (0, 1)
                (100, 400) (MathRandom, half_draws) s' _
                ltac:(discriminate) ltac:(lra) Hrun)
      as (noise' & Hn' & _ & Hy & _ & _ & Hdb & Hrms).
    change (INR (length [1; -1])) with (INR 2) in Hn'.
    rewrite Hnoise in Hn'. inversion Hn'; subst noise'.
    eexists _, noise, s'. split; [exact Hrun|]. split; [exact Hnoise|].
    split; [exact Hnz|]. cbv zeta. split; [reflexivity|]. split.
    + apply Hdb; [exact Hnz|]. rewrite lung_rms_pair. lra.
    + now apply Hrms.
  - destruct (addNoiseSNR_returns 2 [1; -1] 0 1000 (le_n 2) (MathRandom, half_draws)
                half_draws_nonzero) as (y & s' & Hrun & _ & _).
    exists y, s'. split; [exact Hrun|].
    destruct (proj2 noise_is_scaled_to_target_snr 2%nat [1; -1] 0 1000
                (MathRandom, half_draws) s' y ltac:(lra) Hrun)
      as (noise & Hn & Hy & _ & _ & _ & Hle & Hge & Ht).
    change (length [1; -1]) with 2%nat in Hn. rewrite half_gaussians_run in Hn.
    inversion Hn; subst noise. cbv zeta.
    pose proof half_gaussians_power as Hm.
    specialize (Hge Hm). rewrite (Ht eq_refl), mean_square_alternating in Hle, Hge.
    split; [exact Hy|]. split; [exact Hm|]. split; [|exact Hle].
    rewrite Rmult_1_l in Hge. exact Hge.
Defined.

(** ** The entry points and their two arguments *)

Section EntryPoints.

Lemma round_nonneg (x : R) : 0 <= x -> (0 <= round x)%Z.
Proof. intros Hx. unfold round. apply Zfloor_lub. simpl. lra. Qed.

Lemma nonempty_of_length (l : list R) : (1 <= length l)%nat -> l <> [].
Proof. intros H ->. simpl in H. lia. Qed.

Lemma kernel_returns (r c fs beta A : R) :
  0 <= r / c * fs -> 0 <= 5 * (1 / beta) * fs ->
  exists l, Fpcg.expo_conv_kernel r c fs beta A = Returns l /\ l <> [].
Proof.
  intros H0 H1. unfold Fpcg.expo_conv_kernel. cbv zeta.
  set (N0 := round (r / c * fs)).
  assert (HN0 : (0 <= N0)%Z) by now apply round_nonneg.
  set (Nmax := round (IZR N0 + 5 * (1 / beta) * fs)).
  assert (HNmax : (0 <= Nmax)%Z).
  { apply round_nonneg. apply IZR_le in HN0. lra. }
  destruct (Z.ltb_spec (Nmax + 1) 0) as [Hlt|_]; [lia|].
  eexists. split; [reflexivity|].
  apply nonempty_of_length. rewrite tabulate_length. lia.
Qed.

Lemma convolve_from_length (out : list R) (i : Z) (a b : list R) :
  length (Fpcg.convolve_from out i a b) = length out.
Proof.
  revert out i. induction a as [|x a IH]; intros out i; simpl; [reflexivity|].
  now rewrite IH, add_at_length.
Qed.

Lemma convolve_returns (a b : list R) :
  b <> [] ->
  exists l, Fpcg.convolve a b = Returns l /\ (a <> [] -> l <> []).
Proof.
  intros Hb. unfold Fpcg.convolve. cbv zeta.
  assert (Hlb : (1 <= length b)%nat) by (destruct b; [contradiction|simpl; lia]).
  destruct (Z.ltb_spec (Z.of_nat (length a) + Z.of_nat (length b) - 1) 0) as [Hlt|_];
    [lia|].
  eexists. split; [reflexivity|]. intros Ha.
  assert (Hla : (1 <= length a)%nat) by (destruct a; [contradiction|simpl; lia]).
  apply nonempty_of_length. rewrite convolve_from_length, zeros_length. lia.
Qed.

Lemma returns_lift_of {A} (o : outcome A) (Q : A -> Prop) :
  (exists a, o = Returns a /\ Q a) -> returns (lift o) Q.
Proof. intros (a & -> & HQ). now apply returns_lift. Qed.

Lemma fetal_beat_returns fuel o SSID_sec acc rr :
  (2 <= fuel)%nat -> returns (Fpcg.fetal_beat fuel o SSID_sec acc rr) (fun _ => True).
Proof.
  intros Hf. unfold Fpcg.fetal_beat. destruct acc as [signal_f idx]. cbv zeta.
  do 7 (apply returns_skip; [now apply returns_gaussian|]; intros ?).
  now apply returns_ret.
Qed.

Lemma maternal_beat_returns fuel o mSSID_sec acc rr :
  (2 <= fuel)%nat -> returns (Fpcg.maternal_beat fuel o mSSID_sec acc rr) (fun _ => True).
Proof.
  intros Hf. unfold Fpcg.maternal_beat. destruct acc as [signal_m idx]. cbv zeta.
  do 7 (apply returns_skip; [now apply returns_gaussian|]; intros ?).
  now apply returns_ret.
Qed.

Lemma jitter_returns (n : nat) (f : R -> R) :
  returns (replicateM n (u <- rand ;; ret (f u))) (fun _ => True).
Proof.
  eapply returns_forget. eapply returns_replicateM.
  apply returns_skip; [apply returns_rand|]. intros u. now apply (returns_ret _ (fun _ => True)).
Qed.

(** The simulator with movement and contractions switched off returns,
    for a propagation model whose delays are not negative. *)
Lemma quiet_dataset_returns fuel (o : Fpcg.SimOptions) :
  (2 <= fuel)%nat ->
  Fpcg.movement_enabled o = false -> Fpcg.uc_enabled o = false ->
  0 <= Fpcg.r1 o / Fpcg.c1 o * Fpcg.fs o -> 0 <= 5 * (1 / Fpcg.beta1 o) * Fpcg.fs o ->
  0 <= Fpcg.r2 o / Fpcg.c2 o * Fpcg.fs o -> 0 <= 5 * (1 / Fpcg.beta2 o) * Fpcg.fs o ->
  returns (Fpcg.simulateFpcgDataset fuel o) (fun _ => True).
Proof.
  intros Hf Hmv Huc Hr1 Hb1 Hr2 Hb2. unfold Fpcg.simulateFpcgDataset.
  apply returns_with_rng. cbv zeta. rewrite Hmv, Huc.
  apply returns_skip; [apply jitter_returns|]. intros T.
  apply returns_skip.
  { apply (returns_foldM _ (fun _ => True)); [exact I|].
    intros; now apply fetal_beat_returns. }
  intros [signal_f idx_f].
  apply returns_skip; [apply jitter_returns|]. intros Tm.
  apply returns_skip.
  { apply (returns_foldM _ (fun _ => True)); [exact I|].
    intros; now apply maternal_beat_returns. }
  intros [signal_m idx_m].
  eapply returns_bind; [apply returns_lift_of, kernel_returns; assumption|].
  intros h1 Hh1.
  eapply returns_bind; [apply returns_lift_of, kernel_returns; assumption|].
  intros h2 Hh2.
  eapply returns_bind; [apply returns_lift_of, convolve_returns; exact Hh2|].
  intros h_total Hh. specialize (Hh Hh1).
  apply returns_skip.
  { apply returns_lift_of.
    destruct (convolve_returns signal_f
                (map (fun v => v / or_else (sum h_total) 1) h_total)) as (l & E & _).
    - destruct h_total; [contradiction|discriminate].
    - exists l. auto. }
  intros conv.
  apply returns_skip; [now apply returns_ret|]. intros uc.
  apply returns_skip; [now apply returns_ret|]. intros [movement mv_events].
  apply returns_skip.
  { eapply returns_forget. eapply returns_replicateM. now apply returns_gaussian. }
  intros noise. now apply returns_ret.
Qed.

Lemma fpcg_resample_returns (xs ys : list R) (count : Z) :
  (0 <= count)%Z ->
  exists out, Fpcg.resampleToLength xs ys count = Returns out /\
              length out = Z.to_nat count.
Proof.
  intros Hc. unfold Fpcg.resampleToLength.
  destruct (Z.eqb_spec (Z.of_nat (length ys)) count) as [E|_].
  - exists ys. split; [reflexivity|]. rewrite <- E. now rewrite Nat2Z.id.
  - destruct (Z.ltb_spec count 0) as [Hlt|_]; [lia|].
    eexists. split; [reflexivity|]. now rewrite tabulate_length.
Qed.


Lemma generate_returns fuel (o : Fpcg.SimOptions) (count : Z) :
  returns (Fpcg.simulateFpcgDataset fuel o) (fun _ => True) ->
  (0 <= count)%Z ->
  returns (Index.generate fuel o count) (fun y => length y = Z.to_nat count).
Proof.
  intros Hsim Hc. unfold Index.generate.
  apply returns_skip; [exact Hsim|]. intros r.
  apply returns_lift_of. now apply fpcg_resample_returns.
Qed.


Lemma entry_options_quiet fuel cycles :
  (2 <= fuel)%nat ->
  returns (Fpcg.simulateFpcgDataset fuel (Index.entry_options cycles false false))
    (fun _ => True).
Proof.
  intros Hf. apply quiet_dataset_returns; try assumption; try reflexivity;
    cbn [Index.entry_options Fpcg.default_options Fpcg.r1 Fpcg.c1 Fpcg.fs Fpcg.beta1
         Fpcg.r2 Fpcg.c2 Fpcg.beta2]; lra.
Qed.

Lemma arrhythmia_options_quiet fuel cycles :
  (2 <= fuel)%nat ->
  returns (Fpcg.simulateFpcgDataset fuel
             (Index.with_rr_std_frac 0.15 (Index.entry_options cycles false false)))
    (fun _ => True).
Proof.
  intros Hf. apply quiet_dataset_returns; try assumption; try reflexivity;
    cbn [Index.with_rr_std_frac Index.entry_options Fpcg.default_options
         Fpcg.r1 Fpcg.c1 Fpcg.fs Fpcg.beta1 Fpcg.r2 Fpcg.c2 Fpcg.beta2]; lra.
Qed.

(** A cycle count below one is read as one. *)
Lemma entry_options_clamped (cycles : R) (movement uc : bool) :
  cycles < 1 ->
  Index.entry_options cycles movement uc = Index.entry_options 1 movement uc.
Proof.
  intros Hc.
  assert (H1 : floor 1 = 1%Z) by (apply Zfloor_eq; simpl; lra).
  assert (Hle : (floor cycles <= 0)%Z).
  { unfold floor. destruct (Z_le_gt_dec (Zfloor cycles) 0) as [H|H]; [exact H|].
    exfalso. pose proof (Zfloor_bound cycles) as [Hb _].
    assert (IZR 1 <= IZR (Zfloor cycles)) by (apply IZR_le; lia). simpl in *. lra. }
  assert (Hz : Z.max 1 (floor cycles) = Z.max 1 (floor 1)) by (rewrite H1; lia).
  unfold Index.entry_options. rewrite Hz. reflexivity.
Qed.

End EntryPoints.


(** X29.  A cycle count below one (non-positive ones included) is read
    as one by each of the six fetal entry points: the call is the call
    with one cycle, with the same result or the same failure.  For a
    point count that is not negative, zero included, [genFhsNormal] and
    [genFhsArrhythmia] return an array of exactly that many points (the
    empty array for zero), whatever the cycle count is, when
    [Math.random] never returns exactly [0] and two turns of each
    rejection loop are allowed. *)
Theorem cycles_are_clamped_and_counts_are_kept :
  (forall (fuel : nat) (count : Z) (cycles : R),
      cycles < 1 ->
      Index.genFhsNormal fuel count cycles = Index.genFhsNormal fuel count 1 /\
      Index.genFhsArrhythmia fuel count cycles = Index.genFhsArrhythmia fuel count 1 /\
      Index.genFhsMoveStrong fuel count cycles = Index.genFhsMoveStrong fuel count 1 /\
      Index.genFhsMoveWeak fuel count cycles = Index.genFhsMoveWeak fuel count 1 /\
      Index.genFhsUcFast fuel count cycles = Index.genFhsUcFast fuel count 1 /\
      Index.genFhsUcSlow fuel count cycles = Index.genFhsUcSlow fuel count 1) /\
  (forall (fuel : nat) (count : Z) (cycles : R) (s : rstate),
      (2 <= fuel)%nat -> (0 <= count)%Z -> nonzero_draws (snd s) ->
      (exists y s', Index.genFhsNormal fuel count cycles s = Returns (y, s') /\
                    length y = Z.to_nat count) /\
      (exists y s', Index.genFhsArrhythmia fuel count cycles s = Returns (y, s') /\
                    length y = Z.to_nat count)).
Proof.
  split.
  - intros fuel count cycles Hc.
    unfold Index.genFhsNormal, Index.genFhsArrhythmia, Index.genFhsMoveStrong,
      Index.genFhsMoveWeak, Index.genFhsUcFast, Index.genFhsUcSlow.
    rewrite !(entry_options_clamped cycles) by exact Hc. repeat split; reflexivity.
  - intros fuel count cycles s Hf Hc Hs. split.
    + destruct (generate_returns fuel (Index.entry_options cycles false false) count
                  (entry_options_quiet fuel cycles Hf) Hc s Hs)
        as (y & s' & E & _ & Hl).
      exists y, s'. split; assumption.
    + destruct (generate_returns fuel
                  (Index.with_rr_std_frac 0.15 (Index.entry_options cycles false false))
                  count (arrhythmia_options_quiet fuel cycles Hf) Hc s Hs)
        as (y & s' & E & _ & Hl).
      exists y, s'. split; assumption.
Qed.

Lemma cycles_are_clamped_and_counts_are_kept_witness :
  (exists y s', Index.genFhsNormal 2 0 (-3) (MathRandom, half_draws) = Returns (y, s') /\
                length y = Z.to_nat 0) /\
  (exists y s', Index.genFhsArrhythmia 2 0 (-3) (MathRandom, half_draws) = Returns (y, s') /\
                length y = Z.to_nat 0).
Proof.
  refine (proj2 cycles_are_clamped_and_counts_are_kept 2%nat 0%Z (-3)
            (MathRandom, half_draws) _ _ _).
  - lia.
  - lia.
  - exact half_draws_nonzero.
Defined.

(* ================================================================== *)
(** * Further properties of the engine *)
(* ================================================================== *)

(** ** The seeded random source *)

Section SeededSource.

Lemma to_int32_shift (x k : Z) : to_int32 (x + 2 ^ 32 * k) = to_int32 x.
Proof.
  unfold to_int32. f_equal.
  replace (x + 2 ^ 32 * k + 2 ^ 31)%Z with (x + 2 ^ 31 + k * 2 ^ 32)%Z by ring.
  apply Z.mod_add. lia.
Qed.

Lemma to_uint32_shift (x k : Z) : to_uint32 (x + 2 ^ 32 * k) = to_uint32 x.
Proof.
  unfold to_uint32. rewrite (Z.mul_comm (2 ^ 32) k). apply Z.mod_add. lia.
Qed.

Lemma mulberry32_shift (s k : Z) : mulberry32 (s + 2 ^ 32 * k) = mulberry32 s.
Proof. unfold mulberry32. now rewrite to_int32_shift. Qed.

Lemma mulberry32_bits_of_zero : mulberry32_bits 0 = 0%Z.
Proof. vm_compute. reflexivity. Qed.

Lemma mulberry32_grid (s : Z) :
  exists k : Z, (0 <= k < 2 ^ 32)%Z /\ fst (mulberry32 s) = IZR k / 4294967296.
Proof.
  unfold mulberry32. cbv zeta. cbn [fst].
  eexists. split; [|reflexivity].
  unfold mulberry32_bits. cbv zeta. apply to_uint32_range.
Qed.

Lemma mulberry32_zero_iff (s : Z) :
  fst (mulberry32 s) = 0 <-> to_int32 (to_int32 s + 0x6D2B79F5) = 0%Z.
Proof.
  unfold mulberry32. cbv zeta. cbn [fst].
  set (s1 := to_int32 (to_int32 s + 0x6D2B79F5)). split.
  - intros E. apply to_int32_zero. fold s1. apply mulberry32_bits_zero.
    apply eq_IZR. unfold Rdiv in E.
    apply Rmult_integral in E. destruct E as [E|E]; [exact E|].
    exfalso. assert (/ 4294967296 <> 0) by (apply Rinv_neq_0_compat; lra). contradiction.
  - intros ->. rewrite mulberry32_bits_of_zero. unfold Rdiv. ring.
Qed.

Lemma draw_nonzero_seeded (s : Z) (w : world) :
  exists (u : R) (s' : Z),
    draw_nonzero 2 (Seeded s, w) = Returns (u, (Seeded s', w)) /\ 0 < u < 1.
Proof.
  change (draw_nonzero 2)
    with (bind rand (fun u => if Req_dec_T u 0 then draw_nonzero 1 else ret u)).
  unfold bind at 1. unfold rand at 1.
  pose proof (mulberry32_zero_then_nonzero s) as Hz.
  pose proof (mulberry32_unit s) as Hu.
  destruct (mulberry32 s) as [u s1] eqn:E1. cbn [fst snd] in Hz, Hu.
  destruct (Req_dec_T u 0) as [E0|N0].
  - specialize (Hz E0).
    change (draw_nonzero 1)
      with (bind rand (fun u => if Req_dec_T u 0 then draw_nonzero 0 else ret u)).
    unfold bind, rand.
    pose proof (mulberry32_unit s1) as Hu2.
    destruct (mulberry32 s1) as [u2 s2]. cbn [fst] in Hz, Hu2.
    destruct (Req_dec_T u2 0) as [E2|_]; [contradiction|].
    exists u2, s2. split; [reflexivity|lra].
  - exists u, s1. split; [reflexivity|lra].
Qed.

End SeededSource.

(** X1.  A draw from a seeded generator (the Mulberry32 closure that
    [seededRandom], [rngFactory] and [rng] return) leaves the platform's
    source untouched and returns a multiple of [2^-32] in [[0, 1)].  The
    stream depends on the seed modulo [2^32] only: in each of the three
    factories, [seed] and [seed + 2^32 * k] give the same generator. *)
Theorem seeded_draws_are_unit_fractions :
  forall (s : Z) (w : world),
    (exists (u : R) (s' k : Z),
        rand (Seeded s, w) = Returns (u, (Seeded s', w)) /\
        (0 <= k < 2 ^ 32)%Z /\ u = IZR k / 4294967296 /\ 0 <= u < 1) /\
    (forall k : Z,
        rand (Seeded (s + 2 ^ 32 * k), w) = rand (Seeded s, w) /\
        Pcg.seededRandom (s + 2 ^ 32 * k) = Pcg.seededRandom s /\
        Fpcg.rngFactory (Some (s + 2 ^ 32 * k)%Z) = Fpcg.rngFactory (Some s) /\
        Lung.rng_of (Some (s + 2 ^ 32 * k)%Z) = Lung.rng_of (Some s)).
Proof.
  intros s w. split.
  - destruct (mulberry32_grid s) as (k & Hk & Ek).
    pose proof (mulberry32_unit s) as Hu.
    exists (fst (mulberry32 s)), (snd (mulberry32 s)), k.
    split; [|auto]. unfold rand. now destruct (mulberry32 s).
  - intros k. split; [|split; [|split]].
    + unfold rand. now rewrite mulberry32_shift.
    + unfold Pcg.seededRandom. now rewrite to_uint32_shift.
    + unfold Fpcg.rngFactory. cbv zeta. now rewrite to_uint32_shift.
    + unfold Lung.rng_of. cbv zeta. now rewrite to_uint32_shift.
Qed.

(** X2.  A seeded generator returns exactly [0] from one state only, the
    one that its increment [0x6D2B79F5] takes to [0]; it never does so
    twice in a row.  So the rejection loops [while (u === 0) u = rand()]
    of [gaussian] turn at most twice each: with two units of fuel
    [gaussian] returns from every seeded state, and it returns the
    Box-Muller value of two non-zero draws. *)
Theorem seeded_zero_draw_is_isolated :
  forall (s : Z) (w : world),
    (fst (mulberry32 s) = 0 <-> to_int32 (to_int32 s + 0x6D2B79F5) = 0%Z) /\
    (fst (mulberry32 s) = 0 -> fst (mulberry32 (snd (mulberry32 s))) <> 0) /\
    (exists (u v : R) (s' : Z),
        gaussian 2 (Seeded s, w) = Returns (sqrt (-2 * ln u) * cos (2 * PI * v),
                                            (Seeded s', w)) /\
        0 < u < 1 /\ 0 < v < 1).
Proof.
  intros s w. split; [apply mulberry32_zero_iff|]. split.
  - apply mulberry32_zero_then_nonzero.
  - destruct (draw_nonzero_seeded s w) as (u & s1 & E1 & Hu).
    destruct (draw_nonzero_seeded s1 w) as (v & s2 & E2 & Hv).
    exists u, v, s2. split; [|auto].
    unfold gaussian, bind. rewrite E1, E2. reflexivity.
Qed.

(** ** The heart-sound kernel of the fetal simulator *)

Section HeartSound.

Lemma sin_abs_le (y : R) : Rabs (sin y) <= Rabs y.
Proof.
  assert (Hpos : forall z, 0 < z -> Rabs (sin z) <= z).
  { intros z Hz. pose proof (sin_lt_x z Hz) as Hlt.
    apply Rabs_le. split; [|lra].
    destruct (Rlt_le_dec z 1) as [H1|H1].
    - pose proof PI_RGT_0. pose proof PI_4. pose proof PI2_1.
      assert (0 <= sin z) by (apply sin_ge_0; lra). lra.
    - pose proof (SIN_bound z). lra. }
  destruct (Rtotal_order y 0) as [Hy|[->|Hy]].
  - rewrite (Rabs_left y) by exact Hy.
    replace (sin y) with (- sin (- y)) by (rewrite sin_neg; ring).
    rewrite Rabs_Ropp. apply Hpos. lra.
  - rewrite sin_0, Rabs_R0. lra.
  - rewrite (Rabs_right y) by lra. now apply Hpos.
Qed.

Lemma sinc_bounded (x : R) : Rabs (Fpcg.sinc x) <= 1.
Proof.
  unfold Fpcg.sinc. destruct (Req_dec_T x 0) as [E|N].
  - rewrite Rabs_R1. lra.
  - assert (Hp : PI * x <> 0).
    { pose proof PI_RGT_0 as Hpi. intros H. apply Rmult_integral in H. destruct H; lra. }
    unfold Rdiv. rewrite Rabs_mult, Rabs_inv.
    apply (Rmult_le_reg_r (Rabs (PI * x))); [now apply Rabs_pos_lt|].
    rewrite Rmult_assoc, Rinv_l by (now apply Rabs_no_R0).
    rewrite Rmult_1_r, Rmult_1_l. apply sin_abs_le.
Qed.

Lemma sinc_even (x : R) : Fpcg.sinc (- x) = Fpcg.sinc x.
Proof.
  unfold Fpcg.sinc.
  destruct (Req_dec_T (- x) 0) as [E|N], (Req_dec_T x 0) as [E'|N'];
    try reflexivity; try (exfalso; lra).
  replace (PI * - x) with (- (PI * x)) by ring. rewrite sin_neg.
  pose proof PI_RGT_0 as Hpi. field. split; lra.
Qed.

Lemma linspace_length (start stop : R) (n : Z) :
  length (Fpcg.linspace start stop n) = Z.to_nat n.
Proof. unfold Fpcg.linspace. cbv zeta. apply tabulate_length. Qed.

Lemma tabulate_nth (n : nat) (f : nat -> R) (i : nat) (d : R) :
  (i < n)%nat -> nth i (tabulate n f) d = f i.
Proof.
  intros Hi. unfold tabulate.
  rewrite (nth_indep _ d (f 0%nat)) by (rewrite length_map, length_seq; exact Hi).
  rewrite (map_nth f), seq_nth by exact Hi. reflexivity.
Qed.

End HeartSound.

(** X3.  In exact arithmetic ([Math.sin] and [Math.PI] read as the real
    sine and the real number pi), [sinc] is the normalised cardinal sine:
    [1] at [0], [0] at every other integer, even, and never above [1] in
    absolute value.  (In binary64 the value at an integer other than [0]
    is a rounding residue, about [3.9e-17] at [1], not [0].) *)
Theorem sinc_is_normalised :
  forall (x : R) (p : positive),
    Fpcg.sinc 0 = 1 /\
    Fpcg.sinc (IZR (Z.pos p)) = 0 /\
    Fpcg.sinc (IZR (Z.neg p)) = 0 /\
    Fpcg.sinc (- x) = Fpcg.sinc x /\
    Rabs (Fpcg.sinc x) <= 1.
Proof.
  intros x p. split; [|split; [|split; [|split]]].
  - unfold Fpcg.sinc. destruct (Req_dec_T 0 0); [reflexivity|contradiction].
  - apply sinc_integer. discriminate.
  - apply sinc_integer. discriminate.
  - apply sinc_even.
  - apply sinc_bounded.
Qed.



(** X5.  [generate_heart_sound] returns a time axis and a signal of the
    same length, [max(1, floor(fs * duration))], and no sample of the
    signal exceeds the requested amplitude in absolute value. *)
Theorem heart_sound_is_bounded_by_its_amplitude :
  forall (center_freq duration fs amplitude : R),
    let r := Fpcg.generate_heart_sound center_freq duration fs amplitude in
    length (fst r) = Z.to_nat (Z.max 1 (floor (fs * duration))) /\
    length (snd r) = length (fst r) /\
    (1 <= length (snd r))%nat /\
    Forall (fun v => Rabs v <= Rabs amplitude) (snd r).
Proof.
  intros f dur fs amp r. unfold r, Fpcg.generate_heart_sound. cbv zeta. cbn [fst snd].
  rewrite length_map, linspace_length. repeat split; try lia.
  apply Forall_forall. intros v Hv. apply in_map_iff in Hv.
  destruct Hv as (ti & <- & _). rewrite Rabs_mult.
  rewrite <- (Rmult_1_r (Rabs amp)) at 2.
  apply Rmult_le_compat_l; [apply Rabs_pos|apply sinc_bounded].
Qed.

(** ** The propagation kernel *)

Section Kernel.

Lemma exp_le_1 (x : R) : x <= 0 -> exp x <= 1.
Proof.
  intros Hx. rewrite <- exp_0. destruct Hx as [Hx| ->]; [|lra].
  left. now apply exp_increasing.
Qed.

Lemma exp_mono (x y : R) : x <= y -> exp x <= exp y.
Proof.
  intros [H| ->]; [left; now apply exp_increasing|lra].
Qed.

End Kernel.

(** X6.  [expo_conv_kernel] for a speed [c] that is not zero, a positive
    sample rate and decay rate, and a gain [A >= 0]: it raises
    [RangeError] when [Nmax + 1] is negative (the length given to
    [new Array]); otherwise it returns [Nmax + 1] samples, all within
    [[0, A]], that are zero during the delay of [N0] samples, equal to [A]
    at the delay, and do not increase after it. *)
Theorem kernel_is_a_delayed_decay :
  forall (r c fs beta A : R),
    c <> 0 -> 0 < fs -> 0 < beta -> 0 <= A ->
    let N0 := round (r / c * fs) in
    let Nmax := round (IZR N0 + 5 * (1 / beta) * fs) in
    if (Nmax + 1 <? 0)%Z
    then Fpcg.expo_conv_kernel r c fs beta A = RangeError
    else exists h,
      Fpcg.expo_conv_kernel r c fs beta A = Returns h /\
      length h = Z.to_nat (Nmax + 1) /\
      Forall (fun v => 0 <= v <= A) h /\
      (forall i : nat, (i < length h)%nat -> (Z.of_nat i < N0)%Z -> nth i h 0 = 0) /\
      (forall i : nat, (i < length h)%nat -> Z.of_nat i = N0 -> nth i h 0 = A) /\
      (forall i : nat, (S i < length h)%nat -> (N0 <= Z.of_nat i)%Z ->
          nth (S i) h 0 <= nth i h 0).
Proof.
  intros r c fs beta A _ Hfs Hbeta HA N0 Nmax.
  assert (Hb : 0 <= beta / fs) by (left; now apply Rdiv_lt_0_compat).
  unfold Fpcg.expo_conv_kernel. cbv zeta.
  fold N0. fold Nmax.
  destruct (Nmax + 1 <? 0)%Z; [reflexivity|].
  eexists. split; [reflexivity|]. rewrite tabulate_length.
  split; [reflexivity|]. split; [|split; [|split]].
  - apply tabulate_Forall. intros i.
    destruct (Z.ltb_spec (Z.of_nat i) N0) as [Hlt|Hge]; [lra|].
    assert (Hi : IZR N0 <= INR i) by (rewrite INR_IZR_INZ; now apply IZR_le).
    assert (He : exp (- (INR i - IZR N0) * (beta / fs)) <= 1).
    { apply exp_le_1. nra. }
    pose proof (exp_pos (- (INR i - IZR N0) * (beta / fs))). split; nra.
  - intros i Hi Hlt. rewrite tabulate_nth by exact Hi.
    destruct (Z.ltb_spec (Z.of_nat i) N0); [reflexivity|lia].
  - intros i Hi E. rewrite tabulate_nth by exact Hi.
    destruct (Z.ltb_spec (Z.of_nat i) N0); [lia|].
    rewrite INR_IZR_INZ, E.
    replace (- (IZR N0 - IZR N0) * (beta / fs)) with 0 by ring.
    rewrite exp_0. ring.
  - intros i Hi Hge. rewrite !tabulate_nth by lia.
    destruct (Z.ltb_spec (Z.of_nat (S i)) N0); [lia|].
    destruct (Z.ltb_spec (Z.of_nat i) N0); [lia|].
    apply Rmult_le_compat_l; [exact HA|]. apply exp_mono.
    rewrite S_INR. nra.
Qed.

Lemma kernel_is_a_delayed_decay_witness :
  let N0 := round (0.01 / 1500 * 1000) in
  let Nmax := round (IZR N0 + 5 * (1 / 100) * 1000) in
  if (Nmax + 1 <? 0)%Z
  then Fpcg.expo_conv_kernel 0.01 1500 1000 100 1 = RangeError
  else exists h,
    Fpcg.expo_conv_kernel 0.01 1500 1000 100 1 = Returns h /\
    length h = Z.to_nat (Nmax + 1) /\
    Forall (fun v => 0 <= v <= 1) h /\
    (forall i : nat, (i < length h)%nat -> (Z.of_nat i < N0)%Z -> nth i h 0 = 0) /\
    (forall i : nat, (i < length h)%nat -> Z.of_nat i = N0 -> nth i h 0 = 1) /\
    (forall i : nat, (S i < length h)%nat -> (N0 <= Z.of_nat i)%Z ->
        nth (S i) h 0 <= nth i h 0).
Proof.
  apply (kernel_is_a_delayed_decay 0.01 1500 1000 100 1); lra.
Defined.

(** ** Convolution *)

Section Convolution.


Lemma sum_cons (x : R) (l : list R) : sum (x :: l) = x + sum l.
Proof. reflexivity. Qed.






(** A one-sample kernel: each step writes into a zero. *)
Lemma convolve_from_single (c : R) (pre a : list R) :
  Fpcg.convolve_from (pre ++ repeat 0 (length a)) (Z.of_nat (length pre)) a [c]
  = pre ++ map (fun v => 0 + v * c) a.
Proof.
  revert pre. induction a as [|x a IH]; intros pre; [reflexivity|].
  cbn [Fpcg.convolve_from map add_at length repeat].
  assert (E : upd (pre ++ 0 :: repeat 0 (length a)) (Z.of_nat (length pre))
                (fun v => v + x * c)
              = (pre ++ [0 + x * c]) ++ repeat 0 (length a)).
  { unfold upd. destruct (Z.ltb_spec (Z.of_nat (length pre)) 0); [lia|].
    rewrite Nat2Z.id, <- app_assoc. simpl.
    clear. induction pre as [|p pre IH]; simpl; [reflexivity|]. now rewrite IH. }
  rewrite E.
  replace (Z.of_nat (length pre) + 1)%Z with (Z.of_nat (length (pre ++ [0 + x * c])))
    by (rewrite length_app; simpl; lia).
  rewrite IH, <- app_assoc. reflexivity.
Qed.

End Convolution.


(** X8.  Convolution with a kernel of one sample [c] scales the signal:
    [convolve(a, [c])] is [a] with every sample multiplied by [c] (so
    [convolve(a, [1])] is [a]), also for an empty [a]. *)
Theorem single_sample_kernel_scales :
  forall (a : list R) (c : R),
    exists out,
      Fpcg.convolve a [c] = Returns out /\
      length out = length a /\
      forall i : nat, nth i out 0 = nth i a 0 * c.
Proof.
  intros a c. unfold Fpcg.convolve. cbv zeta.
  destruct (Z.ltb_spec (Z.of_nat (length a) + Z.of_nat (length [c]) - 1) 0) as [H|_];
    [simpl in H; lia|].
  eexists. split; [reflexivity|].
  replace (zeros (Z.of_nat (length a) + Z.of_nat (length [c]) - 1))
    with (repeat 0 (length a)).
  2:{ unfold zeros. f_equal. simpl length. lia. }
  pose proof (convolve_from_single c [] a) as E. simpl in E. rewrite E.
  split; [apply length_map|].
  intros i. destruct (Nat.lt_ge_cases i (length a)) as [Hi|Hi].
  - rewrite (nth_indep _ 0 (0 + 0 * c)) by (rewrite length_map; exact Hi).
    rewrite (map_nth (fun v => 0 + v * c)). ring.
  - rewrite !nth_overflow by (rewrite ?length_map; lia). ring.
Qed.

(** ** The one-pole filters in use *)

Section OnePole.

(** The pole [a = exp(-2 * PI * fc / fs)] of a positive cutoff. *)
Lemma pole_in_unit (fc fs : R) : 0 < fc -> 0 < fs -> 0 < exp (-2 * PI * fc / fs) < 1.
Proof.
  intros Hfc Hfs. split; [apply exp_pos|].
  rewrite <- exp_0. apply exp_increasing.
  pose proof PI_RGT_0 as Hpi.
  assert (0 < fc / fs) by (apply Rdiv_lt_0_compat; assumption).
  replace (-2 * PI * fc / fs) with (- (2 * PI * (fc / fs))) by (field; lra).
  assert (0 < 2 * PI * (fc / fs)) by (apply Rmult_lt_0_compat; lra). lra.
Qed.

Lemma pole_at_most_one (fc fs : R) : 0 <= fc -> 0 < fs -> 0 < exp (-2 * PI * fc / fs) <= 1.
Proof.
  intros [Hfc| <-] Hfs.
  - pose proof (pole_in_unit fc fs Hfc Hfs). lra.
  - replace (-2 * PI * 0 / fs) with 0 by (field; lra). rewrite exp_0. lra.
Qed.

Lemma onepole_run_capped (a prev c : R) (xs : list R) :
  0 <= a <= 1 -> capped c prev -> Forall (capped c) xs ->
  Forall (capped c) (onepole_run a prev xs).
Proof.
  intros Ha. revert prev. induction xs as [|x xs IH]; intros prev Hp Hx; simpl.
  - constructor.
  - inversion Hx as [|? ? Hx0 Hxs]; subst.
    assert (Hy : capped c (a * prev + (1 - a) * x)).
    { unfold capped in *. apply Rabs_le.
      apply abs_le_inv in Hp. apply abs_le_inv in Hx0. split; nra. }
    constructor; [exact Hy|]. now apply IH.
Qed.

Lemma onepole_from_zero_capped (a c : R) (x : list R) :
  0 <= a <= 1 -> Forall (capped c) x -> Forall (capped c) (onepole_from_zero a x).
Proof.
  intros Ha Hx. destruct x as [|x0 xs]; simpl; [constructor|].
  inversion Hx as [|? ? Hx0 Hxs]; subst.
  assert (H0 : capped c 0).
  { unfold capped in *. rewrite Rabs_R0. pose proof (Rabs_pos x0). lra. }
  constructor; [exact H0|]. now apply onepole_run_capped.
Qed.

Lemma onepole_run_scaled (a prev k : R) (xs : list R) :
  onepole_run a (k * prev) (map (fun v => k * v) xs)
  = map (fun v => k * v) (onepole_run a prev xs).
Proof.
  revert prev. induction xs as [|x xs IH]; intros prev; simpl; [reflexivity|].
  replace (a * (k * prev) + (1 - a) * (k * x)) with (k * (a * prev + (1 - a) * x)) by ring.
  now rewrite IH.
Qed.

Lemma onepole_from_zero_scaled (a k : R) (x : list R) :
  onepole_from_zero a (map (fun v => k * v) x)
  = map (fun v => k * v) (onepole_from_zero a x).
Proof.
  destruct x as [|x0 xs]; simpl; [reflexivity|].
  replace (k * 0) with 0 by ring. f_equal.
  rewrite <- onepole_run_scaled. now replace (k * 0) with 0 by ring.
Qed.

(** The response to a constant input. *)
Lemma onepole_run_constant (a prev c : R) (n i : nat) :
  (i < n)%nat ->
  nth i (onepole_run a prev (repeat c n)) 0 = c + (prev - c) * a ^ (S i).
Proof.
  revert prev i. induction n as [|n IH]; intros prev i Hi; [lia|].
  simpl repeat. simpl onepole_run. destruct i as [|i]; simpl nth.
  - simpl. ring.
  - rewrite IH by lia. simpl. ring.
Qed.

Lemma onepole_from_zero_constant (a c : R) (n i : nat) :
  (i < n)%nat ->
  nth i (onepole_from_zero a (repeat c n)) 0 = c * (1 - a ^ i).
Proof.
  intros Hi. destruct n as [|n]; [lia|]. simpl repeat. simpl onepole_from_zero.
  destruct i as [|i]; simpl nth.
  - simpl. ring.
  - rewrite onepole_run_constant by lia. simpl. ring.
Qed.

Lemma zipWith_minus_nth (a b : list R) (i : nat) :
  length a = length b ->
  nth i (zipWith Rminus a b) 0 = nth i a 0 - nth i b 0.
Proof.
  revert b i. induction a as [|x a IH]; intros [|y b] i Hl; simpl in Hl; try discriminate.
  - destruct i; simpl; ring.
  - destruct i as [|i]; simpl; [reflexivity|]. apply IH. lia.
Qed.

Lemma iter_capped (n : nat) (f : list R -> list R) (c : R) (x : list R) :
  (forall y, Forall (capped c) y -> Forall (capped c) (f y)) ->
  Forall (capped c) x -> Forall (capped c) (Nat.iter n f x).
Proof. intros Hf Hx. induction n as [|n IH]; simpl; auto. Qed.

End OnePole.

(** X9.  The one-pole low-pass of the fetal and lung modules
    ([onepole_lowpass], [onepoleLP]: the same code) for a positive cutoff
    and sample rate: the first output sample is [0] whatever the input;
    the output never exceeds a bound that the input respects; the filter
    commutes with a gain; and a constant input [c] gives the step
    response [c * (1 - a^i)], [a = exp(-2 * PI * fc / fs)]. *)
Theorem lowpass_is_a_stable_smoother :
  forall (x : list R) (fc fs : R),
    0 < fc -> 0 < fs ->
    Lung.onepoleLP x fc fs = Fpcg.onepole_lowpass x fc fs /\
    nth 0 (Fpcg.onepole_lowpass x fc fs) 0 = 0 /\
    (forall c : R, Forall (fun v => Rabs v <= c) x ->
                   Forall (fun v => Rabs v <= c) (Fpcg.onepole_lowpass x fc fs)) /\
    (forall k : R, Fpcg.onepole_lowpass (map (fun v => k * v) x) fc fs
                   = map (fun v => k * v) (Fpcg.onepole_lowpass x fc fs)) /\
    (forall (c : R) (n i : nat), (i < n)%nat ->
        nth i (Fpcg.onepole_lowpass (repeat c n) fc fs) 0
        = c * (1 - exp (-2 * PI * fc / fs) ^ i)).
Proof.
  intros x fc fs Hfc Hfs.
  pose proof (pole_in_unit fc fs Hfc Hfs) as Ha.
  unfold Lung.onepoleLP, Fpcg.onepole_lowpass.
  destruct (Rle_dec fc 0) as [Hle|_]; [exfalso; lra|].
  split; [reflexivity|]. split; [|split; [|split]].
  - destruct x; reflexivity.
  - intros c Hx. apply (onepole_from_zero_capped _ c); [lra|exact Hx].
  - intros k. apply onepole_from_zero_scaled.
  - intros c n i Hi. destruct (Rle_dec fc 0) as [Hle|_]; [exfalso; lra|].
    now apply onepole_from_zero_constant.
Qed.

Lemma lowpass_is_a_stable_smoother_witness :
  Lung.onepoleLP [1; 1] 1 4 = Fpcg.onepole_lowpass [1; 1] 1 4 /\
  nth 0 (Fpcg.onepole_lowpass [1; 1] 1 4) 0 = 0 /\
  (forall c : R, Forall (fun v => Rabs v <= c) [1; 1] ->
                 Forall (fun v => Rabs v <= c) (Fpcg.onepole_lowpass [1; 1] 1 4)) /\
  (forall k : R, Fpcg.onepole_lowpass (map (fun v => k * v) [1; 1]) 1 4
                 = map (fun v => k * v) (Fpcg.onepole_lowpass [1; 1] 1 4)) /\
  (forall (c : R) (n i : nat), (i < n)%nat ->
      nth i (Fpcg.onepole_lowpass (repeat c n) 1 4) 0
      = c * (1 - exp (-2 * PI * 1 / 4) ^ i)).
Proof. apply (lowpass_is_a_stable_smoother [1; 1] 1 4); lra. Defined.

(** X10.  The one-pole high-pass ([onepole_highpass], [onepoleHP]) for a
    positive cutoff and sample rate is the input minus its low-pass: it
    passes the first sample unchanged, stays within twice a bound that the
    input respects, and rejects a constant: the input [c, c, ...] gives
    [c * a^i], which decays to [0]. *)
Theorem highpass_rejects_constants :
  forall (x : list R) (fc fs : R),
    0 < fc -> 0 < fs ->
    Lung.onepoleHP x fc fs = Fpcg.onepole_highpass x fc fs /\
    nth 0 (Fpcg.onepole_highpass x fc fs) 0 = nth 0 x 0 /\
    (forall c : R, Forall (fun v => Rabs v <= c) x ->
                   Forall (fun v => Rabs v <= 2 * c) (Fpcg.onepole_highpass x fc fs)) /\
    (forall (c : R) (n i : nat), (i < n)%nat ->
        nth i (Fpcg.onepole_highpass (repeat c n) fc fs) 0
        = c * exp (-2 * PI * fc / fs) ^ i).
Proof.
  intros x fc fs Hfc Hfs.
  pose proof (pole_in_unit fc fs Hfc Hfs) as Ha.
  assert (Enth : forall (y : list R) (i : nat),
            nth i (Fpcg.onepole_highpass y fc fs) 0
            = nth i y 0 - nth i (onepole_from_zero (exp (-2 * PI * fc / fs)) y) 0).
  { intros y i. unfold Fpcg.onepole_highpass, Fpcg.onepole_lowpass.
    destruct (Rle_dec fc 0) as [Hle|_]; [exfalso; lra|].
    apply zipWith_minus_nth. now rewrite onepole_from_zero_length. }
  split; [|split; [|split]].
  - unfold Lung.onepoleHP, Lung.onepoleLP, Fpcg.onepole_highpass, Fpcg.onepole_lowpass.
    reflexivity.
  - rewrite Enth. destruct x; simpl; ring.
  - intros c Hx.
    assert (Hlp := onepole_from_zero_capped (exp (-2 * PI * fc / fs)) c x
                     (conj (Rlt_le _ _ (proj1 Ha)) (Rlt_le _ _ (proj2 Ha))) Hx).
    assert (Hlen : length (Fpcg.onepole_highpass x fc fs) = length x)
      by apply fpcg_highpass_length.
    apply Forall_forall. intros v Hv.
    destruct (In_nth _ _ 0 Hv) as (i & Hi & <-). rewrite Enth.
    rewrite Hlen in Hi.
    assert (H1 : capped c (nth i x 0)).
    { rewrite Forall_forall in Hx. apply Hx. now apply nth_In. }
    assert (H2 : capped c (nth i (onepole_from_zero (exp (-2 * PI * fc / fs)) x) 0)).
    { rewrite Forall_forall in Hlp. apply Hlp. apply nth_In.
      now rewrite onepole_from_zero_length. }
    unfold capped in *. apply abs_le_inv in H1. apply abs_le_inv in H2.
    apply Rabs_le. lra.
  - intros c n i Hi. rewrite Enth, onepole_from_zero_constant by exact Hi.
    rewrite nth_repeat_lt by exact Hi. ring.
Qed.

Lemma highpass_rejects_constants_witness :
  Lung.onepoleHP [1; 1] 1 4 = Fpcg.onepole_highpass [1; 1] 1 4 /\
  nth 0 (Fpcg.onepole_highpass [1; 1] 1 4) 0 = nth 0 [1; 1] 0 /\
  (forall c : R, Forall (fun v => Rabs v <= c) [1; 1] ->
                 Forall (fun v => Rabs v <= 2 * c) (Fpcg.onepole_highpass [1; 1] 1 4)) /\
  (forall (c : R) (n i : nat), (i < n)%nat ->
      nth i (Fpcg.onepole_highpass (repeat c n) 1 4) 0
      = c * exp (-2 * PI * 1 / 4) ^ i).
Proof. apply (highpass_rejects_constants [1; 1] 1 4); lra. Defined.

(** ** The cascaded filters and the resonator of the adult simulator *)

Section AdultFilters.

Lemma clamped_cutoff_nonneg (cutoff fs : R) :
  0 <= cutoff -> 2 <= fs -> 0 <= Rmin cutoff (fs / 2 - 1).
Proof. intros Hc Hfs. apply Rmin_glb; lra. Qed.

Lemma iterations_pos (bound : R) : 0 < bound -> (1 <= iterations bound)%nat.
Proof.
  intros Hb. unfold iterations.
  assert (1 <= Zceil bound)%Z; [|lia].
  unfold Zceil. pose proof (Zfloor_bound (- bound)) as [Hlo _].
  assert (Hlt : IZR (Zfloor (- bound)) < IZR 0) by (simpl; lra).
  apply lt_IZR in Hlt. lia.
Qed.

Lemma nth0_from_zero (a : R) (y : list R) : nth 0 (onepole_from_zero a y) 0 = 0.
Proof. destruct y; reflexivity. Qed.

Lemma nth0_highpass_stage (a : R) (y : list R) :
  nth 0 (Pcg.highpass_stage a y) 0 = nth 0 y 0.
Proof. unfold Pcg.highpass_stage. destruct y; simpl; [reflexivity|ring]. Qed.

Lemma highpass_stage_capped (a c : R) (y : list R) :
  0 <= a <= 1 -> Forall (capped c) y -> Forall (capped (2 * c)) (Pcg.highpass_stage a y).
Proof.
  intros Ha Hy. pose proof (onepole_from_zero_capped a c y Ha Hy) as Hlp.
  apply Forall_forall. intros v Hv.
  destruct (In_nth _ _ 0 Hv) as (i & Hi & <-).
  rewrite highpass_stage_length in Hi. unfold Pcg.highpass_stage.
  rewrite zipWith_minus_nth by (now rewrite onepole_from_zero_length).
  assert (H1 : capped c (nth i y 0)).
  { rewrite Forall_forall in Hy. apply Hy. now apply nth_In. }
  assert (H2 : capped c (nth i (onepole_from_zero a y) 0)).
  { rewrite Forall_forall in Hlp. apply Hlp. apply nth_In.
    now rewrite onepole_from_zero_length. }
  unfold capped in *. apply abs_le_inv in H1. apply abs_le_inv in H2.
  apply Rabs_le. lra.
Qed.

Lemma iter_highpass_capped (n : nat) (a c : R) (y : list R) :
  0 <= a <= 1 -> Forall (capped c) y ->
  Forall (capped (2 ^ n * c)) (Nat.iter n (Pcg.highpass_stage a) y).
Proof.
  intros Ha Hy. induction n as [|n IH]; simpl Nat.iter.
  - simpl. now rewrite Rmult_1_l.
  - replace (2 ^ S n * c) with (2 * (2 ^ n * c)) by (simpl; ring).
    now apply highpass_stage_capped.
Qed.

(** *** The resonator on an impulse *)

(** Two consecutive outputs of opposite sign (or zero). *)
Definition opposite (y1 y2 : R) : Prop := (0 <= y1 /\ y2 <= 0) \/ (y1 <= 0 /\ 0 <= y2).

Lemma resonator_run_growth (b0 alpha a2 y1 y2 : R) (k i : nat) :
  0 <= alpha -> 0 <= a2 -> opposite y1 y2 -> (i < k)%nat ->
  alpha ^ S i * Rabs y1
  <= Rabs (nth i (Pcg.resonator_run b0 (- alpha) a2 y1 y2 (repeat 0 k)) 0).
Proof.
  intros Ha H2. revert y1 y2 i. induction k as [|k IH]; intros y1 y2 i Hop Hi; [lia|].
  simpl repeat. simpl Pcg.resonator_run.
  set (y := b0 * 0 + - alpha * y1 + a2 * y2).
  assert (Hy : opposite y y1 /\ alpha * Rabs y1 <= Rabs y).
  { unfold y. destruct Hop as [[H1 H3]|[H1 H3]].
    - split; [right; split; [nra|lra]|].
      rewrite (Rabs_right y1) by lra. rewrite Rabs_left1 by nra. nra.
    - split; [left; split; [nra|lra]|].
      rewrite (Rabs_left1 y1) by lra. rewrite Rabs_right by nra. nra. }
  destruct Hy as [Hop' Hge]. destruct i as [|i]; simpl nth.
  - simpl. lra.
  - apply Rle_trans with (alpha ^ S i * Rabs y); [|apply IH; [exact Hop'|lia]].
    replace (alpha ^ S (S i) * Rabs y1) with (alpha ^ S i * (alpha * Rabs y1))
      by (simpl; ring).
    apply Rmult_le_compat_l; [apply pow_le; exact Ha|exact Hge].
Qed.

Lemma cos_lower (x : R) : 1 - x * x / 2 <= cos x.
Proof.
  replace (cos x) with (cos (2 * (x / 2))) by (f_equal; field).
  rewrite cos_2a_sin.
  pose proof (sin_abs_le (x / 2)) as H.
  assert (Hs : sin (x / 2) * sin (x / 2) <= (x / 2) * (x / 2))
    by (apply Rsqr_le_abs_1 in H; exact H).
  lra.
Qed.

Lemma PI_upper : PI <= 52 / 15.
Proof.
  pose proof (PI_ineq 1) as [_ H]. unfold sum_f_R0, tg_alt, PI_tg in H.
  simpl in H. lra.
Qed.

(** The feedback coefficient that [simulateSingleBeat] gives the resonator
    at 1000 Hz with the default parameters: [f0 = 120 * 0.8],
    [zeta = 0.4 * 0.6]. *)
Lemma default_feedback_exceeds_one :
  let w0 := 2 * PI * (120 * 0.8) / 1000 in
  13 / 10 <= 2 * exp (- (0.4 * 0.6) * w0) * cos w0.
Proof.
  intros w0. pose proof PI_upper as Hu. pose proof PI_RGT_0 as Hl.
  assert (Hw : 0 < w0 <= 2 / 3) by (unfold w0; lra).
  pose proof (cos_lower w0) as Hc.
  pose proof (exp_ineq1_le (- (0.4 * 0.6) * w0)) as He.
  assert (Hc' : 7 / 9 <= cos w0) by nra.
  assert (He' : 21 / 25 <= exp (- (0.4 * 0.6) * w0)) by lra.
  nra.
Qed.

End AdultFilters.

(** X11.  The cascaded filters of the adult module, for cutoffs that are
    not negative and a sample rate of at least 2 Hz (so that the clamp
    [fs / 2 - 1] is not negative): [lowpassFilter] never exceeds a bound
    that its input respects, and [bandpassFilter] stays within [2^k]
    times that bound, [k] the number of its high-pass stages.  With a
    positive order both silence the first sample. *)
Theorem adult_filters_are_bounded :
  forall (x : list R) (fs low high order c : R),
    0 <= low -> 0 <= high -> 2 <= fs -> 0 < order ->
    Forall (fun v => Rabs v <= c) x ->
    Forall (fun v => Rabs v <= c) (Pcg.lowpassFilter x fs high order) /\
    Forall (fun v => Rabs v <= 2 ^ iterations (order / 2) * c)
      (Pcg.bandpassFilter x fs low high order) /\
    nth 0 (Pcg.lowpassFilter x fs high order) 0 = 0 /\
    nth 0 (Pcg.bandpassFilter x fs low high order) 0 = 0.
Proof.
  intros x fs low high order c Hlow Hhigh Hfs Hord Hx.
  assert (Hfs0 : 0 < fs) by lra.
  pose proof (pole_at_most_one _ fs (clamped_cutoff_nonneg high fs Hhigh Hfs) Hfs0) as Hah.
  pose proof (pole_at_most_one _ fs (clamped_cutoff_nonneg low fs Hlow Hfs) Hfs0) as Hal.
  assert (Hlp : forall n, Forall (capped c)
            (Nat.iter n (Pcg.lowpass_stage (exp (-2 * PI * Rmin high (fs / 2 - 1) / fs))) x)).
  { intros n. apply iter_capped; [|exact Hx].
    intros y Hy. apply onepole_from_zero_capped; [lra|exact Hy]. }
  assert (H0 : forall n a, (1 <= n)%nat -> nth 0 (Nat.iter n (Pcg.lowpass_stage a) x) 0 = 0).
  { intros [|n] a Hn; [lia|]. simpl Nat.iter. apply nth0_from_zero. }
  unfold Pcg.lowpassFilter, Pcg.bandpassFilter. cbv zeta.
  split; [apply Hlp|]. split; [|split].
  - apply iter_highpass_capped; [lra|apply Hlp].
  - apply H0. now apply iterations_pos.
  - assert (Hk : forall n a y, nth 0 (Nat.iter n (Pcg.highpass_stage a) y) 0 = nth 0 y 0).
    { intros n a y. induction n as [|n IH]; simpl Nat.iter; [reflexivity|].
      now rewrite nth0_highpass_stage. }
    rewrite Hk. apply H0. apply iterations_pos. lra.
Qed.

Lemma adult_filters_are_bounded_witness :
  Forall (fun v => Rabs v <= 1) (Pcg.lowpassFilter [1; -1] 1000 100 4) /\
  Forall (fun v => Rabs v <= 2 ^ iterations (4 / 2) * 1)
    (Pcg.bandpassFilter [1; -1] 1000 10 100 4) /\
  nth 0 (Pcg.lowpassFilter [1; -1] 1000 100 4) 0 = 0 /\
  nth 0 (Pcg.bandpassFilter [1; -1] 1000 10 100 4) 0 = 0.
Proof.
  apply (adult_filters_are_bounded [1; -1] 1000 10 100 4 1); try lra.
  constructor; [apply Rabs_le; lra|constructor; [apply Rabs_le; lra|constructor]].
Defined.

(** X12.  The resonator feeds its two previous outputs back with the
    signs [+a1], [+a2], [a1 = -2 * exp(-zeta * w0) * cos(w0)],
    [a2 = exp(-2 * zeta * w0)].  Whenever [2 * exp(-zeta * w0) * cos(w0)]
    is at least [rho] (at a positive sample rate), its response to a unit
    impulse is at least [b0 * rho^i] in absolute value at sample [i]: for
    [rho > 1] it grows without bound.  That is the case at 1000 Hz with
    the parameters [simulateSingleBeat] passes ([f0 = 96], [zeta = 0.24]),
    where [rho = 1.3]. *)
Theorem resonator_amplifies_an_impulse :
  forall (fs f0 zeta rho : R) (k i : nat),
    let w0 := 2 * PI * f0 / fs in
    0 < fs ->
    0 <= zeta * w0 ->
    0 <= rho <= 2 * exp (- zeta * w0) * cos w0 ->
    (i <= k)%nat ->
    (1 - exp (- zeta * w0)) * rho ^ i
    <= Rabs (nth i (Pcg.resonator (1 :: repeat 0 k) fs f0 zeta) 0).
Proof.
  intros fs f0 zeta rho k i w0 _ Hz [Hr0 Hr] Hi.
  unfold Pcg.resonator. cbv zeta. fold w0.
  set (alpha := 2 * exp (- zeta * w0) * cos w0) in *.
  replace (-2 * exp (- zeta * w0) * cos w0) with (- alpha) by (unfold alpha; ring).
  set (b0 := 1 - exp (- zeta * w0)).
  assert (Hb0 : 0 <= b0).
  { unfold b0. assert (exp (- zeta * w0) <= 1) by (apply exp_le_1; lra). lra. }
  simpl Pcg.resonator_run.
  set (y0 := b0 * 1 + - alpha * 0 + exp (-2 * zeta * w0) * 0).
  assert (Ey0 : y0 = b0) by (unfold y0; ring).
  destruct i as [|i]; simpl nth.
  - rewrite Ey0, Rabs_right by lra. simpl. lra.
  - apply Rle_trans with (alpha ^ S i * Rabs y0).
    + rewrite Ey0, (Rabs_right b0) by lra.
      rewrite (Rmult_comm b0). apply Rmult_le_compat_r; [exact Hb0|].
      apply pow_incr. split; assumption.
    + apply resonator_run_growth.
      * lra.
      * left. apply exp_pos.
      * left. split; [rewrite Ey0; exact Hb0|lra].
      * lia.
Qed.

Lemma resonator_amplifies_an_impulse_witness :
  (1 - exp (- (0.4 * 0.6) * (2 * PI * (120 * 0.8) / 1000))) * (13 / 10) ^ 1199
  <= Rabs (nth 1199 (Pcg.resonator (1 :: repeat 0 1199) 1000 (120 * 0.8) (0.4 * 0.6)) 0).
Proof.
  apply (resonator_amplifies_an_impulse 1000 (120 * 0.8) (0.4 * 0.6) (13 / 10) 1199 1199).
  - lra.
  - pose proof PI_RGT_0. nra.
  - split; [lra|]. exact default_feedback_exceeds_one.
  - lia.
Defined.

(** ** The last stage of the fetal simulator and the shape of its output *)

Section FetalOutput.

Lemma fpcg_rms_nonneg (l : list R) : 0 <= Fpcg.rms l.
Proof. unfold Fpcg.rms. apply sqrt_pos. Qed.

Lemma fpcg_rms_scaled (k : R) (l : list R) :
  0 <= k -> Fpcg.rms (map (fun v => k * v) l) = k * Fpcg.rms l.
Proof.
  intros Hk. unfold Fpcg.rms. rewrite sum_squares_scaled, length_map.
  replace (k * k * sum (map (fun v => v * v) l) / Rmax 1 (INR (length l)))
    with (k * k * (sum (map (fun v => v * v) l) / Rmax 1 (INR (length l))))
    by (unfold Rdiv; ring).
  rewrite sqrt_mult_alt by nra.
  rewrite sqrt_square by exact Hk. reflexivity.
Qed.

Lemma zipWith_plus_zeros (s l : list R) :
  length l = length s -> Forall (fun v => v = 0) l -> zipWith Rplus s l = s.
Proof.
  revert l. induction s as [|x s IH]; intros [|v l] Hl Hz; simpl in Hl; try discriminate.
  - reflexivity.
  - inversion Hz; subst. simpl. rewrite IH by (auto; lia). f_equal. ring.
Qed.

Lemma amplitude_snr (a snr : R) :
  0 < a -> 20 * log10 (a / (a / pow 10 (snr / 20))) = snr.
Proof.
  intros Ha. pose proof (pow10_pos (snr / 20)) as Hp.
  replace (a / (a / pow 10 (snr / 20))) with (pow 10 (snr / 20)) by (field; lra).
  rewrite log10_pow10. field.
Qed.

End FetalOutput.

(** X13.  The noise stage of the fetal simulator ([noise_r], [noise_norm]
    and the final sum in [simulateFpcgDataset]), for a noise array of the
    signal's length that is not all zeros: the output is the signal plus a
    track whose RMS is the signal's RMS divided by [10^(snr_db / 20)], so
    that [20 * log10(rms(signal) / rms(track))] is [snr_db] for a signal
    that is not silent; a silent signal is returned unchanged. *)
Theorem awgn_matches_the_requested_snr :
  forall (snr_db : R) (signal_base noise : list R),
    length noise = length signal_base ->
    Fpcg.rms noise <> 0 ->
    exists track : list R,
      Fpcg.add_awgn snr_db signal_base noise = zipWith Rplus signal_base track /\
      length track = length signal_base /\
      length (Fpcg.add_awgn snr_db signal_base noise) = length signal_base /\
      Fpcg.rms track = Fpcg.rms signal_base / pow 10 (snr_db / 20) /\
      (0 < Fpcg.rms signal_base ->
       20 * log10 (Fpcg.rms signal_base / Fpcg.rms track) = snr_db) /\
      (Fpcg.rms signal_base = 0 ->
       Fpcg.add_awgn snr_db signal_base noise = signal_base).
Proof.
  intros snr sig noise Hl Hn.
  pose proof (fpcg_rms_nonneg noise) as Hn0. pose proof (fpcg_rms_nonneg sig) as Hs0.
  pose proof (pow10_pos (snr / 20)) as Hp.
  set (k := Fpcg.rms sig / pow 10 (snr / 20) / Fpcg.rms noise).
  assert (Hk : 0 <= k).
  { unfold k. apply Rmult_le_pos; [apply Rmult_le_pos; [exact Hs0|]|];
      left; apply Rinv_0_lt_compat; lra. }
  assert (Etrack : map (fun v => v / or_else (Fpcg.rms noise) 1
                                 * (Fpcg.rms sig / pow 10 (snr / 20))) noise
                   = map (fun v => k * v) noise).
  { apply map_ext. intros v. unfold or_else, k.
    destruct (Req_dec_T (Fpcg.rms noise) 0); [contradiction|]. field. split; lra. }
  exists (map (fun v => k * v) noise).
  assert (Eawgn : Fpcg.add_awgn snr sig noise = zipWith Rplus sig (map (fun v => k * v) noise)).
  { unfold Fpcg.add_awgn. cbv zeta. now rewrite Etrack. }
  assert (Erms : Fpcg.rms (map (fun v => k * v) noise) = Fpcg.rms sig / pow 10 (snr / 20)).
  { rewrite fpcg_rms_scaled by exact Hk. unfold k. field. split; lra. }
  split; [exact Eawgn|]. split; [now rewrite length_map|]. split; [|split; [|split]].
  - rewrite Eawgn, zipWith_length, length_map, Hl. apply Nat.min_id.
  - exact Erms.
  - intros Hpos. rewrite Erms. now apply amplitude_snr.
  - intros Hz. rewrite Eawgn. apply zipWith_plus_zeros; [now rewrite length_map|].
    apply Forall_forall. intros v Hv. apply in_map_iff in Hv.
    destruct Hv as (u & <- & _). unfold k. rewrite Hz. unfold Rdiv. ring.
Qed.

Lemma awgn_matches_the_requested_snr_witness :
  exists track : list R,
    Fpcg.add_awgn 10 [3; 4] [1; 1] = zipWith Rplus [3; 4] track /\
    length track = length [3; 4] /\
    length (Fpcg.add_awgn 10 [3; 4] [1; 1]) = length [3; 4] /\
    Fpcg.rms track = Fpcg.rms [3; 4] / pow 10 (10 / 20) /\
    (0 < Fpcg.rms [3; 4] -> 20 * log10 (Fpcg.rms [3; 4] / Fpcg.rms track) = 10) /\
    (Fpcg.rms [3; 4] = 0 -> Fpcg.add_awgn 10 [3; 4] [1; 1] = [3; 4]).
Proof.
  apply (awgn_matches_the_requested_snr 10 [3; 4] [1; 1]); [reflexivity|].
  unfold Fpcg.rms, sum. cbn [map fold_right length]. change (INR 2) with (1 + 1).
  rewrite Rmax_right by lra.
  replace ((1 * 1 + (1 * 1 + 0)) / (1 + 1)) with 1 by field.
  rewrite sqrt_1. lra.
Defined.

(** X14.  Whatever the options and the random draws, an output that
    [simulateFpcgDataset] returns has a time axis and a signal of one
    common length of at least one sample; the time axis starts at [0];
    and the event lists of a feature that is switched off are empty. *)
Theorem dataset_axes_are_aligned :
  forall (fuel : nat) (o : Fpcg.SimOptions) (s s' : rstate) (r : Fpcg.SimOutput),
    Fpcg.simulateFpcgDataset fuel o s = Returns (r, s') ->
    length (Fpcg.out_t r) = length (Fpcg.out_y r) /\
    (1 <= length (Fpcg.out_y r))%nat /\
    nth 0 (Fpcg.out_t r) 0 = 0 /\
    (Fpcg.movement_enabled o = false -> Fpcg.movement_events (Fpcg.meta r) = []) /\
    (Fpcg.uc_enabled o = false -> Fpcg.uc_events (Fpcg.meta r) = []).
Proof.
  intros fuel o s s' r Hrun. revert s r s' Hrun.
  change (always (Fpcg.simulateFpcgDataset fuel o) (fun r =>
    length (Fpcg.out_t r) = length (Fpcg.out_y r) /\
    (1 <= length (Fpcg.out_y r))%nat /\
    nth 0 (Fpcg.out_t r) 0 = 0 /\
    (Fpcg.movement_enabled o = false -> Fpcg.movement_events (Fpcg.meta r) = []) /\
    (Fpcg.uc_enabled o = false -> Fpcg.uc_events (Fpcg.meta r) = []))).
  unfold Fpcg.simulateFpcgDataset. apply always_with_rng. cbv zeta.
  apply always_skip. intros T.
  set (n := Z.max 1 (floor (Fpcg.fs o * (sum T + 0.5)))).
  assert (Hn : (1 <= Z.to_nat n)%nat) by (unfold n; lia).
  apply always_skip. intros [signal_f idx_f].
  apply always_skip. intros Tm.
  apply always_skip. intros [signal_m idx_m].
  apply always_skip. intros h1. apply always_skip. intros h2.
  apply always_skip. intros h_total. apply always_skip. intros conv.
  eapply (always_bind _ _ (fun uc => Fpcg.uc_enabled o = false -> Fpcg.uc_evs uc = [])).
  { destruct (Fpcg.uc_enabled o).
    - intros s0 a s1 _ H. discriminate.
    - apply always_ret. reflexivity. }
  intros uc Huc.
  eapply (always_bind _ _ (fun mv => Fpcg.movement_enabled o = false -> snd mv = [])).
  { destruct (Fpcg.movement_enabled o).
    - intros s0 a s1 _ H. discriminate.
    - apply always_ret. reflexivity. }
  intros [movement mv_events] Hmv. cbn [snd] in Hmv.
  eapply always_bind; [apply always_replicateM|]. intros noise Hnoise.
  apply always_ret. cbn [Fpcg.out_t Fpcg.out_y Fpcg.meta Fpcg.movement_events Fpcg.uc_events].
  assert (Hy : length (Fpcg.add_awgn (Fpcg.snr_db o)
                 (tabulate (Z.to_nat n) (fun i =>
                    nth i (mapi (fun v i0 => v * (1 - (if Fpcg.uc_enabled o
                                  then Fpcg.uc_attenuation o * nth i0 (Fpcg.uc_env uc) 0
                                  else 0)))
                             (firstn (length signal_f) conv)) 0
                    + nth i signal_m 0 + nth i (Fpcg.uc_noise uc) 0 + nth i movement 0))
                 noise) = Z.to_nat n).
  { unfold Fpcg.add_awgn. cbv zeta.
    rewrite zipWith_length, length_map, tabulate_length, Hnoise. apply Nat.min_id. }
  rewrite Hy, linspace_length. repeat split; try assumption; try lia.
  unfold Fpcg.linspace. cbv zeta. rewrite tabulate_nth by lia. simpl. ring.
Qed.

Lemma dataset_axes_are_aligned_witness :
  let r := {| Fpcg.out_t := Fpcg.linspace 0 (sum [tiny_T0] + 0.5) 1;
              Fpcg.out_y := Fpcg.add_awgn 10 [tiny_base]
                              [box_muller (quarter_then_half 30) (quarter_then_half 31)];
              Fpcg.meta := {| Fpcg.movement_events := []; Fpcg.uc_events := [] |} |} in
  length (Fpcg.out_t r) = length (Fpcg.out_y r) /\
  (1 <= length (Fpcg.out_y r))%nat /\
  nth 0 (Fpcg.out_t r) 0 = 0 /\
  (Fpcg.movement_enabled (tiny_options 10) = false ->
   Fpcg.movement_events (Fpcg.meta r) = []) /\
  (Fpcg.uc_enabled (tiny_options 10) = false -> Fpcg.uc_events (Fpcg.meta r) = []).
Proof.
  intros r.
  apply (dataset_axes_are_aligned 1 (tiny_options 10)
           (MathRandom, at_pos quarter_then_half 0)
           (MathRandom, at_pos quarter_then_half 32) r).
  apply tiny_dataset_run.
  - exact quarter_then_half_start.
  - change (quarter_then_half 30) with (1 / 2). lra.
  - change (quarter_then_half 31) with (1 / 2). lra.
Defined.

(** ** The three resamplers *)

Section Resamplers.









End Resamplers.





(** ** The layout of the adult simulator's output *)

Section AdultLayout.

Lemma always_weaken {A} (m : M A) (P Q : A -> Prop) :
  always m P -> (forall a, P a -> Q a) -> always m Q.
Proof. intros Hm HPQ s a s' E. apply HPQ. exact (Hm s a s' E). Qed.

Lemma always_new_array (n : Z) (Q : unit -> Prop) :
  ((0 <= n)%Z -> Q tt) -> always (new_array n) Q.
Proof.
  intros H s a s' E. unfold new_array in E.
  destruct (Z.ltb_spec n 0); [discriminate|]. injection E as <- _. apply H. lia.
Qed.
















End AdultLayout.



(** ** Peak normalisation keeps the shape and reaches its ceiling *)

Section Peaks.

(** The peak of a signal: [Math.max(...l.map(Math.abs), 0)]. *)
Definition peak (l : list R) : R := max_of (map Rabs l) 0.

Lemma peak_nonneg (l : list R) : 0 <= peak l.
Proof. apply max_of_ge_floor. Qed.

Lemma max_of_with_floor (l : list R) (c : R) :
  0 <= c -> max_of (map Rabs l) c = Rmax (peak l) c.
Proof.
  intros Hc. unfold peak. induction l as [|x l IH]; simpl.
  - now rewrite Rmax_right.
  - rewrite IH. now rewrite Rmax_assoc.
Qed.

Lemma peak_scaled (k : R) (l : list R) :
  0 <= k -> peak (map (fun v => k * v) l) = k * peak l.
Proof.
  intros Hk. unfold peak. induction l as [|x l IH]; simpl.
  - ring.
  - rewrite IH, Rabs_mult, (Rabs_right k) by lra.
    now rewrite RmaxRmult.
Qed.

Lemma peak_positive_nonempty (l : list R) : 0 < peak l -> l <> [].
Proof. intros H ->. unfold peak in H. simpl in H. lra. Qed.

(** Division by a positive number [D] and multiplication by [g]. *)
Lemma rescale_as_gain (g D : R) (l : list R) :
  map (fun v => g * v / D) l = map (fun v => g / D * v) l.
Proof. apply map_ext. intros v. unfold Rdiv. ring. Qed.

Lemma map_gain_compose (a b : R) (l : list R) :
  map (fun v => a * v) (map (fun v => b * v) l) = map (fun v => a * b * v) l.
Proof. rewrite map_map. apply map_ext. intros v. ring. Qed.

Lemma map_gain_one (k : R) (l : list R) : k = 1 -> map (fun v => k * v) l = l.
Proof.
  intros ->. rewrite <- (map_id l) at 2. apply map_ext. intros v. ring.
Qed.

Lemma normalize95_as_gain (y : list R) :
  Lung.normalize95 y = map (fun v => 0.95 / Rmax (peak y) 1e-9 * v) y.
Proof.
  unfold Lung.normalize95. cbv zeta.
  rewrite max_of_with_floor by lra. apply rescale_as_gain.
Qed.

Lemma normalize_beat_as_gain (p : list R) :
  Pcg.normalize_beat p = map (fun v => 0.95 / Rmax (peak p) 1e-8 * v) p.
Proof.
  unfold Pcg.normalize_beat, Pcg.peak_of. cbv zeta.
  rewrite max_of_with_floor by lra. apply rescale_as_gain.
Qed.

End Peaks.

(** X18.  In exact arithmetic, the last step of the lung generators,
    [(0.95 * y[i]) / peak] with [peak = max(|y|, 1e-9)], multiplies the
    signal by one positive gain, so the shape of the waveform is kept.
    For a signal whose peak is at least [1e-9] the result has a peak of
    exactly [0.95]; the step is then idempotent, and it cancels any
    earlier positive gain.  (In binary64 the product and the quotient are
    rounded: the peak can be one unit in the last place away from [0.95],
    as [0.9500000000000001] for a peak of [1.7].) *)
Theorem normalisation_is_a_positive_gain :
  forall y : list R,
    (exists k : R, 0 < k /\ Lung.normalize95 y = map (fun v => k * v) y) /\
    (1e-9 <= peak y ->
       peak (Lung.normalize95 y) = 0.95 /\
       Lung.normalize95 (Lung.normalize95 y) = Lung.normalize95 y /\
       forall c : R, 0 < c -> 1e-9 <= c * peak y ->
         Lung.normalize95 (map (fun v => c * v) y) = Lung.normalize95 y).
Proof.
  intros y. pose proof (peak_nonneg y) as Hp0.
  assert (HD : 0 < Rmax (peak y) 1e-9).
  { pose proof (Rmax_r (peak y) 1e-9). lra. }
  split.
  - exists (0.95 / Rmax (peak y) 1e-9). split.
    + apply Rdiv_lt_0_compat; lra.
    + apply normalize95_as_gain.
  - intros Hp. assert (ED : Rmax (peak y) 1e-9 = peak y) by (apply Rmax_left; lra).
    assert (Epk : peak (Lung.normalize95 y) = 0.95).
    { rewrite normalize95_as_gain, ED, peak_scaled.
      - field. lra.
      - apply Rmult_le_pos; [lra|]. left. apply Rinv_0_lt_compat. lra. }
    split; [exact Epk|]. split.
    + rewrite (normalize95_as_gain (Lung.normalize95 y)), Epk.
      apply map_gain_one. rewrite Rmax_left by lra. field. lra.
    + intros c Hc Hcp.
      rewrite (normalize95_as_gain (map (fun v => c * v) y)), peak_scaled by lra.
      rewrite map_gain_compose, (normalize95_as_gain y), ED.
      rewrite Rmax_left by lra.
      apply map_ext. intros v. field. split; lra.
Qed.

Lemma normalisation_is_a_positive_gain_witness :
  peak (Lung.normalize95 [1; -2]) = 0.95 /\
  Lung.normalize95 (Lung.normalize95 [1; -2]) = Lung.normalize95 [1; -2] /\
  forall c : R, 0 < c -> 1e-9 <= c * peak [1; -2] ->
    Lung.normalize95 (map (fun v => c * v) [1; -2]) = Lung.normalize95 [1; -2].
Proof.
  apply (proj2 (normalisation_is_a_positive_gain [1; -2])).
  unfold peak. simpl. rewrite Rabs_R1, (Rabs_left (-2)) by lra.
  rewrite (Rmax_left _ 0), (Rmax_right 1) by lra. lra.
Defined.

(** X19.  In exact arithmetic, on a beat of finite samples, the two
    guards of [simulateMultibeat] (the factor [100] for a peak below
    [1e-6], then the normalisation to [0.95] with a peak floored at
    [1e-8]) multiply the beat by one positive gain.  A beat whose peak is
    at least [1e-10] leaves them with a peak of exactly [0.95], which is
    above the threshold [0.01] of the weak-signal warning; a beat below
    [1e-10] leaves them with [0.95e10] times its peak.  (In binary64 the
    peak can be one unit in the last place away from [0.95]; and a beat
    whose resonator has overflowed is not finite, so that nothing is said
    of it here.) *)
Theorem beat_guards_reach_the_ceiling :
  forall p : list R,
    let q := Pcg.normalize_beat (Pcg.amplify_weak p) in
    (exists k : R, 0 < k /\ q = map (fun v => k * v) p) /\
    (1e-10 <= peak p -> peak q = 0.95 /\ Pcg.weak q = false) /\
    (peak p < 1e-10 -> peak q = 0.95 * 1e10 * peak p).
Proof.
  intros p q. pose proof (peak_nonneg p) as Hp0.
  assert (Eamp : exists a : R,
            1 <= a /\ Pcg.amplify_weak p = map (fun v => a * v) p /\
            (1e-6 <= peak p -> a = 1) /\ (peak p < 1e-6 -> a = 100)).
  { unfold Pcg.amplify_weak, Pcg.peak_of. cbv zeta.
    rewrite max_of_with_floor by lra.
    destruct (Rlt_dec (Rmax (peak p) 1e-8) 1e-6) as [Hlt|Hge].
    - exists 100. split; [lra|]. split.
      + apply map_ext. intros v. ring.
      + split; [|reflexivity]. intros H. exfalso.
        pose proof (Rmax_l (peak p) 1e-8). lra.
    - exists 1. split; [lra|]. split.
      + symmetry. now apply map_gain_one.
      + split; [reflexivity|]. intros H. exfalso. apply Hge.
        apply Rmax_lub_lt; lra. }
  destruct Eamp as (a & Ha & Eamp & Ha1 & Ha100).
  assert (Epa : peak (Pcg.amplify_weak p) = a * peak p)
    by (rewrite Eamp; apply peak_scaled; lra).
  assert (HD : 0 < Rmax (a * peak p) 1e-8).
  { pose proof (Rmax_r (a * peak p) 1e-8). lra. }
  assert (Eq : q = map (fun v => 0.95 / Rmax (a * peak p) 1e-8 * a * v) p).
  { unfold q. rewrite normalize_beat_as_gain, Epa, Eamp. apply map_gain_compose. }
  assert (Hk : 0 < 0.95 / Rmax (a * peak p) 1e-8 * a).
  { apply Rmult_lt_0_compat; [apply Rdiv_lt_0_compat|]; lra. }
  assert (Epq : peak q = 0.95 / Rmax (a * peak p) 1e-8 * a * peak p).
  { rewrite Eq. apply peak_scaled. lra. }
  split; [|split].
  - eexists. split; [exact Hk|exact Eq].
  - intros Hp.
    assert (Hap : 1e-8 <= a * peak p).
    { destruct (Rlt_le_dec (peak p) 1e-6) as [Hs|Hb].
      - rewrite (Ha100 Hs). lra.
      - rewrite (Ha1 Hb). lra. }
    assert (E95 : peak q = 0.95).
    { rewrite Epq, Rmax_left by lra. field. lra. }
    split; [exact E95|].
    unfold Pcg.weak. destruct q as [|x q'] eqn:Eqq.
    + exfalso. unfold peak in E95. simpl in E95. lra.
    + unfold Pcg.peak_of. fold (peak (x :: q')). rewrite E95.
      destruct (Rlt_dec 0.95 0.01); [exfalso; lra|reflexivity].
  - intros Hp. rewrite Epq, (Ha100 ltac:(lra)).
    rewrite Rmax_right by lra. field.
Qed.

Lemma beat_guards_reach_the_ceiling_witness :
  peak (Pcg.normalize_beat (Pcg.amplify_weak [1; -2])) = 0.95 /\
  Pcg.weak (Pcg.normalize_beat (Pcg.amplify_weak [1; -2])) = false.
Proof.
  apply (proj1 (proj2 (beat_guards_reach_the_ceiling [1; -2]))).
  unfold peak. simpl. rewrite Rabs_R1, (Rabs_left (-2)) by lra.
  rewrite (Rmax_left _ 0), (Rmax_right 1) by lra. lra.
Defined.

(** ** The helper signals of the wheeze and crackle synthesis *)

Section Helpers.

Lemma gate_run_length (att rel : Z) (thr state : R) (e : list R) :
  length (Lung.gate_run att rel thr state e) = length e.
Proof.
  revert state. induction e as [|v e IH]; intros state; simpl; [reflexivity|].
  now rewrite IH.
Qed.

Lemma step_fraction (n : Z) : (1 <= n)%Z -> 0 < 1 / IZR n <= 1.
Proof.
  intros Hn. apply IZR_le in Hn. split.
  - apply Rdiv_lt_0_compat; lra.
  - apply (Rmult_le_reg_r (IZR n)); [lra|]. unfold Rdiv.
    rewrite Rmult_assoc, Rinv_l by lra. lra.
Qed.

(** One step of the gate: the new state lies between the old one and the
    target. *)
Lemma gate_step (k state target : R) :
  0 < k <= 1 -> 0 <= state <= 1 -> 0 <= target <= 1 ->
  0 <= state + k * (target - state) <= 1 /\
  (state <= target -> state <= state + k * (target - state) <= target) /\
  (target <= state -> target <= state + k * (target - state) <= state).
Proof. intros Hk Hs Ht. repeat split; nra. Qed.

Lemma gate_run_spec (att rel : Z) (thr : R) (e : list R) :
  (1 <= att)%Z -> (1 <= rel)%Z ->
  forall state : R, 0 <= state <= 1 ->
    let g := Lung.gate_run att rel thr state e in
    Forall (fun v => 0 <= v <= 1) g /\
    forall i : nat, (i < length e)%nat ->
      (thr <= nth i e 0 -> nth i (state :: g) 0 <= nth i g 0) /\
      (nth i e 0 < thr -> nth i g 0 <= nth i (state :: g) 0).
Proof.
  intros Ha Hr. pose proof (step_fraction att Ha) as Ka.
  pose proof (step_fraction rel Hr) as Kr.
  induction e as [|v e IH]; intros state Hs; cbn zeta.
  - split; [constructor|]. intros i Hi. simpl in Hi. lia.
  - cbn [Lung.gate_run].
    set (target := if Rle_dec thr v then 1 else 0).
    set (k := if Rlt_dec state target then 1 / IZR att else 1 / IZR rel).
    set (state' := state + k * (target - state)).
    assert (Ht : 0 <= target <= 1) by (unfold target; destruct (Rle_dec thr v); lra).
    assert (Hk : 0 < k <= 1) by (unfold k; destruct (Rlt_dec state target); assumption).
    destruct (gate_step k state target Hk Hs Ht) as (Hs' & Hup & Hdown).
    fold state' in Hs', Hup, Hdown.
    destruct (IH state' Hs') as [Hall Hnth]. split.
    + constructor; assumption.
    + intros [|i] Hi.
      * cbn [nth]. split; intros Hv.
        -- assert (target = 1) by (unfold target; destruct (Rle_dec thr v); lra).
           apply Hup. lra.
        -- assert (target = 0) by (unfold target; destruct (Rle_dec thr v); lra).
           apply Hdown. lra.
      * simpl in Hi. apply Hnth. lia.
Qed.

Lemma gate_run_closed (att rel : Z) (thr : R) (e : list R) :
  Forall (fun v => v < thr) e ->
  Forall (fun v => v = 0) (Lung.gate_run att rel thr 0 e).
Proof.
  induction 1 as [|v e Hv _ IH]; cbn [Lung.gate_run]; [constructor|].
  destruct (Rle_dec thr v) as [Hle|_]; [exfalso; lra|].
  destruct (Rlt_dec 0 0) as [Hlt|_]; [exfalso; lra|].
  replace (0 + 1 / IZR rel * (0 - 0)) with 0 by (unfold Rdiv; ring).
  constructor; [reflexivity|exact IH].
Qed.

Lemma capped_by_peak (c : R) (l : list R) :
  0 < c -> Forall (capped 1) (map (fun v => v / max_of (map Rabs l) c) l).
Proof.
  intros Hc. set (m := max_of (map Rabs l) c).
  assert (Hm : 0 < m) by (pose proof (max_of_ge_floor (map Rabs l) c); fold m in H; lra).
  pose proof (max_of_abs_ge l c) as Hall. fold m in Hall.
  apply Forall_map. eapply Forall_impl; [|exact Hall].
  intros v Hv. unfold capped, Rdiv.
  rewrite Rabs_mult, (Rabs_right (/ m)).
  - apply (Rmult_le_reg_r m); [exact Hm|].
    rewrite Rmult_assoc, Rinv_l by lra. lra.
  - left. now apply Rinv_0_lt_compat.
Qed.

End Helpers.

(** X20.  [gateFromEnv] gives one gate value per envelope sample, each
    between [0] and [1].  The gate never falls on a sample at or above the
    threshold and never rises on one below it (the envelope being divided
    by its maximum first), and it stays at [0] over an envelope that is
    below the threshold throughout. *)
Theorem gate_follows_the_envelope :
  forall (env : list R) (fs thr releaseMs attackMs : R),
    let g := Lung.gateFromEnv env fs thr releaseMs attackMs in
    let e := fun i : nat => nth i env 0 / max_of env 1e-9 in
    length g = length env /\
    Forall (fun v => 0 <= v <= 1) g /\
    (forall i : nat, (i < length env)%nat ->
       (thr <= e i -> nth i (0 :: g) 0 <= nth i g 0) /\
       (e i < thr -> nth i g 0 <= nth i (0 :: g) 0)) /\
    ((forall i : nat, (i < length env)%nat -> e i < thr) ->
       g = repeat 0 (length env)).
Proof.
  intros env fs thr releaseMs attackMs g e.
  unfold g, Lung.gateFromEnv. cbv zeta.
  set (m := max_of env 1e-9).
  set (att := Z.max 1 _). set (rel := Z.max 1 _).
  assert (Ha : (1 <= att)%Z) by (unfold att; lia).
  assert (Hr : (1 <= rel)%Z) by (unfold rel; lia).
  assert (He : forall i, (i < length env)%nat ->
                 nth i (map (fun v => v / m) env) 0 = e i).
  { intros i Hi. unfold e. fold m.
    rewrite (nth_indep _ 0 (0 / m)) by (now rewrite length_map).
    exact (map_nth (fun v => v / m) env 0 i). }
  destruct (gate_run_spec att rel thr (map (fun v => v / m) env) Ha Hr 0 ltac:(lra))
    as [Hall Hnth].
  split; [|split; [|split]].
  - now rewrite gate_run_length, length_map.
  - exact Hall.
  - intros i Hi. rewrite <- (He i Hi). apply Hnth. now rewrite length_map.
  - intros Hq.
    assert (Hlow : Forall (fun v => v < thr) (map (fun v => v / m) env)).
    { apply Forall_forall. intros x Hx.
      destruct (In_nth _ _ 0 Hx) as (i & Hi & <-).
      rewrite length_map in Hi. rewrite (He i Hi). now apply Hq. }
    pose proof (gate_run_closed att rel thr _ Hlow) as Hz.
    rewrite <- (length_map (fun v => v / m) env).
    rewrite <- (gate_run_length att rel thr 0).
    apply Forall_eq_repeat.
    eapply Forall_impl; [|exact Hz]. intros a Ha0. now symmetry.
Qed.

(** X21.  [smoothRand] raises for a negative length and otherwise always
    returns, whatever the source draws: one value per sample, each within
    [[-1, 1]].  At a positive sample rate, under a source that draws from
    [[0, 1)], a [crackleKernel] has at least six samples, each within
    [[-1, 1]]; at 1000 Hz a fine kernel has 6 to 12 samples and a coarse
    one 14 to 30. *)
Theorem helper_signals_have_unit_peak :
  (forall (N : Z) (fs tauS : R) (s : rstate),
      if (N <? 0)%Z then Lung.smoothRand N fs tauS s = RangeError
      else exists (y : list R) (s' : rstate),
             Lung.smoothRand N fs tauS s = Returns (y, s') /\
             length y = Z.to_nat N /\ Forall (capped 1) y) /\
  (forall (fs : R) (kind : Lung.crackle_kind) (s s' : rstate) (k : list R),
      0 < fs -> unit_draws (snd s) ->
      Lung.crackleKernel fs kind s = Returns (k, s') ->
      (6 <= length k)%nat /\ Forall (capped 1) k /\
      (fs = 1000 ->
       match kind with
       | Lung.fine => (length k <= 12)%nat
       | Lung.coarse => (14 <= length k <= 30)%nat
       end)).
Proof.
  split.
  - intros N fs tauS s. unfold Lung.smoothRand, bind, new_array.
    destruct (Z.ltb_spec N 0) as [Hn|Hn]; [reflexivity|].
    set (a := 1 / Rmax 2 _).
    assert (Hw : forall n v s0, exists y s1,
               Lung.smooth_walk n a v s0 = Returns (y, s1) /\ length y = n).
    { induction n as [|n IH]; intros v s0; simpl.
      - eexists _, _. split; reflexivity.
      - unfold bind.
        assert (Hr : exists u s1, rand s0 = Returns (u, s1)).
        { destruct s0 as [[|sd] w]; unfold rand; [eauto|].
          destruct (mulberry32 sd); eauto. }
        destruct Hr as (u & s1 & ->).
        destruct (IH ((1 - a) * v + a * (2 * u - 1)) s1) as (y & s2 & -> & Hl).
        eexists _, _. split; [reflexivity|]. simpl. now rewrite Hl. }
    destruct (Hw (Z.to_nat N) 0 s) as (y & s1 & -> & Hl).
    eexists _, _. split; [reflexivity|]. split.
    + now rewrite length_map.
    + apply capped_by_peak. lra.
  - intros fs kind s s' k _ Hw E.
    unfold Lung.crackleKernel, bind in E.
    destruct (rand s) as [[u1 s1]| |] eqn:E1; try discriminate.
    destruct (rand s1) as [[u2 s2]| |] eqn:E2; try discriminate.
    destruct (rand s2) as [[u3 s3]| |] eqn:E3; try discriminate.
    destruct (rand s3) as [[u4 s4]| |] eqn:E4; try discriminate.
    cbv zeta in E. unfold ret in E. injection E as <- _.
    set (durMs := match kind with
                  | Lung.fine => Lung.lerp 6 12 u1
                  | Lung.coarse => Lung.lerp 14 30 u1 end).
    set (N := Z.max 6 (round (fs * durMs / 1000))).
    match goal with |- context [Lung.bandpassSafe ?k0 _ _ _ _] => set (k0' := k0) end.
    assert (Hk0 : length k0' = Z.to_nat N).
    { unfold k0'. destruct (3 <=? N)%Z.
      - unfold upd. cbn -[Z.to_nat]. rewrite !upd_nat_length.
        unfold tabulate. now rewrite length_map, length_seq.
      - unfold tabulate. now rewrite length_map, length_seq. }
    assert (Hlen : length (map (fun v => v / max_of (map Rabs
                     (Lung.bandpassSafe k0' fs 150 (Rmin 1800 (0.49 * fs)) 4)) 1e-9)
                     (Lung.bandpassSafe k0' fs 150 (Rmin 1800 (0.49 * fs)) 4))
                   = Z.to_nat N).
    { now rewrite length_map, bandpassSafe_length. }
    split; [rewrite Hlen; unfold N; lia|]. split; [apply capped_by_peak; lra|].
    intros ->. rewrite Hlen.
    assert (Hu : 0 <= u1 < 1).
    { destruct (ensures_rand s u1 s1 Hw E1) as [_ H]. exact H. }
    assert (Er : round (1000 * durMs / 1000) = round durMs)
      by (f_equal; field).
    unfold N. rewrite Er. unfold round, durMs, Lung.lerp.
    destruct kind.
    + assert (Zfloor (6 + (12 - 6) * u1 + 1 / 2) <= 12)%Z.
      { apply Z.lt_succ_r. apply lt_IZR.
        pose proof (Zfloor_bound (6 + (12 - 6) * u1 + 1 / 2)) as [Hlo _].
        change (Z.succ 12) with 13%Z. lra. }
      lia.
    + assert (Zfloor (14 + (30 - 14) * u1 + 1 / 2) <= 30)%Z.
      { apply Z.lt_succ_r. apply lt_IZR.
        pose proof (Zfloor_bound (14 + (30 - 14) * u1 + 1 / 2)) as [Hlo _].
        change (Z.succ 30) with 31%Z. lra. }
      assert (14 <= Zfloor (14 + (30 - 14) * u1 + 1 / 2))%Z.
      { apply Zfloor_lub. simpl. lra. }
      lia.
Qed.

Lemma helper_signals_have_unit_peak_witness :
  exists (k : list R) (s' : rstate),
    Lung.crackleKernel 1000 Lung.fine (MathRandom, half_draws) = Returns (k, s') /\
    (6 <= length k <= 12)%nat /\ Forall (capped 1) k.
Proof.
  assert (E : exists k s',
             Lung.crackleKernel 1000 Lung.fine (MathRandom, half_draws) = Returns (k, s')).
  { cbv beta iota zeta delta [Lung.crackleKernel bind rand ret].
    eexists _, _. reflexivity. }
  destruct E as (k & s' & E). exists k, s'. split; [exact E|].
  destruct (proj2 helper_signals_have_unit_peak 1000 Lung.fine
              (MathRandom, half_draws) s' k ltac:(lra) half_draws_unit E)
    as (Hlo & Hcap & Hhi).
  split; [split; [exact Hlo|]|exact Hcap].
  apply Hhi. reflexivity.
Defined.

(** ** Crackles laid over a breath signal *)

Section SeededRoutines.

(** A routine that brings its own seeded source meets, from every state,
    what it meets under a well-behaved platform source: the seeded draws
    lie in [[0, 1)] by themselves. *)
Lemma ensures_seeded_always {A} (sd : Z) (body : M A) (Q : A -> Prop) :
  ensures body Q -> seeded_only body -> always (with_rng (Seeded sd) body) Q.
Proof.
  intros Hb Hs [g w] a s' E. unfold with_rng in E. cbn [fst snd] in E.
  specialize (Hs sd w half_draws). unfold alike in Hs.
  destruct (body (Seeded sd, w)) as [[b [g1 w1]]| |] eqn:Eb; inversion E; subst.
  destruct (body (Seeded sd, half_draws)) as [[b2 [g2 w2]]| |] eqn:Eb2;
    try contradiction.
  destruct Hs as (-> & _).
  exact (proj2 (Hb (Seeded sd, half_draws) _ _ half_draws_unit Eb2)).
Qed.


End SeededRoutines.

Section CrackleOverlay.



Variable fuel : nat.
Variable len : nat.
Variable fs : R.
Variable cfg : Lung.crackle_cfg.
Hypothesis fs_pos : 0 < fs.
Hypothesis amp_range_ok : fst (Lung.amp_range cfg) < snd (Lung.amp_range cfg).

Let N : Z := Z.of_nat len.











End CrackleOverlay.

Section CrackleRuns.


Variable fuel : nat.
Hypothesis fuel_ok : (2 <= fuel)%nat.





Lemma returns_draw {B} (k : R -> M B) (Q : B -> Prop) :
  (forall u, returns (k u) Q) -> returns (bind rand k) Q.
Proof. intros H. eapply returns_skip; [apply returns_rand|exact H]. Qed.





End CrackleRuns.





(** ** The wheeze *)

Section Wheeze.

(** A silent stretch of signal. *)
Definition silent (l : list R) : Prop := Forall (fun v => v = 0) l.

Lemma silent_nth (l : list R) (i : nat) : silent l -> nth i l 0 = 0.
Proof.
  intros H. revert i. induction H as [|v l Hv _ IH]; intros [|i]; simpl; auto.
Qed.






Lemma silent_normalize95 (l : list R) : silent l -> silent (Lung.normalize95 l).
Proof.
  intros H. unfold Lung.normalize95. cbv zeta. apply Forall_map.
  eapply Forall_impl; [|exact H]. intros v ->. unfold Rdiv. ring.
Qed.












End Wheeze.





(** ** The breath signal of the lung entry points *)

Section Yields.

(** A platform source that draws from the open interval [(0, 1)]. *)
Definition fair_draws (w : world) : Prop := unit_draws w /\ nonzero_draws w.

(** [yields m Q]: under such a source [m] returns, and its result
    satisfies [Q]. *)
Definition yields {A} (m : M A) (Q : A -> Prop) : Prop :=
  forall s, fair_draws (snd s) ->
    exists a s', m s = Returns (a, s') /\ fair_draws (snd s') /\ Q a.

Lemma yields_ret {A} (a : A) (Q : A -> Prop) : Q a -> yields (ret a) Q.
Proof. intros H s Hw. exists a, s. auto. Qed.

Lemma yields_bind {A B} (m : M A) (k : A -> M B) (P : A -> Prop) (Q : B -> Prop) :
  yields m P -> (forall a, P a -> yields (k a) Q) -> yields (bind m k) Q.
Proof.
  intros Hm Hk s Hw. destruct (Hm s Hw) as (a & s1 & Em & Hw1 & HP).
  destruct (Hk a HP s1 Hw1) as (b & s2 & Ek & Hw2 & HQ).
  exists b, s2. unfold bind. rewrite Em. auto.
Qed.

(** What returns, and what holds of every result, combine. *)
Lemma yields_of {A} (m : M A) (P Q : A -> Prop) :
  returns m P -> ensures m Q -> yields m Q.
Proof.
  intros Hr He s [Hu Hn]. destruct (Hr s Hn) as (a & s' & E & Hn' & _).
  destruct (He s a s' Hu E) as [Hu' HQ].
  exists a, s'. split; [exact E|]. split; [split; assumption|exact HQ].
Qed.

Lemma yields_with_rng {A} (g : rng) (body : M A) (Q : A -> Prop) :
  yields body Q -> yields (with_rng g body) Q.
Proof.
  intros Hb s Hw. destruct (Hb (g, snd s) Hw) as (a & s1 & Eb & Hw1 & HQ).
  exists a, (fst s, snd s1). unfold with_rng. rewrite Eb. auto.
Qed.

Lemma half_draws_fair : fair_draws half_draws.
Proof. split; [exact half_draws_unit|exact half_draws_nonzero]. Qed.

(** [fixed m a]: [m] returns [a] from every state. *)
Definition fixed {A} (m : M A) (a : A) : Prop :=
  forall s : rstate, exists s' : rstate, m s = Returns (a, s').

Lemma fixed_bind {A B} (m : M A) (k : A -> M B) (a : A) (b : B) :
  fixed m a -> fixed (k a) b -> fixed (bind m k) b.
Proof.
  intros Hm Hk s. destruct (Hm s) as [s1 E1]. destruct (Hk s1) as [s2 E2].
  exists s2. unfold bind. now rewrite E1.
Qed.

Lemma fixed_ret {A} (a : A) : fixed (ret a) a.
Proof. intros s. now exists s. Qed.

Lemma fixed_lift {A} (a : A) : fixed (lift (Returns a)) a.
Proof. intros s. now exists s. Qed.

(** A routine whose value does not depend on the state, and which
    returns under a fair source, returns one value from every state. *)
Lemma fixed_of_state_free {A} (m : M A) (Q : A -> Prop) :
  state_free m -> yields m Q -> exists a : A, Q a /\ fixed m a.
Proof.
  intros Hf Hy.
  destruct (Hy (MathRandom, half_draws) half_draws_fair) as (a & s1 & E & _ & HQ).
  exists a. split; [exact HQ|]. intros s.
  specialize (Hf s (MathRandom, half_draws)). rewrite E in Hf.
  unfold value_of in Hf. destruct (m s) as [[b s']| |]; try discriminate.
  injection Hf as ->. now exists s'.
Qed.

Lemma yields_lerpRand (a b : R) :
  a <= b -> yields (Lung.lerpRand (a, b)) (fun v => a <= v <= b).
Proof.
  intros Hab. eapply (yields_of _ (fun _ => True)).
  - unfold Lung.lerpRand. apply returns_draw. intros u. now apply returns_ret.
  - apply (ensures_lerpRand (a, b)). exact Hab.
Qed.

Lemma yields_lerpRand_any (range : R * R) :
  yields (Lung.lerpRand range) (fun _ => True).
Proof.
  eapply (yields_of _ (fun _ => True)).
  - unfold Lung.lerpRand. apply returns_draw. intros u. now apply returns_ret.
  - apply ensures_lerpRand_any.
Qed.

Lemma round_between (x : R) (a b : Z) :
  IZR a <= x <= IZR b -> (a <= round x <= b)%Z.
Proof.
  intros [Ha Hb]. unfold round. split.
  - apply Zfloor_lub. lra.
  - pose proof (Zfloor_bound (x + 1 / 2)) as [Hlo _].
    apply Z.lt_succ_r, lt_IZR. rewrite succ_IZR. lra.
Qed.

End Yields.

Section BreathLayout.

Variable fuel : nat.
Hypothesis fuel_ok : (2 <= fuel)%nat.
Variable cycles : R.
Variable sd : Z.

Let p : Lung.BreathParams := Lung.entry_params cycles sd.

(** The layout of [j] breath cycles put end to end. *)
Definition breath_layout (j : nat) (c : Lung.cycle) : Prop :=
  length (Lung.cy_t c) = length (Lung.cy_y c) /\
  length (Lung.cy_env c) = length (Lung.cy_y c) /\
  (5400 * Z.of_nat j <= Z.of_nat (length (Lung.cy_y c)) <= 6700 * Z.of_nat j)%Z /\
  forall k : nat, (k < length (Lung.cy_y c))%nat ->
    nth k (Lung.cy_t c) 0 = INR k / 1000.

Lemma oneCycleRandom_layout :
  yields (Lung.oneCycleRandom fuel p) (breath_layout 1).
Proof.
  unfold Lung.oneCycleRandom, p, Lung.entry_params.
  cbn [Lung.fs Lung.insp_amp_range Lung.exp_amp_range Lung.insp_dur_range
       Lung.exp_dur_range Lung.mid_gap_range Lung.post_pause_range
       Lung.band_jitter_hz Lung.insp_band Lung.exp_band Lung.jitter_amp
       Lung.crossfade_s Lung.default_params].
  eapply yields_bind; [apply yields_lerpRand_any|]. intros insp_amp _.
  eapply yields_bind; [apply yields_lerpRand_any|]. intros exp_amp _.
  eapply yields_bind; [apply yields_lerpRand; lra|]. intros insp_dur Hid.
  eapply yields_bind; [apply yields_lerpRand; lra|]. intros exp_dur Hed.
  eapply yields_bind; [apply yields_lerpRand; lra|]. intros mid_gap Hmg.
  eapply yields_bind; [apply yields_lerpRand; lra|]. intros post_pause Hpp.
  do 4 (eapply yields_bind; [apply yields_lerpRand_any|]; intros ? _).
  cbv zeta.
  set (n_insp := round (1000 * insp_dur)).
  set (n_mid := round (1000 * mid_gap)).
  set (n_exp := round (1000 * exp_dur)).
  set (n_pause := round (1000 * post_pause)).
  assert (H1 : (1600 <= n_insp <= 1800)%Z) by (apply round_between; lra).
  assert (H2 : (200 <= n_mid <= 500)%Z) by (apply round_between; lra).
  assert (H3 : (1800 <= n_exp <= 2200)%Z) by (apply round_between; lra).
  assert (H4 : (1800 <= n_pause <= 2200)%Z) by (apply round_between; lra).
  eapply yields_bind.
  { eapply (yields_of _ (fun _ => True) (fun _ => True)).
    - apply returns_new_array. lia.
    - eapply ensures_weaken; [apply ensures_new_array|auto]. }
  intros _ _.
  eapply yields_bind.
  { eapply (yields_of _ _ (fun _ => True)).
    - eapply returns_replicateM. now apply returns_gaussian.
    - eapply ensures_weaken; [apply ensures_replicateM, ensures_gaussian|auto]. }
  intros x _. apply yields_ret.
  unfold breath_layout. cbn [Lung.cy_t Lung.cy_y Lung.cy_env].
  rewrite normalize95_length, !tabulate_length, cycle_env_length.
  split; [reflexivity|]. split; [reflexivity|]. split; [lia|].
  intros k Hk. unfold tabulate.
  rewrite (nth_indep _ 0 (INR 0 / 1000)) by (now rewrite length_map, length_seq).
  rewrite (map_nth (fun i => INR i / 1000)), seq_nth by exact Hk. reflexivity.
Qed.

(** The accumulator of the loop over the cycles, after [j] of them. *)
Definition breath_acc (j : nat) (acc : Lung.cycle * R) : Prop :=
  breath_layout j (fst acc) /\ snd acc = INR (length (Lung.cy_y (fst acc))) / 1000.

Lemma breath_step_layout (j : nat) (acc : Lung.cycle * R) (k : nat) :
  breath_acc j acc -> yields (Lung.breath_step fuel p acc k) (breath_acc (S j)).
Proof.
  destruct acc as [all offset]. intros [(Ht & He & Hn & Hax) Hoff].
  cbn [fst snd] in *. unfold Lung.breath_step.
  eapply yields_bind; [apply oneCycleRandom_layout|].
  intros c (Ct & Ce & Cn & Cax). apply yields_ret.
  unfold breath_acc, breath_layout. cbn [fst snd Lung.cy_t Lung.cy_y Lung.cy_env].
  rewrite !length_app, length_map.
  repeat split; try lia.
  - intros i Hi. destruct (Nat.lt_ge_cases i (length (Lung.cy_y all))) as [Hlt|Hge].
    + rewrite app_nth1 by lia. now apply Hax.
    + rewrite app_nth2 by lia. rewrite Ht.
      rewrite (nth_indep _ 0 (0 + offset)) by (rewrite length_map; lia).
      rewrite (map_nth (fun v => v + offset)), Cax by lia.
      rewrite Hoff. unfold p, Lung.entry_params. cbn [Lung.fs].
      rewrite minus_INR by exact Hge. field.
  - unfold p, Lung.entry_params. cbn [Lung.fs]. rewrite Hoff, plus_INR. field.
Qed.

Lemma breath_fold_layout (l : list nat) :
  forall (j : nat) (acc : Lung.cycle * R),
    breath_acc j acc ->
    yields (foldM (Lung.breath_step fuel p) l acc) (breath_acc (j + length l)).
Proof.
  induction l as [|k l IH]; intros j acc Hacc; simpl.
  - apply yields_ret. now rewrite Nat.add_0_r.
  - eapply yields_bind; [apply breath_step_layout, Hacc|].
    intros acc' Hacc'. replace (j + S (length l))%nat with (S j + length l)%nat by lia.
    now apply IH.
Qed.

Lemma synthBreathRandomCycles_layout :
  exists base : Lung.cycle,
    breath_layout (Z.to_nat (Z.max 1 (floor cycles))) base /\
    fixed (Lung.synthBreathRandomCycles fuel p) base.
Proof.
  apply fixed_of_state_free.
  - apply (synthBreathRandomCycles_state_free fuel p sd). reflexivity.
  - unfold Lung.synthBreathRandomCycles. apply yields_with_rng.
    eapply yields_bind.
    + apply (breath_fold_layout _ 0).
      unfold breath_acc, breath_layout. cbn [fst snd Lung.cy_t Lung.cy_y Lung.cy_env length].
      repeat split; try lia. unfold Rdiv. simpl. ring.
    + intros [all off] [Hall _]. apply yields_ret.
      cbn [fst] in Hall. rewrite length_seq in Hall. exact Hall.
Qed.

End BreathLayout.



(** ** The lung entry points *)

Section LungEntries.

Lemma fixed_of_returns {A} (m : M A) (Q : A -> Prop) :
  state_free m -> returns m (fun _ => True) -> always m Q ->
  exists a : A, Q a /\ fixed m a.
Proof.
  intros Hf Hr Ha.
  destruct (Hr (MathRandom, half_draws) half_draws_nonzero) as (a & s1 & E & _).
  exists a. split; [exact (Ha _ _ _ E)|]. intros s.
  specialize (Hf s (MathRandom, half_draws)). rewrite E in Hf.
  unfold value_of in Hf. destruct (m s) as [[b s']| |]; try discriminate.
  injection Hf as ->. now exists s'.
Qed.

Lemma lung_resample_returns (y : list R) (count : Z) :
  (0 <= count)%Z ->
  exists out : list R,
    Lung.resampleTo y count = Returns out /\ length out = Z.to_nat count.
Proof.
  intros Hc. unfold Lung.resampleTo.
  destruct (Z.eqb_spec (Z.of_nat (length y)) count) as [E|_].
  - exists y. split; [reflexivity|]. rewrite <- E. now rewrite Nat2Z.id.
  - destruct (Z.ltb_spec count 0); [lia|].
    eexists. split; [reflexivity|]. apply tabulate_length.
Qed.

(** The two last steps of every lung entry point. *)
Lemma noise_then_resample (fuel : nat) (sig : list R) (snrDb : R) (sd count : Z)
    (mix band : R * R) :
  (2 <= fuel)%nat -> (0 <= count)%Z ->
  exists out : list R,
    fixed (bind (Lung.addNoiseSNR fuel sig 1000 snrDb (Some sd) mix band)
             (fun y => lift (Lung.resampleTo y count))) out /\
    length out = Z.to_nat count /\ Forall (capped 0.95) out.
Proof.
  intros Hf Hc.
  destruct (fixed_of_returns
              (Lung.addNoiseSNR fuel sig 1000 snrDb (Some sd) mix band) _
              (lung_addNoiseSNR_state_free fuel sig 1000 snrDb sd mix band)
              (lung_addNoiseSNR_returns fuel sig 1000 snrDb (Some sd) mix band Hf)
              (lung_addNoiseSNR_capped fuel sig 1000 snrDb (Some sd) mix band))
    as (y & [Hcap _] & Hy).
  destruct (lung_resample_returns y count Hc) as (out & Eo & Hlen).
  exists out. split; [|split; [exact Hlen|]].
  - eapply fixed_bind; [exact Hy|]. rewrite Eo. apply fixed_lift.
  - apply (lung_resample_capped 0.95 y count out); [lra|exact Hcap|exact Eo].
Qed.

End LungEntries.



(** ** The added heart sounds start at their onset *)

Section Onset.

(** A track that is zero at every index below [k]. *)
Definition quiet_before (k : Z) (l : list R) : Prop :=
  forall i : nat, (Z.of_nat i < k)%Z -> nth i l 0 = 0.

Lemma quiet_before_tail (k : Z) (x : R) (l : list R) :
  quiet_before k (x :: l) -> quiet_before (k - 1) l.
Proof. intros H i Hi. apply (H (S i)). lia. Qed.

Lemma quiet_before_cons (k : Z) (l : list R) :
  quiet_before (k - 1) l -> quiet_before k (0 :: l).
Proof. intros H [|i] Hi; [reflexivity|]. apply H. lia. Qed.

Lemma onepole_run_quiet (a : R) (xs : list R) :
  forall k : Z, quiet_before k xs -> quiet_before k (onepole_run a 0 xs).
Proof.
  induction xs as [|x xs IH]; intros k Hq; [exact Hq|].
  cbn [onepole_run]. cbv zeta.
  destruct (Z.ltb_spec 0 k) as [Hk|Hk].
  - assert (Hx : x = 0) by (apply (Hq 0%nat); exact Hk). subst x.
    replace (a * 0 + (1 - a) * 0) with 0 by ring.
    apply quiet_before_cons, IH. exact (quiet_before_tail k 0 xs Hq).
  - intros i Hi. lia.
Qed.

Lemma onepole_from_zero_quiet (a : R) (x : list R) (k : Z) :
  quiet_before k x -> quiet_before k (onepole_from_zero a x).
Proof.
  destruct x as [|x0 xs]; intros Hq; [exact Hq|]. cbn [onepole_from_zero].
  apply quiet_before_cons, onepole_run_quiet. exact (quiet_before_tail k x0 xs Hq).
Qed.

Lemma zipWith_minus_quiet (a b : list R) :
  forall k : Z, quiet_before k a -> quiet_before k b ->
    quiet_before k (zipWith Rminus a b).
Proof.
  revert b. induction a as [|x a IH]; intros [|y b] k Ha Hb; simpl;
    try (intros [|i] _; reflexivity).
  destruct (Z.ltb_spec 0 k) as [Hk|Hk]; [|intros i Hi; lia].
  rewrite (Ha 0%nat Hk : x = 0), (Hb 0%nat Hk : y = 0).
  replace (0 - 0) with 0 by ring.
  apply quiet_before_cons, IH; eapply quiet_before_tail; eassumption.
Qed.

Lemma iter_quiet (f : list R -> list R) (k : Z) (n : nat) (x : list R) :
  (forall l, quiet_before k l -> quiet_before k (f l)) ->
  quiet_before k x -> quiet_before k (Nat.iter n f x).
Proof. intros Hf Hx. induction n as [|n IH]; simpl; auto. Qed.

(** The adult band-pass is causal and starts from rest: it keeps a
    leading stretch of zeros. *)
Lemma bandpassFilter_quiet (x : list R) (fs low high order : R) (k : Z) :
  quiet_before k x -> quiet_before k (Pcg.bandpassFilter x fs low high order).
Proof.
  intros Hx. unfold Pcg.bandpassFilter. cbv zeta.
  apply iter_quiet.
  - intros l Hl. unfold Pcg.highpass_stage.
    apply zipWith_minus_quiet; [exact Hl|now apply onepole_from_zero_quiet].
  - apply iter_quiet; [|exact Hx].
    intros l Hl. unfold Pcg.lowpass_stage. now apply onepole_from_zero_quiet.
Qed.

Lemma zeros_quiet (n k : Z) : quiet_before k (zeros n).
Proof. intros i _. apply silent_nth. apply zeros_Forall. reflexivity. Qed.

Lemma set_at_quiet (n k : Z) (vals : list R) :
  quiet_before k (set_at (zeros n) k vals).
Proof.
  intros i Hi. rewrite set_at_nth_before by exact Hi. exact (zeros_quiet n k i Hi).
Qed.

Lemma murmur_fill_quiet fuel n startIdx len gain env :
  always (Pcg.murmur_fill fuel n startIdx len gain env) (quiet_before startIdx).
Proof.
  unfold Pcg.murmur_fill. apply always_skip. intros vals.
  apply always_ret. apply set_at_quiet.
Qed.

Lemma addS3Sound_returns fuel n fs tS2 :
  (2 <= fuel)%nat -> returns (Pcg.addS3Sound fuel n fs tS2) (fun _ => True).
Proof.
  intros Hf. unfold Pcg.addS3Sound. cbv zeta.
  eapply returns_skip; [|intros s3; now apply returns_ret].
  destruct (Z.ltb_spec (floor ((tS2 + 0.15) * fs)) n) as [Hlt|Hge];
    [|now apply returns_ret].
  eapply returns_any_bind; [apply envelopedBurst_returns; [exact Hf|lia]|].
  intros b. now apply returns_ret.
Qed.

End Onset.

(** X26.  The sounds added to an abnormal beat are silent before their
    onset: the systolic murmur before the sample of S1, the diastolic
    murmur before the sample of S2, the third sound before the sample
    0.15 s after S2.  The band-pass that shapes them is causal and starts
    from rest, so it spreads each sound forwards in time only. *)
Theorem added_sounds_start_at_their_onset :
  forall (fuel : nat) (n : Z) (fs tS1 tS2 nextTS1 : R)
         (s s' : rstate) (m : list R),
    (Pcg.addSystolicMurmur fuel n fs tS1 tS2 s = Returns (m, s') ->
       quiet_before (floor (tS1 * fs)) m) /\
    (Pcg.addDiastolicMurmur fuel n fs tS2 nextTS1 s = Returns (m, s') ->
       quiet_before (floor (tS2 * fs)) m) /\
    (Pcg.addS3Sound fuel n fs tS2 s = Returns (m, s') ->
       quiet_before (floor ((tS2 + 0.15) * fs)) m).
Proof.
  intros fuel n fs tS1 tS2 nextTS1 s s' m. split; [|split]; intros E.
  - revert s m s' E.
    change (always (Pcg.addSystolicMurmur fuel n fs tS1 tS2)
              (quiet_before (floor (tS1 * fs)))).
    unfold Pcg.addSystolicMurmur. cbv zeta.
    eapply (always_bind _ _ (quiet_before (floor (tS1 * fs)))).
    + match goal with |- always (if ?c then _ else _) _ => destruct c end;
        [apply murmur_fill_quiet|apply always_ret, zeros_quiet].
    + intros mm Hm. apply always_ret. now apply bandpassFilter_quiet.
  - revert s m s' E.
    change (always (Pcg.addDiastolicMurmur fuel n fs tS2 nextTS1)
              (quiet_before (floor (tS2 * fs)))).
    unfold Pcg.addDiastolicMurmur. cbv zeta.
    eapply (always_bind _ _ (quiet_before (floor (tS2 * fs)))).
    + match goal with |- always (if ?c then _ else _) _ => destruct c end;
        [apply murmur_fill_quiet|apply always_ret, zeros_quiet].
    + intros mm Hm. apply always_ret. now apply bandpassFilter_quiet.
  - revert s m s' E.
    change (always (Pcg.addS3Sound fuel n fs tS2)
              (quiet_before (floor ((tS2 + 0.15) * fs)))).
    unfold Pcg.addS3Sound. cbv zeta.
    eapply (always_bind _ _ (quiet_before (floor ((tS2 + 0.15) * fs)))).
    + match goal with |- always (if ?c then _ else _) _ => destruct c end.
      * apply always_skip. intros b. apply always_ret, set_at_quiet.
      * apply always_ret, zeros_quiet.
    + intros mm Hm. apply always_ret. now apply bandpassFilter_quiet.
Qed.

Lemma added_sounds_start_at_their_onset_witness :
  exists (m : list R) (s' : rstate),
    Pcg.addS3Sound 2 1200 1000 (21 / 50) (MathRandom, half_draws) = Returns (m, s') /\
    quiet_before (floor ((21 / 50 + 0.15) * 1000)) m.
Proof.
  destruct (addS3Sound_returns 2 1200 1000 (21 / 50) (le_n 2)
              (MathRandom, half_draws) half_draws_nonzero) as (m & s' & E & _).
  exists m, s'. split; [exact E|].
  exact (proj2 (proj2 (added_sounds_start_at_their_onset 2 1200 1000 0 (21 / 50) 0
                         (MathRandom, half_draws) s' m)) E).
Defined.

(** ** The local generator of the page *)

Section LocalGenerator.

Lemma noise_range (n : R) : ensures (Index.noise n) (fun v => Rabs v <= Rabs n).
Proof.
  unfold Index.noise. apply ensures_with_rng.
  eapply ensures_bind; [apply ensures_rand|]. intros u Hu.
  apply ensures_ret. rewrite Rabs_mult.
  rewrite <- (Rmult_1_l (Rabs n)) at 2.
  apply Rmult_le_compat_r; [apply Rabs_pos|]. apply Rabs_le. lra.
Qed.

Lemma noise_runs (n : R) (s : rstate) :
  exists (v : R) (s' : rstate), Index.noise n s = Returns (v, s').
Proof.
  destruct s as [g w]. unfold Index.noise, with_rng, bind, rand, ret.
  cbn [fst snd]. eexists _, _. reflexivity.
Qed.

(** The sum of the overtones: at most a half for each. *)
Lemma overtones_bounded (f : R -> R) (ovs : list R) (v : R) :
  Rabs (fold_left (fun v ov => v + 0.5 * sin (f ov)) ovs v)
  <= Rabs v + 0.5 * INR (length ovs).
Proof.
  revert v. induction ovs as [|ov ovs IH]; intros v.
  - simpl. lra.
  - cbn [fold_left]. eapply Rle_trans; [apply IH|].
    change (length (ov :: ovs)) with (S (length ovs)). rewrite S_INR.
    pose proof (Rabs_triang v (0.5 * sin (f ov))) as Ht.
    pose proof (SIN_bound (f ov)) as [Hlo Hhi].
    assert (Rabs (0.5 * sin (f ov)) <= 0.5) by (apply Rabs_le; lra).
    lra.
Qed.

(** The factor of the optional envelope. *)
Definition envelope_within (o : Index.synth_opts) (E : R) : Prop :=
  match Index.envelope o with
  | Some env => forall i : nat, Rabs (env i) <= E
  | None => E = 1
  end.

Lemma tabulateM_from_runs (f : nat -> M R) :
  (forall i s, exists v s', f i s = Returns (v, s')) ->
  forall (count i : nat) (s : rstate),
    exists (l : list R) (s' : rstate), tabulateM_from i count f s = Returns (l, s').
Proof.
  intros Hf. induction count as [|c IH]; intros i s; simpl.
  - eexists _, _. reflexivity.
  - unfold bind. destruct (Hf i s) as (v & s1 & ->).
    destruct (IH (S i) s1) as (l & s2 & ->). eexists _, _. reflexivity.
Qed.

Lemma synthBase_runs (len : Z) (o : Index.synth_opts) (s : rstate) :
  (0 <= len)%Z ->
  exists (out : list R) (s' : rstate), Index.synthBase len o s = Returns (out, s').
Proof.
  intros Hl. unfold Index.synthBase, bind at 1, new_array.
  destruct (Z.ltb_spec len 0); [lia|]. unfold tabulateM.
  apply tabulateM_from_runs. intros i s0. cbv zeta. unfold bind.
  destruct (noise_runs (Index.jitter o) s0) as (n1 & s1 & ->).
  destruct (noise_runs 0.05 s1) as (n2 & s2 & ->). eexists _, _. reflexivity.
Qed.

Lemma synthBase_bounded (len : Z) (o : Index.synth_opts) (E : R) :
  envelope_within o E ->
  ensures (Index.synthBase len o)
    (fun out => length out = Z.to_nat len /\
                Forall (capped ((1 + 0.5 * INR (length (Index.overtones o))) * E + 0.05))
                  out).
Proof.
  intros HE. unfold Index.synthBase.
  eapply ensures_any_bind; [eapply ensures_weaken; [apply ensures_new_array|auto]|].
  intros _. unfold tabulateM. apply ensures_tabulateM_from. intros i. cbv zeta.
  eapply ensures_any_bind; [eapply ensures_weaken; [apply noise_range|auto]|].
  intros n1.
  eapply ensures_bind; [apply noise_range|]. intros n2 Hn2.
  apply ensures_ret. unfold capped.
  set (k := INR (length (Index.overtones o))).
  set (v0 := sin _).
  pose proof (overtones_bounded
                (fun ov => 2 * PI * (ov * Index.baseFreq o * (INR i / IZR len)))
                (Index.overtones o) v0) as Hsum.
  cbv beta in Hsum. fold k in Hsum.
  set (v1 := fold_left _ _ v0) in *.
  assert (Hv0 : Rabs v0 <= 1) by (apply Rabs_le; apply SIN_bound).
  assert (Hk : 0 <= k) by apply pos_INR.
  assert (Hn : Rabs n2 <= 0.05).
  { eapply Rle_trans; [exact Hn2|]. rewrite Rabs_right; lra. }
  eapply Rle_trans; [apply Rabs_triang|].
  apply Rplus_le_compat; [|exact Hn].
  unfold envelope_within in HE. destruct (Index.envelope o) as [env|].
  - rewrite Rabs_mult. specialize (HE i).
    pose proof (Rabs_pos v1). pose proof (Rabs_pos (env i)). nra.
  - subst E. lra.
Qed.

End LocalGenerator.

(** X27.  [synthBase] raises for a negative length; for any other length
    it returns one sample per index, and under a source that draws from
    [[0, 1)] every sample is within [(1 + k / 2) * E + 0.05] of zero, for
    [k] overtones and an envelope bounded by [E] ([E = 1] without an
    envelope): the carrier at most [1], each overtone at most a half, the
    additive noise at most [0.05]. *)
Theorem local_generator_is_bounded :
  forall (len : Z) (o : Index.synth_opts) (E : R) (s : rstate),
    unit_draws (snd s) -> envelope_within o E ->
    if (len <? 0)%Z then Index.synthBase len o s = RangeError
    else exists (out : list R) (s' : rstate),
           Index.synthBase len o s = Returns (out, s') /\
           length out = Z.to_nat len /\
           Forall (capped ((1 + 0.5 * INR (length (Index.overtones o))) * E + 0.05)) out.
Proof.
  intros len o E s Hw HE. destruct (Z.ltb_spec len 0) as [Hn|Hn].
  - unfold Index.synthBase, bind, new_array.
    destruct (Z.ltb_spec len 0); [reflexivity|lia].
  - destruct (synthBase_runs len o s Hn) as (out & s' & E1).
    exists out, s'. split; [exact E1|].
    exact (proj2 (synthBase_bounded len o E HE s out s' Hw E1)).
Qed.

Lemma local_generator_is_bounded_witness :
  exists (out : list R) (s' : rstate),
    Index.synthBase 4
      {| Index.baseFreq := 3; Index.jitter := 0.1; Index.overtones := [2; 3];
         Index.envelope := None |} (MathRandom, half_draws) = Returns (out, s') /\
    length out = Z.to_nat 4 /\
    Forall (capped ((1 + 0.5 * INR 2) * 1 + 0.05)) out.
Proof.
  exact (local_generator_is_bounded 4
           {| Index.baseFreq := 3; Index.jitter := 0.1; Index.overtones := [2; 3];
              Index.envelope := None |} 1 (MathRandom, half_draws)
           half_draws_unit eq_refl).
Defined.

(** ** Noise at a target SNR, on a silent signal *)

Section Silence.

Lemma silent_squares (x : list R) : silent x -> sum (map (fun v => v * v) x) = 0.
Proof.
  induction 1 as [|v x Hv _ IH]; [reflexivity|].
  cbn [map]. rewrite sum_cons, IH, Hv. ring.
Qed.

Lemma silent_eq (x y : list R) : silent x -> silent y -> length y = length x -> y = x.
Proof.
  intros Hx. revert y. induction Hx as [|v x Hv _ IH]; intros [|w y] Hy Hl;
    simpl in Hl; try discriminate; [reflexivity|].
  inversion Hy; subst. f_equal. apply IH; [assumption|lia].
Qed.

Lemma silent_mapi (f : R -> nat -> R) (x : list R) (k : nat) :
  (forall v i, f v i = 0) -> silent (mapi_from k f x).
Proof.
  intros Hf. revert k. induction x as [|v x IH]; intros k; simpl; constructor;
    [apply Hf|apply IH].
Qed.

Lemma plus_silent (x l : list R) :
  silent l -> length l = length x -> zipWith Rplus x l = x.
Proof. intros Hl Hlen. now apply zipWith_plus_zeros. Qed.

End Silence.

(** X28.  The three noise stages scale their noise to the power of the
    signal, so they add nothing to a silent one: at a positive sample rate
    the adult [addNoiseSNR], the lung [addNoiseSNR] (with its
    normalisation) and the last stage of the fetal simulator each return
    a silent signal as it is. *)
Theorem noise_leaves_silence_alone :
  forall (fuel : nat) (x : list R) (snrDb fs : R),
    silent x -> 0 < fs ->
    (forall (s s' : rstate) (y : list R),
        Pcg.addNoiseSNR fuel x snrDb fs s = Returns (y, s') -> y = x) /\
    (forall (seed : option Z) (mix band : R * R) (s s' : rstate) (y : list R),
        Lung.addNoiseSNR fuel x fs snrDb seed mix band s = Returns (y, s') -> y = x) /\
    (forall noise : list R,
        length noise = length x -> Fpcg.add_awgn snrDb x noise = x).
Proof.
  intros fuel x snrDb fs Hx _. pose proof (silent_squares x Hx) as Hsq.
  split; [|split].
  - intros s s' y E. revert s y s' E.
    change (always (Pcg.addNoiseSNR fuel x snrDb fs) (fun y => y = x)).
    unfold Pcg.addNoiseSNR.
    eapply always_bind; [apply always_replicateM|]. intros noise Hn. cbv zeta.
    apply always_ret. apply plus_silent.
    + unfold Pcg.noise_track, Pcg.mean_square. cbv zeta. rewrite Hsq.
      replace (0 / Rmax 1 (INR (length x)) / pow 10 (snrDb / 10)) with 0
        by (unfold Rdiv; ring).
      rewrite sqrt_0. apply Forall_map, Forall_forall. intros v _. ring.
    + unfold Pcg.noise_track. cbv zeta.
      now rewrite length_map, lowpassFilter_length.
  - intros seed mix band s s' y E. revert s y s' E.
    change (always (Lung.addNoiseSNR fuel x fs snrDb seed mix band) (fun y => y = x)).
    unfold Lung.addNoiseSNR. apply always_skip. intros noise. cbv zeta.
    apply always_ret.
    rewrite plus_silent.
    + apply silent_eq; [exact Hx|now apply silent_normalize95|apply normalize95_length].
    + unfold Lung.noise_track, Lung.rms. cbv zeta. rewrite Hsq.
      replace (0 / Rmax 1 (INR (length x)) / pow 10 (snrDb / 10)
               / or_else (sum (map (fun v => v * v) noise)
                          / Rmax 1 (INR (length noise))) 1) with 0
        by (unfold Rdiv; ring).
      rewrite sqrt_0. apply silent_mapi. intros v i. ring.
    + unfold Lung.noise_track. cbv zeta. apply mapi_length.
  - intros noise Hlen. unfold Fpcg.add_awgn, Fpcg.rms. cbv zeta. rewrite Hsq.
    replace (0 / Rmax 1 (INR (length x))) with 0 by (unfold Rdiv; ring).
    rewrite sqrt_0. apply plus_silent.
    + apply Forall_map, Forall_forall. intros v _. unfold Rdiv. ring.
    + now rewrite length_map.
Qed.

Lemma noise_leaves_silence_alone_witness :
  Fpcg.add_awgn 10 [0; 0; 0] [1; -2; 3] = [0; 0; 0].
Proof.
  apply (proj2 (proj2 (noise_leaves_silence_alone 0 [0; 0; 0] 10 1000
                         ltac:(repeat constructor) ltac:(lra))) [1; -2; 3]).
  reflexivity.
Defined.

(** ** The amplitude ceiling of the lung generators *)

(** C2, amended.  Every lung generator ([genNormalLungSignal],
    [genFineCracklesSignal], [genCoarseCracklesSignal],
    [genWheezeSignal]) ends with [addNoiseSNR], which divides the mix by
    its peak and multiplies it by the margin [0.95], followed by
    [resampleTo], whose linear interpolation stays between the samples:
    each sample of the waveform it returns has absolute value at most
    [1.0], for every point count and cycle count.  The fetal pipeline
    ([simulateFpcgDataset]) ends with the addition of the SNR noise and
    has no peak normalisation: its samples are not bounded by a fixed
    ceiling.  Nothing is stated here of the adult pipeline. *)
Theorem normalised_pipelines_are_capped :
  forall (fuel : nat) (count : Z) (cycles : R) (gen : nat -> Z -> R -> M (list R))
         (s s' : rstate) (out : list R),
    In gen [Lung.genNormalLungSignal; Lung.genFineCracklesSignal;
            Lung.genCoarseCracklesSignal; Lung.genWheezeSignal] ->
    gen fuel count cycles s = Returns (out, s') ->
    Forall (fun v => Rabs v <= 1) out.
Proof.
  intros fuel count cycles gen s s' out Hgen Hrun.
  apply capped_below_one.
  exact (lung_entries_capped fuel count cycles gen Hgen _ _ _ Hrun).
Qed.

Lemma normalised_pipelines_are_capped_witness :
  exists (out : list R) (s' : rstate),
    Lung.genNormalLungSignal 2 5 1 (MathRandom, half_draws) = Returns (out, s') /\
    length out = 5%nat /\
    Forall (fun v => Rabs v <= 1) out.
Proof.
  destruct (synthBreathRandomCycles_layout 2 (le_n 2) 1 2025) as (base & _ & Hbase).
  destruct (noise_then_resample 2 (Lung.cy_y base) 12 2025 5 (0.2, 0.8) (80, 3000)
              (le_n 2) ltac:(lia)) as (out & Hout & Hlen & _).
  assert (Hfix : fixed (Lung.genNormalLungSignal 2 5 1) out).
  { unfold Lung.genNormalLungSignal. cbv zeta.
    eapply fixed_bind; [exact Hbase|]. exact Hout. }
  destruct (Hfix (MathRandom, half_draws)) as (s' & Hrun).
  exists out, s'. split; [exact Hrun|]. split; [exact Hlen|].
  refine (normalised_pipelines_are_capped 2 5 1 Lung.genNormalLungSignal
            (MathRandom, half_draws) s' out _ Hrun).
  left. reflexivity.
Defined.
